(** * An LR(1)/LALR(1) table generator: symbols, LR(1) items, closure and
    goto, table construction, table encoding and the tokenizer.

    The development follows the Python sources
      grammar/core.py   (Symbol, Terminal, Marker, NonTerminal, Expansion)
      lr/lr1.py         (LR1Item, LR1ParsingTable)
      gen/lalr1_gen.py  (gen_parser: the encoded table)
      tokenizer/tokenizer.py (Tokenizer)
    Python integers that are positions (the dot of an item, a length) are
    natural numbers; integers that can be negative (code offsets and
    columns, encoded actions) are in Z. *)

From Stdlib Require Import String Ascii ZArith Lia Bool Arith PeanoNat List.
Import ListNotations.
Local Open Scope list_scope.

(* ================================================================== *)
(** * grammar/core.py *)
(* ================================================================== *)

Module Core.

(** [class Symbol], with its subclasses [Terminal], [Marker] (a subclass
    of [Terminal]) and [NonTerminal].  Python compares symbols in two
    ways, and the model keeps them apart:
    - [a == b], [Symbol.__eq__], compares the names alone; so do
      [list.count], [list.__eq__] and the membership in a set of
      symbols.  This is [Symbol___eq__].
    - [a is b] compares the objects; the sources use it against the two
      module-level markers only ([token is not EMPTY],
      [sym is not EMPTY], [lookahead is EOF]).
    A value of the model is one of these two objects, [EOF] and
    [EMPTY], or a class and a name, for any other instance of the class:
    [a is EMPTY] is "the value of [a] is [EMPTY]", [Symbol_eqb a EMPTY].
    A [Terminal], a [Marker] or a [NonTerminal] of the name "ε" is equal
    to [EMPTY] and is not [EMPTY]. *)
Inductive Symbol : Type :=
| Terminal (name : string)
| Marker (name : string)
| NonTerminal (name : string)
| EOF
| EMPTY.

(** [EOF = Marker("eof", ...)] and [EMPTY = Marker("ε", ...)]: the
    names of the two module-level markers. *)
Definition name (s : Symbol) : string :=
  match s with
  | Terminal n | Marker n | NonTerminal n => n
  | EOF => "eof"
  | EMPTY => "ε"
  end.

Definition Symbol_eq_dec : forall a b : Symbol, {a = b} + {a <> b}.
Proof. decide equality; apply string_dec. Defined.

(** The same symbol: one of the two markers, or the same class and the
    same name. *)
Definition Symbol_eqb (a b : Symbol) : bool :=
  if Symbol_eq_dec a b then true else false.

(** [Symbol.__eq__]: [self.name == other.name] *)
Definition Symbol___eq__ (self other : Symbol) : bool :=
  String.eqb (name self) (name other).

(** [isinstance(x, NonTerminal)] and [isinstance(x, Terminal)]. *)
Definition is_NonTerminal (s : Symbol) : bool :=
  match s with NonTerminal _ => true | _ => false end.

Definition is_Terminal (s : Symbol) : bool :=
  match s with NonTerminal _ => false | _ => true end.

(** [token is not EMPTY] *)
Definition is_not_EMPTY (s : Symbol) : bool := negb (Symbol_eqb s EMPTY).

(** [class Expansion(list[Symbol])]: the stored list is the right-hand
    side as it was given, [EMPTY] included. *)
Definition Expansion : Type := list Symbol.

(** [Expansion.__iter__]:
    [yield from filter(lambda token: token is not EMPTY, super().__iter__())] *)
Definition Expansion_iter (e : Expansion) : list Symbol :=
  filter is_not_EMPTY e.

(** [list.count(value)]: the number of stored elements equal to
    [value]. *)
Definition list_count (l : list Symbol) (value : Symbol) : nat :=
  length (filter (fun x => Symbol___eq__ x value) l).

(** [Expansion.__len__]: [super().__len__() - self.count(EMPTY)] *)
Definition Expansion___len__ (e : Expansion) : nat :=
  length e - list_count e EMPTY.

(** The symbols named "ε" of an expansion are the marker [EMPTY]: the
    expansions of a grammar are of this kind, and on them the symbols
    that [__len__] leaves out are the symbols that [__iter__] skips. *)
Definition epsilon_is_EMPTY (e : list Symbol) : Prop :=
  forall s, In s e -> name s = name EMPTY -> s = EMPTY.

(** The length of a rule of a grammar, for [lr1.py]: the stored symbols
    that are not [EMPTY].  It is [Expansion.__len__] on every rule whose
    symbols named "ε" are [EMPTY] (lemma [Expansion_len_grammar]). *)
Definition Expansion_len (e : Expansion) : nat :=
  length e - count_occ Symbol_eq_dec e EMPTY.

(** [Expansion.append_marker]: [Expansion(self + [sentinel])]; list
    concatenation works on the stored list. *)
Definition append_marker (e : Expansion) (sentinel : Symbol) : Expansion :=
  e ++ [sentinel].

(** Inherited [list.__eq__]: same stored length and equal elements. *)
Fixpoint list___eq__ (a b : Expansion) : bool :=
  match a, b with
  | [], [] => true
  | x :: a', y :: b' => Symbol___eq__ x y && list___eq__ a' b'
  | _, _ => false
  end.

Section Hashing.
(** Python's [hash] on strings is fixed within a run and unknown
    otherwise; [hash] on a tuple combines the hashes of its elements. *)
Variable hash_str : string -> Z.
Variable hash_tuple : list Z -> Z.

(** [Symbol.__hash__]: [hash(self.name)] *)
Definition Symbol_hash (s : Symbol) : Z := hash_str (name s).

(** [Expansion.__hash__]: [hash(tuple(self))]; [tuple] of a list
    subclass goes through [__iter__]. *)
Definition Expansion_hash (e : Expansion) : Z :=
  hash_tuple (map Symbol_hash (Expansion_iter e)).

(** [self in seen] for a set of expansions: an element of the same hash
    that compares equal. *)
Definition Expansion_in (e : Expansion) (seen : list Expansion) : bool :=
  existsb (fun x => (Expansion_hash x =? Expansion_hash e)%Z && list___eq__ x e)
          seen.
End Hashing.

(** [sym in nullable_set] for a set of symbols: an element of the same
    hash that compares equal, and symbols of one name have one hash. *)
Definition Symbol_in (sym : Symbol) (set : list Symbol) : bool :=
  existsb (fun x => Symbol___eq__ x sym) set.

Section Matching.
(** The tokens a terminal is matched against ([utils.tokenizer.Token]),
    and the [_token_matcher] a terminal was built with. *)
Variable Token : Type.
Variable token_matcher : Symbol -> Token -> bool.
Variable hash_str : string -> Z.
Variable hash_tuple : list Z -> Z.

(** [Terminal.matches]: [self._token_matcher(token)] *)
Definition Terminal_matches (terminal : Symbol) (token : Token) : bool :=
  token_matcher terminal token.

(** [all_terminals] *)
Definition all_terminals (symbols : list Symbol) : bool :=
  forallb is_Terminal symbols.

(** [Expansion.matches]; [len(self)], [all_terminals(self)] and
    [zip(self, tokens)] go through [__len__] and [__iter__]. *)
Definition Expansion_matches (e : Expansion) (tokens : list Token) : bool :=
  if Expansion___len__ e =? length tokens then
    if all_terminals (Expansion_iter e) then
      forallb (fun p => Terminal_matches (fst p) (snd p))
              (combine (Expansion_iter e) tokens)
    else false
  else false.

(** The [for (symbol, token) in zip(self, tokens)] loop of
    [should_prune] with its [else] clause: [Some b] when the function
    returns [b] there ([at_end] is what the [else] clause returns),
    [None] when the loop is left by [break]. *)
Fixpoint terminal_prefix_loop (at_end : bool) (symbols : list Symbol)
         (tokens : list Token) : option bool :=
  match symbols, tokens with
  | symbol :: symbols', token :: tokens' =>
      if is_Terminal symbol then
        if Terminal_matches symbol token
        then terminal_prefix_loop at_end symbols' tokens'
        else Some true
      else None
  | _, _ => Some at_end
  end.

(** [Expansion.should_prune] *)
Definition should_prune (e : Expansion) (tokens : list Token)
           (seen : list Expansion) (nullable_set : list Symbol) : bool :=
  if Expansion_in hash_str hash_tuple e seen then true
  else if length tokens
          <? length (filter (fun sym => negb (Symbol_in sym nullable_set))
                            (Expansion_iter e))
  then true
  else
    match terminal_prefix_loop (negb (Expansion___len__ e =? length tokens))
                               (Expansion_iter e) tokens with
    | Some b => b
    | None =>
        existsb (fun terminal => negb (existsb (Terminal_matches terminal) tokens))
                (filter is_Terminal (Expansion_iter e))
    end.

End Matching.

(** [Expansion.perform_derivation]; [not replacer] asks [__len__], the
    slices and [+] work on the stored lists.  [index] is a position, as
    [enumerate_variables] yields it. *)
Definition perform_derivation (e : Expansion) (index : nat)
           (replacer : Expansion) : Expansion :=
  if Expansion___len__ replacer =? 0
  then firstn index e ++ skipn (S index) e
  else firstn index e ++ replacer ++ skipn (S index) e.

(** [Expansion.enumerate_variables]: [enumerate(self)] numbers the
    symbols that [__iter__] yields. *)
Definition enumerate {A : Type} (l : list A) : list (nat * A) :=
  combine (seq 0 (length l)) l.

Definition enumerate_variables (e : Expansion) : list (nat * Symbol) :=
  filter (fun p => is_NonTerminal (snd p)) (enumerate (Expansion_iter e)).

End Core.
Import Core.

(* ================================================================== *)
(** * lr/lr1.py *)
(* ================================================================== *)

Module LR.

(** The symbols that lr1.py works on are the symbols of a grammar,
    where a name stands for one symbol and the symbol named "ε" is the
    marker [EMPTY].  On these, [a == b] holds exactly of the same
    symbol and [len(rule)] is the number of stored symbols that are not
    [EMPTY]: this module writes [==] as [Symbol_eqb] and [len] as
    [Expansion_len]. *)

(** [class LR1Item(NamedTuple)]: [name], [dot], [rule], [lookahead]. *)
Record LR1Item : Type := mkItem {
  item_name : Symbol;
  dot : nat;
  rule : Expansion;
  lookahead : Symbol
}.

Definition item_eq_dec : forall a b : LR1Item, {a = b} + {a <> b}.
Proof.
  decide equality;
    first [apply Symbol_eq_dec | apply Nat.eq_dec
          | apply (list_eq_dec Symbol_eq_dec)].
Defined.

Definition item_eqb (a b : LR1Item) : bool :=
  if item_eq_dec a b then true else false.

(** [LR1Item.advance] *)
Definition advance (it : LR1Item) : LR1Item :=
  mkItem (item_name it) (dot it + 1) (rule it) (lookahead it).

(** [LR1Item.completed]: [self.dot >= len(self.rule)], with
    [Expansion_len] as the length of the rule. *)
Definition completed (it : LR1Item) : bool :=
  Expansion_len (rule it) <=? dot it.

(** Modelled from the spec: the class [LRState] (lr/core.py), "a set of
    LR(1) items": the items in the order they were added, and [append]
    adds an item that is not yet there.  Iterating a state yields its
    items in that order and sees the items added during the iteration. *)
Definition LRState : Type := list LR1Item.

Definition LRState_append (s : LRState) (it : LR1Item) : LRState :=
  if in_dec item_eq_dec it s then s else s ++ [it].

(** [yield_finished] and [yield_unfinished]: the completed items, and
    the others. *)
Definition yield_finished (s : LRState) : list LR1Item :=
  filter completed s.

Definition yield_unfinished (s : LRState) : list LR1Item :=
  filter (fun it => negb (completed it)) s.

(** Modelled from the spec: the four actions (lr/core.py).
    [Reduce(lhs, rule)] records the left-hand side and the length of the
    rule, [len(rule)]. *)
Inductive Action : Type :=
| Shift (next_state : LRState)
| Goto (next_state : LRState)
| Reduce (lhs : Symbol) (len_rhs : nat)
| Accept.

(** Modelled from the spec: [Reduce(name, rule)], the constructor of
    the class [Reduce] (lr/core.py), called with the rule: "Reduce(A,
    |alpha|) (length excludes ε)".  [gen_parser] reads the two fields as
    [Reduce(lhs, len_rhs)]. *)
Definition Reduce_of (lhs : Symbol) (r : Expansion) : Action :=
  Reduce lhs (Expansion_len r).

(** What a call can end in besides a value: an exception, or the model
    running out of the steps it was given. *)
Inductive exn : Type :=
| IndexError
| AssertionError
| ValueError (state : LRState) (symbol : string) (held pending : Action).

Inductive result (A : Type) : Type :=
| Ok (a : A)
| Raised (e : exn)
| OutOfFuel.
Arguments Ok {A} a.
Arguments Raised {A} e.
Arguments OutOfFuel {A}.

Definition bind {A B : Type} (c : result A) (k : A -> result B) : result B :=
  match c with
  | Ok a => k a
  | Raised e => Raised e
  | OutOfFuel => OutOfFuel
  end.

Notation "x <- c1 ;; c2" := (bind c1 (fun x => c2))
  (at level 61, c1 at next level, right associativity).

(** Modelled from the spec: the class [Grammar]: the start symbol (the
    augmented one), the alternatives of each non-terminal in order, the
    sets of terminals and of non-terminals, and the derived sets
    NULLABLE and FIRST, computed once. *)
Record Grammar : Type := mkGrammar {
  start_symbol : Symbol;
  productions : list (Symbol * list Expansion);
  terminals : list Symbol;
  non_terminals : list Symbol;
  nullable_set : list Symbol;
  first_set : list (Symbol * list Symbol)
}.

(** Modelled from the spec: [grammar[x]] (the class [Grammar]), the
    ordered list of alternatives of [x]. *)
Definition Grammar_getitem (g : Grammar) (x : Symbol) : list Expansion :=
  match find (fun p => Symbol_eqb (fst p) x) (productions g) with
  | Some p => snd p
  | None => []
  end.

(** Modelled from the spec: [nullable]: epsilon is nullable, and so is
    every member of NULLABLE. *)
Definition nullable (g : Grammar) (x : Symbol) : bool :=
  Symbol_eqb x EMPTY || existsb (Symbol_eqb x) (nullable_set g).

(** Modelled from the spec: [first]: for a terminal [t], FIRST(t) = {t};
    for a non-terminal, its entry in FIRST. *)
Definition first (g : Grammar) (x : Symbol) : list Symbol :=
  if is_Terminal x then [x]
  else match find (fun p => Symbol_eqb (fst p) x) (first_set g) with
       | Some p => snd p
       | None => []
       end.

(** Modelled from the spec: [first_sentential_form], FIRST* of a
    sentential form: the union of FIRST(X_i) while X_i is nullable,
    stopping at the first X_i that is not; epsilon is in the result when
    every X_i is nullable. *)
Fixpoint first_sentential_form (g : Grammar) (gamma : list Symbol)
  : list Symbol :=
  match gamma with
  | [] => [EMPTY]
  | x :: rest =>
      if nullable g x
      then nodup Symbol_eq_dec
             (filter is_not_EMPTY (first g x) ++ first_sentential_form g rest)
      else first g x
  end.

(** The item of [init_kernel]; [grammar[start_symbol][0]] raises
    IndexError on an empty list of alternatives. *)
Definition init_item (g : Grammar) : result LR1Item :=
  match Grammar_getitem g (start_symbol g) with
  | r :: _ => Ok (mkItem (start_symbol g) 0 (append_marker r EOF) EOF)
  | [] => Raised IndexError
  end.

(** [LR1ParsingTable.init_kernel] *)
Definition init_kernel (g : Grammar) : result LRState :=
  i0 <- init_item g ;; Ok [i0].

(** The inner two loops of [closure]: for every alternative [gamma] of
    [x] and every [w] in FIRST*(beta + [lookahead]), append
    [LR1Item(x, 0, gamma, w)]. *)
Definition expand_item (g : Grammar) (items : LRState)
           (x : Symbol) (beta : list Symbol) (la : Symbol) : LRState :=
  fold_left
    (fun acc gamma =>
       fold_left (fun acc' w => LRState_append acc' (mkItem x 0 gamma w))
                 (first_sentential_form g (beta ++ [la])) acc)
    (Grammar_getitem g x) items.

(** The [for] loop of [closure] from position [k] of [items] on.  The
    loop runs over the state it appends to, so it reaches the appended
    items too; [changing] is assigned at every item whose next symbol is
    a non-terminal. *)
Fixpoint closure_for (g : Grammar) (fuel k : nat) (items : LRState)
         (changing : bool) : result (LRState * bool) :=
  match fuel with
  | 0 => OutOfFuel
  | S fuel' =>
      match nth_error items k with
      | None => Ok (items, changing)
      | Some it =>
          if completed it then closure_for g fuel' (S k) items changing
          else
            match nth_error (rule it) (dot it) with
            | None => Raised IndexError
            | Some x =>
                if is_NonTerminal x then
                  let items' :=
                    expand_item g items x (skipn (S (dot it)) (rule it))
                                (lookahead it) in
                  closure_for g fuel' (S k) items'
                              (negb (length items' =? length items))
                else closure_for g fuel' (S k) items changing
            end
      end
  end.

(** The [while changing] loop of [closure]. *)
Fixpoint closure_while (g : Grammar) (passes fuel : nat) (items : LRState)
  : result LRState :=
  match passes with
  | 0 => OutOfFuel
  | S passes' =>
      r <- closure_for g fuel 0 items false ;;
      if snd r then closure_while g passes' fuel (fst r) else Ok (fst r)
  end.

(** Every item [closure] can append to [I] is among these: a symbol of a
    rule in sight, one of the grammar's alternatives, and a lookahead
    that is epsilon, a lookahead of [I], a symbol of a rule or a member
    of a FIRST set. *)
Definition all_alternatives (g : Grammar) : list Expansion :=
  flat_map snd (productions g).

Definition rule_symbols (g : Grammar) (I : LRState) : list Symbol :=
  flat_map rule I ++ concat (all_alternatives g).

Definition lookahead_symbols (g : Grammar) (I : LRState) : list Symbol :=
  EMPTY :: map lookahead I ++ rule_symbols g I ++ flat_map snd (first_set g).

Definition closure_candidates (g : Grammar) (I : LRState) : list LR1Item :=
  flat_map
    (fun x =>
       flat_map
         (fun gamma => map (fun w => mkItem x 0 gamma w) (lookahead_symbols g I))
         (all_alternatives g))
    (rule_symbols g I).

Definition closure_fuel (g : Grammar) (I : LRState) : nat :=
  S (length I + length (closure_candidates g I)).

(** The body of [LR1ParsingTable.closure], the function under the
    decorator [@cache]: [items = configuration_set.copy()], then the two
    loops.  It is what a call computes when the cache does not answer
    it; the decorated method, with its cache, is [closure_cached]
    below. *)
Definition closure (g : Grammar) (configuration_set : LRState)
  : result LRState :=
  closure_while g (closure_fuel g configuration_set)
                (closure_fuel g configuration_set) configuration_set.

(** The loop of [goto]: [new_items], the items of the set with [sym]
    after the dot, advanced. *)
Definition goto_new_items (configuration_set : LRState) (sym : Symbol)
  : result LRState :=
  fold_left
    (fun acc it =>
       new_items <- acc ;;
       match nth_error (rule it) (dot it) with
       | None => Raised IndexError
       | Some x =>
           if Symbol_eqb x sym
           then Ok (LRState_append new_items (advance it))
           else Ok new_items
       end)
    (yield_unfinished configuration_set) (Ok []).

(** The body of [LR1ParsingTable.goto], the function under the
    decorator [@cache]: what a call computes when neither the cache of
    [goto] nor the cache of [closure] answers; the decorated method,
    with the two caches, is [goto_cached] below. *)
Definition goto (g : Grammar) (configuration_set : LRState) (sym : Symbol)
  : result LRState :=
  if Symbol_eqb sym EMPTY then Raised AssertionError
  else
    new_items <- goto_new_items configuration_set sym ;;
    closure g new_items.

End LR.
Import LR.

(* ------------------------------------------------------------------ *)
(** ** States as keys, the table, and its construction *)

Module Table.

(** Modelled from the spec: equality of [LRState]s (lr/core.py): "the
    kernel of a state is the subset of items with dot > 0, plus the
    augmented start item in the start state; two states are equal iff
    their kernels are equal as sets". *)
Definition is_kernel_item (g : Grammar) (it : LR1Item) : bool :=
  (0 <? dot it)
  || match init_item g with
     | Ok i0 => item_eqb it i0
     | _ => false
     end.

Definition kernel (g : Grammar) (s : LRState) : list LR1Item :=
  filter (is_kernel_item g) s.

Definition subset_b (a b : list LR1Item) : bool :=
  forallb (fun it => existsb (item_eqb it) b) a.

Definition LRState_eqb (g : Grammar) (a b : LRState) : bool :=
  subset_b (kernel g a) (kernel g b) && subset_b (kernel g b) (kernel g a).

(** [state in states], for a list or the keys of a [dict]. *)
Definition LRState_in (g : Grammar) (s : LRState) (states : list LRState)
  : bool :=
  existsb (LRState_eqb g s) states.

(** [functools.cache] on [closure].  The decorator keeps the result of
    every call that returned, under the argument of the call, and
    answers a call whose argument is equal to the argument of an earlier
    call (and hashes like it) with the result of that call, without
    running the body; a call that raises leaves nothing behind.  States
    are equal, and hash alike, when their kernels are equal
    ([LRState_eqb]).  The cache is the list of the calls that ran the
    body, in their order, each with its argument and its result; the
    table [self], the other part of the key, is one and the same. *)
Definition closure_calls : Type := list (LRState * LRState).

Definition closure_cache_get (g : Grammar) (cache : closure_calls)
           (configuration_set : LRState) : option LRState :=
  match find (fun call => LRState_eqb g (fst call) configuration_set) cache with
  | Some call => Some (snd call)
  | None => None
  end.

(** [LR1ParsingTable.closure] as decorated: the outcome of the call and
    the cache after it. *)
Definition closure_cached (g : Grammar) (cache : closure_calls)
           (configuration_set : LRState) : result LRState * closure_calls :=
  match closure_cache_get g cache configuration_set with
  | Some items => (Ok items, cache)
  | None =>
      match closure g configuration_set with
      | Ok items => (Ok items, cache ++ [(configuration_set, items)])
      | Raised e => (Raised e, cache)
      | OutOfFuel => (OutOfFuel, cache)
      end
  end.

(** [functools.cache] on [goto]: the key of a call is the state, equal
    by its kernel, and the symbol, equal by its name; the cache is the
    list of the calls that ran the body and returned. *)
Definition goto_calls : Type := list ((LRState * Symbol) * LRState).

Definition goto_cache_get (g : Grammar) (cache : goto_calls)
           (configuration_set : LRState) (sym : Symbol) : option LRState :=
  match find (fun call => LRState_eqb g (fst (fst call)) configuration_set
                          && Symbol___eq__ (snd (fst call)) sym) cache with
  | Some call => Some (snd call)
  | None => None
  end.

(** [LR1ParsingTable.goto] as decorated: the outcome of the call, and
    the caches of [closure] and of [goto] after it.  The body calls
    [self.closure], the decorated method. *)
Definition goto_cached (g : Grammar) (closures : closure_calls)
           (gotos : goto_calls) (configuration_set : LRState) (sym : Symbol)
  : result LRState * closure_calls * goto_calls :=
  match goto_cache_get g gotos configuration_set sym with
  | Some items => (Ok items, closures, gotos)
  | None =>
      if Symbol_eqb sym EMPTY then (Raised AssertionError, closures, gotos)
      else
        match goto_new_items configuration_set sym with
        | Ok new_items =>
            match closure_cached g closures new_items with
            | (Ok items, closures') =>
                (Ok items, closures',
                 gotos ++ [((configuration_set, sym), items)])
            | (Raised e, closures') => (Raised e, closures', gotos)
            | (OutOfFuel, closures') => (OutOfFuel, closures', gotos)
            end
        | Raised e => (Raised e, closures, gotos)
        | OutOfFuel => (OutOfFuel, closures, gotos)
        end
  end.

(** A set of kernel items, as [init_kernel] and [goto] hand to
    [closure]; and a cache that the calls on such sets have filled. *)
Definition kernel_set (g : Grammar) (s : LRState) : Prop :=
  forall it, In it s -> is_kernel_item g it = true.

Definition cache_sound (g : Grammar) (cache : closure_calls) : Prop :=
  forall K R, In (K, R) cache -> closure g K = Ok R.

Definition cache_of_kernels (g : Grammar) (cache : closure_calls) : Prop :=
  forall K R, In (K, R) cache -> kernel_set g K.

(** Modelled from the spec: the class [LRTable] (lr/core.py), "a partial
    mapping (state, symbol name) -> action", which the sources read with
    [in], [get] and [self[key]] and write with [self[key] = action].  The
    entries are kept in the order their keys were first assigned. *)
Definition Key : Type := (LRState * string)%type.
Definition LRTable : Type := list (Key * Action).

Definition Key_eqb (g : Grammar) (k1 k2 : Key) : bool :=
  LRState_eqb g (fst k1) (fst k2) && String.eqb (snd k1) (snd k2).

(** [self.get(key, None)] *)
Fixpoint LRTable_get (g : Grammar) (t : LRTable) (k : Key) : option Action :=
  match t with
  | [] => None
  | (k', a) :: t' => if Key_eqb g k' k then Some a else LRTable_get g t' k
  end.

(** Modelled from the spec: [LRTable.__setitem__] (lr/core.py), the
    assignment [self[key] = action] of "a partial mapping (state, symbol
    name) -> action": the action is stored under the key, and a key that
    is there keeps its place.  The spec also calls the table "write-once
    per key (second writes signal conflict)", and [construct] assigns a
    second time under one key in every run (a Shift and then a Goto for
    every non-terminal after a dot, the same Shift once for every item
    with that symbol after the dot); what the class does on a second
    assignment is not in the sources.  [construct_with] below takes the
    store as a parameter; [construct] is its instance for this store,
    which keeps the action assigned last. *)
Fixpoint LRTable_setitem (g : Grammar) (t : LRTable) (k : Key) (a : Action)
  : LRTable :=
  match t with
  | [] => [(k, a)]
  | (k', a') :: t' =>
      if Key_eqb g k' k then (k', a) :: t'
      else (k', a') :: LRTable_setitem g t' k a
  end.

(** [key in self] *)
Definition LRTable_contains (g : Grammar) (t : LRTable) (k : Key) : bool :=
  match LRTable_get g t k with Some _ => true | None => false end.

Section Construction.
Variable g : Grammar.

(** The order in which a run enumerates the set
    [self.grammar.non_terminals | self.grammar.terminals]; the iteration
    order of a set of symbols follows the hashes of their names, which
    Python draws anew for every process. *)
Variable symbols : list Symbol.

(** The body of the two [for] loops of [get_items], for one state and
    one symbol. *)
Definition explore (acc : list LRState * bool) (state : LRState) (X : Symbol)
  : result (list LRState * bool) :=
  next_set <- goto g state X ;;
  match next_set with
  | [] => Ok acc
  | _ :: _ =>
      if LRState_in g next_set (fst acc) then Ok acc
      else Ok (fst acc ++ [next_set], true)
  end.

(** One round of the [while] loop of [get_items]:
    [for state in lr1_items.copy(): for X in ...]. *)
Definition get_items_pass (lr1_items : list LRState)
  : result (list LRState * bool) :=
  fold_left
    (fun acc state =>
       fold_left (fun acc' X => r <- acc' ;; explore r state X) symbols acc)
    lr1_items (Ok (lr1_items, false)).

Fixpoint get_items_while (fuel : nat) (lr1_items : list LRState)
  : result (list LRState) :=
  match fuel with
  | 0 => OutOfFuel
  | S fuel' =>
      r <- get_items_pass lr1_items ;;
      if snd r then get_items_while fuel' (fst r) else Ok (fst r)
  end.

(** [LR1ParsingTable.get_items] *)
Definition get_items (fuel : nat) : result (list LRState) :=
  k <- init_kernel g ;;
  s0 <- closure g k ;;
  get_items_while fuel [s0].

(** [for I_j in items: if self.goto(state_i, a) == I_j:
       self[(state_i, a.id)] = act(I_j)] *)
Definition assign_targets (act : LRState -> Action) (items : list LRState)
           (state_i : LRState) (a : Symbol) (tbl : LRTable) : result LRTable :=
  fold_left
    (fun acc I_j =>
       t <- acc ;;
       j <- goto g state_i a ;;
       if LRState_eqb g j I_j
       then Ok (LRTable_setitem g t (state_i, name a) (act I_j))
       else Ok t)
    items (Ok tbl).

(** The body of [for item in state_i] in [construct]. *)
Definition construct_item (items : list LRState) (state_i : LRState)
           (tbl : LRTable) (item : LR1Item) : result LRTable :=
  if completed item then
    if Symbol_eqb (item_name item) (start_symbol g)
       && Symbol_eqb (lookahead item) EOF
    then Ok (LRTable_setitem g tbl (state_i, name EOF) Accept)
    else if negb (Symbol_eqb (item_name item) (start_symbol g))
    then Ok (LRTable_setitem g tbl (state_i, name (lookahead item))
                             (Reduce_of (item_name item) (rule item)))
    else Ok tbl
  else
    match nth_error (rule item) (dot item) with
    | None => Raised IndexError
    | Some a => assign_targets Shift items state_i a tbl
    end.

(** The body of [for i, state_i in enumerate(items)] in [construct]. *)
Definition construct_state (items : list LRState) (tbl : LRTable)
           (state_i : LRState) : result LRTable :=
  t1 <- fold_left (fun acc item => t <- acc ;; construct_item items state_i t item)
                  state_i (Ok tbl) ;;
  fold_left (fun acc nt => t <- acc ;; assign_targets Goto items state_i nt t)
            (non_terminals g) (Ok t1).

(** The table [construct] fills, from the states of [get_items]. *)
Definition construct_table (items : list LRState) : result LRTable :=
  fold_left (fun acc state_i => t <- acc ;; construct_state items t state_i)
            items (Ok []).

(** [LR1ParsingTable.construct]: the states and the table. *)
Definition construct (fuel : nat) : result (list LRState * LRTable) :=
  items <- get_items fuel ;;
  tbl <- construct_table items ;;
  Ok (items, tbl).

(** [LR1ParsingTable.compute_reduce_actions], on the states and the
    table of [self]. *)
Definition reduce_action_step (state : LRState) (acc : result LRTable)
           (it : LR1Item) : result LRTable :=
  t <- acc ;;
  match LRTable_get g t (state, name (lookahead it)) with
  | None => Ok (LRTable_setitem g t (state, name (lookahead it))
                                (Reduce_of (item_name it) (rule it)))
  | Some held =>
      Raised (ValueError state (name (lookahead it)) held
                         (Reduce_of (item_name it) (rule it)))
  end.

Definition compute_reduce_actions (states : list LRState) (tbl : LRTable)
  : result LRTable :=
  fold_left
    (fun acc state => fold_left (reduce_action_step state)
                                (yield_finished state) acc)
    states (Ok tbl).

(** Modelled from the spec: [state.id] (lr/core.py), "an integer id
    assigned in the order it is first discovered": the position of the
    state among the states. *)
Fixpoint state_index (states : list LRState) (s : LRState) (i : Z) : Z :=
  match states with
  | [] => -1
  | s' :: rest => if LRState_eqb g s' s then i else state_index rest s (i + 1)
  end.

Definition state_id (states : list LRState) (s : LRState) : Z :=
  state_index states s 0.

End Construction.

Section AnyStore.
(** [construct] with the assignment [self[key] = action] as a parameter:
    a table of any kind, and a store that returns the table after the
    assignment or raises. *)
Variable g : Grammar.
Variable symbols : list Symbol.
Variable Tbl : Type.
Variable empty_table : Tbl.
Variable setitem : Tbl -> Key -> Action -> Tbl + exn.

Definition store (t : Tbl) (k : Key) (a : Action) : result Tbl :=
  match setitem t k a with
  | inl t' => Ok t'
  | inr e => Raised e
  end.

Definition assign_targets_with (act : LRState -> Action)
           (items : list LRState) (state_i : LRState) (a : Symbol) (tbl : Tbl)
  : result Tbl :=
  fold_left
    (fun acc I_j =>
       t <- acc ;;
       j <- goto g state_i a ;;
       if LRState_eqb g j I_j
       then store t (state_i, name a) (act I_j)
       else Ok t)
    items (Ok tbl).

Definition construct_item_with (items : list LRState) (state_i : LRState)
           (tbl : Tbl) (item : LR1Item) : result Tbl :=
  if completed item then
    if Symbol_eqb (item_name item) (start_symbol g)
       && Symbol_eqb (lookahead item) EOF
    then store tbl (state_i, name EOF) Accept
    else if negb (Symbol_eqb (item_name item) (start_symbol g))
    then store tbl (state_i, name (lookahead item))
               (Reduce_of (item_name item) (rule item))
    else Ok tbl
  else
    match nth_error (rule item) (dot item) with
    | None => Raised IndexError
    | Some a => assign_targets_with Shift items state_i a tbl
    end.

Definition construct_state_with (items : list LRState) (tbl : Tbl)
           (state_i : LRState) : result Tbl :=
  t1 <- fold_left
          (fun acc item => t <- acc ;; construct_item_with items state_i t item)
          state_i (Ok tbl) ;;
  fold_left (fun acc nt => t <- acc ;; assign_targets_with Goto items state_i nt t)
            (non_terminals g) (Ok t1).

Definition construct_table_with (items : list LRState) : result Tbl :=
  fold_left (fun acc state_i => t <- acc ;; construct_state_with items t state_i)
            items (Ok empty_table).

Definition construct_with (fuel : nat) : result (list LRState * Tbl) :=
  items <- get_items g symbols fuel ;;
  tbl <- construct_table_with items ;;
  Ok (items, tbl).

(** An exception that the store raises on some assignment, and a store
    that returns on every assignment. *)
Definition raised_by_store (e : exn) : Prop :=
  exists t k a, setitem t k a = inr e.

Definition store_returns : Prop :=
  forall t k a, exists t', setitem t k a = inl t'.

End AnyStore.

(** Modelled from the spec: a table that is "write-once per key (second
    writes signal conflict)": [self[key] = action] stores under a key
    that is free, and on a key that is taken it raises, naming the
    state, the symbol, the action held and the action assigned. *)
Definition LRTable_setitem_once (g : Grammar) (t : LRTable) (k : Key)
           (a : Action) : LRTable + exn :=
  match LRTable_get g t k with
  | None => inl (LRTable_setitem g t k a)
  | Some held => inr (ValueError (fst k) (snd k) held a)
  end.

(** The store of [construct]: it keeps the action assigned last. *)
Definition LRTable_setitem_last (g : Grammar) (t : LRTable) (k : Key)
           (a : Action) : LRTable + exn :=
  inl (LRTable_setitem g t k a).

(** A store that, when it returns, has stored the action as a mapping
    does; it may raise instead, on a second assignment under a key or on
    any other. *)
Definition stores_or_raises (g : Grammar)
           (setitem : LRTable -> Key -> Action -> LRTable + exn) : Prop :=
  forall t k a t', setitem t k a = inl t' -> t' = LRTable_setitem g t k a.

End Table.
Import Table.

(* ================================================================== *)
(** * gen/lalr1_gen.py *)
(* ================================================================== *)

Module Gen.

(** An entry of [simplified_table]: an [int], or the pair
    [(lhs.name, len_rhs)]. *)
Inductive Encoded : Type :=
| EInt (z : Z)
| EPair (lhs_name : string) (len_rhs : nat).

Section Encoding.
(** [state.id] *)
Variable id : LRState -> Z.

(** The [match action] of [gen_parser]. *)
Definition encode (action : Action) : Encoded :=
  match action with
  | Shift next_state => EInt (Z.lor (Z.shiftl (id next_state) 1) 1)
  | Goto next_state => EInt (Z.shiftl (id next_state) 1)
  | Reduce lhs len_rhs => EPair (name lhs) len_rhs
  | Accept => EInt (-1)
  end.

(** What an entry stands for: the variant, with the id of the next
    state or the name of the left-hand side and the length. *)
Inductive Decoded : Type :=
| DShift (next_id : Z)
| DGoto (next_id : Z)
| DReduce (lhs_name : string) (len_rhs : nat)
| DAccept.

Definition decoded_of (action : Action) : Decoded :=
  match action with
  | Shift next_state => DShift (id next_state)
  | Goto next_state => DGoto (id next_state)
  | Reduce lhs len_rhs => DReduce (name lhs) len_rhs
  | Accept => DAccept
  end.

(** The ids in an action are ids of states: not negative. *)
Definition ids_valid (action : Action) : Prop :=
  match action with
  | Shift next_state | Goto next_state => (0 <= id next_state)%Z
  | _ => True
  end.

(** The loops of [gen_parser] that fill [simplified_table]: states by
    id, symbols in the order the run enumerates
    [grammar.terminals | grammar.non_terminals]. *)
Definition gen_row (g : Grammar) (table : LRTable) (symbols : list Symbol)
           (state : LRState) : list ((Z * string) * Encoded) :=
  flat_map
    (fun symbol =>
       match LRTable_get g table (state, name symbol) with
       | Some action => [((id state, name symbol), encode action)]
       | None => []
       end)
    symbols.

Definition simplified_table (g : Grammar) (table : LRTable)
           (symbols : list Symbol) (sorted_states : list LRState)
  : list ((Z * string) * Encoded) :=
  flat_map (gen_row g table symbols) sorted_states.

(** [expected_tokens[state.id].append(symbol.name)] on a
    [defaultdict(list)]: the list under the key grows at its end, and a
    key that is not there comes in with a list of one name. *)
Fixpoint expected_append (d : list (Z * list string)) (k : Z) (v : string)
  : list (Z * list string) :=
  match d with
  | [] => [(k, [v])]
  | (k', l) :: d' =>
      if (k' =? k)%Z then (k', l ++ [v]) :: d'
      else (k', l) :: expected_append d' k v
  end.

(** The loops of [gen_parser] again, for [expected_tokens]: the names
    of the terminals under which a state has an action. *)
Definition expected_tokens (g : Grammar) (table : LRTable)
           (symbols : list Symbol) (sorted_states : list LRState)
  : list (Z * list string) :=
  fold_left
    (fun d state =>
       fold_left
         (fun d' symbol =>
            match LRTable_get g table (state, name symbol) with
            | Some _ =>
                if is_Terminal symbol
                then expected_append d' (id state) (name symbol)
                else d'
            | None => d'
            end)
         symbols d)
    sorted_states [].

(** [dict(expected_tokens)[k]], with the empty list for a key that is
    not there, and [k in expected_tokens]. *)
Definition expected_get (d : list (Z * list string)) (k : Z) : list string :=
  match find (fun p => (fst p =? k)%Z) d with
  | Some p => snd p
  | None => []
  end.

Definition expected_has (d : list (Z * list string)) (k : Z) : bool :=
  existsb (fun p => (fst p =? k)%Z) d.

(** What a [dict] holds under a key after the assignments
    [d[k] = v] of a list, in order: the value assigned last under the
    key. *)
Fixpoint assigned {V : Type} (l : list ((Z * string) * V)) (key : Z * string)
  : option V :=
  match l with
  | [] => None
  | (k, v) :: l' =>
      match assigned l' key with
      | Some v' => Some v'
      | None =>
          if (fst k =? fst key)%Z && String.eqb (snd k) (snd key)
          then Some v else None
      end
  end.

End Encoding.

(** Modelled from the spec: the decoder of the table's consumer (the
    parser template is not among the sources): "decode each entry to its
    original action variant".  -1 is Accept, an odd number a Shift, an
    even number a Goto, each with the id in the higher bits, and a pair
    is a Reduce. *)
Definition decode (e : Encoded) : Decoded :=
  match e with
  | EPair lhs_name len_rhs => DReduce lhs_name len_rhs
  | EInt z =>
      if (z =? -1)%Z then DAccept
      else if Z.odd z then DShift (Z.shiftr z 1)
      else DGoto (Z.shiftr z 1)
  end.

End Gen.
Import Gen.

(* ================================================================== *)
(** * tokenizer/tokenizer.py *)
(* ================================================================== *)

Module Tokenizer.

(** Modelled from the spec: [Loc] and the tokens, which the tokenizer
    imports from the grammar package: "Token { kind, lexeme,
    loc: (file, line, col, offset) }". *)
Record Loc : Type := mkLoc {
  loc_filename : string;
  loc_linenum : Z;
  loc_column : Z;
  loc_offset : Z
}.

(** What the generator yields: [Terminal(token_type, lexeme, loc)], or
    the marker [EOF] of grammar/core.py, whose name is "eof". *)
Inductive Token : Type :=
| Tok (token_type lexeme : string) (loc : Loc)
| TokEOF.

Definition token_kind (t : Token) : string :=
  match t with
  | Tok token_type _ _ => token_type
  | TokEOF => name EOF
  end.

Definition newline : ascii := ascii_of_nat 10.
Definition hash_sign : ascii := ascii_of_nat 35.

(** Strings: [s[n:]], [s[:n]], [s.index(c)] for a character (None when
    Python raises ValueError), [s[off:]] and [s[off]] for a Python
    integer, where a negative one counts from the end. *)
Fixpoint str_drop (n : nat) (s : string) : string :=
  match n, s with
  | 0, _ => s
  | S n', String _ s' => str_drop n' s'
  | S _, EmptyString => EmptyString
  end.

Fixpoint str_take (n : nat) (s : string) : string :=
  match n, s with
  | 0, _ => EmptyString
  | S n', String c s' => String c (str_take n' s')
  | S _, EmptyString => EmptyString
  end.

Fixpoint str_index (c : ascii) (s : string) : option nat :=
  match s with
  | EmptyString => None
  | String a s' =>
      if Ascii.eqb a c then Some 0
      else match str_index c s' with
           | Some i => Some (S i)
           | None => None
           end
  end.

Definition slice_from (s : string) (off : Z) : string :=
  if (off <? 0)%Z
  then str_drop (String.length s - Z.to_nat (- off)) s
  else str_drop (Z.to_nat off) s.

Definition char_at (s : string) (off : Z) : option ascii :=
  if (off <? 0)%Z
  then if (- off <=? Z.of_nat (String.length s))%Z
       then String.get (String.length s - Z.to_nat (- off)) s
       else None
  else String.get (Z.to_nat off) s.

Definition str_len (s : string) : Z := Z.of_nat (String.length s).

(** The regular expressions the tokenizer matches with [re.match]. *)
Inductive regex : Type :=
| Imagnumber
| Floatnumber
| Intnumber
| Word.

(** The fields of a [Tokenizer] that change; [_code] is the text with
    the newline that [__init__] appends. *)
Record state : Type := mkState {
  _code : string;
  _linenum : Z;
  _column : Z;
  _code_offset : Z
}.

Inductive tok_exn : Type :=
| TValueError
| TIndexError.

Inductive outcome (A : Type) : Type :=
| Done (a : A)
| Raise (e : tok_exn)
| NoFuel.
Arguments Done {A} a.
Arguments Raise {A} e.
Arguments NoFuel {A}.

Section Run.
Variable filename : string.

(** [named_tokens.items()], in the order of the [dict]. *)
Variable named_tokens : list (string * string).

(** [str.isspace] on a character, and [re.match(pattern, s)] as the
    matched text [match.group(0)], from the Python library. *)
Variable isspace : ascii -> bool.
Variable re_match : regex -> string -> option string.

(** [Tokenizer.__init__] *)
Definition init (code : string) : state :=
  mkState (code ++ String newline EmptyString)%string 0 0 0.

(** [_to_next_char] and [_skip_n_chars] *)
Definition _skip_n_chars (st : state) (n : Z) : state :=
  mkState (_code st) (_linenum st) (_column st + n) (_code_offset st + n).

Definition _to_next_char (st : state) : state := _skip_n_chars st 1.

(** [_current_char] and [_remaining_code] *)
Definition _current_char (st : state) : outcome ascii :=
  match char_at (_code st) (_code_offset st) with
  | Some c => Done c
  | None => Raise TIndexError
  end.

Definition _remaining_code (st : state) : string :=
  slice_from (_code st) (_code_offset st).

Definition loc_of (st : state) : Loc :=
  mkLoc filename (_linenum st) (_column st) (_code_offset st).

(** [sorted(items, key=lambda item: len(item[0]), reverse=True)]: by
    decreasing length of the key, items of one length in their order. *)
Fixpoint insert_by_len (x : string * string) (l : list (string * string))
  : list (string * string) :=
  match l with
  | [] => [x]
  | y :: l' =>
      if String.length (fst x) <=? String.length (fst y)
      then y :: insert_by_len x l'
      else x :: l
  end.

Definition sorted_named_tokens : list (string * string) :=
  fold_left (fun acc x => insert_by_len x acc) named_tokens [].

(** [str.strip] *)
Fixpoint lstrip (s : string) : string :=
  match s with
  | EmptyString => EmptyString
  | String c s' => if isspace c then lstrip s' else s
  end.

Fixpoint str_rev (s : string) : string :=
  match s with
  | EmptyString => EmptyString
  | String c s' => (str_rev s' ++ String c EmptyString)%string
  end.

Definition strip (s : string) : string :=
  lstrip (str_rev (lstrip (str_rev s))).

(** [_match_number] *)
Definition _match_number (st : state) (number_regex : regex)
  : option (string * string) :=
  match re_match number_regex (slice_from (_code st) (_code_offset st)) with
  | Some lexeme =>
      match number_regex with
      | Floatnumber => Some (lexeme, "float"%string)
      | Intnumber => Some (lexeme, "integer"%string)
      | _ => None
      end
  | None => None
  end.

Definition or_else {A : Type} (a b : option A) : option A :=
  match a with Some _ => a | None => b end.

(** [_match_number_or_unknown] *)
Definition _match_number_or_unknown (st : state) (pos : Loc)
  : outcome (Token * state) :=
  match or_else (_match_number st Imagnumber)
                (or_else (_match_number st Floatnumber)
                         (_match_number st Intnumber)) with
  | None =>
      match
        match re_match Word (_remaining_code st) with
        | Some w =>
            if 1 <? String.length w then Done (strip w, "word"%string)
            else match _current_char st with
                 | Done c => Done (String c EmptyString, "char"%string)
                 | Raise e => Raise e
                 | NoFuel => NoFuel
                 end
        | None =>
            match _current_char st with
            | Done c => Done (String c EmptyString, "char"%string)
            | Raise e => Raise e
            | NoFuel => NoFuel
            end
        end
      with
      | Done (lexeme, ret_type) =>
          Done (Tok ret_type lexeme pos,
                _skip_n_chars st (str_len lexeme - 1))
      | Raise e => Raise e
      | NoFuel => NoFuel
      end
  | Some (lexeme, ret_type) =>
      Done (Tok ret_type lexeme pos, _skip_n_chars st (str_len lexeme - 1))
  end.

(** [handle_comment]: [index] raises ValueError when there is no
    newline, and never returns -1. *)
Definition handle_comment (st : state) : outcome (Token * state) :=
  match str_index newline (_remaining_code st) with
  | None => Raise TValueError
  | Some end_comment_pos =>
      let comment := str_take end_comment_pos (_remaining_code st) in
      let token := Tok "comment" comment (loc_of st) in
      let st1 := _skip_n_chars st (str_len comment) in
      Done (token, mkState (_code st1) (_linenum st1 + 1) (-1)
                           (_code_offset st1))
  end.

(** The [for matching, identifier in named_tokens] loop: the first
    keyword the remaining code starts with. *)
Definition find_keyword (st : state) : option (string * string) :=
  find (fun item => String.prefix (fst item) (_remaining_code st))
       sorted_named_tokens.

(** The body of the [while] loop of [_tokenize], up to the [yield]. *)
Definition loop_body (st : state) : outcome (Token * state) :=
  let token_location := loc_of st in
  match find_keyword st with
  | Some (matching, identifier) =>
      Done (Tok identifier matching token_location,
            _skip_n_chars st (str_len matching - 1))
  | None =>
      match _current_char st with
      | Raise e => Raise e
      | NoFuel => NoFuel
      | Done c =>
          if negb (Ascii.eqb c newline) && isspace c
          then Done (Tok "whitespace" (String c EmptyString) token_location, st)
          else if Ascii.eqb c hash_sign then handle_comment st
          else if Ascii.eqb c newline
          then Done (Tok "newline" (String newline EmptyString) token_location,
                     mkState (_code st) (_linenum st + 1) (-1)
                             (_code_offset st))
          else _match_number_or_unknown st token_location
      end
  end.

(** [_tokenize]: the tokens it yields, in order, and the state it ends
    in. *)
Fixpoint tokenize_from (fuel : nat) (st : state)
  : outcome (list Token * state) :=
  match fuel with
  | 0 => NoFuel
  | S fuel' =>
      if (_code_offset st <? str_len (_code st))%Z then
        match loop_body st with
        | Done (token, st') =>
            match tokenize_from fuel' (_to_next_char st') with
            | Done (tokens, st_end) => Done (token :: tokens, st_end)
            | Raise e => Raise e
            | NoFuel => NoFuel
            end
        | Raise e => Raise e
        | NoFuel => NoFuel
        end
      else Done ([TokEOF], st)
  end.

Definition tokenize (fuel : nat) (code : string)
  : outcome (list Token * state) :=
  tokenize_from fuel (init code).

(** The states at the head of the [while] loop in a run on [code]. *)
Inductive at_loop_head (code : string) : state -> Prop :=
| head_init : at_loop_head code (init code)
| head_next (st st' : state) (token : Token) :
    at_loop_head code st ->
    (_code_offset st < str_len (_code st))%Z ->
    loop_body st = Done (token, st') ->
    at_loop_head code (_to_next_char st').

End Run.
End Tokenizer.

(* ================================================================== *)
(** * Notions used to state the properties *)
(* ================================================================== *)

(** The symbol after the dot of an item that is not completed: the [x]
    of [closure], the [a] of [construct]. *)
Definition next_symbol (it : LR1Item) : option Symbol :=
  if completed it then None else nth_error (rule it) (dot it).

(** No other assignment of [construct] goes under the key of the
    completed item [it] of a state, (state, lookahead.id): the completed
    items of the state with a lookahead of that name assign the Reduce
    of [it] or nothing (an item of the start symbol whose lookahead is
    not EOF), no item of the state has a symbol of that name after its
    dot, and no non-terminal has that name. *)
Definition reduce_unchallenged (g : Grammar) (state : LRState)
           (it : LR1Item) : Prop :=
  (forall it',
      In it' state -> completed it' = true ->
      name (lookahead it') = name (lookahead it) ->
      (item_name it' = item_name it /\
       Expansion_len (rule it') = Expansion_len (rule it)) \/
      (item_name it' = start_symbol g /\ lookahead it' <> EOF)) /\
  (forall it' a,
      In it' state -> next_symbol it' = Some a ->
      name a <> name (lookahead it)) /\
  (forall nt, In nt (non_terminals g) -> name nt <> name (lookahead it)).

(** The items the rule of closure asks for, for an item
    (A -> alpha . x beta, la): (x -> . gamma, w) for every alternative
    gamma of x and every w in FIRST*(beta la). *)
Definition item_expansions (g : Grammar) (x : Symbol) (beta : list Symbol)
           (la : Symbol) : list LR1Item :=
  flat_map
    (fun gamma =>
       map (fun w => mkItem x 0 gamma w)
           (first_sentential_form g (beta ++ [la])))
    (Grammar_getitem g x).

Definition expansions (g : Grammar) (it : LR1Item) : list LR1Item :=
  match next_symbol it with
  | Some x =>
      if is_NonTerminal x
      then item_expansions g x (skipn (S (dot it)) (rule it)) (lookahead it)
      else []
  | None => []
  end.

(** A set of items is closed under the rule of closure. *)
Definition closed_under_rule (g : Grammar) (J : LR1Item -> Prop) : Prop :=
  forall it B gamma b,
    J it ->
    next_symbol it = Some B -> is_NonTerminal B = true ->
    In gamma (Grammar_getitem g B) ->
    In b (first_sentential_form
            g (skipn (S (dot it)) (rule it) ++ [lookahead it])) ->
    J (mkItem B 0 gamma b).

(** Appending items one by one, and the union of two states: a copy of
    the first with the items of the second appended. *)
Definition append_all (items : LRState) (l : list LR1Item) : LRState :=
  fold_left LRState_append l items.

Definition LRState_union (I J : LRState) : LRState := append_all I J.

(** The items of the augmented rule S' -> S0 EOF with lookahead EOF,
    where S0 is the start symbol of the grammar before it was
    augmented: the item of [init_kernel] is [augmented g S0 0]. *)
Definition augmented (g : Grammar) (S0 : Symbol) (d : nat) : LR1Item :=
  mkItem (start_symbol g) d [S0; EOF] EOF.

(** A result that is not a ValueError, the report of a conflict. *)
Definition no_conflict_raised {A : Type} (r : result A) : Prop :=
  match r with
  | Raised (ValueError _ _ _ _) => False
  | _ => True
  end.

(* ================================================================== *)
(** * Two small grammars *)
(* ================================================================== *)

Module Examples.

(** E' -> E,  E -> E + E | integer: the ambiguous grammar of
    expressions. *)
Definition nt_E' : Symbol := NonTerminal "E'".
Definition nt_E : Symbol := NonTerminal "E".
Definition t_plus : Symbol := Terminal "+".
Definition t_integer : Symbol := Terminal "integer".

Definition g_amb : Grammar :=
  mkGrammar nt_E'
            [(nt_E', [[nt_E]]); (nt_E, [[nt_E; t_plus; nt_E]; [t_integer]])]
            [t_plus; t_integer; EOF] [nt_E'; nt_E]
            [] [(nt_E', [t_integer]); (nt_E, [t_integer])].

Definition symbols_amb : list Symbol := [nt_E'; nt_E; t_plus; t_integer; EOF].

(** S' -> S,  S -> a S | b. *)
Definition nt_S' : Symbol := NonTerminal "S'".
Definition nt_S : Symbol := NonTerminal "S".
Definition t_a : Symbol := Terminal "a".
Definition t_b : Symbol := Terminal "b".

Definition g_ab : Grammar :=
  mkGrammar nt_S'
            [(nt_S', [[nt_S]]); (nt_S, [[t_a; nt_S]; [t_b]])]
            [t_a; t_b; EOF] [nt_S'; nt_S]
            [] [(nt_S', [t_a; t_b]); (nt_S, [t_a; t_b])].

(** Two orders in which a run can enumerate the symbols of [g_ab]. *)
Definition symbols_ab : list Symbol := [nt_S'; nt_S; t_a; t_b; EOF].
Definition symbols_ba : list Symbol := [nt_S'; nt_S; t_b; t_a; EOF].

(** S' -> a: no non-terminal stands after a dot. *)
Definition g_a : Grammar :=
  mkGrammar nt_S' [(nt_S', [[t_a]])] [t_a; EOF] [nt_S'] [] [(nt_S', [t_a])].

Definition symbols_a : list Symbol := [nt_S'; t_a; EOF].

(** S' -> S,  S -> A B,  A -> a | ε,  B -> b: a grammar with an empty
    rule, stored as the one-element sequence [ε]. *)
Definition nt_A : Symbol := NonTerminal "A".
Definition nt_B : Symbol := NonTerminal "B".

Definition g_nullable : Grammar :=
  mkGrammar nt_S'
            [(nt_S', [[nt_S]]); (nt_S, [[nt_A; nt_B]]);
             (nt_A, [[t_a]; [EMPTY]]); (nt_B, [[t_b]])]
            [t_a; t_b; EOF] [nt_S'; nt_S; nt_A; nt_B]
            [nt_A; EMPTY]
            [(nt_S', [t_a; t_b]); (nt_S, [t_a; t_b]); (nt_A, [t_a]);
             (nt_B, [t_b])].

Definition symbols_nullable : list Symbol :=
  [nt_S'; nt_S; nt_A; nt_B; t_a; t_b; EOF].

End Examples.
Import Examples.

(* ================================================================== *)
(** * Proofs *)
(* ================================================================== *)

(* ------------------------------------------------------------------ *)
(** ** Facts on symbols and expansions *)

Lemma Symbol_eqb_eq (a b : Symbol) : Symbol_eqb a b = true <-> a = b.
Proof.
  unfold Symbol_eqb. destruct (Symbol_eq_dec a b); split; congruence.
Qed.

Lemma Symbol_eqb_refl (a : Symbol) : Symbol_eqb a a = true.
Proof. apply Symbol_eqb_eq. reflexivity. Qed.

Lemma Symbol_eqb_neq (a b : Symbol) : Symbol_eqb a b = false <-> a <> b.
Proof.
  unfold Symbol_eqb. destruct (Symbol_eq_dec a b); split; congruence.
Qed.

Lemma count_occ_le_length (e : Expansion) (s : Symbol) :
  count_occ Symbol_eq_dec e s <= length e.
Proof.
  induction e as [|x e IH]; simpl; [lia|].
  destruct (Symbol_eq_dec x s); lia.
Qed.

Lemma Expansion_iter_count (e : Expansion) :
  length (Expansion_iter e) + count_occ Symbol_eq_dec e EMPTY = length e.
Proof.
  unfold Expansion_iter, is_not_EMPTY, Symbol_eqb.
  induction e as [|x e IH]; simpl; [reflexivity|].
  destruct (Symbol_eq_dec x EMPTY); simpl; lia.
Qed.

(** The length an [Expansion] reports is the number of symbols its
    iteration yields. *)
Lemma Expansion_len_iter (e : Expansion) :
  Expansion_len e = length (Expansion_iter e).
Proof.
  unfold Expansion_len. pose proof (Expansion_iter_count e). lia.
Qed.

Lemma Expansion_iter_app (a b : Expansion) :
  Expansion_iter (a ++ b) = Expansion_iter a ++ Expansion_iter b.
Proof. apply filter_app. Qed.

Lemma Expansion_iter_drop_EMPTY (a b : Expansion) :
  Expansion_iter (a ++ EMPTY :: b) = Expansion_iter (a ++ b).
Proof. rewrite !Expansion_iter_app. reflexivity. Qed.

Lemma Expansion_len_le (e : Expansion) : Expansion_len e <= length e.
Proof. unfold Expansion_len. lia. Qed.

(** *** Equality by name, and the two readings of epsilon *)

Lemma Symbol___eq___name (a b : Symbol) :
  Symbol___eq__ a b = true <-> name a = name b.
Proof. unfold Symbol___eq__. apply String.eqb_eq. Qed.

Lemma Symbol___eq___refl (a : Symbol) : Symbol___eq__ a a = true.
Proof. apply Symbol___eq___name. reflexivity. Qed.

(** The same symbol is an equal symbol. *)
Lemma Symbol_eqb___eq__ (a b : Symbol) :
  Symbol_eqb a b = true -> Symbol___eq__ a b = true.
Proof. rewrite Symbol_eqb_eq. intros ->. apply Symbol___eq___refl. Qed.

Lemma list_count_le (l : list Symbol) (v : Symbol) : list_count l v <= length l.
Proof.
  unfold list_count. induction l as [|x l IH]; simpl; [lia|].
  destruct (Symbol___eq__ x v); simpl; lia.
Qed.

Lemma list_count_app (a b : list Symbol) (v : Symbol) :
  list_count (a ++ b) v = list_count a v + list_count b v.
Proof. unfold list_count. rewrite filter_app, length_app. reflexivity. Qed.

Lemma Expansion___len___app (a b : Expansion) :
  Expansion___len__ (a ++ b) = Expansion___len__ a + Expansion___len__ b.
Proof.
  unfold Expansion___len__. rewrite length_app, list_count_app.
  pose proof (list_count_le a EMPTY). pose proof (list_count_le b EMPTY). lia.
Qed.

(** [__len__] is the number of stored symbols that are not equal to
    [EMPTY]. *)
Lemma Expansion___len___filter (e : Expansion) :
  Expansion___len__ e
  = length (filter (fun s => negb (Symbol___eq__ s EMPTY)) e).
Proof.
  unfold Expansion___len__, list_count.
  pose proof (filter_length (fun s => Symbol___eq__ s EMPTY) e) as H.
  cbv beta in H. lia.
Qed.

(** Every symbol that [__iter__] skips is left out by [__len__]. *)
Lemma Expansion___len___le_iter (e : Expansion) :
  Expansion___len__ e <= length (Expansion_iter e).
Proof.
  rewrite Expansion___len___filter. unfold Expansion_iter, is_not_EMPTY.
  induction e as [|x e IH]; simpl; [lia|].
  destruct (Symbol_eqb x EMPTY) eqn:E.
  - rewrite (Symbol_eqb___eq__ _ _ E). simpl. exact IH.
  - destruct (Symbol___eq__ x EMPTY); simpl; lia.
Qed.

Lemma epsilon_is_EMPTY_cons (x : Symbol) (e : list Symbol) :
  epsilon_is_EMPTY (x :: e) <->
  (name x = name EMPTY -> x = EMPTY) /\ epsilon_is_EMPTY e.
Proof.
  unfold epsilon_is_EMPTY. split.
  - intros H. split; [apply H; left; reflexivity|].
    intros s Hs. apply H. right. exact Hs.
  - intros [H1 H2] s [<-|Hs]; auto.
Qed.

Lemma epsilon_is_EMPTY_app (a b : list Symbol) :
  epsilon_is_EMPTY (a ++ b) <-> epsilon_is_EMPTY a /\ epsilon_is_EMPTY b.
Proof.
  unfold epsilon_is_EMPTY. split.
  - intros H. split; intros s Hs; apply H, in_or_app; auto.
  - intros [H1 H2] s Hs. apply in_app_or in Hs. destruct Hs; auto.
Qed.

(** Where the symbols named "ε" are [EMPTY], equal to [EMPTY] and being
    [EMPTY] are the same. *)
Lemma epsilon_is_EMPTY_test (e : list Symbol) (s : Symbol) :
  epsilon_is_EMPTY e -> In s e -> Symbol___eq__ s EMPTY = Symbol_eqb s EMPTY.
Proof.
  intros He Hs. destruct (Symbol_eqb s EMPTY) eqn:E.
  - apply Symbol_eqb___eq__, E.
  - destruct (Symbol___eq__ s EMPTY) eqn:E'; [|reflexivity].
    apply Symbol___eq___name in E'. apply (He s Hs) in E'.
    apply Symbol_eqb_neq in E. contradiction.
Qed.

Lemma epsilon_is_EMPTY_iter (e : Expansion) :
  epsilon_is_EMPTY e ->
  Expansion_iter e = filter (fun s => negb (Symbol___eq__ s EMPTY)) e.
Proof.
  intros He. unfold Expansion_iter, is_not_EMPTY. apply filter_ext_in.
  intros s Hs. rewrite (epsilon_is_EMPTY_test e s He Hs). reflexivity.
Qed.

Lemma Expansion___len___iter (e : Expansion) :
  epsilon_is_EMPTY e -> Expansion___len__ e = length (Expansion_iter e).
Proof.
  intros He. rewrite Expansion___len___filter, (epsilon_is_EMPTY_iter e He).
  reflexivity.
Qed.

(** On the rules of a grammar the length [lr1.py] works with is the
    length [__len__] reports. *)
Lemma Expansion_len_grammar (e : Expansion) :
  epsilon_is_EMPTY e -> Expansion___len__ e = Expansion_len e.
Proof.
  intros He. rewrite (Expansion___len___iter e He), Expansion_len_iter.
  reflexivity.
Qed.

Lemma list___eq___length (a b : Expansion) :
  list___eq__ a b = true -> length a = length b.
Proof.
  revert b. induction a as [|x a IH]; intros [|y b]; simpl;
    try discriminate; [reflexivity|].
  intros H. apply andb_true_iff in H. destruct H as [_ H].
  rewrite (IH b H). reflexivity.
Qed.

Lemma list___eq___refl (a : Expansion) : list___eq__ a a = true.
Proof.
  induction a as [|x a IH]; simpl; [reflexivity|].
  rewrite Symbol___eq___refl, IH. reflexivity.
Qed.

Lemma Expansion_iter_cons (x : Symbol) (e : Expansion) :
  Expansion_iter (x :: e)
  = if Symbol_eqb x EMPTY then Expansion_iter e else x :: Expansion_iter e.
Proof.
  unfold Expansion_iter. simpl. unfold is_not_EMPTY at 1.
  destruct (Symbol_eqb x EMPTY); reflexivity.
Qed.

(** Two stored lists that compare equal and iterate alike are the same
    list, when their symbols named "ε" are [EMPTY]. *)
Lemma list___eq___same (a b : Expansion) :
  epsilon_is_EMPTY a -> epsilon_is_EMPTY b ->
  Expansion_iter a = Expansion_iter b -> list___eq__ a b = true -> a = b.
Proof.
  revert b. induction a as [|x a IH]; intros [|y b] Ha Hb Hi He;
    simpl in He; try discriminate; [reflexivity|].
  apply andb_true_iff in He. destruct He as [Hxy He].
  apply Symbol___eq___name in Hxy.
  apply epsilon_is_EMPTY_cons in Ha. destruct Ha as [Hx Ha].
  apply epsilon_is_EMPTY_cons in Hb. destruct Hb as [Hy Hb].
  rewrite !Expansion_iter_cons in Hi.
  destruct (Symbol_eqb x EMPTY) eqn:Ex; destruct (Symbol_eqb y EMPTY) eqn:Ey.
  - apply Symbol_eqb_eq in Ex, Ey. subst x y. f_equal. apply IH; auto.
  - apply Symbol_eqb_eq in Ex. subst x. apply Symbol_eqb_neq in Ey.
    exfalso. apply Ey, Hy. symmetry. exact Hxy.
  - apply Symbol_eqb_eq in Ey. subst y. apply Symbol_eqb_neq in Ex.
    exfalso. apply Ex, Hx. exact Hxy.
  - inversion Hi as [[Hh Ht]]. f_equal. apply IH; auto.
Qed.

(** C9, as the code has it.  For every [Expansion] whose symbols named
    "ε" are the marker [EMPTY], the public views ignore epsilon:
    iteration yields the symbols that are not equal to [EMPTY], in
    order; [__len__] is their number; [__hash__] is a function of them;
    adding an [EMPTY] anywhere changes none of the three; and the
    inherited list equality compares the stored lists, so it tells the
    expansion from every other one of that kind that iterates alike and
    so differs from it only in the places of [EMPTY]. *)
Theorem expansion_views_ignore_epsilon
        (hash_str : string -> Z) (hash_tuple : list Z -> Z) (e : Expansion) :
  epsilon_is_EMPTY e ->
  (Expansion_iter e = filter (fun s => negb (Symbol___eq__ s EMPTY)) e /\
   ~ In EMPTY (Expansion_iter e) /\
   Expansion___len__ e = length (Expansion_iter e) /\
   Expansion_hash hash_str hash_tuple e
   = hash_tuple (map (fun s => hash_str (name s))
                     (filter (fun s => negb (Symbol___eq__ s EMPTY)) e))) /\
  (forall a b : Expansion,
      e = a ++ b ->
      Expansion_iter (a ++ EMPTY :: b) = Expansion_iter e /\
      Expansion___len__ (a ++ EMPTY :: b) = Expansion___len__ e /\
      Expansion_hash hash_str hash_tuple (a ++ EMPTY :: b)
      = Expansion_hash hash_str hash_tuple e /\
      list___eq__ (a ++ EMPTY :: b) e = false /\
      list___eq__ e (a ++ EMPTY :: b) = false) /\
  (forall e2 : Expansion,
      epsilon_is_EMPTY e2 -> Expansion_iter e = Expansion_iter e2 ->
      Expansion___len__ e = Expansion___len__ e2 /\
      Expansion_hash hash_str hash_tuple e
      = Expansion_hash hash_str hash_tuple e2 /\
      (e <> e2 -> list___eq__ e e2 = false /\ list___eq__ e2 e = false)).
Proof.
  intros He. split; [|split].
  - split; [apply epsilon_is_EMPTY_iter, He|]. split; [|split].
    + unfold Expansion_iter. rewrite filter_In. intros [_ H].
      unfold is_not_EMPTY in H. rewrite Symbol_eqb_refl in H. discriminate.
    + apply Expansion___len___iter, He.
    + unfold Expansion_hash. rewrite (epsilon_is_EMPTY_iter e He).
      reflexivity.
  - intros a b ->.
    assert (Hlen : length (a ++ EMPTY :: b) <> length (a ++ b))
      by (rewrite !length_app; simpl; lia).
    repeat split.
    + apply Expansion_iter_drop_EMPTY.
    + rewrite !Expansion___len___app.
      change (EMPTY :: b) with ([EMPTY] ++ b).
      rewrite Expansion___len___app. reflexivity.
    + unfold Expansion_hash. rewrite Expansion_iter_drop_EMPTY. reflexivity.
    + destruct (list___eq__ (a ++ EMPTY :: b) (a ++ b)) eqn:E; [|reflexivity].
      apply list___eq___length in E. contradiction.
    + destruct (list___eq__ (a ++ b) (a ++ EMPTY :: b)) eqn:E; [|reflexivity].
      apply list___eq___length in E. symmetry in E. contradiction.
  - intros e2 He2 Hi. split; [|split].
    + rewrite (Expansion___len___iter e He), (Expansion___len___iter e2 He2), Hi.
      reflexivity.
    + unfold Expansion_hash. rewrite Hi. reflexivity.
    + intros Hne. split.
      * destruct (list___eq__ e e2) eqn:E; [|reflexivity].
        exfalso. apply Hne. apply list___eq___same; auto.
      * destruct (list___eq__ e2 e) eqn:E; [|reflexivity].
        exfalso. apply Hne. symmetry. apply list___eq___same; auto.
Qed.

Lemma expansion_views_ignore_epsilon_witness :
  Expansion_iter [EMPTY] = [] /\ Expansion___len__ [EMPTY] = 0 /\
  Expansion___len__ [] = 0 /\
  Expansion_hash (fun _ => 0%Z) (fun l => Z.of_nat (length l)) [EMPTY]
  = Expansion_hash (fun _ => 0%Z) (fun l => Z.of_nat (length l)) [] /\
  list___eq__ [EMPTY] [] = false.
Proof.
  assert (He : epsilon_is_EMPTY []) by (intros s []).
  assert (He1 : epsilon_is_EMPTY [EMPTY]) by (intros s [<-|[]] _; reflexivity).
  destruct (expansion_views_ignore_epsilon
              (fun _ => 0%Z) (fun l => Z.of_nat (length l)) [] He)
    as (_ & Hadd & Hsame).
  destruct (Hadd [] [] eq_refl) as (H1 & H2 & H3 & H4 & _).
  repeat split; assumption.
Defined.

(** C9, as stated, fails.  A terminal of the name "ε" is equal to
    [EMPTY] and is not [EMPTY]: [__len__] leaves it out and [__iter__]
    yields it, so the length of [Expansion([Terminal("ε")])] is 0 while
    its iteration has one symbol; and [Expansion([EMPTY, Terminal("ε")])]
    and [Expansion([Terminal("ε"), EMPTY])], which iterate alike and
    differ in the place of [EMPTY] only, compare equal.  It is the same
    with a second marker of the name "ε". *)
Lemma epsilon_views_disagree :
  Symbol___eq__ (Terminal "ε") EMPTY = true /\
  Expansion___len__ [Terminal "ε"] = 0 /\
  Expansion_iter [Terminal "ε"] = [Terminal "ε"] /\
  Expansion___len__ [Terminal "ε"] <> length (Expansion_iter [Terminal "ε"]) /\
  Expansion_iter [EMPTY; Terminal "ε"] = Expansion_iter [Terminal "ε"; EMPTY] /\
  [EMPTY; Terminal "ε"] <> [Terminal "ε"; EMPTY] /\
  list___eq__ [EMPTY; Terminal "ε"] [Terminal "ε"; EMPTY] = true /\
  Expansion___len__ [Marker "ε"] = 0 /\
  Expansion_iter [Marker "ε"] = [Marker "ε"].
Proof.
  repeat split; try reflexivity; discriminate.
Qed.

(* ------------------------------------------------------------------ *)
(** ** The encoded table (gen_parser) *)

Section EncodingFacts.
Local Open Scope Z_scope.

Lemma shiftl_1 (j : Z) : Z.shiftl j 1 = 2 * j.
Proof. rewrite Z.shiftl_mul_pow2 by lia. change (2 ^ 1) with 2. lia. Qed.

Lemma lor_shiftl_1 (j : Z) : Z.lor (Z.shiftl j 1) 1 = 2 * j + 1.
Proof.
  rewrite shiftl_1.
  pose proof (Z.add_lor_land (2 * j) 1) as H.
  assert (Hl : Z.land (2 * j) 1 = 0).
  { change 1 with (Z.ones 1) at 1. rewrite Z.land_ones by lia.
    change (2 ^ 1) with 2. rewrite Z.mul_comm. apply Z.mod_mul. lia. }
  lia.
Qed.

Lemma shiftr_1 (z : Z) : Z.shiftr z 1 = z / 2.
Proof. rewrite Z.shiftr_div_pow2 by lia. reflexivity. Qed.

Lemma decode_encode (id : LRState -> Z) (a : Action) :
  ids_valid id a -> decode (encode id a) = decoded_of id a.
Proof.
  destruct a as [n|n|l k|]; intros Hv;
    unfold encode, decode, decoded_of, ids_valid in *.
  - rewrite lor_shiftl_1.
    destruct (2 * id n + 1 =? -1) eqn:E; [lia|].
    replace (Z.odd (2 * id n + 1)) with true
      by (rewrite Z.add_comm, Z.odd_add_mul_2; reflexivity).
    rewrite shiftr_1. f_equal.
    symmetry. apply (Z.div_unique _ 2 _ 1); lia.
  - rewrite shiftl_1.
    destruct (2 * id n =? -1) eqn:E; [lia|].
    rewrite Z.odd_mul. cbn [Z.odd andb]. rewrite shiftr_1. f_equal.
    symmetry. apply (Z.div_unique _ 2 _ 0); lia.
  - reflexivity.
  - reflexivity.
Qed.

(** C4. The entries of [simplified_table] are Shift(j) as (j << 1) | 1,
    Goto(j) as j << 1, Reduce(A, k) as the pair (name of A, k) and Accept
    as -1.  For actions whose state ids are ids (not negative), decoding
    the entry gives back the variant with its arguments, from the encoded
    value alone; so two actions with the same entry are the same variant
    with the same arguments. *)
Theorem encoding_round_trip (id : LRState -> Z) (a b : Action) :
  ids_valid id a -> ids_valid id b ->
  (forall s, encode id (Shift s) = EInt (Z.lor (Z.shiftl (id s) 1) 1)) /\
  (forall s, encode id (Goto s) = EInt (Z.shiftl (id s) 1)) /\
  (forall A k, encode id (Reduce A k) = EPair (name A) k) /\
  encode id Accept = EInt (-1) /\
  decode (encode id a) = decoded_of id a /\
  (encode id a = encode id b -> decoded_of id a = decoded_of id b).
Proof.
  intros Ha Hb. repeat split; [apply decode_encode, Ha|].
  intros E. rewrite <- (decode_encode id a Ha), <- (decode_encode id b Hb), E.
  reflexivity.
Qed.

Lemma encoding_round_trip_witness :
  decode (encode (fun _ => 3) (Shift [])) = DShift 3 /\
  (encode (fun _ => 3) (Shift []) = encode (fun _ => 3) (Goto []) ->
   DShift 3 = DGoto 3).
Proof.
  pose proof (encoding_round_trip (fun _ => 3) (Shift []) (Goto [])) as H.
  simpl in H. specialize (H ltac:(lia) ltac:(lia)).
  destruct H as (_ & _ & _ & _ & H1 & H2). split; assumption.
Defined.

End EncodingFacts.

(* ------------------------------------------------------------------ *)
(** ** The tokenizer *)

Import Tokenizer.

Lemma get_in_range (s : string) (n : nat) :
  n < String.length s -> exists c, String.get n s = Some c.
Proof.
  revert n. induction s as [|a s IH]; simpl; intros n Hn; [lia|].
  destruct n as [|n]; [eauto|]. apply IH. lia.
Qed.

Lemma char_at_in_range (s : string) (off : Z) :
  (0 <= off < str_len s)%Z -> exists c, char_at s off = Some c.
Proof.
  unfold char_at, str_len. intros H.
  destruct (off <? 0)%Z eqn:E; [lia|]. apply get_in_range. lia.
Qed.

Lemma str_length_app (a b : string) :
  String.length (a ++ b) = String.length a + String.length b.
Proof. induction a as [|c a IH]; simpl; [reflexivity|]. rewrite IH. reflexivity. Qed.

Lemma str_index_newline (c0 : string) (n : nat) :
  n <= String.length c0 ->
  exists i, str_index newline (str_drop n (c0 ++ String newline EmptyString)) = Some i.
Proof.
  revert n. induction c0 as [|a c0 IH]; cbn [String.length]; intros n Hn.
  - assert (n = 0) by lia. subst n. cbn [str_drop append str_index].
    rewrite Ascii.eqb_refl. eauto.
  - destruct n as [|n].
    + cbn [str_drop append str_index].
      destruct (Ascii.eqb a newline); [eauto|].
      destruct (IH 0 ltac:(lia)) as [i Hi]. cbn [str_drop] in Hi.
      rewrite Hi. eauto.
    + cbn [str_drop append]. apply IH. lia.
Qed.

Lemma str_take_index (c : ascii) (s : string) (i : nat) :
  str_index c s = Some i -> String.length (str_take i s) = i.
Proof.
  revert i. induction s as [|a s IH]; simpl; intros i H; [discriminate|].
  destruct (Ascii.eqb a c).
  - inversion H. reflexivity.
  - destruct (str_index c s) as [j|]; [|discriminate].
    inversion H. simpl. rewrite (IH j eq_refl). reflexivity.
Qed.

Lemma list_ascii_app (a b : string) :
  list_ascii_of_string (a ++ b)
  = list_ascii_of_string a ++ list_ascii_of_string b.
Proof. induction a as [|c a IH]; simpl; [reflexivity|]. rewrite IH. reflexivity. Qed.

Lemma str_rev_app (a b : string) :
  str_rev (a ++ b) = (str_rev b ++ str_rev a)%string.
Proof.
  induction a as [|c a IH]; simpl.
  - induction (str_rev b) as [|d r IHr]; simpl; [reflexivity|].
    rewrite <- IHr. reflexivity.
  - rewrite IH. clear IH.
    induction (str_rev b) as [|d r IHr]; simpl; [reflexivity|].
    rewrite IHr. reflexivity.
Qed.

Lemma str_rev_involutive (s : string) : str_rev (str_rev s) = s.
Proof.
  induction s as [|c s IH]; simpl; [reflexivity|].
  rewrite str_rev_app. simpl. rewrite IH. reflexivity.
Qed.

Lemma str_rev_chars (s : string) (c : ascii) :
  In c (list_ascii_of_string (str_rev s)) <-> In c (list_ascii_of_string s).
Proof.
  induction s as [|a s IH]; simpl; [tauto|].
  rewrite list_ascii_app, in_app_iff, IH. simpl. tauto.
Qed.

Section TokenizerFacts.
Variable filename : string.
Variable named_tokens : list (string * string).
Variable isspace : ascii -> bool.
Variable re_match : regex -> string -> option string.

Lemma lstrip_no_space (s : string) :
  (forall c, In c (list_ascii_of_string s) -> isspace c = false) ->
  lstrip isspace s = s.
Proof.
  destruct s as [|a s]; simpl; [reflexivity|].
  intros H. rewrite (H a) by auto. reflexivity.
Qed.

Lemma strip_no_space (s : string) :
  (forall c, In c (list_ascii_of_string s) -> isspace c = false) ->
  strip isspace s = s.
Proof.
  intros H. unfold strip.
  rewrite (lstrip_no_space (str_rev s)).
  - rewrite str_rev_involutive. apply lstrip_no_space, H.
  - intros c Hc. apply H, str_rev_chars, Hc.
Qed.

Lemma insert_by_len_In (x y : string * string) (l : list (string * string)) :
  In x (insert_by_len y l) <-> x = y \/ In x l.
Proof.
  induction l as [|z l IH]; simpl; [intuition congruence|].
  destruct (String.length (fst y) <=? String.length (fst z)); simpl.
  - rewrite IH. intuition congruence.
  - intuition congruence.
Qed.

Lemma sorted_named_tokens_In (x : string * string) :
  In x (sorted_named_tokens named_tokens) <-> In x named_tokens.
Proof.
  unfold sorted_named_tokens.
  assert (G : forall l acc,
             In x (fold_left (fun acc x => insert_by_len x acc) l acc)
             <-> In x l \/ In x acc).
  { induction l as [|y l IH]; intros acc; simpl; [tauto|].
    rewrite IH, insert_by_len_In. intuition congruence. }
  rewrite G. simpl. tauto.
Qed.

Lemma find_keyword_In (st : state) (matching identifier : string) :
  find_keyword named_tokens st = Some (matching, identifier) ->
  In (matching, identifier) named_tokens.
Proof.
  unfold find_keyword. intros H. apply find_some in H.
  apply sorted_named_tokens_In, H.
Qed.

(** What holds at the head of the loop: the text ends with the newline
    of [__init__], and the offset is not negative. *)
Definition loop_inv (st : state) : Prop :=
  (exists code, _code st = (code ++ String newline EmptyString)%string) /\
  (0 <= _code_offset st)%Z.

Lemma init_inv (code : string) : loop_inv (init code).
Proof. split; [exists code; reflexivity | simpl; lia]. Qed.

Lemma current_char_ok (st : state) :
  loop_inv st -> (_code_offset st < str_len (_code st))%Z ->
  exists c, _current_char st = Done c.
Proof.
  intros [_ H0] Hlt. unfold _current_char.
  destruct (char_at_in_range (_code st) (_code_offset st)) as [c Hc]; [lia|].
  rewrite Hc. eauto.
Qed.

Lemma handle_comment_ok (st : state) :
  loop_inv st -> (_code_offset st < str_len (_code st))%Z ->
  exists token st',
    handle_comment filename st = Done (token, st') /\
    token <> TokEOF /\ _code st' = _code st /\
    (_code_offset st <= _code_offset st')%Z.
Proof.
  intros [[code Hc] H0] Hlt. unfold handle_comment, _remaining_code, slice_from.
  destruct (_code_offset st <? 0)%Z eqn:E; [lia|].
  rewrite Hc.
  destruct (str_index_newline code (Z.to_nat (_code_offset st))) as [i Hi].
  { rewrite Hc in Hlt. unfold str_len in Hlt. rewrite str_length_app in Hlt.
    simpl in Hlt. lia. }
  rewrite Hi. eexists _, _. split; [reflexivity|].
  split; [discriminate|]. split; [simpl; exact Hc|].
  simpl. unfold str_len. lia.
Qed.

(** One round of the loop does not raise and moves the offset back by
    one character at most, which [_to_next_char] makes up for. *)
Lemma loop_body_ok (st : state) :
  loop_inv st -> (_code_offset st < str_len (_code st))%Z ->
  exists token st',
    loop_body filename named_tokens isspace re_match st = Done (token, st') /\
    token <> TokEOF /\ _code st' = _code st /\
    (_code_offset st - 1 <= _code_offset st')%Z.
Proof.
  intros Hinv Hlt. unfold loop_body.
  destruct (find_keyword named_tokens st) as [[matching identifier]|].
  { eexists _, _. split; [reflexivity|]. split; [discriminate|].
    split; [reflexivity|]. simpl. unfold str_len. lia. }
  destruct (current_char_ok st Hinv Hlt) as [c Hc]. rewrite Hc.
  destruct (negb (Ascii.eqb c newline) && isspace c).
  { eexists _, _. split; [reflexivity|]. split; [discriminate|].
    split; [reflexivity|]. lia. }
  destruct (Ascii.eqb c hash_sign).
  { destruct (handle_comment_ok st Hinv Hlt) as (t & st' & H1 & H2 & H3 & H4).
    exists t, st'. repeat split; try assumption. lia. }
  destruct (Ascii.eqb c newline).
  { eexists _, _. split; [reflexivity|]. split; [discriminate|].
    split; [reflexivity|]. simpl. lia. }
  unfold _match_number_or_unknown.
  destruct (or_else _ _) as [[lexeme ret_type]|].
  { eexists _, _. split; [reflexivity|]. split; [discriminate|].
    split; [reflexivity|]. simpl. unfold str_len. lia. }
  rewrite Hc.
  destruct (re_match Word (_remaining_code st)) as [w|];
    [destruct (1 <? String.length w)|];
    (eexists _, _; split; [reflexivity|]; split; [discriminate|];
     split; [reflexivity|]; simpl; unfold str_len; lia).
Qed.

Lemma loop_step_inv (st st' : state) (token : Token) :
  loop_inv st -> (_code_offset st < str_len (_code st))%Z ->
  loop_body filename named_tokens isspace re_match st = Done (token, st') ->
  loop_inv (_to_next_char st').
Proof.
  intros Hinv Hlt Hb.
  destruct (loop_body_ok st Hinv Hlt) as (t & s & H1 & _ & H3 & H4).
  rewrite Hb in H1. inversion H1; subst t s.
  destruct Hinv as [[code Hc] H0]. split.
  - exists code. simpl. congruence.
  - simpl. lia.
Qed.

Lemma at_loop_head_inv (code : string) (st : state) :
  at_loop_head filename named_tokens isspace re_match code st -> loop_inv st.
Proof.
  induction 1 as [|st st' token _ IH Hlt Hb]; [apply init_inv|].
  exact (loop_step_inv st st' token IH Hlt Hb).
Qed.

Lemma tokenize_from_no_raise (fuel : nat) (st : state) (e : tok_exn) :
  loop_inv st ->
  tokenize_from filename named_tokens isspace re_match fuel st <> Raise e.
Proof.
  revert st. induction fuel as [|fuel IH]; intros st Hinv; simpl; [discriminate|].
  destruct (_code_offset st <? str_len (_code st))%Z eqn:E; [|discriminate].
  apply Z.ltb_lt in E.
  destruct (loop_body_ok st Hinv E) as (t & st' & H1 & _ & _ & _).
  rewrite H1.
  pose proof (loop_step_inv st st' t Hinv E H1) as Hinv'.
  specialize (IH _ Hinv').
  destruct (tokenize_from _ _ _ _ fuel (_to_next_char st')) as [[tokens st_end]|e'|];
    congruence.
Qed.

(** C10. [handle_comment] never raises: at the head of the loop of
    [_tokenize], in a run on any text, with any keywords, the remaining
    code holds a newline (the one [__init__] appends, at the latest), so
    [index] finds it and [handle_comment] returns its token; and no run
    of the generator ends in ValueError (or any other exception). *)
Theorem handle_comment_never_raises (code : string) (st : state) :
  at_loop_head filename named_tokens isspace re_match code st ->
  (_code_offset st < str_len (_code st))%Z ->
  (exists i, str_index newline (_remaining_code st) = Some i) /\
  (exists token st', handle_comment filename st = Done (token, st')) /\
  (forall fuel e,
      tokenize filename named_tokens isspace re_match fuel code <> Raise e).
Proof.
  intros Hh Hlt. pose proof (at_loop_head_inv code st Hh) as Hinv.
  destruct (handle_comment_ok st Hinv Hlt) as (t & st' & H1 & _).
  split; [|split].
  - unfold handle_comment in H1.
    destruct (str_index newline (_remaining_code st)) as [i|]; [eauto|discriminate].
  - eauto.
  - intros fuel e. apply tokenize_from_no_raise, init_inv.
Qed.

Hypothesis keys_not_empty :
  forall k v, In (k, v) named_tokens -> k <> EmptyString.
Hypothesis number_not_empty :
  forall r s lexeme,
    r = Floatnumber \/ r = Intnumber ->
    re_match r s = Some lexeme -> lexeme <> EmptyString.
Hypothesis word_no_space :
  forall s w c,
    re_match Word s = Some w -> In c (list_ascii_of_string w) ->
    isspace c = false.

Lemma str_len_pos (s : string) : s <> EmptyString -> (1 <= str_len s)%Z.
Proof. destruct s; [congruence|]. unfold str_len. simpl. lia. Qed.

Lemma match_number_not_empty (st : state) (r : regex) (lexeme ty : string) :
  _match_number re_match st r = Some (lexeme, ty) -> lexeme <> EmptyString.
Proof.
  unfold _match_number.
  destruct (re_match r _) as [l|] eqn:E; [|discriminate].
  destruct r; try discriminate; intros H; inversion H; subst.
  - exact (number_not_empty Floatnumber _ _ (or_introl eq_refl) E).
  - exact (number_not_empty Intnumber _ _ (or_intror eq_refl) E).
Qed.

(** With keywords that are not empty, a round of the loop does not move
    the offset back. *)
Lemma loop_body_progress (st st' : state) (token : Token) :
  loop_inv st -> (_code_offset st < str_len (_code st))%Z ->
  loop_body filename named_tokens isspace re_match st = Done (token, st') ->
  (_code_offset st <= _code_offset st')%Z.
Proof.
  intros Hinv Hlt. unfold loop_body.
  destruct (find_keyword named_tokens st) as [[matching identifier]|] eqn:Ek.
  { intros H. inversion H; subst. simpl.
    apply find_keyword_In, keys_not_empty, str_len_pos in Ek. lia. }
  destruct (current_char_ok st Hinv Hlt) as [c Hc]. rewrite Hc.
  destruct (negb (Ascii.eqb c newline) && isspace c).
  { intros H. inversion H; subst. lia. }
  destruct (Ascii.eqb c hash_sign).
  { intros H.
    destruct (handle_comment_ok st Hinv Hlt) as (t & s & H1 & _ & _ & H4).
    rewrite H in H1. inversion H1; subst. exact H4. }
  destruct (Ascii.eqb c newline).
  { intros H. inversion H; subst. simpl. lia. }
  unfold _match_number_or_unknown.
  destruct (or_else _ _) as [[lexeme ret_type]|] eqn:Eo.
  { intros H. inversion H; subst. simpl.
    assert (lexeme <> EmptyString) as Hne.
    { unfold or_else in Eo.
      destruct (_match_number re_match st Imagnumber) as [p|] eqn:E1.
      - inversion Eo; subst. eapply match_number_not_empty; eauto.
      - destruct (_match_number re_match st Floatnumber) as [p|] eqn:E2.
        + inversion Eo; subst. eapply match_number_not_empty; eauto.
        + eapply match_number_not_empty; eauto. }
    apply str_len_pos in Hne. lia. }
  rewrite Hc.
  destruct (re_match Word (_remaining_code st)) as [w|] eqn:Ew;
    [destruct (1 <? String.length w) eqn:El|].
  - intros H. inversion H; subst. simpl.
    rewrite strip_no_space by (intros c' Hc'; eapply word_no_space; eauto).
    apply Nat.ltb_lt in El. unfold str_len. lia.
  - intros H. inversion H; subst. simpl. unfold str_len. simpl. lia.
  - intros H. inversion H; subst. simpl. unfold str_len. simpl. lia.
Qed.

Lemma tokenize_from_total (fuel : nat) (st : state) :
  loop_inv st ->
  Z.to_nat (str_len (_code st) - _code_offset st) < fuel ->
  exists tokens st_end,
    tokenize_from filename named_tokens isspace re_match fuel st
    = Done (tokens ++ [TokEOF], st_end) /\
    ~ In TokEOF tokens /\
    _code st_end = _code st /\
    (str_len (_code st) <= _code_offset st_end)%Z.
Proof.
  revert st. induction fuel as [|fuel IH]; intros st Hinv Hf; [lia|].
  simpl. destruct (_code_offset st <? str_len (_code st))%Z eqn:E.
  - apply Z.ltb_lt in E.
    destruct (loop_body_ok st Hinv E) as (t & st' & H1 & Ht & Hcode & _).
    rewrite H1.
    pose proof (loop_body_progress st st' t Hinv E H1) as Hp.
    pose proof (loop_step_inv st st' t Hinv E H1) as Hinv'.
    destruct (IH (_to_next_char st') Hinv') as (toks & st_end & H2 & H3 & H4 & H5).
    { simpl. rewrite Hcode. lia. }
    rewrite H2. exists (t :: toks), st_end. simpl in *.
    repeat split.
    + intros [Heq|Hin]; [congruence|contradiction].
    + congruence.
    + rewrite <- Hcode. exact H5.
  - apply Z.ltb_ge in E. exists [], st. simpl. repeat split; auto.
Qed.

Lemma tokenize_from_more_fuel (fuel fuel' : nat) (st : state)
      (r : list Token * state) :
  tokenize_from filename named_tokens isspace re_match fuel st = Done r ->
  fuel <= fuel' ->
  tokenize_from filename named_tokens isspace re_match fuel' st = Done r.
Proof.
  revert fuel' st r. induction fuel as [|fuel IH]; intros fuel' st r;
    simpl; [discriminate|].
  intros H Hle. destruct fuel' as [|fuel']; [lia|]. simpl.
  destruct (_code_offset st <? str_len (_code st))%Z; [|exact H].
  destruct (loop_body _ _ _ _ st) as [[t st']|e|]; try discriminate.
  destruct (tokenize_from _ _ _ _ fuel (_to_next_char st')) as [[toks se]|e|] eqn:E;
    try discriminate.
  rewrite (IH fuel' _ _ E) by lia. exact H.
Qed.


End TokenizerFacts.

Lemma handle_comment_never_raises_witness :
  exists token st',
    handle_comment "f"%string (init "#"%string) = Done (token, st').
Proof.
  apply (handle_comment_never_raises
           "f"%string [] (fun _ => false) (fun _ _ => None)
           "#"%string (init "#"%string)).
  - apply head_init.
  - vm_compute. reflexivity.
Defined.


(** Why the keywords must not be empty: an empty keyword is a prefix of
    any remaining code, its round of the loop skips -1 characters and
    [_to_next_char] moves on by one, so the offset stays where it is
    and EOF is never reached, whatever number of rounds is given. *)
Lemma empty_keyword_stalls (fuel : nat) :
  tokenize "f"%string [(EmptyString, "x"%string)] (fun _ => false)
           (fun _ _ => None) fuel "a"%string
  = NoFuel.
Proof.
  unfold tokenize. induction fuel as [|fuel IH]; [reflexivity|].
  cbn [tokenize_from].
  change (_code_offset (init "a") <? str_len (_code (init "a")))%Z with true.
  cbv iota.
  change (loop_body "f"%string [(EmptyString, "x"%string)] (fun _ => false)
                    (fun _ _ => None) (init "a"))
    with (Done (Tok "x" EmptyString (mkLoc "f" 0 0 0),
                _skip_n_chars (init "a") (-1))).
  cbv iota beta.
  change (_to_next_char (_skip_n_chars (init "a") (-1))) with (init "a").
  rewrite IH. reflexivity.
Qed.


(* ------------------------------------------------------------------ *)
(** ** closure *)

Lemma LRState_append_cases (s : LRState) (it : LR1Item) :
  (In it s /\ LRState_append s it = s) \/
  (~ In it s /\ LRState_append s it = s ++ [it]).
Proof.
  unfold LRState_append. destruct (in_dec item_eq_dec it s); [left|right]; auto.
Qed.

(** Appending a list of items: the state grows at its end, by items of
    the list that were not there, each once; afterwards every item of the
    list is there. *)
Lemma append_all_spec (l : list LR1Item) (items : LRState) :
  exists added,
    append_all items l = items ++ added /\
    NoDup added /\
    (forall n, In n added -> In n l /\ ~ In n items) /\
    (forall n, In n l -> In n (items ++ added)).
Proof.
  unfold append_all. revert items.
  induction l as [|a l IH]; intros items; simpl.
  - exists []. rewrite app_nil_r.
    split; [reflexivity|]. split; [constructor|].
    split; intros n Hn; contradiction.
  - destruct (LRState_append_cases items a) as [[Hin ->]|[Hnin ->]].
    + destruct (IH items) as (added & E & Hnd & Hnew & Hall).
      exists added. split; [exact E|]. split; [exact Hnd|]. split.
      * intros n Hn. destruct (Hnew n Hn) as [H1 H2]. split; [right|]; assumption.
      * intros n [<-|Hn]; [apply in_or_app; auto | auto].
    + destruct (IH (items ++ [a])) as (added & E & Hnd & Hnew & Hall).
      exists (a :: added). rewrite E, <- app_assoc. simpl.
      split; [reflexivity|]. split; [|split].
      * constructor; [|exact Hnd].
        intros Ha. apply Hnew in Ha. destruct Ha as [_ Ha].
        apply Ha, in_or_app. right. left. reflexivity.
      * intros n [<-|Hn]; [split; [left; reflexivity | exact Hnin]|].
        destruct (Hnew n Hn) as [H1 H2]. split; [right; exact H1|].
        intros Hi. apply H2, in_or_app. left. exact Hi.
      * intros n [<-|Hn].
        -- apply in_or_app. right. left. reflexivity.
        -- specialize (Hall n Hn). rewrite <- app_assoc in Hall. exact Hall.
Qed.

Lemma append_all_present (l : list LR1Item) (items : LRState) :
  (forall n, In n l -> In n items) -> append_all items l = items.
Proof.
  unfold append_all. induction l as [|a l IH]; simpl; intros H; [reflexivity|].
  destruct (LRState_append_cases items a) as [[_ ->]|[Hnin _]].
  - apply IH. intros n Hn. apply H. right. exact Hn.
  - exfalso. apply Hnin, H. left. reflexivity.
Qed.

Lemma fold_left_flat_map {A B C : Type} (f : A -> C -> A) (h : B -> list C)
      (l : list B) (a : A) :
  fold_left f (flat_map h l) a
  = fold_left (fun acc x => fold_left f (h x) acc) l a.
Proof.
  revert a. induction l as [|x l IH]; intros a; simpl; [reflexivity|].
  rewrite fold_left_app. apply IH.
Qed.

Lemma fold_left_map {A B C : Type} (f : A -> C -> A) (h : B -> C)
      (l : list B) (a : A) :
  fold_left f (map h l) a = fold_left (fun acc x => f acc (h x)) l a.
Proof.
  revert a. induction l as [|x l IH]; intros a; simpl; [reflexivity|]. apply IH.
Qed.

Lemma fold_left_ext {A B : Type} (f f' : A -> B -> A) (l : list B) (a : A) :
  (forall a x, f a x = f' a x) -> fold_left f l a = fold_left f' l a.
Proof.
  intros H. revert a. induction l as [|x l IH]; intros a; simpl; [reflexivity|].
  rewrite H. apply IH.
Qed.

Lemma expand_item_eq (g : Grammar) (items : LRState) (x : Symbol)
      (beta : list Symbol) (la : Symbol) :
  expand_item g items x beta la
  = append_all items (item_expansions g x beta la).
Proof.
  unfold expand_item, append_all, item_expansions.
  rewrite fold_left_flat_map.
  apply fold_left_ext. intros acc gamma. rewrite fold_left_map. reflexivity.
Qed.

Lemma unfinished_has_next (it : LR1Item) :
  completed it = false -> exists x, nth_error (rule it) (dot it) = Some x.
Proof.
  unfold completed. intros H. apply Nat.leb_gt in H.
  pose proof (Expansion_len_le (rule it)) as Hle.
  destruct (nth_error (rule it) (dot it)) as [x|] eqn:E; [eauto|].
  apply nth_error_None in E. lia.
Qed.

Lemma next_symbol_Some (it : LR1Item) (x : Symbol) :
  next_symbol it = Some x <->
  completed it = false /\ nth_error (rule it) (dot it) = Some x.
Proof.
  unfold next_symbol. destruct (completed it); split.
  - discriminate.
  - intros [H _]. discriminate.
  - auto.
  - intros [_ H]. exact H.
Qed.

(** On a rule without [EMPTY] the symbol after the dot is the one at
    the position of the dot. *)
Lemma next_symbol_plain_rule (it : LR1Item) :
  ~ In EMPTY (rule it) -> next_symbol it = nth_error (rule it) (dot it).
Proof.
  intros H. unfold next_symbol, completed, Expansion_len.
  rewrite (proj1 (count_occ_not_In Symbol_eq_dec (rule it) EMPTY) H).
  rewrite Nat.sub_0_r.
  destruct (length (rule it) <=? dot it) eqn:E; [|reflexivity].
  apply Nat.leb_le in E. symmetry. apply nth_error_None. exact E.
Qed.

Lemma In_item_expansions (g : Grammar) (x : Symbol) (beta : list Symbol)
      (la : Symbol) (n : LR1Item) :
  In n (item_expansions g x beta la) <->
  exists gamma w,
    In gamma (Grammar_getitem g x) /\
    In w (first_sentential_form g (beta ++ [la])) /\
    n = mkItem x 0 gamma w.
Proof.
  unfold item_expansions. rewrite in_flat_map. split.
  - intros (gamma & Hg & Hn). apply in_map_iff in Hn.
    destruct Hn as (w & <- & Hw). eauto.
  - intros (gamma & w & Hg & Hw & ->). exists gamma. split; [exact Hg|].
    apply in_map_iff. eauto.
Qed.

Lemma In_expansions (g : Grammar) (it n : LR1Item) :
  In n (expansions g it) <->
  exists B gamma b,
    next_symbol it = Some B /\ is_NonTerminal B = true /\
    In gamma (Grammar_getitem g B) /\
    In b (first_sentential_form
            g (skipn (S (dot it)) (rule it) ++ [lookahead it])) /\
    n = mkItem B 0 gamma b.
Proof.
  unfold expansions. destruct (next_symbol it) as [x|].
  - destruct (is_NonTerminal x) eqn:E.
    + rewrite In_item_expansions. split.
      * intros (gamma & w & H1 & H2 & H3). exists x, gamma, w. auto.
      * intros (B & gamma & b & H0 & _ & H1 & H2 & H3).
        inversion H0; subst B. eauto.
    + split; [intros []|].
      intros (B & gamma & b & H0 & H1 & _). inversion H0; subst B. congruence.
  - split; [intros []|].
    intros (B & gamma & b & H0 & _). discriminate.
Qed.

Lemma closed_under_rule_expansions (g : Grammar) (J : LR1Item -> Prop) :
  closed_under_rule g J <->
  (forall it n, J it -> In n (expansions g it) -> J n).
Proof.
  split.
  - intros H it n Hit Hn. apply In_expansions in Hn.
    destruct Hn as (B & gamma & b & H0 & H1 & H2 & H3 & ->). eauto.
  - intros H it B gamma b Hit H0 H1 H2 H3. apply (H it); [exact Hit|].
    apply In_expansions. exists B, gamma, b. auto.
Qed.

(** What the loop does with the flag at one item. *)
Definition changing_after (g : Grammar) (it : LR1Item) (items : LRState)
           (changing : bool) : bool :=
  match next_symbol it with
  | Some x =>
      if is_NonTerminal x
      then negb (length (append_all items (expansions g it)) =? length items)
      else changing
  | None => changing
  end.

(** One round of the [for] loop: the item at [k] gets its expansions
    appended. *)
Lemma closure_for_step (g : Grammar) (fuel k : nat) (items : LRState)
      (changing : bool) :
  closure_for g (S fuel) k items changing
  = match nth_error items k with
    | None => Ok (items, changing)
    | Some it =>
        closure_for g fuel (S k) (append_all items (expansions g it))
                    (changing_after g it items changing)
    end.
Proof.
  simpl. destruct (nth_error items k) as [it|]; [|reflexivity].
  unfold changing_after, expansions, next_symbol.
  destruct (completed it) eqn:Ec; [reflexivity|].
  destruct (unfinished_has_next it Ec) as [x Hx]. rewrite Hx.
  destruct (is_NonTerminal x); [|reflexivity].
  rewrite expand_item_eq. reflexivity.
Qed.

(** A state whose items all have their expansions goes through the
    loop unchanged, and the flag stays down. *)
Lemma closure_for_closed (g : Grammar) (fuel k : nat) (items : LRState) :
  (forall it n, In it items -> In n (expansions g it) -> In n items) ->
  length items - k < fuel ->
  closure_for g fuel k items false = Ok (items, false).
Proof.
  intros Hc. revert k. induction fuel as [|fuel IH]; intros k Hf; [lia|].
  rewrite closure_for_step.
  destruct (nth_error items k) as [it|] eqn:E; [|reflexivity].
  assert (Hit : In it items) by (eapply nth_error_In; eauto).
  assert (Hk : k < length items) by (apply nth_error_Some; congruence).
  assert (Hsame : append_all items (expansions g it) = items).
  { apply append_all_present. intros n Hn. eapply Hc; eauto. }
  unfold changing_after. rewrite Hsame, Nat.eqb_refl. simpl.
  replace (match next_symbol it with
           | Some x => if is_NonTerminal x then false else false
           | None => false
           end) with false
    by (destruct (next_symbol it) as [x|]; [destruct (is_NonTerminal x)|];
        reflexivity).
  apply IH. lia.
Qed.

(** *** The items closure can add are finitely many *)

Lemma Grammar_getitem_alternatives (g : Grammar) (x : Symbol) (gamma : Expansion) :
  In gamma (Grammar_getitem g x) -> In gamma (all_alternatives g).
Proof.
  unfold Grammar_getitem, all_alternatives.
  destruct (find _ (productions g)) as [p|] eqn:E; [|intros []].
  intros H. apply find_some in E. apply in_flat_map. exists p. tauto.
Qed.

Lemma first_subset (g : Grammar) (x w : Symbol) :
  In w (first g x) -> w = x \/ In w (flat_map snd (first_set g)).
Proof.
  unfold first. destruct (is_Terminal x).
  - intros [<-|[]]. left. reflexivity.
  - destruct (find _ (first_set g)) as [p|] eqn:E; [|intros []].
    intros H. right. apply find_some in E. apply in_flat_map. exists p. tauto.
Qed.

Lemma first_sentential_form_subset (g : Grammar) (gamma : list Symbol)
      (w : Symbol) :
  In w (first_sentential_form g gamma) ->
  w = EMPTY \/ In w gamma \/ In w (flat_map snd (first_set g)).
Proof.
  induction gamma as [|x rest IH]; simpl.
  - intros [<-|[]]. left. reflexivity.
  - destruct (nullable g x).
    + rewrite nodup_In, in_app_iff, filter_In. intros [[H _]|H].
      * apply first_subset in H. destruct H as [->|H]; auto.
      * apply IH in H. tauto.
    + intros H. apply first_subset in H. destruct H as [->|H]; auto.
Qed.

Lemma In_skipn {A : Type} (n : nat) (l : list A) (x : A) :
  In x (skipn n l) -> In x l.
Proof.
  intros H. rewrite <- (firstn_skipn n l). apply in_or_app. right. exact H.
Qed.

(** An item whose rule and lookahead are in sight has its expansions
    among the candidates. *)
Definition in_sight (g : Grammar) (I : LRState) (it : LR1Item) : Prop :=
  incl (rule it) (rule_symbols g I) /\
  In (lookahead it) (lookahead_symbols g I).

Lemma In_closure_candidates (g : Grammar) (I : LRState) (n : LR1Item) :
  In n (closure_candidates g I) <->
  exists x gamma w,
    In x (rule_symbols g I) /\ In gamma (all_alternatives g) /\
    In w (lookahead_symbols g I) /\ n = mkItem x 0 gamma w.
Proof.
  unfold closure_candidates. rewrite in_flat_map. split.
  - intros (x & Hx & H). apply in_flat_map in H. destruct H as (gamma & Hg & H).
    apply in_map_iff in H. destruct H as (w & <- & Hw). exists x, gamma, w. auto.
  - intros (x & gamma & w & Hx & Hg & Hw & ->). exists x. split; [exact Hx|].
    apply in_flat_map. exists gamma. split; [exact Hg|].
    apply in_map_iff. eauto.
Qed.

Lemma in_sight_initial (g : Grammar) (I : LRState) (it : LR1Item) :
  In it I -> in_sight g I it.
Proof.
  intros H. split.
  - intros s Hs. unfold rule_symbols. apply in_or_app. left.
    apply in_flat_map. eauto.
  - unfold lookahead_symbols. right. apply in_or_app. left.
    apply in_map. exact H.
Qed.

Lemma in_sight_candidate (g : Grammar) (I : LRState) (n : LR1Item) :
  In n (closure_candidates g I) -> in_sight g I n.
Proof.
  intros H. apply In_closure_candidates in H.
  destruct H as (x & gamma & w & Hx & Hg & Hw & ->). split; simpl.
  - intros s Hs. unfold rule_symbols. apply in_or_app. right.
    apply in_concat. eauto.
  - exact Hw.
Qed.

Lemma expansions_candidates (g : Grammar) (I : LRState) (it n : LR1Item) :
  in_sight g I it -> In n (expansions g it) -> In n (closure_candidates g I).
Proof.
  intros [Hr Hl] Hn. apply In_expansions in Hn.
  destruct Hn as (B & gamma & b & H0 & _ & Hg & Hb & ->).
  apply next_symbol_Some in H0. destruct H0 as [_ H0].
  apply In_closure_candidates. exists B, gamma, b.
  split; [|split; [|split]].
  - apply Hr. eapply nth_error_In; eauto.
  - apply Grammar_getitem_alternatives in Hg. exact Hg.
  - apply first_sentential_form_subset in Hb.
    unfold lookahead_symbols.
    destruct Hb as [->|[Hb|Hb]].
    + left. reflexivity.
    + apply in_app_iff in Hb. destruct Hb as [Hb|[<-|[]]].
      * right. apply in_or_app. right. apply in_or_app. left.
        apply Hr. eapply In_skipn. exact Hb.
      * exact Hl.
    + right. apply in_or_app. right. apply in_or_app. right. exact Hb.
  - reflexivity.
Qed.

(** *** The loop *)

(** The states the loop goes through, from [I]: [I] followed by
    candidates, each once. *)
Definition grown_from (g : Grammar) (I items : LRState) : Prop :=
  exists added,
    items = I ++ added /\ NoDup added /\
    incl added (closure_candidates g I).

Lemma grown_from_refl (g : Grammar) (I : LRState) : grown_from g I I.
Proof.
  exists []. rewrite app_nil_r. split; [reflexivity|].
  split; [constructor|]. intros x [].
Qed.

Lemma grown_from_length (g : Grammar) (I items : LRState) :
  grown_from g I items ->
  length items <= length I + length (closure_candidates g I).
Proof.
  intros (added & -> & Hnd & Hincl). rewrite length_app.
  pose proof (NoDup_incl_length Hnd Hincl). lia.
Qed.

Lemma grown_from_in_sight (g : Grammar) (I items : LRState) (it : LR1Item) :
  grown_from g I items -> In it items -> in_sight g I it.
Proof.
  intros (added & -> & _ & Hincl) Hit. apply in_app_iff in Hit.
  destruct Hit as [Hit|Hit].
  - apply in_sight_initial, Hit.
  - apply in_sight_candidate, Hincl, Hit.
Qed.

Lemma grown_from_step (g : Grammar) (I items : LRState) (it : LR1Item) :
  grown_from g I items -> In it items ->
  grown_from g I (append_all items (expansions g it)).
Proof.
  intros Hg Hit. pose proof (grown_from_in_sight g I items it Hg Hit) as Hs.
  destruct Hg as (added & -> & Hnd & Hincl).
  destruct (append_all_spec (expansions g it) (I ++ added))
    as (added' & E & Hnd' & Hnew & _).
  exists (added ++ added'). rewrite E, app_assoc.
  split; [reflexivity|]. split.
  - apply NoDup_app; [exact Hnd | exact Hnd' |].
    intros x Hx Hx'. apply Hnew in Hx'. destruct Hx' as [_ Hx'].
    apply Hx', in_or_app. right. exact Hx.
  - intros x Hx. apply in_app_iff in Hx. destruct Hx as [Hx|Hx].
    + apply Hincl, Hx.
    + apply Hnew in Hx. destruct Hx as [Hx _].
      eapply expansions_candidates; eauto.
Qed.

Lemma closure_for_spec (g : Grammar) (I : LRState) (fuel : nat) :
  forall (k : nat) (items : LRState) (changing : bool),
    grown_from g I items ->
    (forall i it, i < k -> nth_error items i = Some it ->
                  incl (expansions g it) items) ->
    k <= length items ->
    length I + length (closure_candidates g I) - k < fuel ->
    exists R c,
      closure_for g fuel k items changing = Ok (R, c) /\
      grown_from g I R /\
      (exists more, R = items ++ more) /\
      (forall it n, In it R -> In n (expansions g it) -> In n R) /\
      (forall J : LR1Item -> Prop,
          (forall it n, J it -> In n (expansions g it) -> J n) ->
          (forall it, In it items -> J it) ->
          forall it, In it R -> J it).
Proof.
  induction fuel as [|fuel IH]; intros k items changing Hg Hdone Hk Hf; [lia|].
  rewrite closure_for_step.
  destruct (nth_error items k) as [it|] eqn:E.
  - assert (Hit : In it items) by (eapply nth_error_In; eauto).
    assert (Hlt : k < length items) by (apply nth_error_Some; congruence).
    pose proof (grown_from_step g I items it Hg Hit) as Hg'.
    destruct (append_all_spec (expansions g it) items)
      as (added & Eq & _ & Hnew & Hall).
    destruct (IH (S k) (append_all items (expansions g it))
                 (changing_after g it items changing) Hg')
      as (R & c & H1 & H2 & (more & H3) & H4 & H5).
    + intros i it0 Hi Hnth. rewrite Eq in Hnth |- *.
      rewrite nth_error_app1 in Hnth by lia.
      destruct (Nat.eq_dec i k) as [->|Hne].
      * rewrite E in Hnth. inversion Hnth; subst it0.
        intros n Hn. apply Hall, Hn.
      * apply incl_appl. apply (Hdone i it0); [lia | exact Hnth].
    + rewrite Eq, length_app. lia.
    + pose proof (grown_from_length g I _ Hg). lia.
    + exists R, c. split; [exact H1|]. split; [exact H2|]. split; [|split].
      * exists (added ++ more). rewrite H3, Eq, app_assoc. reflexivity.
      * exact H4.
      * intros J HJ Hitems. apply H5; [exact HJ|].
        intros it0 Hit0. rewrite Eq in Hit0. apply in_app_iff in Hit0.
        destruct Hit0 as [Hit0|Hit0]; [apply Hitems, Hit0|].
        apply Hnew in Hit0. destruct Hit0 as [Hit0 _].
        apply (HJ it); [apply Hitems, Hit | exact Hit0].
  - exists items, changing. split; [reflexivity|]. split; [exact Hg|].
    split; [exists []; rewrite app_nil_r; reflexivity|]. split.
    + intros it n Hit Hn. apply In_nth_error in Hit. destruct Hit as [i Hi].
      apply nth_error_None in E.
      assert (i < length items) by (apply nth_error_Some; congruence).
      apply (Hdone i it); [lia | exact Hi | exact Hn].
    + intros J _ Hitems. exact Hitems.
Qed.

(** [closure] returns: the first round of the [while] loop ends with a
    state that has all its expansions, and a second round, if the flag
    asks for one, leaves that state as it is. *)
Lemma closure_spec (g : Grammar) (I : LRState) :
  exists R,
    closure g I = Ok R /\
    grown_from g I R /\
    (forall it n, In it R -> In n (expansions g it) -> In n R) /\
    (forall J : LR1Item -> Prop,
        (forall it n, J it -> In n (expansions g it) -> J n) ->
        (forall it, In it I -> J it) ->
        forall it, In it R -> J it).
Proof.
  unfold closure, closure_fuel.
  remember (length I + length (closure_candidates g I)) as B eqn:EB.
  destruct (closure_for_spec g I (S B) 0 I false (grown_from_refl g I))
    as (R & c & H1 & H2 & _ & H4 & H5).
  { intros i it Hi. lia. }
  { lia. }
  { lia. }
  exists R. split; [|auto].
  cbn [closure_while]. rewrite H1. cbn [bind snd fst].
  destruct c; [|reflexivity].
  pose proof (grown_from_length g I R H2) as Hlen. rewrite <- EB in Hlen.
  destruct B as [|B'].
  - (* no room to grow: the state is empty and the flag is down *)
    exfalso. assert (I = []) by (destruct I; [reflexivity|simpl in *; lia]).
    subst I. simpl in H1. inversion H1.
  - cbn [closure_while].
    rewrite (closure_for_closed g (S (S B')) 0 R H4) by lia.
    reflexivity.
Qed.

Lemma closure_of_closed (g : Grammar) (R : LRState) :
  (forall it n, In it R -> In n (expansions g it) -> In n R) ->
  closure g R = Ok R.
Proof.
  intros H. unfold closure, closure_fuel. cbn [closure_while].
  rewrite (closure_for_closed g _ 0 R H) by lia. reflexivity.
Qed.

Lemma closure_monotone (g : Grammar) (I K RI RK : LRState) :
  incl I K -> closure g I = Ok RI -> closure g K = Ok RK -> incl RI RK.
Proof.
  intros Hincl HI HK.
  destruct (closure_spec g I) as (R & E & _ & _ & Hleast).
  rewrite HI in E. inversion E; subst R.
  destruct (closure_spec g K) as (R & E' & (added & -> & _) & Hclosed & _).
  rewrite HK in E'. inversion E'; subst RK.
  intros it Hit. apply (Hleast (fun it => In it (K ++ added))); auto.
  intros it0 Hit0. apply in_or_app. left. apply Hincl, Hit0.
Qed.

Lemma LRState_union_incl (I J : LRState) :
  incl I (LRState_union I J) /\ incl J (LRState_union I J).
Proof.
  unfold LRState_union.
  destruct (append_all_spec J I) as (added & -> & _ & _ & Hall). split.
  - apply incl_appl, incl_refl.
  - exact Hall.
Qed.

(* ------------------------------------------------------------------ *)
(** ** Loops that thread a result *)

Lemma bind_Ok {A B : Type} (c : result A) (k : A -> result B) (b : B) :
  bind c k = Ok b -> exists a, c = Ok a /\ k a = Ok b.
Proof. destruct c as [a|e|]; simpl; intros H; [eauto | discriminate..]. Qed.

Lemma fold_bind_not_Ok {A X : Type} (f : A -> X -> result A) (l : list X)
      (acc : result A) :
  (forall t, acc <> Ok t) ->
  fold_left (fun acc x => t <- acc ;; f t x) l acc = acc.
Proof.
  revert acc. induction l as [|x l IH]; intros acc H; simpl; [reflexivity|].
  destruct acc as [t|e|]; [exfalso; eapply H; reflexivity | |];
    simpl; apply IH; discriminate.
Qed.

(** A property of the start that every round keeps holds at the end. *)
Lemma fold_bind_inv {A X : Type} (f : A -> X -> result A) (P : A -> Prop)
      (l : list X) :
  forall (t0 t' : A),
    fold_left (fun acc x => t <- acc ;; f t x) l (Ok t0) = Ok t' ->
    P t0 ->
    (forall t x t1, In x l -> P t -> f t x = Ok t1 -> P t1) ->
    P t'.
Proof.
  induction l as [|x l IH]; intros t0 t' H H0 Hstep; simpl in H.
  - inversion H; subst. exact H0.
  - destruct (f t0 x) as [t1|e|] eqn:E.
    + apply (IH t1 t' H).
      * apply (Hstep t0 x t1); auto. left. reflexivity.
      * intros t y t2 Hy. apply Hstep. right. exact Hy.
    + rewrite fold_bind_not_Ok in H by discriminate. discriminate.
    + rewrite fold_bind_not_Ok in H by discriminate. discriminate.
Qed.

(* ------------------------------------------------------------------ *)
(** ** [construct] reports no conflict *)

Lemma bind_no_conflict {A B : Type} (c : result A) (k : A -> result B) :
  no_conflict_raised c -> (forall a, no_conflict_raised (k a)) ->
  no_conflict_raised (bind c k).
Proof. destruct c as [a|e|]; simpl; auto. Qed.

Lemma fold_left_keeps {A X : Type} (P : A -> Prop) (F : A -> X -> A)
      (l : list X) (acc : A) :
  P acc -> (forall acc x, P acc -> P (F acc x)) -> P (fold_left F l acc).
Proof.
  intros H0 HF. revert acc H0.
  induction l as [|x l IH]; intros acc H0; simpl; auto.
Qed.

Lemma closure_no_conflict (g : Grammar) (I : LRState) :
  no_conflict_raised (closure g I).
Proof. destruct (closure_spec g I) as (R & -> & _). simpl. trivial. Qed.

Lemma goto_no_conflict (g : Grammar) (s : LRState) (sym : Symbol) :
  no_conflict_raised (goto g s sym).
Proof.
  unfold goto, goto_new_items. destruct (Symbol_eqb sym EMPTY); [simpl; trivial|].
  apply bind_no_conflict; [|intros; apply closure_no_conflict].
  apply fold_left_keeps; [simpl; trivial|].
  intros acc it Hacc. apply bind_no_conflict; [exact Hacc|].
  intros new_items. destruct (nth_error (rule it) (dot it)) as [x|];
    [destruct (Symbol_eqb x sym)|]; simpl; trivial.
Qed.

Lemma get_items_no_conflict (g : Grammar) (symbols : list Symbol) (fuel : nat) :
  no_conflict_raised (get_items g symbols fuel).
Proof.
  unfold get_items, init_kernel, init_item.
  apply bind_no_conflict.
  { destruct (Grammar_getitem g (start_symbol g)); simpl; trivial. }
  intros k. apply bind_no_conflict; [apply closure_no_conflict|].
  intros s0. generalize [s0]. induction fuel as [|fuel IH]; intros items;
    simpl; [trivial|].
  apply bind_no_conflict.
  - unfold get_items_pass. apply fold_left_keeps; [simpl; trivial|].
    intros acc state Hacc. apply fold_left_keeps; [exact Hacc|].
    intros acc' X Hacc'. apply bind_no_conflict; [exact Hacc'|].
    intros r. unfold explore.
    apply bind_no_conflict; [apply goto_no_conflict|].
    intros next_set. destruct next_set; [simpl; trivial|].
    destruct (LRState_in g _ (fst r)); simpl; trivial.
  - intros r. destruct (snd r); [apply IH | simpl; trivial].
Qed.

Lemma assign_targets_no_conflict (g : Grammar) (act : LRState -> Action)
      (items : list LRState) (state_i : LRState) (a : Symbol) (tbl : LRTable) :
  no_conflict_raised (assign_targets g act items state_i a tbl).
Proof.
  unfold assign_targets. apply fold_left_keeps; [simpl; trivial|].
  intros acc I_j Hacc. apply bind_no_conflict; [exact Hacc|].
  intros t. apply bind_no_conflict; [apply goto_no_conflict|].
  intros j. destruct (LRState_eqb g j I_j); simpl; trivial.
Qed.

(** For every grammar, whatever [construct] ends in, it is not the
    report of a conflict. *)
Lemma construct_no_conflict (g : Grammar) (symbols : list Symbol) (fuel : nat) :
  no_conflict_raised (construct g symbols fuel).
Proof.
  unfold construct.
  apply bind_no_conflict; [apply get_items_no_conflict|].
  intros items. apply bind_no_conflict; [|intros; simpl; trivial].
  unfold construct_table. apply fold_left_keeps; [simpl; trivial|].
  intros acc state_i Hacc. apply bind_no_conflict; [exact Hacc|].
  intros t. unfold construct_state. apply bind_no_conflict.
  - apply fold_left_keeps; [simpl; trivial|].
    intros acc' item Hacc'. apply bind_no_conflict; [exact Hacc'|].
    intros t'. unfold construct_item.
    destruct (completed item).
    + destruct (_ && _); [simpl; trivial|].
      destruct (negb _); simpl; trivial.
    + destruct (nth_error (rule item) (dot item)); [|simpl; trivial].
      apply assign_targets_no_conflict.
  - intros t1. apply fold_left_keeps; [simpl; trivial|].
    intros acc' nt Hacc'. apply bind_no_conflict; [exact Hacc'|].
    intros t'. apply assign_targets_no_conflict.
Qed.

(* ------------------------------------------------------------------ *)
(** ** goto *)

Lemma item_eqb_eq (a b : LR1Item) : item_eqb a b = true <-> a = b.
Proof. unfold item_eqb. destruct (item_eq_dec a b); split; congruence. Qed.

(** The items [goto] collects before it closes them: the items of the
    state with [sym] after the dot, advanced. *)
Definition has_next (sym : Symbol) (it : LR1Item) : bool :=
  match next_symbol it with
  | Some x => Symbol_eqb x sym
  | None => false
  end.

Definition goto_kernel (s : LRState) (sym : Symbol) : LRState :=
  append_all [] (map advance (filter (has_next sym) s)).

Lemma append_all_nil_In (l : list LR1Item) (n : LR1Item) :
  In n (append_all [] l) <-> In n l.
Proof.
  destruct (append_all_spec l []) as (added & E & _ & Hnew & Hall).
  rewrite E. simpl. split; [apply Hnew | apply Hall].
Qed.

Lemma append_all_nil_NoDup (l : list LR1Item) : NoDup (append_all [] l).
Proof.
  destruct (append_all_spec l []) as (added & E & Hnd & _).
  rewrite E. exact Hnd.
Qed.

Lemma In_goto_kernel (s : LRState) (sym : Symbol) (n : LR1Item) :
  In n (goto_kernel s sym) <->
  exists it, In it s /\ next_symbol it = Some sym /\ n = advance it.
Proof.
  unfold goto_kernel. rewrite append_all_nil_In, in_map_iff. split.
  - intros (it & <- & Hit). apply filter_In in Hit. destruct Hit as [Hit Hn].
    unfold has_next in Hn. destruct (next_symbol it) as [x|] eqn:E; [|discriminate].
    apply Symbol_eqb_eq in Hn. subst x. eauto.
  - intros (it & Hit & Hn & ->). exists it. split; [reflexivity|].
    apply filter_In. split; [exact Hit|]. unfold has_next. rewrite Hn.
    apply Symbol_eqb_refl.
Qed.

Lemma goto_collect (sym : Symbol) (l : list LR1Item) (acc : LRState) :
  fold_left
    (fun acc it =>
       new_items <- acc ;;
       match nth_error (rule it) (dot it) with
       | None => Raised IndexError
       | Some x =>
           if Symbol_eqb x sym
           then Ok (LRState_append new_items (advance it))
           else Ok new_items
       end)
    (yield_unfinished l) (Ok acc)
  = Ok (append_all acc (map advance (filter (has_next sym) l))).
Proof.
  unfold yield_unfinished, append_all. revert acc.
  induction l as [|it l IH]; intros acc; simpl; [reflexivity|].
  unfold has_next at 1. unfold next_symbol.
  destruct (completed it) eqn:Ec; simpl; [apply IH|].
  destruct (unfinished_has_next it Ec) as [x Hx]. rewrite Hx.
  destruct (Symbol_eqb x sym); simpl; apply IH.
Qed.

Lemma goto_eq (g : Grammar) (s : LRState) (sym : Symbol) :
  Symbol_eqb sym EMPTY = false ->
  goto g s sym = closure g (goto_kernel s sym).
Proof.
  intros H. unfold goto, goto_new_items. rewrite H, goto_collect. reflexivity.
Qed.

Lemma goto_Ok (g : Grammar) (s n : LRState) (sym : Symbol) :
  goto g s sym = Ok n ->
  Symbol_eqb sym EMPTY = false /\ closure g (goto_kernel s sym) = Ok n.
Proof.
  intros H. destruct (Symbol_eqb sym EMPTY) eqn:E.
  - unfold goto in H. rewrite E in H. discriminate.
  - split; [reflexivity|]. rewrite <- goto_eq by exact E. exact H.
Qed.

Lemma closure_extends (g : Grammar) (I R : LRState) :
  closure g I = Ok R -> exists added, R = I ++ added.
Proof.
  intros H. destruct (closure_spec g I) as (R' & E & (added & HR & _) & _).
  rewrite H in E. inversion E; subst. eauto.
Qed.

Lemma closure_nil (g : Grammar) : closure g [] = Ok [].
Proof. apply closure_of_closed. intros it n []. Qed.

(* ------------------------------------------------------------------ *)
(** ** Equality of states *)

Lemma subset_b_incl (a b : list LR1Item) : subset_b a b = true <-> incl a b.
Proof.
  unfold subset_b. rewrite forallb_forall. split.
  - intros H x Hx. specialize (H x Hx). apply existsb_exists in H.
    destruct H as (y & Hy & E). apply item_eqb_eq in E. subst y. exact Hy.
  - intros H x Hx. apply existsb_exists. exists x. split; [apply H, Hx|].
    apply item_eqb_eq. reflexivity.
Qed.

Lemma LRState_eqb_true (g : Grammar) (a b : LRState) :
  LRState_eqb g a b = true <->
  (forall it, In it (kernel g a) <-> In it (kernel g b)).
Proof.
  unfold LRState_eqb. rewrite andb_true_iff, !subset_b_incl. split.
  - intros [H1 H2] it. split; [apply H1 | apply H2].
  - intros H. split; intros it Hit; apply H, Hit.
Qed.

Lemma LRState_eqb_refl (g : Grammar) (a : LRState) : LRState_eqb g a a = true.
Proof. apply LRState_eqb_true. tauto. Qed.

Lemma LRState_eqb_sym (g : Grammar) (a b : LRState) :
  LRState_eqb g a b = LRState_eqb g b a.
Proof. unfold LRState_eqb. apply andb_comm. Qed.

Lemma LRState_eqb_trans (g : Grammar) (a b c : LRState) :
  LRState_eqb g a b = true -> LRState_eqb g b c = true ->
  LRState_eqb g a c = true.
Proof.
  rewrite !LRState_eqb_true. intros H1 H2 it. rewrite H1. apply H2.
Qed.

Lemma LRState_eqb_right (g : Grammar) (a b c : LRState) :
  LRState_eqb g a b = true -> LRState_eqb g a c = LRState_eqb g b c.
Proof.
  intros H. destruct (LRState_eqb g b c) eqn:E.
  - eapply LRState_eqb_trans; eauto.
  - destruct (LRState_eqb g a c) eqn:E'; [|reflexivity].
    rewrite <- E. symmetry. eapply LRState_eqb_trans; [|exact E'].
    rewrite LRState_eqb_sym. exact H.
Qed.

Lemma LRState_in_true (g : Grammar) (s : LRState) (states : list LRState) :
  LRState_in g s states = true <->
  exists s', In s' states /\ LRState_eqb g s s' = true.
Proof. unfold LRState_in. apply existsb_exists. Qed.

Lemma LRState_in_false (g : Grammar) (s : LRState) (states : list LRState) :
  LRState_in g s states = false <->
  forall s', In s' states -> LRState_eqb g s s' = false.
Proof.
  unfold LRState_in. split.
  - intros H s' Hs'. destruct (LRState_eqb g s s') eqn:E; [|reflexivity].
    rewrite <- H. symmetry. apply existsb_exists. eauto.
  - intros H. destruct (existsb _ states) eqn:E; [|reflexivity].
    apply existsb_exists in E. destruct E as (s' & Hs' & E).
    rewrite (H s' Hs') in E. discriminate.
Qed.

Lemma kernel_In (g : Grammar) (s : LRState) (it : LR1Item) :
  In it (kernel g s) <-> In it s /\ is_kernel_item g it = true.
Proof. unfold kernel. apply filter_In. Qed.

Lemma kernel_positive_dot (g : Grammar) (s : LRState) (it : LR1Item) :
  In it s -> 0 < dot it -> In it (kernel g s).
Proof.
  intros H Hd. apply kernel_In. split; [exact H|].
  unfold is_kernel_item. apply orb_true_iff. left. apply Nat.ltb_lt. exact Hd.
Qed.

(* ------------------------------------------------------------------ *)
(** ** get_items *)

Section GetItemsFacts.
Variable g : Grammar.
Variable symbols : list Symbol.

(** One state against all the symbols, from a value. *)
Definition explore_state (r : list LRState * bool) (state : LRState)
  : result (list LRState * bool) :=
  fold_left (fun acc' X => r <- acc' ;; explore g r state X) symbols (Ok r).

Lemma get_items_pass_eq (items : list LRState) :
  get_items_pass g symbols items
  = fold_left (fun acc state => r <- acc ;; explore_state r state)
              items (Ok (items, false)).
Proof.
  unfold get_items_pass. apply fold_left_ext. intros acc state.
  destruct acc as [r|e|]; simpl; [reflexivity | |];
    apply fold_bind_not_Ok; discriminate.
Qed.

(** What one call of [explore] does. *)
Lemma explore_cases (r r' : list LRState * bool) (state : LRState) (X : Symbol) :
  explore g r state X = Ok r' ->
  exists n,
    goto g state X = Ok n /\
    ((r' = r /\ (n = [] \/ LRState_in g n (fst r) = true)) \/
     (n <> [] /\ LRState_in g n (fst r) = false /\
      r' = (fst r ++ [n], true))).
Proof.
  unfold explore. intros H. apply bind_Ok in H. destruct H as (n & Hn & H).
  exists n. split; [exact Hn|]. destruct n as [|it n].
  - inversion H. left. auto.
  - destruct (LRState_in g (it :: n) (fst r)) eqn:E; inversion H.
    + left. auto.
    + right. split; [discriminate|]. auto.
Qed.

(** A flag that only goes up: when it is down at the end, nothing
    happened. *)
Lemma fold_flag_down {X A : Type} (f : A * bool -> X -> result (A * bool))
      (l : list X) :
  (forall r x r', f r x = Ok r' -> snd r = true -> snd r' = true) ->
  (forall r x r', f r x = Ok r' -> snd r' = false -> r' = r) ->
  forall r0 r',
    fold_left (fun acc x => r <- acc ;; f r x) l (Ok r0) = Ok r' ->
    (snd r0 = true -> snd r' = true) /\
    (snd r' = false -> r' = r0 /\ forall x, In x l -> f r0 x = Ok r0).
Proof.
  intros Hup Hsame. induction l as [|x l IH]; intros r0 r' H; simpl in H.
  - inversion H; subst. split; [auto|]. intros _. split; [reflexivity|].
    intros x [].
  - destruct (f r0 x) as [r1|e|] eqn:E;
      [|rewrite fold_bind_not_Ok in H by discriminate; discriminate..].
    destruct (IH r1 r' H) as [IH1 IH2]. split.
    + intros H0. apply IH1. eapply Hup; eauto.
    + intros Hd. destruct (snd r1) eqn:E1.
      * rewrite (IH1 eq_refl) in Hd. discriminate.
      * destruct (IH2 Hd) as [-> Hall].
        assert (r1 = r0) by (eapply Hsame; eauto). subst r1.
        split; [reflexivity|]. intros y [<-|Hy]; [exact E | apply Hall, Hy].
Qed.

Lemma explore_flag_up (state : LRState) (r : list LRState * bool) (X : Symbol)
      (r' : list LRState * bool) :
  explore g r state X = Ok r' -> snd r = true -> snd r' = true.
Proof.
  intros H Hr. apply explore_cases in H.
  destruct H as (n & _ & [[-> _]|(_ & _ & ->)]); auto.
Qed.

Lemma explore_flag_down (state : LRState) (r : list LRState * bool) (X : Symbol)
      (r' : list LRState * bool) :
  explore g r state X = Ok r' -> snd r' = false -> r' = r.
Proof.
  intros H Hr. apply explore_cases in H.
  destruct H as (n & _ & [[-> _]|(_ & _ & ->)]); [reflexivity|discriminate].
Qed.

Lemma explore_state_flag (state : LRState) (r r' : list LRState * bool) :
  explore_state r state = Ok r' ->
  (snd r = true -> snd r' = true) /\
  (snd r' = false ->
   r' = r /\ forall X, In X symbols -> explore g r state X = Ok r).
Proof.
  unfold explore_state. intros H.
  apply (fold_flag_down (fun r X => explore g r state X) symbols
                        (explore_flag_up state) (explore_flag_down state)
                        r r' H).
Qed.

(** A round that ends with the flag down has changed nothing, and for
    every state and symbol the goto set was empty or already there. *)
Lemma get_items_pass_done (items items' : list LRState) :
  get_items_pass g symbols items = Ok (items', false) ->
  items' = items /\
  forall state X n,
    In state items -> In X symbols -> goto g state X = Ok n ->
    n = [] \/ LRState_in g n items = true.
Proof.
  rewrite get_items_pass_eq. intros H.
  destruct (fold_flag_down (fun r state => explore_state r state) items
             (fun r x r' Hx => proj1 (explore_state_flag x r r' Hx))
             (fun r x r' Hx Hd => proj1 (proj2 (explore_state_flag x r r' Hx) Hd))
             (items, false) (items', false) H) as [_ H2].
  destruct (H2 eq_refl) as [E Hall]. inversion E; subst items'.
  split; [reflexivity|]. intros state X n Hs HX Hn.
  specialize (Hall state Hs).
  destruct (explore_state_flag state _ _ Hall) as [_ H3].
  destruct (H3 eq_refl) as [_ H4]. specialize (H4 X HX).
  apply explore_cases in H4. destruct H4 as (n' & Hn' & Hc).
  rewrite Hn in Hn'. inversion Hn'; subst n'.
  destruct Hc as [[_ Hc]|(_ & _ & Hc)]; [exact Hc|].
  inversion Hc.
Qed.

(** The states that can be reached from [s0] by non-empty goto sets. *)
Inductive reachable (s0 : LRState) : LRState -> Prop :=
| reach_start : reachable s0 s0
| reach_goto (s n : LRState) (X : Symbol) :
    reachable s0 s -> In X symbols -> goto g s X = Ok n -> n <> [] ->
    reachable s0 n.

(** No state of the list equals an earlier one. *)
Inductive distinct_states : list LRState -> Prop :=
| distinct_nil : distinct_states []
| distinct_snoc (l : list LRState) (n : LRState) :
    distinct_states l -> LRState_in g n l = false ->
    distinct_states (l ++ [n]).

Lemma distinct_states_split (items : list LRState) :
  distinct_states items ->
  forall l1 s l2 x,
    items = l1 ++ s :: l2 -> In x l1 \/ In x l2 -> LRState_eqb g x s = false.
Proof.
  induction 1 as [|l n Hd IH Hn]; intros l1 s l2 x E Hx.
  - destruct l1; discriminate.
  - destruct (exists_last (l := s :: l2) ltac:(discriminate)) as (l2' & n' & E2).
    rewrite E2, app_assoc in E. apply app_inj_tail in E.
    destruct E as [El En]. subst n'.
    assert (Hl2 : l2 = [] /\ l2' = [] /\ s = n \/
                  exists l2'', l2 = l2'' ++ [n] /\ l2' = s :: l2'').
    { destruct l2' as [|y l2']; simpl in E2.
      - inversion E2. destruct l2; [|discriminate]. left. auto.
      - inversion E2. right. exists l2'. split; reflexivity. }
    destruct Hl2 as [(-> & -> & ->)|(l2'' & -> & ->)].
    + rewrite app_nil_r in El. subst l1. destruct Hx as [Hx|[]].
      rewrite LRState_eqb_sym. apply (proj1 (LRState_in_false g n l) Hn x Hx).
    + destruct Hx as [Hx|Hx].
      * apply (IH l1 s l2'' x El). left. exact Hx.
      * apply in_app_iff in Hx. destruct Hx as [Hx|[<-|[]]].
        -- apply (IH l1 s l2'' x El). right. exact Hx.
        -- apply (proj1 (LRState_in_false g n l) Hn s).
           rewrite El. apply in_or_app. right. left. reflexivity.
Qed.

Section Pass.
Variable s0 : LRState.

Definition pass_inv (r : list LRState * bool) : Prop :=
  (exists rest, fst r = s0 :: rest) /\
  (forall s, In s (fst r) -> reachable s0 s) /\
  distinct_states (fst r).

Lemma explore_inv (r r' : list LRState * bool) (state : LRState) (X : Symbol) :
  reachable s0 state -> In X symbols ->
  explore g r state X = Ok r' -> pass_inv r -> pass_inv r'.
Proof.
  intros Hs HX H Hinv. apply explore_cases in H.
  destruct H as (n & Hn & [[-> _]|(Hne & Hnin & ->)]); [exact Hinv|].
  destruct Hinv as ((rest & Hr) & Hreach & Hd). simpl. split; [|split].
  - exists (rest ++ [n]). rewrite Hr. reflexivity.
  - intros s Hin. apply in_app_iff in Hin. destruct Hin as [Hin|[<-|[]]].
    + apply Hreach, Hin.
    + eapply reach_goto; eauto.
  - apply distinct_snoc; assumption.
Qed.

Lemma get_items_pass_inv (items : list LRState) (r : list LRState * bool) :
  get_items_pass g symbols items = Ok r ->
  pass_inv (items, false) -> pass_inv r.
Proof.
  rewrite get_items_pass_eq. intros H Hinv.
  apply (fold_bind_inv _ pass_inv _ _ _ H Hinv).
  intros r1 state r2 Hstate Hr1 E. unfold explore_state in E.
  apply (fold_bind_inv _ pass_inv _ _ _ E Hr1).
  intros r3 X r4 HX Hr3 E'.
  apply (explore_inv r3 r4 state X); auto.
  destruct Hinv as (_ & Hreach & _). apply Hreach, Hstate.
Qed.

Lemma get_items_while_spec (fuel : nat) (items items' : list LRState) :
  get_items_while g symbols fuel items = Ok items' ->
  pass_inv (items, false) ->
  pass_inv (items', false) /\
  forall state X n,
    In state items' -> In X symbols -> goto g state X = Ok n ->
    n = [] \/ LRState_in g n items' = true.
Proof.
  revert items. induction fuel as [|fuel IH]; intros items H Hinv;
    simpl in H; [discriminate|].
  apply bind_Ok in H. destruct H as ([items1 ch] & Hp & H). simpl in H.
  pose proof (get_items_pass_inv items _ Hp Hinv) as Hinv1.
  destruct ch.
  - apply (IH items1 H). exact Hinv1.
  - inversion H; subst items'.
    destruct (get_items_pass_done items items1 Hp) as [-> Hclosed].
    split; [exact Hinv|exact Hclosed].
Qed.

End Pass.

(** [get_items] returns the closure of the kernel first, then states
    reached from it, no two of them equal, and every non-empty goto
    set of a state it returns is among them. *)
Lemma get_items_spec (fuel : nat) (items : list LRState) :
  get_items g symbols fuel = Ok items ->
  exists i0 s0 rest,
    init_item g = Ok i0 /\ closure g [i0] = Ok s0 /\
    items = s0 :: rest /\
    (forall s, In s items -> reachable s0 s) /\
    distinct_states items /\
    (forall state X n,
        In state items -> In X symbols -> goto g state X = Ok n ->
        n = [] \/ LRState_in g n items = true).
Proof.
  unfold get_items, init_kernel. intros H.
  apply bind_Ok in H. destruct H as (k & Hk & H).
  apply bind_Ok in Hk. destruct Hk as (i0 & Hi0 & Hk). inversion Hk; subst k.
  apply bind_Ok in H. destruct H as (s0 & Hs0 & H).
  destruct (get_items_while_spec s0 fuel [s0] items H) as [Hinv Hclosed].
  { split; [exists []; reflexivity|]. split.
    - intros s [<-|[]]. apply reach_start.
    - apply (distinct_snoc [] s0 distinct_nil). reflexivity. }
  destruct Hinv as ((rest & Hr) & Hreach & Hd). simpl in *.
  exists i0, s0, rest. auto 10.
Qed.

End GetItemsFacts.

(* ------------------------------------------------------------------ *)
(** ** The states do not depend on the order of the symbols *)

Section StatesFacts.
Variable g : Grammar.

(** A state that is the closure of its kernel: it has its expansions,
    and lies in every set with them that contains its kernel. *)
Definition generated_by_kernel (s : LRState) : Prop :=
  (forall it n, In it s -> In n (expansions g it) -> In n s) /\
  (forall J : LR1Item -> Prop,
      (forall it n, J it -> In n (expansions g it) -> J n) ->
      (forall it, In it (kernel g s) -> J it) ->
      forall it, In it s -> J it).

Definition same_items (a b : LRState) : Prop :=
  forall it, In it a <-> In it b.

Lemma closure_generated (K s : LRState) :
  closure g K = Ok s ->
  (forall it, In it K -> is_kernel_item g it = true) ->
  generated_by_kernel s.
Proof.
  intros H HK.
  destruct (closure_spec g K) as (R & E & (added & HR & _) & Hclosed & Hleast).
  rewrite H in E. injection E as ->.
  split; [exact Hclosed|].
  intros J HJ Hk. apply Hleast; [exact HJ|].
  intros it Hit. apply Hk, kernel_In. split; [|apply HK, Hit].
  rewrite HR. apply in_or_app. left. exact Hit.
Qed.

Lemma init_item_kernel (i0 : LR1Item) :
  init_item g = Ok i0 -> is_kernel_item g i0 = true.
Proof.
  intros H. unfold is_kernel_item. rewrite H.
  apply orb_true_iff. right. apply item_eqb_eq. reflexivity.
Qed.

Lemma goto_kernel_positive (s : LRState) (X : Symbol) (it : LR1Item) :
  In it (goto_kernel s X) -> 0 < dot it.
Proof.
  intros H. apply In_goto_kernel in H. destruct H as (it0 & _ & _ & ->).
  simpl. lia.
Qed.

Lemma goto_generated (s n : LRState) (X : Symbol) :
  goto g s X = Ok n -> generated_by_kernel n.
Proof.
  intros H. apply goto_Ok in H. destruct H as [_ H].
  apply (closure_generated _ _ H). intros it Hit.
  unfold is_kernel_item. apply orb_true_iff. left. apply Nat.ltb_lt.
  eapply goto_kernel_positive; eauto.
Qed.

Lemma reachable_generated (symbols : list Symbol) (i0 : LR1Item)
      (s0 s : LRState) :
  init_item g = Ok i0 -> closure g [i0] = Ok s0 ->
  reachable g symbols s0 s -> generated_by_kernel s.
Proof.
  intros Hi Hs0 Hr. destruct Hr as [|s n X _ _ Hn _].
  - apply (closure_generated _ _ Hs0). intros it [<-|[]].
    apply init_item_kernel, Hi.
  - eapply goto_generated; eauto.
Qed.

Lemma generated_same_items (a b : LRState) :
  generated_by_kernel a -> generated_by_kernel b ->
  LRState_eqb g a b = true -> same_items a b.
Proof.
  intros [Ha1 Ha2] [Hb1 Hb2] E. rewrite LRState_eqb_true in E.
  intros it. split.
  - apply (Ha2 (fun it => In it b)); [exact Hb1|].
    intros it0 Hit0. apply E in Hit0. apply kernel_In in Hit0. tauto.
  - apply (Hb2 (fun it => In it a)); [exact Ha1|].
    intros it0 Hit0. apply E in Hit0. apply kernel_In in Hit0. tauto.
Qed.

Lemma same_items_eqb (a b : LRState) :
  same_items a b -> LRState_eqb g a b = true.
Proof.
  intros H. apply LRState_eqb_true. intros it. rewrite !kernel_In, (H it).
  tauto.
Qed.

Lemma same_items_nil (a b : LRState) : same_items a b -> a = [] -> b = [].
Proof.
  intros H ->. destruct b as [|it b]; [reflexivity|].
  exfalso. apply (H it). left. reflexivity.
Qed.

Lemma goto_same_items (s s' n : LRState) (X : Symbol) :
  same_items s s' -> goto g s X = Ok n ->
  exists n', goto g s' X = Ok n' /\ same_items n n'.
Proof.
  intros Hs H. apply goto_Ok in H. destruct H as [HX H].
  destruct (closure_spec g (goto_kernel s' X)) as (n' & H' & _).
  exists n'. split; [rewrite goto_eq by exact HX; exact H'|].
  assert (Hk : forall a b, same_items a b ->
                           incl (goto_kernel a X) (goto_kernel b X)).
  { intros a b Hab it Hit. apply In_goto_kernel in Hit.
    destruct Hit as (it0 & Hit0 & Hn & ->). apply In_goto_kernel.
    exists it0. split; [apply Hab, Hit0 | auto]. }
  intros it. split.
  - apply (closure_monotone g _ _ _ _ (Hk s s' Hs) H H').
  - apply (closure_monotone g _ _ _ _ (Hk s' s (fun it => iff_sym (Hs it))) H' H).
Qed.

(** Every state reached with one order of the symbols equals a state
    of a run with another order of the same symbols. *)
Lemma reachable_found (symbols1 symbols2 : list Symbol) (i0 : LR1Item)
      (s0 : LRState) (items2 : list LRState) :
  init_item g = Ok i0 -> closure g [i0] = Ok s0 ->
  (forall X, In X symbols1 -> In X symbols2) ->
  In s0 items2 ->
  (forall s, In s items2 -> reachable g symbols2 s0 s) ->
  (forall state X n,
      In state items2 -> In X symbols2 -> goto g state X = Ok n ->
      n = [] \/ LRState_in g n items2 = true) ->
  forall s, reachable g symbols1 s0 s ->
            exists s', In s' items2 /\ LRState_eqb g s s' = true.
Proof.
  intros Hi Hs0 Hsym H0 Hreach2 Hclosed2 s Hr.
  induction Hr as [|s n X Hr IH HX Hn Hne].
  - exists s0. split; [exact H0 | apply LRState_eqb_refl].
  - destruct IH as (s' & Hs' & E).
    assert (Hsame : same_items s s').
    { apply generated_same_items; [| |exact E].
      - eapply reachable_generated; eauto.
      - eapply reachable_generated; eauto. }
    destruct (goto_same_items s s' n X Hsame Hn) as (n' & Hn' & Hnn').
    destruct (Hclosed2 s' X n' Hs' (Hsym X HX) Hn') as [Hnil|Hin].
    + exfalso. apply Hne.
      apply (same_items_nil n' n); [|exact Hnil].
      intros it. symmetry. apply Hnn'.
    + apply LRState_in_true in Hin. destruct Hin as (s'' & Hs'' & E').
      exists s''. split; [exact Hs''|].
      eapply LRState_eqb_trans; [|exact E']. apply same_items_eqb, Hnn'.
Qed.

End StatesFacts.

Lemma get_items_while_more_fuel (g : Grammar) (symbols : list Symbol)
      (fuel fuel' : nat) (items r : list LRState) :
  get_items_while g symbols fuel items = Ok r -> fuel <= fuel' ->
  get_items_while g symbols fuel' items = Ok r.
Proof.
  revert fuel' items. induction fuel as [|fuel IH]; intros fuel' items H Hle;
    simpl in H; [discriminate|].
  destruct fuel' as [|fuel']; [lia|]. simpl.
  destruct (get_items_pass g symbols items) as [[items1 ch]|e|];
    simpl in *; try discriminate.
  destruct ch; [|exact H]. apply IH; [exact H | lia].
Qed.

Lemma get_items_fuel (g : Grammar) (symbols : list Symbol)
      (fuel1 fuel2 : nat) (items1 items2 : list LRState) :
  get_items g symbols fuel1 = Ok items1 ->
  get_items g symbols fuel2 = Ok items2 -> items1 = items2.
Proof.
  unfold get_items. intros H1 H2.
  destruct (init_kernel g) as [k|e|]; simpl in *; try discriminate.
  destruct (closure g k) as [s0|e|]; simpl in *; try discriminate.
  destruct (Nat.le_ge_cases fuel1 fuel2) as [Hle|Hle].
  - rewrite (get_items_while_more_fuel _ _ _ _ _ _ H1 Hle) in H2. congruence.
  - rewrite (get_items_while_more_fuel _ _ _ _ _ _ H2 Hle) in H1. congruence.
Qed.

(** C5, as the code has it.  Two runs that enumerate the same symbols,
    in whatever order, start from the same state 0 and find the same
    states: every state of one run equals a state of the other.  Two
    runs that enumerate the symbols in the same order return the same
    sequence of states and the same table, whatever number of rounds
    they were given. *)
Theorem states_do_not_depend_on_symbol_order
        (g : Grammar) (symbols1 symbols2 : list Symbol) (fuel1 fuel2 : nat)
        (items1 items2 : list LRState) (tbl1 tbl2 : LRTable) :
  (forall X, In X symbols1 <-> In X symbols2) ->
  construct g symbols1 fuel1 = Ok (items1, tbl1) ->
  construct g symbols2 fuel2 = Ok (items2, tbl2) ->
  hd_error items1 = hd_error items2 /\
  (forall s, In s items1 ->
             exists s', In s' items2 /\ LRState_eqb g s s' = true) /\
  (forall s, In s items2 ->
             exists s', In s' items1 /\ LRState_eqb g s s' = true) /\
  (symbols1 = symbols2 ->
   items1 = items2 /\ tbl1 = tbl2 /\
   forall id,
     simplified_table id g tbl1 symbols1 items1
     = simplified_table id g tbl2 symbols2 items2).
Proof.
  intros Hsym H1 H2. unfold construct in H1, H2.
  apply bind_Ok in H1. destruct H1 as (i1 & G1 & H1).
  apply bind_Ok in H1. destruct H1 as (t1 & T1 & H1). inversion H1; subst i1 t1.
  apply bind_Ok in H2. destruct H2 as (i2 & G2 & H2).
  apply bind_Ok in H2. destruct H2 as (t2 & T2 & H2). inversion H2; subst i2 t2.
  clear H1 H2.
  destruct (get_items_spec g symbols1 fuel1 items1 G1)
    as (i0 & s0 & rest1 & Hi & Hs0 & E1 & Hr1 & _ & Hc1).
  destruct (get_items_spec g symbols2 fuel2 items2 G2)
    as (i0' & s0' & rest2 & Hi' & Hs0' & E2 & Hr2 & _ & Hc2).
  rewrite Hi in Hi'. inversion Hi'; subst i0'.
  rewrite Hs0 in Hs0'. inversion Hs0'; subst s0'.
  split; [rewrite E1, E2; reflexivity|]. split; [|split].
  - intros s Hs.
    apply (reachable_found g symbols1 symbols2 i0 s0 items2 Hi Hs0); auto.
    + intros X. apply Hsym.
    + rewrite E2. left. reflexivity.
  - intros s Hs.
    apply (reachable_found g symbols2 symbols1 i0 s0 items1 Hi Hs0); auto.
    + intros X. apply Hsym.
    + rewrite E1. left. reflexivity.
  - intros ->. assert (Hi12 : items1 = items2) by (eapply get_items_fuel; eauto).
    assert (Ht12 : tbl1 = tbl2) by congruence.
    rewrite Hi12, Ht12. auto.
Qed.

Lemma states_do_not_depend_on_symbol_order_witness :
  exists items1 tbl1 items2 tbl2,
    construct g_ab symbols_ab 10 = Ok (items1, tbl1) /\
    construct g_ab symbols_ba 10 = Ok (items2, tbl2) /\
    hd_error items1 = hd_error items2 /\
    (forall s, In s items1 ->
               exists s', In s' items2 /\ LRState_eqb g_ab s s' = true).
Proof.
  destruct (construct g_ab symbols_ab 10) as [[i1 t1]|e|] eqn:E1;
    [|vm_compute in E1; discriminate E1..].
  destruct (construct g_ab symbols_ba 10) as [[i2 t2]|e|] eqn:E2;
    [|vm_compute in E2; discriminate E2..].
  exists i1, t1, i2, t2.
  destruct (states_do_not_depend_on_symbol_order
              g_ab symbols_ab symbols_ba 10 10 i1 i2 t1 t2) as (H1 & H2 & _).
  - intros X. simpl. tauto.
  - exact E1.
  - exact E2.
  - auto.
Defined.

(** C5, as stated, fails: for S' -> S, S -> a S | b, a run that
    enumerates the symbols as S', S, a, b, eof and a run that enumerates
    them as S', S, b, a, eof return different sequences of states, and
    different encoded tables: the Shift on "a" from state 0 is 5 (to
    state 2) in the first and 7 (to state 3) in the second. *)
Lemma state_ids_depend_on_symbol_order :
  exists items1 tbl1 items2 tbl2,
    (forall X, In X symbols_ab <-> In X symbols_ba) /\
    construct g_ab symbols_ab 10 = Ok (items1, tbl1) /\
    construct g_ab symbols_ba 10 = Ok (items2, tbl2) /\
    items1 <> items2 /\
    simplified_table (state_id g_ab items1) g_ab tbl1 symbols_ab items1
    <> simplified_table (state_id g_ab items2) g_ab tbl2 symbols_ba items2 /\
    In ((0%Z, "a"%string), EInt 5)
       (simplified_table (state_id g_ab items1) g_ab tbl1 symbols_ab items1) /\
    In ((0%Z, "a"%string), EInt 7)
       (simplified_table (state_id g_ab items2) g_ab tbl2 symbols_ba items2).
Proof.
  eexists. eexists. eexists. eexists.
  split; [intros X; simpl; tauto|].
  split; [vm_compute; reflexivity|].
  split; [vm_compute; reflexivity|].
  split; [|split; [|split]].
  - intros H. apply (f_equal (fun l => length (nth 2 l []))) in H.
    vm_compute in H. discriminate H.
  - intros H. apply (f_equal (fun l => nth 1 l ((0%Z, EmptyString), EInt 0))) in H.
    vm_compute in H. discriminate H.
  - vm_compute. tauto.
  - vm_compute. tauto.
Qed.

(* ------------------------------------------------------------------ *)
(** ** Reading the table after it was written *)

Section TableLookup.
Variable g : Grammar.

Lemma Key_eqb_refl (k : Key) : Key_eqb g k k = true.
Proof.
  unfold Key_eqb. rewrite LRState_eqb_refl, String.eqb_refl. reflexivity.
Qed.

Lemma Key_eqb_sym (k1 k2 : Key) : Key_eqb g k1 k2 = Key_eqb g k2 k1.
Proof.
  unfold Key_eqb. rewrite LRState_eqb_sym, String.eqb_sym. reflexivity.
Qed.

Lemma Key_eqb_right (k1 k2 q : Key) :
  Key_eqb g k1 k2 = true -> Key_eqb g k1 q = Key_eqb g k2 q.
Proof.
  unfold Key_eqb. intros H. apply andb_true_iff in H. destruct H as [H1 H2].
  apply String.eqb_eq in H2. rewrite H2.
  rewrite (LRState_eqb_right g _ _ _ H1). reflexivity.
Qed.

Lemma LRTable_get_setitem (t : LRTable) (k q : Key) (v : Action) :
  LRTable_get g (LRTable_setitem g t k v) q
  = if Key_eqb g k q then Some v else LRTable_get g t q.
Proof.
  induction t as [|[k' a'] t IH]; simpl.
  - reflexivity.
  - destruct (Key_eqb g k' k) eqn:E; simpl.
    + rewrite (Key_eqb_right k' k q E).
      destruct (Key_eqb g k q); reflexivity.
    + rewrite IH. destruct (Key_eqb g k' q) eqn:E'; [|reflexivity].
      destruct (Key_eqb g k q) eqn:E''; [|reflexivity].
      rewrite (Key_eqb_right k' q k E'), Key_eqb_sym, E'' in E. discriminate.
Qed.

(** The entries of the table after an assignment. *)
Lemma In_setitem (t : LRTable) (k k0 : Key) (v a0 : Action) :
  In (k0, a0) (LRTable_setitem g t k v) ->
  In (k0, a0) t \/ (a0 = v /\ snd k0 = snd k).
Proof.
  induction t as [|[k' a'] t IH]; simpl.
  - intros [H|[]]. inversion H. auto.
  - destruct (Key_eqb g k' k) eqn:E.
    + intros [H|H]; [|auto]. inversion H; subst. right. split; [reflexivity|].
      unfold Key_eqb in E. apply andb_true_iff in E. destruct E as [_ E].
      apply String.eqb_eq in E. exact E.
    + intros [H|H]; [auto|]. destruct (IH H); auto.
Qed.

(** What [assign_targets] leaves alone: the keys of other states. *)
Lemma assign_targets_other (act : LRState -> Action) (items : list LRState)
      (state_i : LRState) (a : Symbol) (t t' : LRTable) (q : Key) :
  assign_targets g act items state_i a t = Ok t' ->
  LRState_eqb g state_i (fst q) = false ->
  LRTable_get g t' q = LRTable_get g t q.
Proof.
  intros H Hq. unfold assign_targets in H.
  apply (fold_bind_inv _ (fun t1 => LRTable_get g t1 q = LRTable_get g t q)
                       _ _ _ H eq_refl).
  intros t1 I_j t2 _ Ht1 E. apply bind_Ok in E. destruct E as (j & _ & E).
  destruct (LRState_eqb g j I_j); inversion E; subst; [|exact Ht1].
  rewrite LRTable_get_setitem. unfold Key_eqb at 1. simpl. rewrite Hq.
  simpl. exact Ht1.
Qed.

Lemma construct_state_other (items : list LRState) (t t' : LRTable)
      (state_i : LRState) (q : Key) :
  construct_state g items t state_i = Ok t' ->
  LRState_eqb g state_i (fst q) = false ->
  LRTable_get g t' q = LRTable_get g t q.
Proof.
  intros H Hq. unfold construct_state in H.
  apply bind_Ok in H. destruct H as (t1 & H1 & H2).
  assert (Ht1 : LRTable_get g t1 q = LRTable_get g t q).
  { apply (fold_bind_inv _ (fun t1 => LRTable_get g t1 q = LRTable_get g t q)
                         _ _ _ H1 eq_refl).
    intros t2 item t3 _ Ht2 E. unfold construct_item in E.
    assert (Hset : forall nm v,
               LRTable_get g (LRTable_setitem g t2 (state_i, nm) v) q
               = LRTable_get g t q).
    { intros nm v. rewrite LRTable_get_setitem. unfold Key_eqb at 1. simpl.
      rewrite Hq. simpl. exact Ht2. }
    destruct (completed item).
    - destruct (_ && _); [inversion E; subst; apply Hset|].
      destruct (negb _); inversion E; subst; [apply Hset | exact Ht2].
    - destruct (nth_error (rule item) (dot item)) as [a|]; [|discriminate].
      rewrite (assign_targets_other _ _ _ _ _ _ q E Hq). exact Ht2. }
  apply (fold_bind_inv _ (fun t2 => LRTable_get g t2 q = LRTable_get g t q)
                       _ _ _ H2 Ht1).
  intros t2 nt t3 _ Ht2 E.
  rewrite (assign_targets_other _ _ _ _ _ _ q E Hq). exact Ht2.
Qed.

(** An item for which [construct] assigns Accept. *)
Definition accepting (it : LR1Item) : bool :=
  completed it
  && (Symbol_eqb (item_name it) (start_symbol g)
      && Symbol_eqb (lookahead it) EOF).

Lemma assign_targets_not_accept (act : LRState -> Action)
      (items : list LRState) (state_i : LRState) (a : Symbol)
      (t t' : LRTable) (q : Key) :
  (forall I_j, act I_j <> Accept) ->
  assign_targets g act items state_i a t = Ok t' ->
  LRTable_get g t q <> Some Accept -> LRTable_get g t' q <> Some Accept.
Proof.
  intros Hact H H0. unfold assign_targets in H.
  apply (fold_bind_inv _ (fun t1 => LRTable_get g t1 q <> Some Accept)
                       _ _ _ H H0).
  intros t1 I_j t2 _ Ht1 E. apply bind_Ok in E. destruct E as (j & _ & E).
  destruct (LRState_eqb g j I_j); inversion E; subst; [|exact Ht1].
  rewrite LRTable_get_setitem. destruct (Key_eqb g _ q); [|exact Ht1].
  intros Heq. inversion Heq. eapply Hact; eauto.
Qed.

(** A state without such an item brings Accept to no cell. *)
Lemma construct_state_not_accept (items : list LRState) (t t' : LRTable)
      (state_i : LRState) (q : Key) :
  (forall it, In it state_i -> accepting it = false) ->
  construct_state g items t state_i = Ok t' ->
  LRTable_get g t q <> Some Accept -> LRTable_get g t' q <> Some Accept.
Proof.
  intros Hna H H0. unfold construct_state in H.
  apply bind_Ok in H. destruct H as (t1 & H1 & H2).
  assert (Ht1 : LRTable_get g t1 q <> Some Accept).
  { apply (fold_bind_inv _ (fun t1 => LRTable_get g t1 q <> Some Accept)
                         _ _ _ H1 H0).
    intros t2 item t3 Hitem Ht2 E. unfold construct_item in E.
    specialize (Hna item Hitem). unfold accepting in Hna.
    destruct (completed item); simpl in Hna.
    - rewrite Hna in E.
      destruct (negb _); inversion E; subst; [|exact Ht2].
      rewrite LRTable_get_setitem. destruct (Key_eqb g _ q); [|exact Ht2].
      unfold Reduce_of. discriminate.
    - destruct (nth_error (rule item) (dot item)) as [a|]; [|discriminate].
      apply (assign_targets_not_accept Shift items state_i a t2 t3 q);
        auto. discriminate. }
  apply (fold_bind_inv _ (fun t2 => LRTable_get g t2 q <> Some Accept)
                       _ _ _ H2 Ht1).
  intros t2 nt t3 _ Ht2 E.
  apply (assign_targets_not_accept Goto items state_i nt t2 t3 q); auto.
  discriminate.
Qed.

(** Accept is assigned under the name of EOF only. *)
Definition accept_under_EOF (t : LRTable) : Prop :=
  forall key, In (key, Accept) t -> snd key = name EOF.

Lemma accept_under_EOF_setitem (t : LRTable) (k : Key) (v : Action) :
  accept_under_EOF t -> (v = Accept -> snd k = name EOF) ->
  accept_under_EOF (LRTable_setitem g t k v).
Proof.
  intros Ht Hv key Hin. apply In_setitem in Hin.
  destruct Hin as [Hin|[Ha Hk]]; [apply Ht, Hin|].
  rewrite Hk. apply Hv. symmetry. exact Ha.
Qed.

Lemma assign_targets_accept_under_EOF (act : LRState -> Action)
      (items : list LRState) (state_i : LRState) (a : Symbol)
      (t t' : LRTable) :
  (forall I_j, act I_j <> Accept) ->
  assign_targets g act items state_i a t = Ok t' ->
  accept_under_EOF t -> accept_under_EOF t'.
Proof.
  intros Hact H H0. unfold assign_targets in H.
  apply (fold_bind_inv _ accept_under_EOF _ _ _ H H0).
  intros t1 I_j t2 _ Ht1 E. apply bind_Ok in E. destruct E as (j & _ & E).
  destruct (LRState_eqb g j I_j); inversion E; subst; [|exact Ht1].
  apply accept_under_EOF_setitem; [exact Ht1|].
  intros Heq. exfalso. eapply Hact; eauto.
Qed.

Lemma construct_table_accept_under_EOF (items : list LRState) (tbl : LRTable) :
  construct_table g items = Ok tbl -> accept_under_EOF tbl.
Proof.
  intros H. unfold construct_table in H.
  apply (fold_bind_inv _ accept_under_EOF _ _ _ H).
  { intros key []. }
  intros t state_i t' _ Ht E. unfold construct_state in E.
  apply bind_Ok in E. destruct E as (t1 & H1 & H2).
  assert (Ht1 : accept_under_EOF t1).
  { apply (fold_bind_inv _ accept_under_EOF _ _ _ H1 Ht).
    intros t2 item t3 _ Ht2 E. unfold construct_item in E.
    destruct (completed item).
    - destruct (_ && _).
      + inversion E; subst. apply accept_under_EOF_setitem; auto.
      + destruct (negb _); inversion E; subst; [|exact Ht2].
        apply accept_under_EOF_setitem; [exact Ht2|]. discriminate.
    - destruct (nth_error (rule item) (dot item)) as [a|]; [|discriminate].
      apply (assign_targets_accept_under_EOF Shift items state_i a t2 t3);
        auto. discriminate. }
  apply (fold_bind_inv _ accept_under_EOF _ _ _ H2 Ht1).
  intros t2 nt t3 _ Ht2 E.
  apply (assign_targets_accept_under_EOF Goto items state_i nt t2 t3); auto.
  discriminate.
Qed.

(** A loop over a list, cut at one of its elements. *)
Lemma fold_bind_split {A X : Type} (f : A -> X -> result A)
      (l1 l2 : list X) (x : X) (t0 t' : A) :
  fold_left (fun acc x => t <- acc ;; f t x) (l1 ++ x :: l2) (Ok t0) = Ok t' ->
  exists ta tb,
    fold_left (fun acc x => t <- acc ;; f t x) l1 (Ok t0) = Ok ta /\
    f ta x = Ok tb /\
    fold_left (fun acc x => t <- acc ;; f t x) l2 (Ok tb) = Ok t'.
Proof.
  rewrite fold_left_app. simpl. intros H.
  destruct (fold_left _ l1 (Ok t0)) as [ta|e|] eqn:E1;
    [|simpl in H; rewrite fold_bind_not_Ok in H by discriminate; discriminate..].
  simpl in H. destruct (f ta x) as [tb|e|] eqn:E2;
    [|rewrite fold_bind_not_Ok in H by discriminate; discriminate..].
  exists ta, tb. auto.
Qed.

End TableLookup.

(* ------------------------------------------------------------------ *)
(** ** Where Accept is *)

Section AcceptFacts.
Variable g : Grammar.

(** The start symbol of the grammar before it was augmented. *)
Variable S0 : Symbol.

Hypothesis init_augmented : init_item g = Ok (augmented g S0 0).
Hypothesis S0_not_start : S0 <> start_symbol g.
Hypothesis S0_not_EOF : S0 <> EOF.
Hypothesis S0_not_EMPTY : S0 <> EMPTY.
Hypothesis alternatives_plain :
  forall alt, In alt (all_alternatives g) ->
              ~ In (start_symbol g) alt /\ ~ In EOF alt.

Lemma augmented_len : Expansion_len [S0; EOF] = 2.
Proof.
  unfold Expansion_len. simpl.
  destruct (Symbol_eq_dec S0 EMPTY) as [E|_]; [contradiction|].
  destruct (Symbol_eq_dec EOF EMPTY) as [E|_]; [discriminate E|].
  reflexivity.
Qed.

Lemma augmented_completed (d : nat) : completed (augmented g S0 d) = (2 <=? d).
Proof. unfold completed. simpl. rewrite augmented_len. reflexivity. Qed.

Lemma augmented_next (d : nat) (X : Symbol) :
  next_symbol (augmented g S0 d) = Some X ->
  (d = 0 /\ X = S0) \/ (d = 1 /\ X = EOF).
Proof.
  unfold next_symbol. rewrite augmented_completed.
  destruct d as [|[|d]]; simpl; intros H; inversion H; auto.
Qed.

Lemma augmented_inj (d d' : nat) : augmented g S0 d = augmented g S0 d' -> d = d'.
Proof. intros H. inversion H. reflexivity. Qed.

(** The items of the states: of the augmented rule, or of a rule of the
    grammar with another left-hand side. *)
Definition plain (it : LR1Item) : Prop :=
  item_name it <> start_symbol g /\ In (rule it) (all_alternatives g).

Definition item_class (it : LR1Item) : Prop :=
  (exists d, d <= 2 /\ it = augmented g S0 d) \/ plain it.

Lemma class_next_not_start (it : LR1Item) (X : Symbol) :
  item_class it -> next_symbol it = Some X -> is_NonTerminal X = true ->
  X <> start_symbol g.
Proof.
  intros [(d & _ & ->)|[_ Hr]] Hn HX.
  - apply augmented_next in Hn. destruct Hn as [[_ ->]|[_ ->]];
      [exact S0_not_start | discriminate HX].
  - apply next_symbol_Some in Hn. destruct Hn as [_ Hn].
    apply nth_error_In in Hn. intros ->.
    destruct (alternatives_plain _ Hr) as [H _]. contradiction.
Qed.

Lemma class_expansions (it n : LR1Item) :
  item_class it -> In n (expansions g it) -> plain n /\ dot n = 0.
Proof.
  intros Hc Hn. apply In_expansions in Hn.
  destruct Hn as (B & gamma & b & H0 & H1 & H2 & _ & ->).
  split; [|reflexivity]. split; simpl.
  - eapply class_next_not_start; eauto.
  - apply Grammar_getitem_alternatives in H2. exact H2.
Qed.

Lemma class_advance (it : LR1Item) (X : Symbol) :
  item_class it -> next_symbol it = Some X -> item_class (advance it).
Proof.
  intros [(d & _ & ->)|[H1 H2]] Hn.
  - left. exists (d + 1). split; [|reflexivity].
    apply augmented_next in Hn. lia.
  - right. split; assumption.
Qed.

Lemma plain_not_augmented (d : nat) : ~ plain (augmented g S0 d).
Proof. intros [H _]. apply H. reflexivity. Qed.

(** A state of the automaton: its items are of these two kinds, and if
    the complete augmented item is in it, it is the only item. *)
Definition good_state (s : LRState) : Prop :=
  (forall it, In it s -> item_class it) /\
  (In (augmented g S0 2) s -> s = [augmented g S0 2]).

Lemma closure_class (K s : LRState) :
  closure g K = Ok s ->
  (forall it, In it K -> item_class it) ->
  forall it, In it s -> In it K \/ (plain it /\ dot it = 0).
Proof.
  intros H HK.
  destruct (closure_spec g K) as (R & E & _ & _ & Hleast).
  rewrite H in E. injection E as ->.
  apply (Hleast (fun it => In it K \/ (plain it /\ dot it = 0))); [|auto].
  intros it n Hit Hn. right. apply (class_expansions it n); [|exact Hn].
  destruct Hit as [Hit|[Hit _]]; [apply HK, Hit | right; exact Hit].
Qed.

Lemma good_start (s0 : LRState) :
  closure g [augmented g S0 0] = Ok s0 -> good_state s0.
Proof.
  intros H.
  assert (HK : forall it, In it [augmented g S0 0] -> item_class it).
  { intros it [<-|[]]. left. exists 0. split; [lia | reflexivity]. }
  pose proof (closure_class _ _ H HK) as Hc. split.
  - intros it Hit. destruct (Hc it Hit) as [Hin|[Hp _]]; [apply HK, Hin|].
    right. exact Hp.
  - intros Hin. destruct (Hc _ Hin) as [[E|[]]|[Hp _]].
    + apply augmented_inj in E. discriminate E.
    + exfalso. eapply plain_not_augmented; eauto.
Qed.

Lemma singleton_list {A : Type} (l : list A) (a : A) :
  NoDup l -> In a l -> (forall x, In x l -> x = a) -> l = [a].
Proof.
  intros Hnd Ha Hall. destruct l as [|x l]; [contradiction|].
  assert (x = a) by (apply Hall; left; reflexivity). subst x.
  destruct l as [|y l]; [reflexivity|].
  assert (y = a) by (apply Hall; right; left; reflexivity). subst y.
  inversion Hnd as [|? ? Hnin _]. exfalso. apply Hnin. left. reflexivity.
Qed.

Lemma closure_complete_item : closure g [augmented g S0 2] = Ok [augmented g S0 2].
Proof.
  apply closure_of_closed. intros it n [<-|[]] Hn.
  unfold expansions, next_symbol in Hn. rewrite augmented_completed in Hn.
  contradiction.
Qed.

Lemma good_goto (s n : LRState) (X : Symbol) :
  good_state s -> goto g s X = Ok n -> good_state n.
Proof.
  intros [Hcls _] H. apply goto_Ok in H. destruct H as [_ H].
  assert (HK : forall it, In it (goto_kernel s X) -> item_class it).
  { intros it Hit. apply In_goto_kernel in Hit.
    destruct Hit as (it0 & Hit0 & Hn & ->).
    eapply class_advance; eauto. }
  pose proof (closure_class _ _ H HK) as Hc. split.
  - intros it Hit. destruct (Hc it Hit) as [Hin|[Hp _]]; [apply HK, Hin|].
    right. exact Hp.
  - intros Hin.
    assert (Hk : In (augmented g S0 2) (goto_kernel s X)).
    { destruct (Hc _ Hin) as [Hk|[Hp _]]; [exact Hk|].
      exfalso. eapply plain_not_augmented; eauto. }
    assert (HX : X = EOF).
    { apply In_goto_kernel in Hk. destruct Hk as (it0 & Hit0 & Hn & E).
      destruct (Hcls it0 Hit0) as [(d & _ & ->)|[Hp _]].
      - apply augmented_next in Hn. destruct Hn as [[-> _]|[_ ->]];
          [inversion E | reflexivity].
      - exfalso. apply Hp. unfold advance in E. inversion E. reflexivity. }
    subst X.
    assert (Hall : forall k, In k (goto_kernel s EOF) -> k = augmented g S0 2).
    { intros k Hk'. apply In_goto_kernel in Hk'.
      destruct Hk' as (it0 & Hit0 & Hn & ->).
      destruct (Hcls it0 Hit0) as [(d & _ & ->)|[_ Hr]].
      - apply augmented_next in Hn. destruct Hn as [[_ E]|[-> _]];
          [exfalso; apply S0_not_EOF; symmetry; exact E | reflexivity].
      - exfalso. apply next_symbol_Some in Hn. destruct Hn as [_ Hn].
        apply nth_error_In in Hn.
        destruct (alternatives_plain _ Hr) as [_ H']. contradiction. }
    assert (EK : goto_kernel s EOF = [augmented g S0 2]).
    { apply singleton_list; [apply append_all_nil_NoDup | exact Hk | exact Hall]. }
    rewrite EK, closure_complete_item in H. injection H as <-. reflexivity.
Qed.

Lemma reachable_good (symbols : list Symbol) (s0 s : LRState) :
  closure g [augmented g S0 0] = Ok s0 -> reachable g symbols s0 s -> good_state s.
Proof.
  intros H0 Hr. induction Hr as [|s n X _ IH _ Hn _].
  - apply good_start, H0.
  - eapply good_goto; eauto.
Qed.

(** Every state of the automaton has a kernel. *)
Lemma reachable_kernel (symbols : list Symbol) (s0 s : LRState) :
  closure g [augmented g S0 0] = Ok s0 -> reachable g symbols s0 s ->
  kernel g s <> [].
Proof.
  intros H0 Hr. destruct Hr as [|s n X _ _ Hn Hne].
  - destruct (closure_extends g _ _ H0) as (added & ->).
    assert (Hin : In (augmented g S0 0) (kernel g ([augmented g S0 0] ++ added))).
    { apply kernel_In. split; [left; reflexivity|].
      apply init_item_kernel, init_augmented. }
    intros E. rewrite E in Hin. contradiction.
  - apply goto_Ok in Hn. destruct Hn as [_ Hn].
    destruct (closure_extends g _ _ Hn) as (added & ->).
    destruct (goto_kernel s X) as [|it K] eqn:EK.
    + rewrite closure_nil in Hn. injection Hn as Hn. simpl in Hn.
      subst added. contradiction.
    + assert (Hin : In it (kernel g ((it :: K) ++ added))).
      { apply kernel_positive_dot; [left; reflexivity|].
        apply (goto_kernel_positive s X). rewrite EK. left. reflexivity. }
      intros E. rewrite E in Hin. contradiction.
Qed.

Lemma empty_state_not_equal (s : LRState) :
  kernel g s <> [] -> LRState_eqb g [] s = false.
Proof.
  intros H. destruct (LRState_eqb g [] s) eqn:E; [|reflexivity].
  rewrite LRState_eqb_true in E. exfalso. apply H.
  destruct (kernel g s) as [|it k]; [reflexivity|].
  exfalso. apply (E it). left. reflexivity.
Qed.

Lemma accepting_augmented (it : LR1Item) :
  item_class it -> accepting g it = true -> it = augmented g S0 2.
Proof.
  unfold accepting. intros Hc H. apply andb_true_iff in H.
  destruct H as [H1 H2]. apply andb_true_iff in H2. destruct H2 as [H2 _].
  apply Symbol_eqb_eq in H2. destruct Hc as [(d & Hd & ->)|[Hp _]].
  - rewrite augmented_completed in H1. apply Nat.leb_le in H1.
    assert (d = 2) by lia. subst d. reflexivity.
  - contradiction.
Qed.

Lemma augmented_accepting : accepting g (augmented g S0 2) = true.
Proof.
  unfold accepting. rewrite augmented_completed. simpl.
  rewrite !Symbol_eqb_refl. reflexivity.
Qed.

Lemma goto_from_complete (X : Symbol) (j : LRState) :
  goto g [augmented g S0 2] X = Ok j -> j = [].
Proof.
  intros H. apply goto_Ok in H. destruct H as [_ H].
  assert (E : goto_kernel [augmented g S0 2] X = []).
  { destruct (goto_kernel [augmented g S0 2] X) as [|it K] eqn:EK; [reflexivity|].
    assert (Hin : In it (goto_kernel [augmented g S0 2] X))
      by (rewrite EK; left; reflexivity).
    apply In_goto_kernel in Hin. destruct Hin as (it0 & [<-|[]] & Hn & _).
    apply augmented_next in Hn. lia. }
  rewrite E, closure_nil in H. injection H as <-. reflexivity.
Qed.

(** The state of the complete augmented item gets Accept under EOF, and
    nothing after it in that state. *)
Lemma construct_complete_state (items : list LRState) (t t' : LRTable) :
  (forall I_j, In I_j items -> kernel g I_j <> []) ->
  construct_state g items t [augmented g S0 2] = Ok t' ->
  LRTable_get g t' ([augmented g S0 2], name EOF) = Some Accept.
Proof.
  intros Hk H. unfold construct_state in H.
  apply bind_Ok in H. destruct H as (t1 & H1 & H2).
  simpl in H1. unfold construct_item in H1.
  pose proof augmented_accepting as Ha. unfold accepting in Ha.
  apply andb_true_iff in Ha. destruct Ha as [Ha1 Ha2].
  rewrite Ha1, Ha2 in H1. injection H1 as <-.
  apply (fold_bind_inv
           _ (fun t2 => LRTable_get g t2 ([augmented g S0 2], name EOF) = Some Accept)
           _ _ _ H2).
  { rewrite LRTable_get_setitem, Key_eqb_refl. reflexivity. }
  intros t2 nt t3 _ Ht2 E. unfold assign_targets in E.
  apply (fold_bind_inv
           _ (fun t2 => LRTable_get g t2 ([augmented g S0 2], name EOF) = Some Accept)
           _ _ _ E Ht2).
  intros t4 I_j t5 HI Ht4 E'. apply bind_Ok in E'.
  destruct E' as (j & Hj & E'). apply goto_from_complete in Hj. subst j.
  rewrite (empty_state_not_equal I_j (Hk I_j HI)) in E'.
  injection E' as <-. exact Ht4.
Qed.

Lemma distinct_states_neq (items : list LRState) (a b : LRState) :
  distinct_states g items -> In a items -> In b items -> a <> b ->
  LRState_eqb g a b = false.
Proof.
  intros Hd Ha Hb Hne. destruct (in_split _ _ Hb) as (l1 & l2 & E).
  apply (distinct_states_split g items Hd l1 b l2 a E).
  rewrite E in Ha. apply in_app_iff in Ha.
  destruct Ha as [Ha|[Ha|Ha]]; [left; exact Ha | congruence | right; exact Ha].
Qed.


End AcceptFacts.



(* ------------------------------------------------------------------ *)
(** ** Matching, pruning and derivation on expansions *)

Section MatchingFacts.
Variable Token : Type.
Variable token_matcher : Symbol -> Token -> bool.
Variable hash_str : string -> Z.
Variable hash_tuple : list Z -> Z.

(** The pairs of [zip(self, tokens)] all match. *)
Definition pairs_match (l : list (Symbol * Token)) : bool :=
  forallb (fun p => Terminal_matches Token token_matcher (fst p) (snd p)) l.

Lemma pointwise_match (l : list Symbol) (tokens : list Token) :
  length l = length tokens /\ all_terminals l = true /\
  pairs_match (combine l tokens) = true
  <-> Forall2 (fun s t => is_Terminal s = true /\ token_matcher s t = true)
              l tokens.
Proof.
  revert tokens. induction l as [|s l IH]; intros [|t tokens]; simpl.
  - split; [constructor | auto].
  - split; [intros [H _]; discriminate | intros H; inversion H].
  - split; [intros [H _]; discriminate | intros H; inversion H].
  - unfold Terminal_matches at 1. simpl. split.
    + intros (Hl & Ht & Hm).
      apply andb_true_iff in Ht. destruct Ht as [Hs Ht].
      apply andb_true_iff in Hm. destruct Hm as [Hm1 Hm].
      constructor; [auto|]. apply IH. auto.
    + intros H. inversion H as [|? ? ? ? [Hs Hm] Hrest]; subst.
      apply IH in Hrest. destruct Hrest as (Hl & Ht & Hp).
      rewrite Hs, Hm, Hl. auto.
Qed.

(** What [matches] computes, for any expansion: the length that
    [__len__] reports is the number of tokens, the iterated symbols are
    terminals, and the pairs of [zip] match; [zip] stops at the shorter
    of the two. *)
Lemma matches_unfold (e : Expansion) (tokens : list Token) :
  Expansion_matches Token token_matcher e tokens = true <->
  Expansion___len__ e = length tokens /\
  all_terminals (Expansion_iter e) = true /\
  pairs_match (combine (Expansion_iter e) tokens) = true.
Proof.
  unfold Expansion_matches, pairs_match.
  destruct (Nat.eqb_spec (Expansion___len__ e) (length tokens)) as [El|El].
  - destruct (all_terminals (Expansion_iter e)).
    + tauto.
    + split; [discriminate | intros (_ & H & _); discriminate].
  - split; [discriminate | tauto].
Qed.

(** [matches] holds exactly when the symbols other than epsilon are
    terminals, as many as the tokens, each matching the token at its
    place. *)
Lemma matches_iff (e : Expansion) (tokens : list Token) :
  epsilon_is_EMPTY e ->
  (Expansion_matches Token token_matcher e tokens = true <->
   Forall2 (fun s t => is_Terminal s = true /\ token_matcher s t = true)
           (Expansion_iter e) tokens).
Proof.
  intros He. rewrite <- pointwise_match, matches_unfold.
  rewrite (Expansion___len___iter e He). tauto.
Qed.

(** X1. [Expansion.matches] on an expansion whose symbols named "ε" are
    the marker [EMPTY] is the pointwise match of the symbols the
    expansion iterates over: it holds exactly when they are terminals, as
    many as the tokens, each matching the token at its place.  For any
    expansion, an [EMPTY] anywhere changes nothing, an expansion of
    [EMPTY] alone matches the empty list of tokens and no other, and a
    non-terminal anywhere makes the match fail.  A terminal that is
    named "ε" and is not [EMPTY] is left out of the length and kept in
    the iteration: alone, it matches the empty list of tokens, whatever
    its matcher says. *)
Theorem Expansion_matches_pointwise :
  (forall e tokens,
      epsilon_is_EMPTY e ->
      (Expansion_matches Token token_matcher e tokens = true <->
       Forall2 (fun s t => is_Terminal s = true /\ token_matcher s t = true)
               (Expansion_iter e) tokens)) /\
  (forall a b tokens,
      Expansion_matches Token token_matcher (a ++ EMPTY :: b) tokens
      = Expansion_matches Token token_matcher (a ++ b) tokens) /\
  (forall tokens,
      Expansion_matches Token token_matcher [EMPTY] tokens = true
      <-> tokens = []) /\
  (forall e tokens X,
      In X e -> is_NonTerminal X = true ->
      Expansion_matches Token token_matcher e tokens = false) /\
  (forall t tokens,
      name t = name EMPTY -> is_Terminal t = true -> t <> EMPTY ->
      (Expansion_matches Token token_matcher [t] tokens = true
       <-> tokens = [])).
Proof.
  split; [exact matches_iff|]. split; [|split; [|split]].
  - intros a b tokens. unfold Expansion_matches.
    rewrite Expansion_iter_drop_EMPTY, !Expansion___len___app.
    change (EMPTY :: b) with ([EMPTY] ++ b).
    rewrite Expansion___len___app. reflexivity.
  - intros tokens. rewrite matches_iff by (intros s [<-|[]] _; reflexivity).
    simpl. split.
    + intros H. inversion H. reflexivity.
    + intros ->. constructor.
  - intros e tokens X HX HN.
    destruct (Expansion_matches Token token_matcher e tokens) eqn:E;
      [|reflexivity].
    apply matches_unfold in E. destruct E as (_ & Ht & _).
    unfold all_terminals in Ht. rewrite forallb_forall in Ht.
    assert (Hin : In X (Expansion_iter e)).
    { unfold Expansion_iter. apply filter_In. split; [exact HX|].
      unfold is_not_EMPTY. apply negb_true_iff. apply Symbol_eqb_neq.
      intros ->. discriminate. }
    apply Ht in Hin. destruct X; discriminate.
  - intros t tokens Hn Ht Hne. rewrite matches_unfold.
    assert (Hlen : Expansion___len__ [t] = 0).
    { unfold Expansion___len__, list_count. simpl.
      rewrite (proj2 (Symbol___eq___name t EMPTY) Hn). reflexivity. }
    assert (Hit : Expansion_iter [t] = [t]).
    { unfold Expansion_iter. simpl. unfold is_not_EMPTY.
      rewrite (proj2 (Symbol_eqb_neq t EMPTY) Hne). reflexivity. }
    rewrite Hlen, Hit. split.
    + intros [H _]. destruct tokens; [reflexivity | discriminate].
    + intros ->. simpl. rewrite Ht. auto.
Qed.

Lemma combine_app_same {A B : Type} (l1 l2 : list A) (k1 k2 : list B) :
  length l1 = length k1 ->
  combine (l1 ++ l2) (k1 ++ k2) = combine l1 k1 ++ combine l2 k2.
Proof.
  revert k1. induction l1 as [|x l1 IH]; intros [|y k1]; simpl;
    try discriminate; intros H; [reflexivity|].
  rewrite IH by lia. reflexivity.
Qed.

(** X2. Matching composes: when the symbols of [a] named "ε" are
    [EMPTY] and [a] has as many symbols (epsilon apart) as [ta] has
    tokens, the concatenation of [a] and [b] matches the tokens [ta]
    followed by [tb] exactly when [a] matches [ta] and [b] matches
    [tb]. *)
Theorem Expansion_matches_app (a b : Expansion) (ta tb : list Token) :
  epsilon_is_EMPTY a ->
  Expansion___len__ a = length ta ->
  Expansion_matches Token token_matcher (a ++ b) (ta ++ tb)
  = Expansion_matches Token token_matcher a ta
    && Expansion_matches Token token_matcher b tb.
Proof.
  intros He Ha. unfold Expansion_matches.
  rewrite Expansion___len___app, Expansion_iter_app, !length_app.
  rewrite Ha, Nat.eqb_refl.
  replace (length ta + Expansion___len__ b =? length ta + length tb)
    with (Expansion___len__ b =? length tb)
    by (destruct (Nat.eqb_spec (Expansion___len__ b) (length tb));
        symmetry; [apply Nat.eqb_eq | apply Nat.eqb_neq]; lia).
  unfold all_terminals. rewrite forallb_app.
  rewrite combine_app_same
    by (rewrite <- Ha; symmetry; apply Expansion___len___iter, He).
  rewrite forallb_app.
  destruct (Expansion___len__ b =? length tb);
    repeat match goal with
           | |- context [forallb ?f ?l] => destruct (forallb f l)
           end; reflexivity.
Qed.

(** *** should_prune *)

Lemma prefix_loop_terminals (at_end : bool) (l : list Symbol)
      (tokens : list Token) :
  all_terminals l = true ->
  terminal_prefix_loop Token token_matcher at_end l tokens
  = Some (if pairs_match (combine l tokens) then at_end else true).
Proof.
  revert tokens. induction l as [|s l IH]; intros [|t tokens] H; simpl;
    try reflexivity.
  simpl in H. apply andb_true_iff in H. destruct H as [Hs Hl].
  rewrite Hs. destruct (Terminal_matches Token token_matcher s t); simpl.
  - apply IH, Hl.
  - reflexivity.
Qed.

Lemma filter_length_le {A : Type} (f : A -> bool) (l : list A) :
  length (filter f l) <= length l.
Proof.
  induction l as [|x l IH]; simpl; [lia|]. destruct (f x); simpl; lia.
Qed.

Lemma prune_terminal_form (e : Expansion) (tokens : list Token)
      (seen : list Expansion) (nullable_set : list Symbol) :
  epsilon_is_EMPTY e ->
  all_terminals (Expansion_iter e) = true ->
  should_prune Token token_matcher hash_str hash_tuple e tokens seen
               nullable_set
  = Expansion_in hash_str hash_tuple e seen
    || negb (Expansion_matches Token token_matcher e tokens).
Proof.
  intros He Ht. unfold should_prune, Expansion_matches.
  destruct (Expansion_in hash_str hash_tuple e seen); [reflexivity|]. simpl.
  rewrite Ht.
  destruct (_ <? _) eqn:Ec.
  - apply Nat.ltb_lt in Ec.
    pose proof (filter_length_le
                  (fun sym => negb (Symbol_in sym nullable_set))
                  (Expansion_iter e)) as Hle.
    rewrite (Expansion___len___iter e He).
    destruct (Nat.eqb_spec (length (Expansion_iter e)) (length tokens));
      [lia | reflexivity].
  - rewrite (prefix_loop_terminals _ _ _ Ht). unfold pairs_match.
    destruct (Expansion___len__ e =? length tokens);
      destruct (forallb _ (combine (Expansion_iter e) tokens)); reflexivity.
Qed.

Lemma prefix_loop_prefix (at_end : bool) (p rest : list Symbol)
      (tokens : list Token) :
  all_terminals p = true ->
  terminal_prefix_loop Token token_matcher at_end (p ++ rest) tokens <> Some true ->
  pairs_match (combine p tokens) = true /\
  (length tokens < length p ->
   terminal_prefix_loop Token token_matcher at_end (p ++ rest) tokens = Some at_end).
Proof.
  revert tokens. induction p as [|s p IH]; intros tokens Hp Hr.
  - simpl. split; [reflexivity | lia].
  - simpl in Hp. apply andb_true_iff in Hp. destruct Hp as [Hs Hp].
    destruct tokens as [|t tokens].
    + simpl. split; [reflexivity | auto].
    + simpl in Hr |- *. rewrite Hs in Hr |- *.
      destruct (Terminal_matches Token token_matcher s t); [|congruence].
      destruct (IH tokens Hp Hr) as [H1 H2]. simpl.
      split; [exact H1|]. intros Hlt. apply H2. lia.
Qed.

Lemma prefix_loop_all_matched (l : list Symbol) (tokens : list Token) :
  terminal_prefix_loop Token token_matcher false l tokens = Some false ->
  length l = length tokens ->
  forall t, In t l -> exists token, In token tokens /\ token_matcher t token = true.
Proof.
  revert tokens. induction l as [|s l IH]; intros [|k tokens] H Hl t Ht;
    simpl in *; try contradiction; try discriminate.
  destruct (is_Terminal s); [|discriminate].
  destruct (Terminal_matches Token token_matcher s k) eqn:Em; [|discriminate].
  destruct Ht as [<-|Ht].
  - exists k. auto.
  - destruct (IH tokens H ltac:(lia) t Ht) as (token & H1 & H2). eauto.
Qed.

Lemma prefix_loop_true_end (l : list Symbol) (tokens : list Token) (b : bool) :
  terminal_prefix_loop Token token_matcher true l tokens = Some b -> b = true.
Proof.
  revert tokens. induction l as [|s l IH]; intros [|k tokens]; simpl;
    try (intros H; inversion H; reflexivity).
  destruct (is_Terminal s); [|discriminate].
  destruct (Terminal_matches Token token_matcher s k).
  - apply IH.
  - intros H. inversion H. reflexivity.
Qed.

(** What a sentential form that is not pruned looks like. *)
Lemma prune_survivor (e : Expansion) (tokens : list Token)
      (seen : list Expansion) (nullable_set : list Symbol) :
  epsilon_is_EMPTY e ->
  should_prune Token token_matcher hash_str hash_tuple e tokens seen
               nullable_set = false ->
  Expansion_in hash_str hash_tuple e seen = false /\
  length (filter (fun sym => negb (Symbol_in sym nullable_set))
                 (Expansion_iter e)) <= length tokens /\
  (forall p rest,
      Expansion_iter e = p ++ rest -> all_terminals p = true ->
      length p <= length tokens /\ pairs_match (combine p tokens) = true) /\
  (forall t, In t (Expansion_iter e) -> is_Terminal t = true ->
             exists token, In token tokens /\ token_matcher t token = true) /\
  (all_terminals (Expansion_iter e) = true ->
   Expansion_matches Token token_matcher e tokens = true).
Proof.
  intros He H.
  assert (Hseen : Expansion_in hash_str hash_tuple e seen = false).
  { unfold should_prune in H.
    destruct (Expansion_in hash_str hash_tuple e seen); congruence. }
  split; [exact Hseen|].
  assert (Hterm : all_terminals (Expansion_iter e) = true ->
                  Expansion_matches Token token_matcher e tokens = true).
  { intros Ht. rewrite (prune_terminal_form _ _ _ _ He Ht), Hseen in H.
    simpl in H. apply negb_false_iff in H. exact H. }
  unfold should_prune in H. rewrite Hseen in H.
  destruct (_ <? _) eqn:Ec; [discriminate|]. apply Nat.ltb_ge in Ec.
  split; [exact Ec|].
  remember (negb (Expansion___len__ e =? length tokens)) as at_end eqn:Ea.
  assert (Hloop : terminal_prefix_loop Token token_matcher at_end
                                       (Expansion_iter e) tokens <> Some true).
  { destruct (terminal_prefix_loop Token token_matcher at_end
                                   (Expansion_iter e) tokens) as [b|];
      [subst b|]; discriminate. }
  split; [|split; [|exact Hterm]].
  - intros p rest Ep Hp. rewrite Ep in Hloop, H.
    destruct (prefix_loop_prefix at_end p rest tokens Hp Hloop) as [H1 H2].
    split; [|exact H1].
    destruct (Nat.le_gt_cases (length p) (length tokens)) as [Hle|Hgt];
      [exact Hle|].
    rewrite (H2 Hgt) in H. subst at_end. apply negb_false_iff in H.
    apply Nat.eqb_eq in H.
    rewrite (Expansion___len___iter e He), Ep, length_app in H. lia.
  - intros t Ht Hty.
    destruct (terminal_prefix_loop Token token_matcher at_end
                                   (Expansion_iter e) tokens) as [b|] eqn:El.
    + subst b.
      assert (Hend : at_end = false).
      { destruct at_end; [|reflexivity].
        symmetry. exact (prefix_loop_true_end _ _ _ El). }
      rewrite Hend in Ea, El. symmetry in Ea. apply negb_false_iff in Ea.
      apply Nat.eqb_eq in Ea. rewrite (Expansion___len___iter e He) in Ea.
      exact (prefix_loop_all_matched _ _ El Ea t Ht).
    + destruct (existsb (token_matcher t) tokens) eqn:Ex.
      * apply existsb_exists in Ex. exact Ex.
      * exfalso.
        assert (Hex : existsb
                        (fun terminal =>
                           negb (existsb (Terminal_matches Token token_matcher
                                                           terminal)
                                         tokens))
                        (filter is_Terminal (Expansion_iter e)) = true).
        { apply existsb_exists. exists t. split; [apply filter_In; auto|].
          apply negb_true_iff. exact Ex. }
        congruence.
Qed.

(** X3. On a sentential form without non-terminals, whose symbols named
    "ε" are the marker [EMPTY], pruning is exact: [should_prune] answers
    True when the form was seen before or is not a match of the tokens,
    and False when it is an unseen match; the set of nullable symbols
    plays no part.  Without the condition on the names pruning is not
    exact: a terminal that is named "ε" and is not [EMPTY], alone and
    unseen, is a match of the empty list of tokens and is pruned all the
    same when the name is outside the nullable set. *)
Theorem should_prune_terminal_form (e : Expansion) (tokens : list Token)
        (seen : list Expansion) (nullable_set : list Symbol) :
  epsilon_is_EMPTY e ->
  all_terminals (Expansion_iter e) = true ->
  should_prune Token token_matcher hash_str hash_tuple e tokens seen
               nullable_set
  = Expansion_in hash_str hash_tuple e seen
    || negb (Expansion_matches Token token_matcher e tokens) /\
  (forall t,
      name t = name EMPTY -> is_Terminal t = true -> t <> EMPTY ->
      Expansion_matches Token token_matcher [t] [] = true /\
      should_prune Token token_matcher hash_str hash_tuple [t] [] [] [] = true).
Proof.
  intros He Ht. split; [apply prune_terminal_form; assumption|].
  intros t Hn Hterm Hne.
  assert (Hlen : Expansion___len__ [t] = 0).
  { unfold Expansion___len__, list_count. simpl.
    rewrite (proj2 (Symbol___eq___name t EMPTY) Hn). reflexivity. }
  assert (Hit : Expansion_iter [t] = [t]).
  { unfold Expansion_iter. simpl. unfold is_not_EMPTY.
    rewrite (proj2 (Symbol_eqb_neq t EMPTY) Hne). reflexivity. }
  split.
  - unfold Expansion_matches. rewrite Hlen, Hit. simpl. rewrite Hterm.
    reflexivity.
  - unfold should_prune. rewrite Hit. reflexivity.
Qed.

(** X4. What a sentential form that is not pruned looks like, when its
    symbols named "ε" are the marker [EMPTY]: it was not seen before; it
    has no more symbols outside the nullable set than there are tokens;
    its leading terminals are no more than the tokens and each matches
    the token at its place; every terminal in it matches some token; and
    if it holds no non-terminal it is a match of the tokens. *)
Theorem should_prune_survivor (e : Expansion) (tokens : list Token)
        (seen : list Expansion) (nullable_set : list Symbol) :
  epsilon_is_EMPTY e ->
  should_prune Token token_matcher hash_str hash_tuple e tokens seen
               nullable_set = false ->
  Expansion_in hash_str hash_tuple e seen = false /\
  length (filter (fun sym => negb (Symbol_in sym nullable_set))
                 (Expansion_iter e)) <= length tokens /\
  (forall p rest,
      Expansion_iter e = p ++ rest -> all_terminals p = true ->
      length p <= length tokens /\ pairs_match (combine p tokens) = true) /\
  (forall t, In t (Expansion_iter e) -> is_Terminal t = true ->
             exists token, In token tokens /\ token_matcher t token = true) /\
  (all_terminals (Expansion_iter e) = true ->
   Expansion_matches Token token_matcher e tokens = true).
Proof. apply prune_survivor. Qed.

End MatchingFacts.

(** *** perform_derivation and enumerate_variables *)

(** A replacer that [not replacer] takes for empty iterates over
    nothing, when its symbols named "ε" are [EMPTY]. *)
Lemma Expansion_iter_nil_len (r : Expansion) :
  epsilon_is_EMPTY r -> Expansion___len__ r = 0 -> Expansion_iter r = [].
Proof.
  intros He. rewrite (Expansion___len___iter r He).
  destruct (Expansion_iter r); [reflexivity|]. discriminate.
Qed.

Lemma perform_derivation_iter (e : Expansion) (index : nat) (replacer : Expansion) :
  epsilon_is_EMPTY replacer ->
  Expansion_iter (perform_derivation e index replacer)
  = Expansion_iter (firstn index e) ++ Expansion_iter replacer
    ++ Expansion_iter (skipn (S index) e).
Proof.
  intros He. unfold perform_derivation.
  destruct (Expansion___len__ replacer =? 0) eqn:E.
  - apply Nat.eqb_eq in E. rewrite (Expansion_iter_nil_len _ He E).
    rewrite Expansion_iter_app. reflexivity.
  - rewrite !Expansion_iter_app. reflexivity.
Qed.

(** The length of the result, for any replacer: the stored symbols
    equal to [EMPTY] are left out on both sides. *)
Lemma perform_derivation_len (e : Expansion) (index : nat) (replacer : Expansion) :
  Expansion___len__ (perform_derivation e index replacer)
  = Expansion___len__ (firstn index e) + Expansion___len__ replacer
    + Expansion___len__ (skipn (S index) e).
Proof.
  unfold perform_derivation.
  destruct (Expansion___len__ replacer =? 0) eqn:E.
  - apply Nat.eqb_eq in E. rewrite Expansion___len___app, E. lia.
  - rewrite !Expansion___len___app. lia.
Qed.

Lemma split_at {A : Type} (l : list A) (i : nat) (x : A) :
  nth_error l i = Some x -> l = firstn i l ++ x :: skipn (S i) l.
Proof.
  revert i. induction l as [|a l IH]; intros [|i] H; simpl in *;
    try discriminate.
  - inversion H. reflexivity.
  - rewrite <- (IH i H). reflexivity.
Qed.

(** X5. A derivation step replaces the symbol at [index] by the
    replacer.  The length of the result is the sum of the lengths of
    the part before [index], of the replacer and of the part after
    [index]: one less than before plus the length of the replacer when
    the symbol replaced is not equal to [EMPTY].  When the symbols of
    the replacer named "ε" are the marker [EMPTY], the result iterates
    over the symbols before [index], those of the replacer and those
    after [index], and the special case for an empty replacer changes no
    view: a replacer of [EMPTY] only is dropped, which its iteration
    would do as well; an index past the end appends the replacer.  A
    replacer that is one terminal named "ε" other than [EMPTY] has
    length 0 and is dropped, though it iterates over that terminal. *)
Theorem perform_derivation_views (e : Expansion) (index : nat)
        (replacer : Expansion) :
  Expansion___len__ (perform_derivation e index replacer)
  = Expansion___len__ (firstn index e) + Expansion___len__ replacer
    + Expansion___len__ (skipn (S index) e) /\
  (forall X, nth_error e index = Some X -> Symbol___eq__ X EMPTY = false ->
             Expansion___len__ (perform_derivation e index replacer) + 1
             = Expansion___len__ e + Expansion___len__ replacer) /\
  (epsilon_is_EMPTY replacer ->
   Expansion_iter (perform_derivation e index replacer)
   = Expansion_iter (firstn index e) ++ Expansion_iter replacer
     ++ Expansion_iter (skipn (S index) e) /\
   (length e <= index ->
    Expansion_iter (perform_derivation e index replacer)
    = Expansion_iter e ++ Expansion_iter replacer)) /\
  (forall t,
      name t = name EMPTY -> t <> EMPTY ->
      perform_derivation e index [t] = firstn index e ++ skipn (S index) e /\
      Expansion_iter [t] = [t]).
Proof.
  split; [apply perform_derivation_len|]. split; [|split].
  - intros X HX Hne.
    assert (He : Expansion___len__ e
                 = Expansion___len__ (firstn index e) + 1
                   + Expansion___len__ (skipn (S index) e)).
    { rewrite (split_at e index X HX) at 1.
      rewrite Expansion___len___app.
      change (X :: skipn (S index) e) with ([X] ++ skipn (S index) e).
      rewrite Expansion___len___app.
      assert (HX1 : Expansion___len__ [X] = 1).
      { unfold Expansion___len__, list_count. simpl. rewrite Hne.
        reflexivity. }
      rewrite HX1. lia. }
    rewrite He, perform_derivation_len. lia.
  - intros He. split; [apply perform_derivation_iter, He|].
    intros Hle. rewrite (perform_derivation_iter _ _ _ He).
    rewrite firstn_all2 by exact Hle. rewrite skipn_all2 by lia.
    simpl. rewrite app_nil_r. reflexivity.
  - intros t Hn Hne. split.
    + unfold perform_derivation.
      assert (Hlen : Expansion___len__ [t] = 0).
      { unfold Expansion___len__, list_count. simpl.
        rewrite (proj2 (Symbol___eq___name t EMPTY) Hn). reflexivity. }
      rewrite Hlen. reflexivity.
    + unfold Expansion_iter. simpl. unfold is_not_EMPTY.
      rewrite (proj2 (Symbol_eqb_neq t EMPTY) Hne). reflexivity.
Qed.

Lemma In_enumerate {A : Type} (l : list A) (i : nat) (x : A) :
  In (i, x) (enumerate l) <-> nth_error l i = Some x.
Proof.
  unfold enumerate.
  assert (G : forall k, In (i, x) (combine (seq k (length l)) l)
                        <-> k <= i /\ nth_error l (i - k) = Some x).
  { induction l as [|a l IH]; intros k; simpl.
    - split; [intros [] | intros [_ H]]. destruct (i - k); discriminate.
    - rewrite IH. split.
      + intros [H|[H1 H2]].
        * inversion H; subst. rewrite Nat.sub_diag. auto.
        * split; [lia|]. replace (i - k) with (S (i - S k)) by lia. exact H2.
      + intros [H1 H2]. destruct (Nat.eq_dec k i) as [->|Hne].
        * rewrite Nat.sub_diag in H2. simpl in H2. inversion H2. auto.
        * right. split; [lia|].
          replace (i - k) with (S (i - S k)) in H2 by lia. exact H2. }
  rewrite G, Nat.sub_0_r. split; [tauto | intros H; split; [lia|exact H]].
Qed.

Lemma Expansion_iter_plain (e : Expansion) :
  ~ In EMPTY e -> Expansion_iter e = e.
Proof.
  intros H. unfold Expansion_iter. induction e as [|x e IH]; simpl; [reflexivity|].
  unfold is_not_EMPTY at 1.
  rewrite (proj2 (Symbol_eqb_neq x EMPTY)) by (intros ->; apply H; left; reflexivity).
  simpl. rewrite IH; [reflexivity|]. intros Hin. apply H. right. exact Hin.
Qed.

(** X6. [enumerate_variables] yields the non-terminals of an expansion
    with their positions among the symbols it iterates over, in the
    order of the positions.  In an expansion without [EMPTY] these are
    the positions in the expansion itself, so that a derivation step at
    a yielded position, with a replacer whose symbols named "ε" are
    [EMPTY], replaces the non-terminal that was yielded with it. *)
Theorem enumerate_variables_positions (e : Expansion) :
  (forall i X,
      In (i, X) (enumerate_variables e) <->
      nth_error (Expansion_iter e) i = Some X /\ is_NonTerminal X = true) /\
  (forall k i X j Y,
      nth_error (enumerate_variables e) k = Some (i, X) ->
      nth_error (enumerate_variables e) (S k) = Some (j, Y) -> i < j) /\
  (~ In EMPTY e ->
   forall i X replacer,
     epsilon_is_EMPTY replacer ->
     In (i, X) (enumerate_variables e) ->
     e = firstn i e ++ X :: skipn (S i) e /\
     Expansion_iter (perform_derivation e i replacer)
     = firstn i e ++ Expansion_iter replacer ++ skipn (S i) e).
Proof.
  split; [|split].
  - intros i X. unfold enumerate_variables. rewrite filter_In, In_enumerate.
    simpl. tauto.
  - unfold enumerate_variables, enumerate.
    generalize (Expansion_iter e) 0. clear e.
    induction l as [|a l IH]; intros n k i X j Y;
      cbn [length seq combine filter snd].
    + destruct k; discriminate.
    + assert (Hge : forall m q p,
                 In p (filter (fun p => is_NonTerminal (snd p))
                              (combine (seq m (length q)) q)) -> m <= fst p).
      { intros m q. revert m. induction q as [|b q IHq]; intros m p; simpl;
          [intros []|].
        destruct (is_NonTerminal b); simpl.
        - intros [<-|Hp]; [simpl; lia|]. apply IHq in Hp. lia.
        - intros Hp. apply IHq in Hp. lia. }
      destruct (is_NonTerminal a).
      * destruct k as [|k].
        -- intros H1 H2. cbn [nth_error] in H1. inversion H1; subst.
           match type of H2 with
           | nth_error (_ :: ?r) 1 = _ =>
               change (nth_error r 0 = Some (j, Y)) in H2
           end.
           apply nth_error_In, Hge in H2. simpl in H2. lia.
        -- apply IH.
      * apply IH.
  - intros Hplain i X replacer Hr Hin.
    unfold enumerate_variables in Hin. apply filter_In in Hin.
    destruct Hin as [Hin _]. apply In_enumerate in Hin.
    rewrite (Expansion_iter_plain e Hplain) in Hin.
    split; [apply split_at, Hin|].
    rewrite (perform_derivation_iter _ _ _ Hr).
    rewrite (Expansion_iter_plain (firstn i e)), (Expansion_iter_plain (skipn (S i) e));
      [reflexivity| |].
    + intros H. apply Hplain. eapply In_skipn. exact H.
    + intros H. apply Hplain. rewrite <- (firstn_skipn i e).
      apply in_or_app. left. exact H.
Qed.

(** X7. With an [EMPTY] before it, a non-terminal is yielded with a
    position that is not its place in the stored list: for an expansion
    that starts with [EMPTY] followed by the non-terminal [X],
    [enumerate_variables] yields [(0, X)], and the derivation step at
    position 0, with a replacer whose symbols named "ε" are [EMPTY],
    takes out the [EMPTY] and leaves [X] where it was, after the symbols
    of the replacer. *)
Theorem derivation_index_ignores_epsilon (X : Symbol) (rest replacer : Expansion) :
  is_NonTerminal X = true -> epsilon_is_EMPTY replacer ->
  In (0, X) (enumerate_variables (EMPTY :: X :: rest)) /\
  Expansion_iter (perform_derivation (EMPTY :: X :: rest) 0 replacer)
  = Expansion_iter replacer ++ X :: Expansion_iter rest.
Proof.
  intros HX Hr.
  assert (Hne : is_not_EMPTY X = true) by (destruct X; try discriminate; reflexivity).
  split.
  - unfold enumerate_variables, enumerate. simpl. rewrite Hne. simpl.
    rewrite HX. left. reflexivity.
  - rewrite (perform_derivation_iter _ _ _ Hr). simpl. rewrite Hne.
    reflexivity.
Qed.

Lemma Expansion_matches_app_witness :
  Expansion_matches string (fun s t => String.eqb (name s) t)
                    ([t_a] ++ [EMPTY; t_b]) (["a"%string] ++ ["b"%string])
  = Expansion_matches string (fun s t => String.eqb (name s) t) [t_a] ["a"%string]
    && Expansion_matches string (fun s t => String.eqb (name s) t)
                         [EMPTY; t_b] ["b"%string].
Proof.
  apply (Expansion_matches_app string (fun s t => String.eqb (name s) t)
                               [t_a] [EMPTY; t_b]).
  - intros s [<-|[]] H; discriminate H.
  - reflexivity.
Defined.

Lemma should_prune_terminal_form_witness :
  should_prune string (fun s t => String.eqb (name s) t)
               (fun _ => 0%Z) (fun l => Z.of_nat (length l))
               [t_a; EMPTY; t_b] ["a"; "b"]%string [[t_a]] [nt_S]
  = Expansion_in (fun _ => 0%Z) (fun l => Z.of_nat (length l))
                 [t_a; EMPTY; t_b] [[t_a]]
    || negb (Expansion_matches string (fun s t => String.eqb (name s) t)
                               [t_a; EMPTY; t_b] ["a"; "b"]%string).
Proof.
  apply (should_prune_terminal_form
           string (fun s t => String.eqb (name s) t)
           (fun _ => 0%Z) (fun l => Z.of_nat (length l))
           [t_a; EMPTY; t_b] ["a"; "b"]%string [[t_a]] [nt_S]).
  - intros s [<-|[<-|[<-|[]]]] H; try discriminate H; reflexivity.
  - reflexivity.
Defined.

Lemma should_prune_survivor_witness :
  Expansion_in (fun _ => 0%Z) (fun l => Z.of_nat (length l))
               [t_a; nt_S] [[t_a]] = false /\
  (forall t, In t (Expansion_iter [t_a; nt_S]) -> is_Terminal t = true ->
             exists token, In token ["a"; "b"]%string /\
                           String.eqb (name t) token = true).
Proof.
  destruct (should_prune_survivor string (fun s t => String.eqb (name s) t)
                                  (fun _ => 0%Z) (fun l => Z.of_nat (length l))
                                  [t_a; nt_S] ["a"; "b"]%string [[t_a]] [])
    as (H1 & _ & _ & H4 & _).
  - intros s [<-|[<-|[]]] H; discriminate H.
  - reflexivity.
  - split; [exact H1 | exact H4].
Defined.

Lemma derivation_index_ignores_epsilon_witness :
  In (0, nt_S) (enumerate_variables (EMPTY :: nt_S :: [t_b])) /\
  Expansion_iter (perform_derivation (EMPTY :: nt_S :: [t_b]) 0 [t_a; nt_S])
  = Expansion_iter [t_a; nt_S] ++ nt_S :: Expansion_iter [t_b].
Proof.
  apply (derivation_index_ignores_epsilon nt_S [t_b] [t_a; nt_S]).
  - reflexivity.
  - intros s [<-|[<-|[]]] H; discriminate H.
Defined.

(* ------------------------------------------------------------------ *)
(** ** What the items of the states have in common *)

Section ReachableItems.
Variable g : Grammar.
Variable symbols : list Symbol.

(** A property of items that the rule of closure and the step over a
    symbol keep. *)
Variable J : LR1Item -> Prop.
Hypothesis J_expansions : forall it n, J it -> In n (expansions g it) -> J n.
Hypothesis J_advance :
  forall it X, J it -> next_symbol it = Some X -> J (advance it).

Lemma closure_keeps (K s : LRState) :
  closure g K = Ok s -> (forall it, In it K -> J it) ->
  forall it, In it s -> J it.
Proof.
  intros H HK. destruct (closure_spec g K) as (R & E & _ & _ & Hleast).
  rewrite H in E. injection E as ->.
  apply Hleast; [exact J_expansions | exact HK].
Qed.

Lemma goto_keeps (s n : LRState) (X : Symbol) :
  goto g s X = Ok n -> (forall it, In it s -> J it) ->
  forall it, In it n -> J it.
Proof.
  intros H Hs. apply goto_Ok in H. destruct H as [_ H].
  apply (closure_keeps _ _ H). intros it Hit. apply In_goto_kernel in Hit.
  destruct Hit as (it0 & Hit0 & Hn & ->). eapply J_advance; eauto.
Qed.

Lemma reachable_keeps (s0 s : LRState) :
  (forall it, In it s0 -> J it) -> reachable g symbols s0 s ->
  forall it, In it s -> J it.
Proof.
  intros H0 Hr. induction Hr as [|s n X _ IH _ Hn _]; [exact H0|].
  eapply goto_keeps; eauto.
Qed.

End ReachableItems.

(** Every state reached has an item in its kernel. *)
Lemma reachable_kernel_item (g : Grammar) (symbols : list Symbol)
      (i0 : LR1Item) (s0 s : LRState) :
  init_item g = Ok i0 -> closure g [i0] = Ok s0 ->
  reachable g symbols s0 s ->
  exists it rest, s = it :: rest /\ is_kernel_item g it = true.
Proof.
  intros Hi H0 Hr. destruct Hr as [|s n X _ _ Hn Hne].
  - destruct (closure_extends g _ _ H0) as (added & ->).
    exists i0, added. split; [reflexivity|]. apply init_item_kernel, Hi.
  - apply goto_Ok in Hn. destruct Hn as [_ Hn].
    destruct (closure_extends g _ _ Hn) as (added & ->).
    destruct (goto_kernel s X) as [|it K] eqn:EK.
    + rewrite closure_nil in Hn. injection Hn as Hn. simpl in Hn.
      subst added. contradiction.
    + exists it, (K ++ added). split; [reflexivity|].
      unfold is_kernel_item. apply orb_true_iff. left. apply Nat.ltb_lt.
      apply (goto_kernel_positive s X). rewrite EK. left. reflexivity.
Qed.

(* ------------------------------------------------------------------ *)
(** ** [get_items] comes to an end *)

(** The items that can stand in a state: the item of [init_kernel] and
    the items closure can add to it, with the dot at any place of the
    rule. *)
Definition dotted (b : LR1Item) : list LR1Item :=
  map (fun d => mkItem (item_name b) d (rule b) (lookahead b))
      (seq 0 (S (length (rule b)))).

Definition item_universe (g : Grammar) (i0 : LR1Item) : list LR1Item :=
  flat_map dotted (i0 :: closure_candidates g [i0]).

Lemma In_item_universe (g : Grammar) (i0 it : LR1Item) :
  In it (item_universe g i0) <->
  exists b, (b = i0 \/ In b (closure_candidates g [i0])) /\
            item_name it = item_name b /\ rule it = rule b /\
            lookahead it = lookahead b /\ dot it <= length (rule b).
Proof.
  unfold item_universe, dotted. rewrite in_flat_map. split.
  - intros (b & Hb & Hit). apply in_map_iff in Hit.
    destruct Hit as (d & <- & Hd). apply in_seq in Hd.
    exists b. simpl. split; [destruct Hb; auto|]. repeat split; lia.
  - intros (b & Hb & H1 & H2 & H3 & H4). exists b.
    split; [destruct Hb; [left; auto | right; auto]|].
    apply in_map_iff. exists (dot it). split.
    + destruct it; simpl in *. congruence.
    + apply in_seq. lia.
Qed.

Lemma universe_init (g : Grammar) (i0 : LR1Item) :
  init_item g = Ok i0 -> In i0 (item_universe g i0).
Proof.
  intros H. apply In_item_universe. exists i0. split; [auto|].
  repeat split. unfold init_item in H.
  destruct (Grammar_getitem g (start_symbol g)); inversion H. simpl. lia.
Qed.

Lemma universe_expansions (g : Grammar) (i0 it n : LR1Item) :
  In it (item_universe g i0) -> In n (expansions g it) ->
  In n (item_universe g i0).
Proof.
  intros Hit Hn. apply In_item_universe in Hit.
  destruct Hit as (b & Hb & H1 & H2 & H3 & H4).
  assert (Hs : in_sight g [i0] it).
  { assert (Hsb : in_sight g [i0] b).
    { destruct Hb as [->|Hb];
        [apply in_sight_initial; left; reflexivity
        | apply in_sight_candidate, Hb]. }
    destruct Hsb as [Hr Hl]. split; [rewrite H2; exact Hr | rewrite H3; exact Hl]. }
  pose proof (expansions_candidates g [i0] it n Hs Hn) as Hc.
  apply In_item_universe. exists n. split; [right; exact Hc|].
  repeat split. apply In_closure_candidates in Hc.
  destruct Hc as (x & gamma & w & _ & _ & _ & ->). simpl. lia.
Qed.

Lemma universe_advance (g : Grammar) (i0 it : LR1Item) (X : Symbol) :
  In it (item_universe g i0) -> next_symbol it = Some X ->
  In (advance it) (item_universe g i0).
Proof.
  intros Hit Hn. apply In_item_universe in Hit.
  destruct Hit as (b & Hb & H1 & H2 & H3 & H4).
  apply In_item_universe. exists b. split; [exact Hb|].
  simpl. repeat split; try assumption.
  apply next_symbol_Some in Hn. destruct Hn as [_ Hn].
  assert (dot it < length (rule it)) by (apply nth_error_Some; congruence).
  rewrite <- H2. lia.
Qed.

Lemma reachable_universe (g : Grammar) (symbols : list Symbol)
      (i0 : LR1Item) (s0 s : LRState) :
  init_item g = Ok i0 -> closure g [i0] = Ok s0 ->
  reachable g symbols s0 s ->
  forall it, In it s -> In it (item_universe g i0).
Proof.
  intros Hi H0 Hr.
  apply (reachable_keeps g symbols (fun it => In it (item_universe g i0))
                         (universe_expansions g i0) (universe_advance g i0)
                         s0 s); [|exact Hr].
  apply (closure_keeps g _ (universe_expansions g i0) _ _ H0).
  intros it [<-|[]]. apply universe_init, Hi.
Qed.

(** *** Counting states by their kernels *)

(** Which items of a list are in the kernel of a state. *)
Definition kernel_marks (g : Grammar) (U : list LR1Item) (s : LRState)
  : list bool :=
  map (fun u => existsb (item_eqb u) (kernel g s)) U.

Fixpoint all_marks (n : nat) : list (list bool) :=
  match n with
  | 0 => [[]]
  | S n' => map (cons true) (all_marks n') ++ map (cons false) (all_marks n')
  end.

Lemma all_marks_length (n : nat) : length (all_marks n) = 2 ^ n.
Proof.
  induction n as [|n IH]; [reflexivity|].
  cbn [all_marks]. rewrite length_app, !length_map, IH. simpl. lia.
Qed.

Lemma all_marks_In (l : list bool) : In l (all_marks (length l)).
Proof.
  induction l as [|b l IH]; [left; reflexivity|].
  cbn [length all_marks]. apply in_or_app.
  destruct b; [left | right]; apply in_map, IH.
Qed.

Lemma existsb_item (it : LR1Item) (l : list LR1Item) :
  existsb (item_eqb it) l = true <-> In it l.
Proof.
  rewrite existsb_exists. split.
  - intros (y & Hy & E). apply item_eqb_eq in E. subst y. exact Hy.
  - intros H. exists it. split; [exact H | apply item_eqb_eq; reflexivity].
Qed.

Lemma kernel_marks_eq (g : Grammar) (U : list LR1Item) (a b : LRState) :
  (forall it, In it (kernel g a) -> In it U) ->
  (forall it, In it (kernel g b) -> In it U) ->
  kernel_marks g U a = kernel_marks g U b ->
  LRState_eqb g a b = true.
Proof.
  intros Ha Hb E. unfold kernel_marks in E.
  assert (Hpt : forall u, In u U ->
                          existsb (item_eqb u) (kernel g a)
                          = existsb (item_eqb u) (kernel g b)).
  { apply map_ext_in_iff. exact E. }
  apply LRState_eqb_true. intros it. split; intros Hit.
  - apply existsb_item. rewrite <- Hpt by (apply Ha, Hit).
    apply existsb_item, Hit.
  - apply existsb_item. rewrite Hpt by (apply Hb, Hit).
    apply existsb_item, Hit.
Qed.

Lemma NoDup_snoc {A : Type} (l : list A) (x : A) :
  NoDup l -> ~ In x l -> NoDup (l ++ [x]).
Proof.
  intros Hl Hx. induction Hl as [|y l Hy Hl IH]; simpl.
  - constructor; [intros [] | constructor].
  - constructor.
    + intros H. apply in_app_iff in H. destruct H as [H|[H|[]]];
        [contradiction|]. apply Hx. left. symmetry. exact H.
    + apply IH. intros H. apply Hx. right. exact H.
Qed.

(** States no two of which are equal, with kernels among [U], are at
    most as many as the subsets of [U]. *)
Lemma distinct_states_bound (g : Grammar) (U : list LR1Item)
      (items : list LRState) :
  distinct_states g items ->
  (forall s it, In s items -> In it (kernel g s) -> In it U) ->
  length items <= 2 ^ length U.
Proof.
  intros Hd HU.
  assert (Hnd : NoDup (map (kernel_marks g U) items)).
  { induction Hd as [|l n Hd IH Hn]; [constructor|].
    rewrite map_app. simpl. apply NoDup_snoc.
    - apply IH. intros s it Hs. apply HU. apply in_or_app. left. exact Hs.
    - intros Hin. apply in_map_iff in Hin. destruct Hin as (s & E & Hs).
      assert (Heq : LRState_eqb g n s = true).
      { apply (kernel_marks_eq g U).
        - intros it. apply HU. apply in_or_app. right. left. reflexivity.
        - intros it. apply HU. apply in_or_app. left. exact Hs.
        - symmetry. exact E. }
      rewrite (proj1 (LRState_in_false g n l) Hn s Hs) in Heq. discriminate. }
  rewrite <- (length_map (kernel_marks g U) items), <- all_marks_length.
  apply NoDup_incl_length; [exact Hnd|].
  intros m Hm. apply in_map_iff in Hm. destruct Hm as (s & <- & _).
  replace (length U) with (length (kernel_marks g U s))
    by (unfold kernel_marks; apply length_map).
  apply all_marks_In.
Qed.

(** *** The loops *)

Section GetItemsTotal.
Variable g : Grammar.
Variable symbols : list Symbol.
Hypothesis symbols_not_EMPTY : ~ In EMPTY symbols.

Lemma goto_total (s : LRState) (X : Symbol) :
  X <> EMPTY -> exists n, goto g s X = Ok n.
Proof.
  intros HX. rewrite goto_eq by (apply Symbol_eqb_neq; exact HX).
  destruct (closure_spec g (goto_kernel s X)) as (n & H & _). eauto.
Qed.

Lemma explore_total (r : list LRState * bool) (state : LRState) (X : Symbol) :
  In X symbols ->
  exists r', explore g r state X = Ok r' /\
             length (fst r) <= length (fst r') /\
             (snd r = true -> snd r' = true) /\
             (snd r' = true -> snd r = true \/ length (fst r) < length (fst r')).
Proof.
  intros HX. unfold explore.
  destruct (goto_total state X) as [n Hn].
  { intros ->. contradiction. }
  rewrite Hn. simpl. destruct n as [|it n].
  - exists r. split; [reflexivity|]. split; [lia|]. auto.
  - destruct (LRState_in g (it :: n) (fst r)).
    + exists r. split; [reflexivity|]. split; [lia|]. auto.
    + eexists. split; [reflexivity|]. simpl. rewrite length_app. simpl.
      split; [lia|]. split; [auto|]. intros _. right. lia.
Qed.

(** What one round does to the list and the flag. *)
Definition grows (items : list LRState) (r : list LRState * bool) : Prop :=
  length items <= length (fst r) /\
  (snd r = true -> length items < length (fst r)).

Lemma explore_state_total (items : list LRState) (r : list LRState * bool)
      (state : LRState) :
  grows items r ->
  exists r', explore_state g symbols r state = Ok r' /\ grows items r'.
Proof.
  unfold explore_state.
  assert (G : forall l, (forall X, In X l -> In X symbols) ->
              forall r, grows items r ->
              exists r', fold_left (fun acc' X => r <- acc' ;; explore g r state X)
                                   l (Ok r) = Ok r' /\ grows items r').
  { induction l as [|X l IH]; intros Hl r0 Hr0; simpl.
    - eauto.
    - destruct (explore_total r0 state X) as (r1 & E & H1 & H2 & H3).
      { apply Hl. left. reflexivity. }
      rewrite E. apply IH.
      + intros Y HY. apply Hl. right. exact HY.
      + destruct Hr0 as [Ha Hb]. split; [lia|].
        intros Ht. destruct (H3 Ht) as [Hs|Hlt]; [specialize (Hb Hs)|]; lia. }
  intros Hr. apply G; auto.
Qed.

Lemma get_items_pass_total (items : list LRState) :
  exists r, get_items_pass g symbols items = Ok r /\ grows items r.
Proof.
  rewrite get_items_pass_eq.
  assert (G : forall l r, grows items r ->
              exists r', fold_left (fun acc state => r <- acc ;; explore_state g symbols r state)
                                   l (Ok r) = Ok r' /\ grows items r').
  { induction l as [|state l IH]; intros r Hr; simpl.
    - eauto.
    - destruct (explore_state_total items r state Hr) as (r1 & E & Hr1).
      rewrite E. apply IH, Hr1. }
  apply G. split; simpl; [lia | discriminate].
Qed.

Lemma get_items_while_total (i0 : LR1Item) (s0 : LRState) :
  init_item g = Ok i0 -> closure g [i0] = Ok s0 ->
  forall fuel items,
    pass_inv g symbols s0 (items, false) ->
    2 ^ length (item_universe g i0) - length items < fuel ->
    exists items', get_items_while g symbols fuel items = Ok items'.
Proof.
  intros Hi H0. induction fuel as [|fuel IH]; intros items Hinv Hf; [lia|].
  cbn [get_items_while].
  destruct (get_items_pass_total items) as ([items1 ch] & Hp & Hg).
  rewrite Hp. cbn [bind snd fst].
  destruct ch; [|eauto].
  pose proof (get_items_pass_inv g symbols s0 items _ Hp Hinv) as Hinv1.
  apply IH; [exact Hinv1|].
  destruct Hg as [_ Hlt]. specialize (Hlt eq_refl). cbn [fst snd] in Hlt.
  assert (Hb : length items1 <= 2 ^ length (item_universe g i0)).
  { destruct Hinv1 as (_ & Hreach & Hd). cbn [fst snd] in Hreach, Hd.
    apply (distinct_states_bound g _ items1 Hd).
    intros s it Hs Hit. apply kernel_In in Hit. destruct Hit as [Hit _].
    exact (reachable_universe g symbols i0 s0 s Hi H0 (Hreach s Hs) it Hit). }
  lia.
Qed.

End GetItemsTotal.

(** X8. [get_items] comes to an end.  For a grammar whose start symbol has
    an alternative and a run that enumerates symbols other than
    epsilon, there is a number of rounds of the [while] loop within
    which [get_items] returns its states, the same for any larger
    number; the states are at most as many as the sets of items that can
    be kernels. *)
Theorem get_items_terminates (g : Grammar) (symbols : list Symbol)
        (i0 : LR1Item) :
  init_item g = Ok i0 -> ~ In EMPTY symbols ->
  exists items,
    (forall fuel,
        2 ^ length (item_universe g i0) <= fuel ->
        get_items g symbols fuel = Ok items) /\
    1 <= length items <= 2 ^ length (item_universe g i0).
Proof.
  intros Hi Hsym.
  destruct (closure_spec g [i0]) as (s0 & H0 & _).
  assert (Hinv0 : pass_inv g symbols s0 ([s0], false)).
  { split; [exists []; reflexivity|]. split.
    - intros s [<-|[]]. apply reach_start.
    - apply (distinct_snoc g [] s0 (distinct_nil g)). reflexivity. }
  assert (Hpos : 1 <= 2 ^ length (item_universe g i0)).
  { pose proof (Nat.pow_nonzero 2 (length (item_universe g i0))). lia. }
  destruct (get_items_while_total g symbols Hsym i0 s0 Hi H0
              (2 ^ length (item_universe g i0)) [s0] Hinv0)
    as (items & Hw).
  { cbn [length]. lia. }
  exists items. split.
  - intros fuel Hf. unfold get_items, init_kernel. rewrite Hi. cbn [bind].
    rewrite H0. cbn [bind].
    exact (get_items_while_more_fuel g symbols _ fuel [s0] items Hw Hf).
  - destruct (get_items_while_spec g symbols s0 _ [s0] items Hw Hinv0)
      as [((rest & Hr) & Hreach & Hd) _].
    cbn [fst snd] in Hr, Hreach, Hd. split; [rewrite Hr; cbn [length]; lia|].
    apply (distinct_states_bound g _ items Hd).
    intros s it Hs Hit. apply kernel_In in Hit. destruct Hit as [Hit _].
    exact (reachable_universe g symbols i0 s0 s Hi H0 (Hreach s Hs) it Hit).
Qed.

Lemma get_items_terminates_witness :
  exists items,
    (forall fuel,
        2 ^ length (item_universe g_ab (mkItem nt_S' 0 [nt_S; EOF] EOF)) <= fuel ->
        get_items g_ab symbols_ab fuel = Ok items) /\
    1 <= length items
    <= 2 ^ length (item_universe g_ab (mkItem nt_S' 0 [nt_S; EOF] EOF)).
Proof.
  apply (get_items_terminates g_ab symbols_ab (mkItem nt_S' 0 [nt_S; EOF] EOF)).
  - reflexivity.
  - intros H. simpl in H.
    repeat (destruct H as [H|H]; [discriminate H|]). exact H.
Defined.

(* ------------------------------------------------------------------ *)
(** ** compute_reduce_actions *)

Section ReduceActions.
Variable g : Grammar.

(** The cell a completed item asks for, and the action it brings. *)
Definition reduce_key (p : LRState * LR1Item) : Key :=
  (fst p, name (lookahead (snd p))).

Definition reduce_action (p : LRState * LR1Item) : Action :=
  Reduce_of (item_name (snd p)) (rule (snd p)).

(** The body of the loops, for a state and one of its completed items. *)
Definition reduce_step (t : LRTable) (p : LRState * LR1Item) : result LRTable :=
  match LRTable_get g t (reduce_key p) with
  | None => Ok (LRTable_setitem g t (reduce_key p) (reduce_action p))
  | Some held =>
      Raised (ValueError (fst p) (name (lookahead (snd p))) held (reduce_action p))
  end.

(** The completed items in the order the loops visit them. *)
Definition finished_items (states : list LRState) : list (LRState * LR1Item) :=
  flat_map (fun state => map (pair state) (yield_finished state)) states.

Lemma In_finished_items (states : list LRState) (state : LRState) (it : LR1Item) :
  In (state, it) (finished_items states) <->
  In state states /\ In it state /\ completed it = true.
Proof.
  unfold finished_items, yield_finished. rewrite in_flat_map. split.
  - intros (s & Hs & H). apply in_map_iff in H. destruct H as (x & E & Hx).
    inversion E; subst. apply filter_In in Hx. tauto.
  - intros (Hs & Hit & Hc). exists state. split; [exact Hs|].
    apply in_map, filter_In. auto.
Qed.

Lemma compute_reduce_actions_eq (states : list LRState) (tbl : LRTable) :
  compute_reduce_actions g states tbl
  = fold_left (fun acc p => t <- acc ;; reduce_step t p)
              (finished_items states) (Ok tbl).
Proof.
  unfold compute_reduce_actions, finished_items.
  rewrite fold_left_flat_map. apply fold_left_ext. intros acc state.
  rewrite fold_left_map. apply fold_left_ext. intros acc' it.
  reflexivity.
Qed.

Lemma LRTable_get_key (t : LRTable) (k1 k2 : Key) :
  Key_eqb g k1 k2 = true -> LRTable_get g t k1 = LRTable_get g t k2.
Proof.
  intros H. induction t as [|[k' a] t IH]; simpl; [reflexivity|].
  rewrite (Key_eqb_sym g k' k1), (Key_eqb_right g k1 k2 k' H),
    (Key_eqb_sym g k2 k').
  rewrite IH. reflexivity.
Qed.

Lemma reduce_step_Ok (t t' : LRTable) (p : LRState * LR1Item) :
  reduce_step t p = Ok t' ->
  LRTable_get g t (reduce_key p) = None /\
  t' = LRTable_setitem g t (reduce_key p) (reduce_action p).
Proof.
  unfold reduce_step. destruct (LRTable_get g t (reduce_key p)); [discriminate|].
  intros H. inversion H. auto.
Qed.

(** A run of the loops that returns: what was in the table stays, every
    item found its cell free and left its Reduce there, and nothing
    else came in. *)
Lemma reduce_fold_spec (l : list (LRState * LR1Item)) :
  forall t0 t',
    fold_left (fun acc p => t <- acc ;; reduce_step t p) l (Ok t0) = Ok t' ->
    (forall k a, LRTable_get g t0 k = Some a -> LRTable_get g t' k = Some a) /\
    (forall p, In p l ->
               LRTable_get g t0 (reduce_key p) = None /\
               LRTable_get g t' (reduce_key p) = Some (reduce_action p)) /\
    (forall k a, LRTable_get g t' k = Some a ->
                 LRTable_get g t0 k = Some a \/
                 exists p, In p l /\ Key_eqb g (reduce_key p) k = true /\
                           a = reduce_action p).
Proof.
  induction l as [|p l IH]; intros t0 t' H; simpl in H.
  - inversion H; subst. split; [auto|]. split; [intros p []|auto].
  - destruct (reduce_step t0 p) as [t1|e|] eqn:E;
      [|rewrite fold_bind_not_Ok in H by discriminate; discriminate..].
    apply reduce_step_Ok in E. destruct E as [Hfree ->].
    destruct (IH _ _ H) as (Ha & Hb & Hc).
    assert (Hget : forall k,
               LRTable_get g (LRTable_setitem g t0 (reduce_key p) (reduce_action p)) k
               = if Key_eqb g (reduce_key p) k then Some (reduce_action p)
                 else LRTable_get g t0 k)
      by (intros k; apply LRTable_get_setitem).
    split; [|split].
    + intros k a Hk. apply Ha. rewrite Hget.
      destruct (Key_eqb g (reduce_key p) k) eqn:Ek; [|exact Hk].
      rewrite <- (LRTable_get_key t0 _ _ Ek), Hfree in Hk. discriminate.
    + intros q [<-|Hq].
      * split; [exact Hfree|]. apply Ha. rewrite Hget, Key_eqb_refl. reflexivity.
      * destruct (Hb q Hq) as [H1 H2]. split; [|exact H2].
        rewrite Hget in H1.
        destruct (Key_eqb g (reduce_key p) (reduce_key q)); [discriminate|exact H1].
    + intros k a Hk. destruct (Hc k a Hk) as [H1|(q & Hq & Hk' & ->)].
      * rewrite Hget in H1.
        destruct (Key_eqb g (reduce_key p) k) eqn:Ek.
        -- right. exists p. split; [left; reflexivity|]. split; [exact Ek|].
           inversion H1. reflexivity.
        -- left. exact H1.
      * right. exists q. split; [right; exact Hq|]. auto.
Qed.

(** A run that does not return stops at the first item whose cell is
    taken, with the ValueError that names the state, the symbol, the
    action held and the Reduce of the item. *)
Lemma reduce_fold_raise (l : list (LRState * LR1Item)) :
  forall t0,
    (exists t', fold_left (fun acc p => t <- acc ;; reduce_step t p) l (Ok t0)
                = Ok t') \/
    (exists l1 p l2 ta held,
        l = l1 ++ p :: l2 /\
        fold_left (fun acc p => t <- acc ;; reduce_step t p) l1 (Ok t0) = Ok ta /\
        LRTable_get g ta (reduce_key p) = Some held /\
        fold_left (fun acc p => t <- acc ;; reduce_step t p) l (Ok t0)
        = Raised (ValueError (fst p) (name (lookahead (snd p))) held
                             (reduce_action p))).
Proof.
  induction l as [|p l IH]; intros t0.
  - left. simpl. eauto.
  - destruct (LRTable_get g t0 (reduce_key p)) as [held|] eqn:E.
    + right. exists [], p, l, t0, held. split; [reflexivity|].
      split; [reflexivity|]. split; [exact E|].
      simpl. unfold reduce_step at 2. rewrite E.
      apply fold_bind_not_Ok. discriminate.
    + assert (Hstep : reduce_step t0 p
                      = Ok (LRTable_setitem g t0 (reduce_key p) (reduce_action p)))
        by (unfold reduce_step; rewrite E; reflexivity).
      destruct (IH (LRTable_setitem g t0 (reduce_key p) (reduce_action p)))
        as [(t' & H)|(l1 & q & l2 & ta & held & -> & H1 & H2 & H3)].
      * left. exists t'. simpl. rewrite Hstep. exact H.
      * right. exists (p :: l1), q, l2, ta, held. split; [reflexivity|].
        split; [|split; [exact H2|]].
        -- simpl. rewrite Hstep. exact H1.
        -- simpl. rewrite Hstep. exact H3.
Qed.

Lemma two_in_list {A : Type} (l : list A) (x y : A) :
  In x l -> In y l -> x <> y ->
  exists l1 a l2 b l3,
    l = l1 ++ a :: l2 ++ b :: l3 /\ ((a = x /\ b = y) \/ (a = y /\ b = x)).
Proof.
  intros Hx Hy Hne. induction l as [|z l IH]; [contradiction|].
  destruct Hx as [->|Hx], Hy as [->|Hy].
  - congruence.
  - apply in_split in Hy. destruct Hy as (l2 & l3 & ->).
    exists [], x, l2, y, l3. auto.
  - apply in_split in Hx. destruct Hx as (l2 & l3 & ->).
    exists [], y, l2, x, l3. auto.
  - destruct (IH Hx Hy) as (l1 & a & l2 & b & l3 & -> & H).
    exists (z :: l1), a, l2, b, l3. auto.
Qed.

End ReduceActions.

(** X9. [compute_reduce_actions], when it returns, has overwritten
    nothing: every entry the table had is still there; every completed
    item of every state found its cell (state, lookahead) free and has
    left its Reduce there; and every entry of the result was there
    before or is the Reduce of such an item. *)
Theorem compute_reduce_actions_fills (g : Grammar) (states : list LRState)
        (tbl tbl' : LRTable) :
  compute_reduce_actions g states tbl = Ok tbl' ->
  (forall k a, LRTable_get g tbl k = Some a -> LRTable_get g tbl' k = Some a) /\
  (forall state it,
      In state states -> In it state -> completed it = true ->
      LRTable_get g tbl (state, name (lookahead it)) = None /\
      LRTable_get g tbl' (state, name (lookahead it))
      = Some (Reduce_of (item_name it) (rule it))) /\
  (forall k a,
      LRTable_get g tbl' k = Some a ->
      LRTable_get g tbl k = Some a \/
      exists state it,
        In state states /\ In it state /\ completed it = true /\
        Key_eqb g (state, name (lookahead it)) k = true /\
        a = Reduce_of (item_name it) (rule it)).
Proof.
  rewrite compute_reduce_actions_eq. intros H.
  destruct (reduce_fold_spec g _ _ _ H) as (Ha & Hb & Hc).
  split; [exact Ha|]. split.
  - intros state it Hs Hit Hcm.
    apply (Hb (state, it)). apply In_finished_items. auto.
  - intros k a Hk. destruct (Hc k a Hk) as [H1|([state it] & Hp & Hk' & ->)];
      [left; exact H1|].
    right. exists state, it. apply In_finished_items in Hp.
    destruct Hp as (H1 & H2 & H3). auto 10.
Qed.

Lemma compute_reduce_actions_fills_witness :
  exists tbl',
    compute_reduce_actions g_ab [[mkItem nt_S 1 [t_b] t_a]] [] = Ok tbl' /\
    LRTable_get g_ab tbl' ([mkItem nt_S 1 [t_b] t_a], name t_a)
    = Some (Reduce_of nt_S [t_b]).
Proof.
  destruct (compute_reduce_actions g_ab [[mkItem nt_S 1 [t_b] t_a]] [])
    as [tbl'|e|] eqn:E; [|vm_compute in E; discriminate E..].
  exists tbl'. split; [reflexivity|].
  destruct (compute_reduce_actions_fills g_ab _ _ _ E) as (_ & H & _).
  apply (H [mkItem nt_S 1 [t_b] t_a] (mkItem nt_S 1 [t_b] t_a)).
  - left. reflexivity.
  - left. reflexivity.
  - reflexivity.
Defined.

(** X10. [compute_reduce_actions] raises exactly on a conflict.  It always
    ends, in a table or in a ValueError; the error names a state, the
    name of the lookahead of one of its completed items, the Reduce of
    that item, and the action that held the cell: an entry the table
    had from the start, or the Reduce of a completed item visited
    before.  It is raised whenever the cell of a completed item is
    taken in the table given, and whenever two completed items of a
    state have lookaheads of the same name. *)
Theorem compute_reduce_actions_conflict (g : Grammar) (states : list LRState)
        (tbl : LRTable) :
  compute_reduce_actions g states tbl <> OutOfFuel /\
  (forall e,
      compute_reduce_actions g states tbl = Raised e ->
      exists state it held,
        e = ValueError state (name (lookahead it)) held
                       (Reduce_of (item_name it) (rule it)) /\
        In state states /\ In it state /\ completed it = true /\
        (LRTable_get g tbl (state, name (lookahead it)) = Some held \/
         exists state' it',
           In state' states /\ In it' state' /\ completed it' = true /\
           Key_eqb g (state', name (lookahead it'))
                   (state, name (lookahead it)) = true /\
           held = Reduce_of (item_name it') (rule it'))) /\
  (forall state it held,
      In state states -> In it state -> completed it = true ->
      LRTable_get g tbl (state, name (lookahead it)) = Some held ->
      exists e, compute_reduce_actions g states tbl = Raised e) /\
  (forall state it it',
      In state states -> In it state -> In it' state ->
      completed it = true -> completed it' = true -> it <> it' ->
      name (lookahead it) = name (lookahead it') ->
      exists e, compute_reduce_actions g states tbl = Raised e).
Proof.
  rewrite compute_reduce_actions_eq.
  pose proof (reduce_fold_raise g (finished_items states) tbl) as Hcases.
  split; [|split; [|split]].
  - destruct Hcases as [(t' & ->)|(l1 & p & l2 & ta & held & _ & _ & _ & ->)];
      discriminate.
  - intros e He.
    destruct Hcases as [(t' & H)|(l1 & [state it] & l2 & ta & held & El & H1 & H2 & H3)];
      [congruence|].
    rewrite H3 in He. inversion He; subst e. clear He.
    assert (Hp : In (state, it) (finished_items states)).
    { rewrite El. apply in_or_app. right. left. reflexivity. }
    apply In_finished_items in Hp. destruct Hp as (Hs & Hit & Hc).
    exists state, it, held. split; [reflexivity|].
    split; [exact Hs|]. split; [exact Hit|]. split; [exact Hc|].
    destruct (reduce_fold_spec g _ _ _ H1) as (_ & _ & Horigin).
    destruct (Horigin _ _ H2) as [H0|([state' it'] & Hq & Hk & ->)];
      [left; exact H0|].
    right. exists state', it'.
    assert (Hq' : In (state', it') (finished_items states)).
    { rewrite El. apply in_or_app. left. exact Hq. }
    apply In_finished_items in Hq'. destruct Hq' as (Hs' & Hit' & Hc').
    auto 10.
  - intros state it held Hs Hit Hc Hheld.
    destruct Hcases as [(t' & H)|(l1 & p & l2 & ta & h & _ & _ & _ & H3)];
      [|eauto].
    exfalso. destruct (reduce_fold_spec g _ _ _ H) as (_ & Hb & _).
    destruct (Hb (state, it)) as [Hfree _].
    { apply In_finished_items. auto. }
    unfold reduce_key in Hfree. simpl in Hfree. congruence.
  - intros state it it' Hs Hit Hit' Hc Hc' Hne Hname.
    destruct Hcases as [(t' & H)|(l1 & p & l2 & ta & h & _ & _ & _ & H3)];
      [|eauto].
    exfalso.
    destruct (two_in_list (finished_items states) (state, it) (state, it'))
      as (l1 & a & l2 & b & l3 & El & Hab).
    { apply In_finished_items. auto. }
    { apply In_finished_items. auto. }
    { congruence. }
    rewrite El in H. apply fold_bind_split in H.
    destruct H as (ta & tb & _ & Hstep & Hrest).
    apply reduce_step_Ok in Hstep. destruct Hstep as [_ ->].
    destruct (reduce_fold_spec g _ _ _ Hrest) as (_ & Hb & _).
    destruct (Hb b) as [Hfree _].
    { apply in_or_app. right. left. reflexivity. }
    rewrite LRTable_get_setitem in Hfree.
    assert (Hk : Key_eqb g (reduce_key a) (reduce_key b) = true).
    { unfold Key_eqb, reduce_key.
      destruct Hab as [[-> ->]|[-> ->]]; simpl;
        rewrite LRState_eqb_refl; simpl; apply String.eqb_eq; congruence. }
    rewrite Hk in Hfree. discriminate.
Qed.

(* ------------------------------------------------------------------ *)
(** ** How [get_items] and [construct] fail *)

(** A loop whose rounds either raise AssertionError, at the elements
    marked by [bad], or go on: it raises at the first element marked, and
    returns when none is. *)
Lemma fold_bind_outcome {A X : Type} (f : A -> X -> result A)
      (bad : X -> bool) (l : list X) :
  (forall x t, In x l ->
               (bad x = true /\ f t x = Raised AssertionError) \/
               (bad x = false /\ exists t', f t x = Ok t')) ->
  forall t0,
    (existsb bad l = true /\
     fold_left (fun acc x => t <- acc ;; f t x) l (Ok t0) = Raised AssertionError) \/
    (existsb bad l = false /\
     exists t', fold_left (fun acc x => t <- acc ;; f t x) l (Ok t0) = Ok t').
Proof.
  induction l as [|x l IH]; intros Hf t0; simpl.
  - right. eauto.
  - destruct (Hf x t0 (or_introl eq_refl)) as [[Hb E]|[Hb (t1 & E)]];
      rewrite Hb, E; simpl.
    + left. split; [reflexivity|]. apply fold_bind_not_Ok. discriminate.
    + apply IH. intros y t Hy. apply Hf. right. exact Hy.
Qed.

Section Outcomes.
Variable g : Grammar.

Definition is_EMPTY (X : Symbol) : bool := Symbol_eqb X EMPTY.

Lemma existsb_is_EMPTY (l : list Symbol) :
  existsb is_EMPTY l = true <-> In EMPTY l.
Proof.
  rewrite existsb_exists. split.
  - intros (x & Hx & E). apply Symbol_eqb_eq in E. subst x. exact Hx.
  - intros H. exists EMPTY. split; [exact H | apply Symbol_eqb_refl].
Qed.

Lemma goto_outcome (s : LRState) (X : Symbol) :
  (is_EMPTY X = true /\ goto g s X = Raised AssertionError) \/
  (is_EMPTY X = false /\ exists n, goto g s X = Ok n).
Proof.
  unfold is_EMPTY. destruct (Symbol_eqb X EMPTY) eqn:E.
  - left. split; [reflexivity|]. unfold goto. rewrite E. reflexivity.
  - right. split; [reflexivity|]. rewrite goto_eq by exact E.
    destruct (closure_spec g (goto_kernel s X)) as (n & H & _). eauto.
Qed.

Lemma explore_outcome (r : list LRState * bool) (state : LRState) (X : Symbol) :
  (is_EMPTY X = true /\ explore g r state X = Raised AssertionError) \/
  (is_EMPTY X = false /\ exists r', explore g r state X = Ok r').
Proof.
  unfold explore.
  destruct (goto_outcome state X) as [[Hb E]|[Hb (n & E)]]; rewrite E; simpl.
  - left. auto.
  - right. split; [exact Hb|]. destruct n as [|it n]; [eauto|].
    destruct (LRState_in g (it :: n) (fst r)); eauto.
Qed.

Lemma get_items_pass_outcome (symbols : list Symbol) (items : list LRState) :
  (existsb is_EMPTY symbols = true /\ items <> [] /\
   get_items_pass g symbols items = Raised AssertionError) \/
  ((existsb is_EMPTY symbols = false \/ items = []) /\
   exists r, get_items_pass g symbols items = Ok r).
Proof.
  rewrite get_items_pass_eq.
  destruct (existsb is_EMPTY symbols) eqn:Eb.
  - destruct items as [|s items]; [right; simpl; eauto|].
    left. split; [reflexivity|]. split; [discriminate|]. simpl.
    unfold explore_state at 2.
    destruct (fold_bind_outcome (fun r X => explore g r s X) is_EMPTY symbols
                (fun X t _ => explore_outcome t s X) (s :: items, false))
      as [[_ E]|[Hb _]]; [|congruence].
    rewrite E. apply fold_bind_not_Ok. discriminate.
  - right. split; [auto|].
    destruct (fold_bind_outcome
                (fun r state => explore_state g symbols r state)
                (fun _ => false) items) with (t0 := (items, false))
      as [[Hb _]|[_ H]]; [| |exact H].
    + intros state r _. right. split; [reflexivity|]. unfold explore_state.
      destruct (fold_bind_outcome (fun r X => explore g r state X) is_EMPTY
                  symbols (fun X t _ => explore_outcome t state X) r)
        as [[Hb _]|[_ H]]; [congruence | exact H].
    + exfalso. clear - Hb. induction items; simpl in Hb; [discriminate|auto].
Qed.

Lemma get_items_while_outcome (symbols : list Symbol) (fuel : nat)
      (items : list LRState) :
  items <> [] ->
  (existsb is_EMPTY symbols = true /\ 0 < fuel /\
   get_items_while g symbols fuel items = Raised AssertionError) \/
  ((existsb is_EMPTY symbols = false \/ fuel = 0) /\
   (get_items_while g symbols fuel items = OutOfFuel \/
    exists r, get_items_while g symbols fuel items = Ok r)).
Proof.
  revert items. induction fuel as [|fuel IH]; intros items Hne.
  - right. simpl. auto.
  - simpl.
    destruct (get_items_pass_outcome symbols items)
      as [(Hb & _ & E)|([Hb|Hnil] & ([items1 ch] & E))];
      [| |contradiction]; rewrite E; simpl.
    + left. split; [exact Hb|]. split; [lia | reflexivity].
    + destruct ch; [|right; eauto].
      assert (Hne1 : items1 <> []).
      { assert (Hsym : ~ In EMPTY symbols).
        { intros Hin. apply existsb_is_EMPTY in Hin. congruence. }
        destruct (get_items_pass_total g symbols Hsym items) as (r & Hr & [Hle _]).
        rewrite E in Hr. inversion Hr; subst r. cbn [fst] in Hle.
        destruct items1; [|discriminate]. destruct items; [contradiction|].
        simpl in Hle. lia. }
      destruct (IH items1 Hne1) as [(Hb' & _)|([_ | ->] & H)];
        [congruence | right; auto | right; auto].
Qed.

(** [construct], state by state. *)
Definition state_bad (state : LRState) : bool :=
  existsb (has_next EMPTY) state || existsb is_EMPTY (non_terminals g).

Lemma assign_targets_outcome (act : LRState -> Action) (items : list LRState)
      (state_i : LRState) (a : Symbol) (t : LRTable) :
  items <> [] ->
  (is_EMPTY a = true /\
   assign_targets g act items state_i a t = Raised AssertionError) \/
  (is_EMPTY a = false /\ exists t', assign_targets g act items state_i a t = Ok t').
Proof.
  intros Hne. unfold assign_targets.
  destruct (goto_outcome state_i a) as [[Hb E]|[Hb (n & E)]].
  - left. split; [exact Hb|]. destruct items as [|I_j items]; [contradiction|].
    simpl. rewrite E. simpl. apply fold_bind_not_Ok. discriminate.
  - right. split; [exact Hb|].
    destruct (fold_bind_outcome
                (fun t I_j =>
                   j <- goto g state_i a ;;
                   if LRState_eqb g j I_j
                   then Ok (LRTable_setitem g t (state_i, name a) (act I_j))
                   else Ok t)
                (fun _ => false) items) with (t0 := t) as [[Hb' _]|[_ H]].
    + intros I_j t0 _. right. split; [reflexivity|]. rewrite E. simpl.
      destruct (LRState_eqb g n I_j); eauto.
    + exfalso. clear - Hb'. induction items; simpl in Hb'; [discriminate|auto].
    + exact H.
Qed.

Lemma construct_item_outcome (items : list LRState) (state_i : LRState)
      (t : LRTable) (item : LR1Item) :
  items <> [] ->
  (has_next EMPTY item = true /\
   construct_item g items state_i t item = Raised AssertionError) \/
  (has_next EMPTY item = false /\
   exists t', construct_item g items state_i t item = Ok t').
Proof.
  intros Hne. unfold construct_item, has_next, next_symbol.
  destruct (completed item) eqn:Ec.
  - right. split; [reflexivity|].
    destruct (_ && _); [eauto|]. destruct (negb _); eauto.
  - destruct (unfinished_has_next item Ec) as [a Ha]. rewrite Ha.
    apply assign_targets_outcome, Hne.
Qed.

Lemma construct_state_outcome (items : list LRState) (t : LRTable)
      (state_i : LRState) :
  items <> [] ->
  (state_bad state_i = true /\
   construct_state g items t state_i = Raised AssertionError) \/
  (state_bad state_i = false /\
   exists t', construct_state g items t state_i = Ok t').
Proof.
  intros Hne. unfold construct_state, state_bad.
  destruct (fold_bind_outcome
              (fun t item => construct_item g items state_i t item)
              (has_next EMPTY) state_i
              (fun item t0 _ => construct_item_outcome items state_i t0 item Hne) t)
    as [[Hb E]|[Hb (t1 & E)]]; rewrite Hb, E; simpl.
  - left. auto.
  - destruct (fold_bind_outcome
                (fun t nt => assign_targets g Goto items state_i nt t)
                is_EMPTY (non_terminals g)
                (fun nt t0 _ => assign_targets_outcome Goto items state_i nt t0 Hne)
                t1)
      as [[Hb' E']|[Hb' H]]; rewrite Hb'; [left | right]; auto.
Qed.

Lemma construct_table_outcome (items : list LRState) :
  (existsb state_bad items = true /\
   construct_table g items = Raised AssertionError) \/
  (existsb state_bad items = false /\
   exists tbl, construct_table g items = Ok tbl).
Proof.
  unfold construct_table.
  apply (fold_bind_outcome
           (fun t state_i => construct_state g items t state_i) state_bad items).
  intros state_i t Hin. apply construct_state_outcome.
  intros ->. contradiction.
Qed.

Lemma has_next_true (X : Symbol) (it : LR1Item) :
  has_next X it = true <-> next_symbol it = Some X.
Proof.
  unfold has_next. destruct (next_symbol it) as [x|].
  - rewrite Symbol_eqb_eq. split; congruence.
  - split; discriminate.
Qed.

Lemma table_bad_iff (items : list LRState) :
  items <> [] ->
  existsb state_bad items = true <->
  In EMPTY (non_terminals g) \/
  exists state it, In state items /\ In it state /\ next_symbol it = Some EMPTY.
Proof.
  intros Hne. rewrite existsb_exists. unfold state_bad. split.
  - intros (state & Hs & H). apply orb_true_iff in H. destruct H as [H|H].
    + right. apply existsb_exists in H. destruct H as (it & Hit & H).
      apply has_next_true in H. eauto.
    + left. apply existsb_is_EMPTY, H.
  - intros [H|(state & it & Hs & Hit & H)].
    + destruct items as [|s items]; [contradiction|]. exists s.
      split; [left; reflexivity|]. apply orb_true_iff. right.
      apply existsb_is_EMPTY, H.
    + exists state. split; [exact Hs|]. apply orb_true_iff. left.
      apply existsb_exists. exists it. split; [exact Hit|].
      apply has_next_true, H.
Qed.

End Outcomes.

Lemma init_kernel_cases (g : Grammar) :
  (exists i0, init_item g = Ok i0 /\ init_kernel g = Ok [i0]) \/
  (init_item g = Raised IndexError /\ init_kernel g = Raised IndexError).
Proof.
  unfold init_kernel, init_item.
  destruct (Grammar_getitem g (start_symbol g)); simpl; eauto.
Qed.

(** What [construct] ends in, by what [get_items] ends in. *)
Lemma construct_cases (g : Grammar) (symbols : list Symbol) (fuel : nat) :
  (init_kernel g = Raised IndexError /\
   construct g symbols fuel = Raised IndexError) \/
  (exists i0,
      init_item g = Ok i0 /\
      ((In EMPTY symbols /\ 0 < fuel /\
        get_items g symbols fuel = Raised AssertionError /\
        construct g symbols fuel = Raised AssertionError) \/
       ((~ In EMPTY symbols \/ fuel = 0) /\
        get_items g symbols fuel = OutOfFuel /\
        construct g symbols fuel = OutOfFuel) \/
       (exists items,
           (~ In EMPTY symbols \/ fuel = 0) /\
           get_items g symbols fuel = Ok items /\ items <> [] /\
           ((existsb (state_bad g) items = true /\
             construct g symbols fuel = Raised AssertionError) \/
            (existsb (state_bad g) items = false /\
             exists tbl, construct g symbols fuel = Ok (items, tbl)))))).
Proof.
  unfold construct, get_items.
  destruct (init_kernel_cases g) as [(i0 & Hi & Hk)|[Hi Hk]]; rewrite Hk;
    [|left; auto].
  right. exists i0. split; [exact Hi|]. cbn [bind].
  destruct (closure_spec g [i0]) as (s0 & H0 & (added & Hs0 & _) & _).
  rewrite H0. cbn [bind].
  assert (Hsym : existsb is_EMPTY symbols = false -> ~ In EMPTY symbols).
  { intros Hb Hin. apply existsb_is_EMPTY in Hin. congruence. }
  destruct (get_items_while_outcome g symbols fuel [s0] ltac:(discriminate))
    as [(Hb & Hf & E)|(Hb & [E|(items & E)])]; rewrite E; cbn [bind].
  - left. apply existsb_is_EMPTY in Hb. auto.
  - right. left. split; [destruct Hb; auto|]. auto.
  - right. right. exists items. split; [destruct Hb; auto|].
    split; [reflexivity|].
    assert (Hne : items <> []).
    { destruct fuel as [|fuel]; [discriminate|].
      destruct (get_items_while_spec g symbols s0 (S fuel) [s0] items E)
        as [((rest & Hr) & _) _].
      - split; [exists []; reflexivity|]. split.
        + intros s [<-|[]]. apply reach_start.
        + apply (distinct_snoc g [] s0 (distinct_nil g)). reflexivity.
      - simpl in Hr. rewrite Hr. discriminate. }
    split; [exact Hne|].
    destruct (construct_table_outcome g items) as [[Hbad Et]|[Hbad (tbl & Et)]];
      rewrite Et; cbn [bind]; [left | right]; eauto.
Qed.

(** X11. The one IndexError.  An item that is not completed has a symbol at
    its dot, also when its rule holds epsilon, so that no [rule[dot]] of
    [closure], [goto] or [construct] is out of range: [construct] ends
    in IndexError only when [init_kernel] does, that is, when the start
    symbol has no alternative to take the first of. *)
Theorem construct_index_error (g : Grammar) (symbols : list Symbol)
        (fuel : nat) :
  (forall it, completed it = false ->
              exists X, nth_error (rule it) (dot it) = Some X) /\
  (forall K, exists R, closure g K = Ok R) /\
  (forall s X, goto g s X <> Raised IndexError) /\
  (construct g symbols fuel = Raised IndexError <->
   init_kernel g = Raised IndexError).
Proof.
  split; [exact unfinished_has_next|]. split; [|split].
  - intros K. destruct (closure_spec g K) as (R & H & _). eauto.
  - intros s X. destruct (goto_outcome g s X) as [[_ E]|[_ (n & E)]];
      rewrite E; discriminate.
  - destruct (construct_cases g symbols fuel)
      as [[Hk Hc]|(i0 & Hi & [(_ & _ & _ & Hc)|[(_ & _ & Hc)|(items & _ & _ & _ & [[_ Hc]|[_ (tbl & Hc)]])]])];
      rewrite Hc; try tauto;
      (split; [discriminate|]);
      unfold init_kernel; rewrite Hi; discriminate.
Qed.

(** Where [construct] fails an assertion, with the store that keeps the
    action assigned last. *)
Lemma construct_plain_assertion (g : Grammar) (symbols : list Symbol)
        (fuel : nat) :
  construct g symbols fuel = Raised AssertionError <->
  ((exists i0, init_item g = Ok i0) /\ 0 < fuel /\ In EMPTY symbols) \/
  (exists items,
      get_items g symbols fuel = Ok items /\
      (In EMPTY (non_terminals g) \/
       exists state it,
         In state items /\ In it state /\ next_symbol it = Some EMPTY)).
Proof.
  destruct (construct_cases g symbols fuel)
    as [[Hk Hc]|(i0 & Hi & [(Hs & Hf & Hg & Hc)|[(Hs & Hg & Hc)|(items & Hs & Hg & Hne & Hc)]])].
  - rewrite Hc. split; [discriminate|].
    unfold init_kernel in Hk.
    intros [((i0 & Hi) & _)|(items & Hg & _)].
    + rewrite Hi in Hk. discriminate.
    + unfold get_items in Hg. unfold init_kernel in Hg.
      destruct (init_item g); simpl in *; discriminate.
  - rewrite Hc. split; [|reflexivity]. intros _. left. eauto.
  - rewrite Hc. split; [discriminate|].
    intros [(_ & Hf & Hin)|(items & Hg' & _)]; [|congruence].
    destruct Hs; [contradiction | lia].
  - pose proof (table_bad_iff g items Hne) as Hbad.
    destruct Hc as [[Hb Hc]|[Hb (tbl & Hc)]]; rewrite Hc.
    + split; [|reflexivity]. intros _. right. exists items.
      split; [exact Hg|]. apply Hbad, Hb.
    + split; [discriminate|].
      intros [(_ & Hf & Hin)|(items' & Hg' & H)].
      * destruct Hs; [contradiction | lia].
      * rewrite Hg in Hg'. injection Hg' as <-.
        apply Hbad in H. congruence.
Qed.

(** A rule is ordinary when it holds no epsilon or nothing but
    epsilon: then no item of it has epsilon after its dot. *)
Definition ordinary_rule (it : LR1Item) : Prop :=
  ~ In EMPTY (rule it) \/ Expansion_len (rule it) = 0.

Lemma ordinary_next (it : LR1Item) (X : Symbol) :
  ordinary_rule it -> next_symbol it = Some X -> X <> EMPTY.
Proof.
  intros Ho Hn. apply next_symbol_Some in Hn. destruct Hn as [Hc Hn].
  unfold completed in Hc. apply Nat.leb_gt in Hc.
  destruct Ho as [Ho|Ho]; [|lia].
  intros ->. apply Ho. eapply nth_error_In; eauto.
Qed.

(** [construct] returns on an ordinary grammar, with the store that
    keeps the action assigned last. *)
Lemma construct_plain_total (g : Grammar) (symbols : list Symbol) (i0 : LR1Item) :
  init_item g = Ok i0 -> ~ In EMPTY (rule i0) ->
  (forall alt, In alt (all_alternatives g) ->
               ~ In EMPTY alt \/ Expansion_len alt = 0) ->
  ~ In EMPTY (non_terminals g) -> ~ In EMPTY symbols ->
  exists items tbl,
    forall fuel,
      2 ^ length (item_universe g i0) <= fuel ->
      construct g symbols fuel = Ok (items, tbl).
Proof.
  intros Hi Hr0 Halt Hnt Hsym.
  destruct (get_items_terminates g symbols i0 Hi Hsym) as (items & Hg & _).
  assert (Hgood : existsb (state_bad g) items = false).
  { destruct (existsb (state_bad g) items) eqn:Eb; [|reflexivity]. exfalso.
    pose proof (Hg _ (Nat.le_refl _)) as Hg0.
    destruct (get_items_spec g symbols _ items Hg0)
      as (i0' & s0 & rest & Hi' & H0 & Hitems & Hreach & _).
    rewrite Hi in Hi'. injection Hi' as <-.
    apply table_bad_iff in Eb; [|rewrite Hitems; discriminate].
    destruct Eb as [Hb|(state & it & Hs & Hit & Hn)]; [contradiction|].
    assert (Hord : ordinary_rule it).
    { apply (reachable_keeps g symbols ordinary_rule) with (s0 := s0) (s := state).
      - intros it1 n _ Hn1. apply In_expansions in Hn1.
        destruct Hn1 as (B & gamma & b & _ & _ & Hgm & _ & ->).
        unfold ordinary_rule. simpl.
        apply Halt, Grammar_getitem_alternatives with (x := B), Hgm.
      - intros it1 X H1 _. exact H1.
      - apply (closure_keeps g ordinary_rule) with (K := [i0]).
        + intros it1 n _ Hn1. apply In_expansions in Hn1.
          destruct Hn1 as (B & gamma & b & _ & _ & Hgm & _ & ->).
          unfold ordinary_rule. simpl.
          apply Halt, Grammar_getitem_alternatives with (x := B), Hgm.
        + exact H0.
        + intros it1 [<-|[]]. left. exact Hr0.
      - apply Hreach, Hs.
      - exact Hit. }
    exact (ordinary_next it EMPTY Hord Hn eq_refl). }
  assert (Htbl : exists tbl, construct_table g items = Ok tbl).
  { destruct (construct_table_outcome g items) as [[Hb _]|[_ H]];
      [congruence | exact H]. }
  destruct Htbl as (tbl & Ht). exists items, tbl. intros fuel Hf.
  unfold construct. rewrite (Hg fuel Hf). cbn [bind]. rewrite Ht. reflexivity.
Qed.

(* ------------------------------------------------------------------ *)
(** ** [construct] and the store of the table *)

Section StoreFacts.
Variable g : Grammar.
Variable symbols : list Symbol.
Variable Tbl : Type.
Variable empty_table : Tbl.
Variable setitem : Tbl -> Key -> Action -> Tbl + exn.

(** A run with the store given, against the run with the store that
    keeps the last action: when it returns so does the other, and what
    it raises the other raises too, unless the store raised it. *)
Definition follows {A B : Type} (r : result A) (r' : result B) : Prop :=
  match r' with
  | Ok _ => exists a, r = Ok a
  | Raised e => r = Raised e \/ raised_by_store Tbl setitem e
  | OutOfFuel => r = OutOfFuel
  end.

Lemma follows_same {A : Type} (r : result A) : follows r r.
Proof. destruct r; simpl; eauto. Qed.

Lemma follows_bind {A B A' B' : Type} (r : result A) (r' : result A')
      (k : A -> result B) (k' : A' -> result B') :
  follows r r' -> (forall a a', follows (k a) (k' a')) ->
  follows (bind r k) (bind r' k').
Proof.
  intros H Hk. destruct r' as [a'|e|]; simpl in H.
  - destruct H as [a ->]. simpl. apply Hk.
  - destruct H as [->|H]; simpl; auto.
  - subst r. simpl. reflexivity.
Qed.

Lemma follows_fold {A A' X : Type} (f : A -> X -> result A)
      (f' : A' -> X -> result A') (l : list X) :
  (forall x a a', follows (f a x) (f' a' x)) ->
  forall r r',
    follows r r' ->
    follows (fold_left (fun acc x => t <- acc ;; f t x) l r)
            (fold_left (fun acc x => t <- acc ;; f' t x) l r').
Proof.
  intros Hf. induction l as [|x l IH]; intros r r' H; simpl; [exact H|].
  apply IH. apply follows_bind; [exact H|]. intros a a'. apply Hf.
Qed.

Lemma follows_Ok {A A' : Type} (a : A) (a' : A') :
  @follows A A' (Ok a) (Ok a').
Proof. simpl. eauto. Qed.

Lemma store_follows (t : LRTable) (t' : Tbl) (k : Key) (a : Action) :
  follows (Ok (LRTable_setitem g t k a)) (store Tbl setitem t' k a).
Proof.
  unfold store. destruct (setitem t' k a) as [t1|e] eqn:E; simpl; [eauto|].
  right. exists t', k, a. exact E.
Qed.

Lemma follows_bind_same {A B B' : Type} (r : result A)
      (k : A -> result B) (k' : A -> result B') :
  (forall a, follows (k a) (k' a)) -> follows (bind r k) (bind r k').
Proof.
  intros Hk. destruct r as [a|e|]; simpl; [apply Hk | auto | reflexivity].
Qed.

Lemma assign_targets_follows (act : LRState -> Action) (items : list LRState)
      (state_i : LRState) (a : Symbol) (t : LRTable) (t' : Tbl) :
  follows (assign_targets g act items state_i a t)
          (assign_targets_with g Tbl setitem act items state_i a t').
Proof.
  unfold assign_targets, assign_targets_with.
  apply (follows_fold
           (fun t I_j =>
              j <- goto g state_i a ;;
              if LRState_eqb g j I_j
              then Ok (LRTable_setitem g t (state_i, name a) (act I_j))
              else Ok t)
           (fun t I_j =>
              j <- goto g state_i a ;;
              if LRState_eqb g j I_j
              then store Tbl setitem t (state_i, name a) (act I_j)
              else Ok t)).
  - intros I_j t0 t0'. apply follows_bind_same. intros j.
    destruct (LRState_eqb g j I_j); [apply store_follows | apply follows_Ok].
  - apply follows_Ok.
Qed.

Lemma construct_item_follows (items : list LRState) (state_i : LRState)
      (t : LRTable) (t' : Tbl) (item : LR1Item) :
  follows (construct_item g items state_i t item)
          (construct_item_with g Tbl setitem items state_i t' item).
Proof.
  unfold construct_item, construct_item_with.
  destruct (completed item).
  - destruct (_ && _); [apply store_follows|].
    destruct (negb _); [apply store_follows | apply follows_Ok].
  - destruct (nth_error (rule item) (dot item)) as [a|].
    + apply assign_targets_follows.
    + simpl. auto.
Qed.

Lemma construct_state_follows (items : list LRState) (t : LRTable) (t' : Tbl)
      (state_i : LRState) :
  follows (construct_state g items t state_i)
          (construct_state_with g Tbl setitem items t' state_i).
Proof.
  unfold construct_state, construct_state_with.
  apply follows_bind.
  - apply (follows_fold
             (fun t item => construct_item g items state_i t item)
             (fun t item => construct_item_with g Tbl setitem items state_i t item)).
    + intros item t0 t0'. apply construct_item_follows.
    + apply follows_Ok.
  - intros t1 t1'.
    apply (follows_fold
             (fun t nt => assign_targets g Goto items state_i nt t)
             (fun t nt => assign_targets_with g Tbl setitem Goto items state_i nt t)).
    + intros nt t0 t0'. apply assign_targets_follows.
    + apply follows_Ok.
Qed.

Lemma construct_table_follows (items : list LRState) :
  follows (construct_table g items)
          (construct_table_with g Tbl empty_table setitem items).
Proof.
  unfold construct_table, construct_table_with.
  apply (follows_fold
           (fun t state_i => construct_state g items t state_i)
           (fun t state_i => construct_state_with g Tbl setitem items t state_i)).
  - intros state_i t t'. apply construct_state_follows.
  - apply follows_Ok.
Qed.

Lemma construct_follows (fuel : nat) :
  follows (construct g symbols fuel)
          (construct_with g symbols Tbl empty_table setitem fuel).
Proof.
  unfold construct, construct_with. apply follows_bind_same. intros items.
  apply follows_bind; [apply construct_table_follows|].
  intros t t'. apply follows_Ok.
Qed.

(** The states of a run that returns are the states of [get_items]. *)
Lemma construct_with_states (fuel : nat) (items : list LRState) (tbl : Tbl) :
  construct_with g symbols Tbl empty_table setitem fuel = Ok (items, tbl) ->
  get_items g symbols fuel = Ok items /\
  construct_table_with g Tbl empty_table setitem items = Ok tbl.
Proof.
  unfold construct_with. intros H.
  apply bind_Ok in H. destruct H as (items' & Hg & H).
  apply bind_Ok in H. destruct H as (tbl' & Ht & H).
  inversion H; subst. auto.
Qed.

Lemma store_returns_raises_nothing (e : exn) :
  store_returns Tbl setitem -> ~ raised_by_store Tbl setitem e.
Proof.
  intros Hs (t & k & a & H). destruct (Hs t k a) as [t' H']. congruence.
Qed.

End StoreFacts.

(** X12. Where [construct] fails an assertion, whatever the store of
    the table does.  [goto] asserts that its symbol is not epsilon.
    When the run enumerates epsilon among the symbols of [get_items],
    [construct] ends in AssertionError before it assigns anything.  When
    [construct] ends in AssertionError, then the run enumerates epsilon,
    or [get_items] returns and epsilon is listed among the non-terminals
    or stands after the dot of an item of one of the states, or the
    store raised the error on an assignment.  With a store that returns
    on every assignment these are exactly the cases in which [construct]
    ends in AssertionError. *)
Theorem construct_assertion_error (g : Grammar) (symbols : list Symbol)
        (Tbl : Type) (empty_table : Tbl)
        (setitem : Tbl -> Key -> Action -> Tbl + exn) (fuel : nat) :
  ((exists i0, init_item g = Ok i0) /\ 0 < fuel /\ In EMPTY symbols ->
   get_items g symbols fuel = Raised AssertionError /\
   construct_with g symbols Tbl empty_table setitem fuel
   = Raised AssertionError) /\
  (construct_with g symbols Tbl empty_table setitem fuel
   = Raised AssertionError ->
   ((exists i0, init_item g = Ok i0) /\ 0 < fuel /\ In EMPTY symbols) \/
   (exists items,
       get_items g symbols fuel = Ok items /\
       (In EMPTY (non_terminals g) \/
        exists state it,
          In state items /\ In it state /\ next_symbol it = Some EMPTY)) \/
   raised_by_store Tbl setitem AssertionError) /\
  (store_returns Tbl setitem ->
   (construct_with g symbols Tbl empty_table setitem fuel
    = Raised AssertionError <->
    ((exists i0, init_item g = Ok i0) /\ 0 < fuel /\ In EMPTY symbols) \/
    (exists items,
        get_items g symbols fuel = Ok items /\
        (In EMPTY (non_terminals g) \/
         exists state it,
           In state items /\ In it state /\ next_symbol it = Some EMPTY)))).
Proof.
  pose proof (construct_follows g symbols Tbl empty_table setitem fuel) as Hf.
  pose proof (construct_plain_assertion g symbols fuel) as Hp.
  split; [|split].
  - intros ((i0 & Hi) & Hfuel & Hin).
    assert (Hg : get_items g symbols fuel = Raised AssertionError).
    { destruct (construct_cases g symbols fuel)
        as [[Hk _]|(i0' & _ & [(_ & _ & Hg & _)|[(Hs & _)|(items & Hs & _)]])].
      - unfold init_kernel in Hk. rewrite Hi in Hk. discriminate.
      - exact Hg.
      - destruct Hs; [contradiction | lia].
      - destruct Hs; [contradiction | lia]. }
    split; [exact Hg|]. unfold construct_with. rewrite Hg. reflexivity.
  - intros H. rewrite H in Hf. simpl in Hf. destruct Hf as [Hf|Hf].
    + apply Hp in Hf. tauto.
    + auto.
  - intros Hs. split.
    + intros H. rewrite H in Hf. simpl in Hf. destruct Hf as [Hf|Hf].
      * apply Hp, Hf.
      * exfalso. exact (store_returns_raises_nothing Tbl setitem _ Hs Hf).
    + intros H. apply Hp in H.
      destruct (construct_with g symbols Tbl empty_table setitem fuel)
        as [r|e|]; simpl in Hf.
      * destruct Hf as [a Hf]. congruence.
      * destruct Hf as [Hf|Hf]; [congruence|].
        exfalso. exact (store_returns_raises_nothing Tbl setitem _ Hs Hf).
      * congruence.
Qed.

(** X13. [construct] raises nothing of its own on an ordinary grammar,
    whatever the store of the table does.  For a grammar whose start
    symbol has an alternative, that is free of epsilon, whose other
    alternatives hold no epsilon or nothing but epsilon, and whose
    non-terminals do not include epsilon, and for a run that enumerates
    symbols other than epsilon: within a number of rounds of the loop of
    [get_items] that the grammar bounds, [get_items] returns its states,
    and [construct] returns these states with a table or ends in an
    exception that the store raised on an assignment; with a store that
    returns on every assignment [construct] returns, the same states and
    the same table for any larger number of rounds. *)
Theorem construct_total (g : Grammar) (symbols : list Symbol) (i0 : LR1Item)
        (Tbl : Type) (empty_table : Tbl)
        (setitem : Tbl -> Key -> Action -> Tbl + exn) :
  init_item g = Ok i0 -> ~ In EMPTY (rule i0) ->
  (forall alt, In alt (all_alternatives g) ->
               ~ In EMPTY alt \/ Expansion_len alt = 0) ->
  ~ In EMPTY (non_terminals g) -> ~ In EMPTY symbols ->
  exists items,
    (forall fuel,
        2 ^ length (item_universe g i0) <= fuel ->
        get_items g symbols fuel = Ok items /\
        ((exists tbl,
             construct_with g symbols Tbl empty_table setitem fuel
             = Ok (items, tbl)) \/
         (exists e,
             construct_with g symbols Tbl empty_table setitem fuel = Raised e /\
             raised_by_store Tbl setitem e))) /\
    (store_returns Tbl setitem ->
     exists tbl,
       forall fuel,
         2 ^ length (item_universe g i0) <= fuel ->
         construct_with g symbols Tbl empty_table setitem fuel
         = Ok (items, tbl)).
Proof.
  intros Hi Hr0 Halt Hnt Hsym.
  destruct (construct_plain_total g symbols i0 Hi Hr0 Halt Hnt Hsym)
    as (items & tblp & Hp).
  assert (Hg : forall fuel, 2 ^ length (item_universe g i0) <= fuel ->
                            get_items g symbols fuel = Ok items).
  { intros fuel Hfuel. specialize (Hp fuel Hfuel). unfold construct in Hp.
    apply bind_Ok in Hp. destruct Hp as (items' & Hg & Hp).
    apply bind_Ok in Hp. destruct Hp as (tbl' & _ & Hp).
    inversion Hp; subst. exact Hg. }
  assert (Hcases : forall fuel,
             2 ^ length (item_universe g i0) <= fuel ->
             (exists tbl,
                 construct_with g symbols Tbl empty_table setitem fuel
                 = Ok (items, tbl)) \/
             (exists e,
                 construct_with g symbols Tbl empty_table setitem fuel
                 = Raised e /\ raised_by_store Tbl setitem e)).
  { intros fuel Hfuel.
    pose proof (construct_follows g symbols Tbl empty_table setitem fuel) as Hf.
    rewrite (Hp fuel Hfuel) in Hf.
    destruct (construct_with g symbols Tbl empty_table setitem fuel)
      as [[items' tbl]|e|] eqn:E; simpl in Hf.
    - left. exists tbl.
      destruct (construct_with_states g symbols Tbl empty_table setitem
                                      fuel items' tbl E) as [Hg' _].
      rewrite (Hg fuel Hfuel) in Hg'. congruence.
    - right. exists e. split; [reflexivity|].
      destruct Hf as [Hf|Hf]; [discriminate | exact Hf].
    - discriminate. }
  exists items. split.
  - intros fuel Hfuel. split; [apply Hg, Hfuel | apply Hcases, Hfuel].
  - intros Hs.
    destruct (Hcases _ (Nat.le_refl _)) as [(tbl & E)|(e & _ & He)];
      [|exfalso; exact (store_returns_raises_nothing Tbl setitem _ Hs He)].
    exists tbl. intros fuel Hfuel.
    apply construct_with_states in E. destruct E as [_ Et].
    unfold construct_with. rewrite (Hg fuel Hfuel). cbn [bind].
    rewrite Et. reflexivity.
Qed.

Lemma construct_total_witness :
  exists items tbl,
    forall fuel,
      2 ^ length (item_universe g_ab (mkItem nt_S' 0 [nt_S; EOF] EOF)) <= fuel ->
      get_items g_ab symbols_ab fuel = Ok items /\
      construct_with g_ab symbols_ab LRTable []
                     (LRTable_setitem_last g_ab) fuel
      = Ok (items, tbl).
Proof.
  destruct (construct_total
              g_ab symbols_ab (mkItem nt_S' 0 [nt_S; EOF] EOF)
              LRTable [] (LRTable_setitem_last g_ab))
    as (items & H & H').
  - reflexivity.
  - simpl. intros H. repeat (destruct H as [H|H]; [discriminate H|]). exact H.
  - intros alt H. left. simpl in H.
    repeat (destruct H as [<-|H];
            [simpl; intros H';
             repeat (destruct H' as [H'|H']; [discriminate H'|]); exact H'|]).
    contradiction.
  - simpl. intros H. repeat (destruct H as [H|H]; [discriminate H|]). exact H.
  - simpl. intros H. repeat (destruct H as [H|H]; [discriminate H|]). exact H.
  - destruct H' as [tbl H'].
    + intros t k a. eexists. reflexivity.
    + exists items, tbl. intros fuel Hf. split; [apply H, Hf | apply H', Hf].
Defined.

Section MappingStore.
Variable g : Grammar.
Variable symbols : list Symbol.
Variable setitem : LRTable -> Key -> Action -> LRTable + exn.

Hypothesis Hstore : stores_or_raises g setitem.

Lemma fold_bind_same {X : Type} (f f' : LRTable -> X -> result LRTable)
      (l : list X) :
  (forall x t t', f' t x = Ok t' -> f t x = Ok t') ->
  forall t t',
    fold_left (fun acc x => t <- acc ;; f' t x) l (Ok t) = Ok t' ->
    fold_left (fun acc x => t <- acc ;; f t x) l (Ok t) = Ok t'.
Proof.
  intros Hf. induction l as [|x l IH]; intros t t' H; simpl in *; [exact H|].
  destruct (f' t x) as [t1|e|] eqn:E.
  - rewrite (Hf x t t1 E). apply IH, H.
  - rewrite fold_bind_not_Ok in H by discriminate. discriminate.
  - rewrite fold_bind_not_Ok in H by discriminate. discriminate.
Qed.

Lemma store_same (t t' : LRTable) (k : Key) (a : Action) :
  store LRTable setitem t k a = Ok t' -> Ok (LRTable_setitem g t k a) = Ok t'.
Proof.
  unfold store. destruct (setitem t k a) as [t1|e] eqn:E; [|discriminate].
  intros H. inversion H; subst. rewrite (Hstore _ _ _ _ E). reflexivity.
Qed.

Lemma assign_targets_same (act : LRState -> Action) (items : list LRState)
      (state_i : LRState) (a : Symbol) (t t' : LRTable) :
  assign_targets_with g LRTable setitem act items state_i a t = Ok t' ->
  assign_targets g act items state_i a t = Ok t'.
Proof.
  unfold assign_targets_with, assign_targets.
  apply (fold_bind_same
           (fun t I_j =>
              j <- goto g state_i a ;;
              if LRState_eqb g j I_j
              then Ok (LRTable_setitem g t (state_i, name a) (act I_j))
              else Ok t)
           (fun t I_j =>
              j <- goto g state_i a ;;
              if LRState_eqb g j I_j
              then store LRTable setitem t (state_i, name a) (act I_j)
              else Ok t)).
  intros I_j t0 t1. destruct (goto g state_i a) as [j|e|]; simpl; auto.
  destruct (LRState_eqb g j I_j); [apply store_same | auto].
Qed.

Lemma construct_item_same (items : list LRState) (state_i : LRState)
      (t t' : LRTable) (item : LR1Item) :
  construct_item_with g LRTable setitem items state_i t item = Ok t' ->
  construct_item g items state_i t item = Ok t'.
Proof.
  unfold construct_item_with, construct_item.
  destruct (completed item).
  - destruct (_ && _); [apply store_same|].
    destruct (negb _); [apply store_same | auto].
  - destruct (nth_error (rule item) (dot item)); [|auto].
    apply assign_targets_same.
Qed.

Lemma construct_state_same (items : list LRState) (t t' : LRTable)
      (state_i : LRState) :
  construct_state_with g LRTable setitem items t state_i = Ok t' ->
  construct_state g items t state_i = Ok t'.
Proof.
  unfold construct_state_with, construct_state. intros H.
  apply bind_Ok in H. destruct H as (t1 & H1 & H2).
  apply (fold_bind_same
           (fun t item => construct_item g items state_i t item)
           (fun t item => construct_item_with g LRTable setitem items state_i t item))
    in H1; [|intros item t0 t2; apply construct_item_same].
  rewrite H1. cbn [bind].
  apply (fold_bind_same
           (fun t nt => assign_targets g Goto items state_i nt t)
           (fun t nt => assign_targets_with g LRTable setitem Goto items state_i nt t));
    [|exact H2].
  intros nt t0 t2. apply assign_targets_same.
Qed.

Lemma construct_same (fuel : nat) (items : list LRState) (tbl : LRTable) :
  construct_with g symbols LRTable [] setitem fuel = Ok (items, tbl) ->
  construct g symbols fuel = Ok (items, tbl).
Proof.
  intros H. apply construct_with_states in H. destruct H as [Hg Ht].
  assert (Hc : construct_table g items = Ok tbl).
  { unfold construct_table_with in Ht. unfold construct_table.
    apply (fold_bind_same
             (fun t state_i => construct_state g items t state_i)
             (fun t state_i =>
                construct_state_with g LRTable setitem items t state_i));
      [|exact Ht].
    intros state_i t0 t2. apply construct_state_same. }
  unfold construct. rewrite Hg. unfold bind at 1. rewrite Hc. reflexivity.
Qed.

End MappingStore.

(** [construct] is [construct_with] for the store that keeps the action
    assigned last. *)
Lemma construct_with_plain (g : Grammar) (symbols : list Symbol) (fuel : nat) :
  construct_with g symbols LRTable []
                 (LRTable_setitem_last g) fuel
  = construct g symbols fuel.
Proof.
  pose proof (construct_follows
                g symbols LRTable []
                (LRTable_setitem_last g) fuel) as Hf.
  destruct (construct_with g symbols LRTable []
                           (LRTable_setitem_last g) fuel)
    as [[items tbl]|e|] eqn:E; simpl in Hf.
  - symmetry. apply (construct_same g symbols _) in E; [exact E|].
    intros t k a t' H. inversion H. reflexivity.
  - destruct Hf as [Hf|(t & k & a & Hf)]; [congruence | discriminate Hf].
  - congruence.
Qed.




Lemma LRTable_setitem_once_stores (g : Grammar) :
  stores_or_raises g (LRTable_setitem_once g).
Proof.
  intros t k a t' H. unfold LRTable_setitem_once in H.
  destruct (LRTable_get g t k); inversion H. reflexivity.
Qed.


(** X29. [construct] assigns a second time under one key.  For
    S' -> S, S -> a S | b, a grammar without conflicts, the first state
    holds the item (S' -> . S eof, eof): [construct] assigns a Shift
    under (state, "S") for the item and then, in the loop over the
    non-terminals, a Goto under the same key; with a store that is
    write-once per key the run ends there, in the report of the store.
    For E' -> E, E -> E + E | integer, with the store that keeps the
    action assigned last, [construct] returns a table: one of its states
    holds both the completed item (E -> E + E ., +), for which
    [construct] assigns Reduce(E, 3) under (state, "+"), and the item
    (E -> E . + E, +), for which it assigns a Shift under the same key,
    and the table ends with the Shift.  [compute_reduce_actions], which
    asks [not in self] before it assigns, raises on that state and
    terminal, naming the state, the terminal and both actions; with the
    store that keeps the last action [construct] ends in no report of a
    conflict for any grammar. *)
Theorem construct_second_assignments :
  (exists items state target,
      get_items g_ab symbols_ab 10 = Ok items /\
      nth_error items 0 = Some state /\
      In (mkItem nt_S' 0 [nt_S; EOF] EOF) state /\
      In nt_S (non_terminals g_ab) /\
      goto g_ab state nt_S = Ok target /\ In target items /\
      construct_with g_ab symbols_ab LRTable [] (LRTable_setitem_once g_ab) 10
      = Raised (ValueError state "S" (Shift target) (Goto target))) /\
  (exists items tbl,
      construct_with g_amb symbols_amb LRTable [] (LRTable_setitem_last g_amb) 10
      = Ok (items, tbl) /\
      let state := nth 5 items [] in
      let target := nth 3 items [] in
      In state items /\
      In (mkItem nt_E 3 [nt_E; t_plus; nt_E] t_plus) state /\
      completed (mkItem nt_E 3 [nt_E; t_plus; nt_E] t_plus) = true /\
      In (mkItem nt_E 1 [nt_E; t_plus; nt_E] t_plus) state /\
      next_symbol (mkItem nt_E 1 [nt_E; t_plus; nt_E] t_plus) = Some t_plus /\
      LRTable_get g_amb tbl (state, name t_plus) = Some (Shift target) /\
      compute_reduce_actions g_amb [state] [((state, name t_plus), Shift target)]
      = Raised (ValueError state (name t_plus) (Shift target)
                           (Reduce_of nt_E [nt_E; t_plus; nt_E]))) /\
  (forall g symbols fuel,
      no_conflict_raised
        (construct_with g symbols LRTable [] (LRTable_setitem_last g) fuel)).
Proof.
  split; [|split].
  - do 3 eexists. split; [vm_compute; reflexivity|].
    split; [reflexivity|].
    repeat split; try (vm_compute; tauto).
  - eexists. eexists. split; [vm_compute; reflexivity|].
    cbv zeta. repeat split; vm_compute; tauto.
  - intros g symbols fuel. rewrite construct_with_plain.
    apply construct_no_conflict.
Qed.


(* ------------------------------------------------------------------ *)
(** ** Every entry of the table has its reason *)

Section TableSound.
Variable g : Grammar.
Variable items : list LRState.
Hypothesis items_distinct : distinct_states g items.

Lemma distinct_states_eq (a b : LRState) :
  In a items -> In b items -> LRState_eqb g a b = true -> a = b.
Proof.
  intros Ha Hb E. destruct (in_split _ _ Hb) as (l1 & l2 & El).
  rewrite El in Ha. apply in_app_iff in Ha.
  destruct Ha as [Ha|[Ha|Ha]]; [|auto|].
  - rewrite (distinct_states_split g items items_distinct l1 b l2 a El) in E;
      [discriminate | left; exact Ha].
  - rewrite (distinct_states_split g items items_distinct l1 b l2 a El) in E;
      [discriminate | right; exact Ha].
Qed.

(** What stands behind an entry under the key [k]: for a Shift, an item
    of the state with the symbol of that name after its dot, and the
    goto set of the state on the symbol, which the target equals; for a
    Goto, a non-terminal of that name and the goto set on it; for a
    Reduce, a completed item of the state, not of the start symbol, with
    a lookahead of that name; for Accept, the name of EOF and a
    completed item of the start symbol with lookahead EOF. *)
Definition entry_reason (k : Key) (a : Action) : Prop :=
  match a with
  | Shift n =>
      In n items /\
      exists X j it,
        In it (fst k) /\ next_symbol it = Some X /\ name X = snd k /\
        goto g (fst k) X = Ok j /\ LRState_eqb g j n = true
  | Goto n =>
      In n items /\
      exists X j,
        In X (non_terminals g) /\ name X = snd k /\
        goto g (fst k) X = Ok j /\ LRState_eqb g j n = true
  | Reduce A len =>
      exists it,
        In it (fst k) /\ completed it = true /\ item_name it = A /\
        A <> start_symbol g /\ len = Expansion_len (rule it) /\
        name (lookahead it) = snd k
  | Accept =>
      snd k = name EOF /\
      exists it,
        In it (fst k) /\ completed it = true /\
        item_name it = start_symbol g /\ lookahead it = EOF
  end.

Definition sound_table (t : LRTable) : Prop :=
  forall k a, In (k, a) t -> In (fst k) items /\ entry_reason k a.

Lemma In_setitem_key (t : LRTable) (k k0 : Key) (v a0 : Action) :
  In (k0, a0) (LRTable_setitem g t k v) ->
  In (k0, a0) t \/
  (a0 = v /\ (k0 = k \/ (Key_eqb g k0 k = true /\ exists a', In (k0, a') t))).
Proof.
  induction t as [|[k' a'] t IH]; simpl.
  - intros [H|[]]. inversion H. auto.
  - destruct (Key_eqb g k' k) eqn:E.
    + intros [H|H]; [|auto]. inversion H; subst. right. split; [reflexivity|].
      right. split; [exact E|]. exists a'. left. reflexivity.
    + intros [H|H]; [auto|]. destruct (IH H) as [H1|(H1 & [H2|(H2 & a1 & H3)])];
        [auto | auto | right].
      split; [exact H1|]. right. split; [exact H2|]. exists a1. right. exact H3.
Qed.

Lemma sound_setitem (t : LRTable) (k : Key) (v : Action) :
  sound_table t -> In (fst k) items -> entry_reason k v ->
  sound_table (LRTable_setitem g t k v).
Proof.
  intros Ht Hk Hv k0 a0 Hin. apply In_setitem_key in Hin.
  destruct Hin as [Hin|(-> & [->|(E & a' & Hin)])]; [apply Ht, Hin | auto |].
  destruct (Ht _ _ Hin) as [Hk0 _].
  unfold Key_eqb in E. apply andb_true_iff in E. destruct E as [E1 E2].
  apply String.eqb_eq in E2.
  assert (fst k0 = fst k) by (apply distinct_states_eq; assumption).
  assert (k0 = k) by (destruct k0, k; simpl in *; congruence).
  subst k0. auto.
Qed.

Lemma assign_targets_sound (act : LRState -> Action) (state_i : LRState)
      (a : Symbol) (t t' : LRTable) :
  In state_i items ->
  (forall I_j j, In I_j items -> goto g state_i a = Ok j ->
                 LRState_eqb g j I_j = true ->
                 entry_reason (state_i, name a) (act I_j)) ->
  assign_targets g act items state_i a t = Ok t' ->
  sound_table t -> sound_table t'.
Proof.
  intros Hs Hact H H0. unfold assign_targets in H.
  apply (fold_bind_inv _ sound_table _ _ _ H H0).
  intros t1 I_j t2 HIj Ht1 E. apply bind_Ok in E. destruct E as (j & Hj & E).
  destruct (LRState_eqb g j I_j) eqn:Eq; inversion E; subst; [|exact Ht1].
  apply sound_setitem; [exact Ht1 | exact Hs | eapply Hact; eauto].
Qed.

Lemma construct_item_sound (state_i : LRState) (t t' : LRTable)
      (item : LR1Item) :
  In state_i items -> In item state_i ->
  construct_item g items state_i t item = Ok t' ->
  sound_table t -> sound_table t'.
Proof.
  intros Hs Hi H H0. unfold construct_item in H.
  destruct (completed item) eqn:Ec.
  - destruct (Symbol_eqb (item_name item) (start_symbol g)
              && Symbol_eqb (lookahead item) EOF) eqn:Ea.
    + inversion H; subst. apply sound_setitem; [exact H0 | exact Hs|].
      apply andb_true_iff in Ea. destruct Ea as [E1 E2].
      apply Symbol_eqb_eq in E1, E2. simpl. split; [reflexivity|].
      exists item. auto.
    + destruct (negb (Symbol_eqb (item_name item) (start_symbol g))) eqn:En;
        inversion H; subst; [|exact H0].
      apply sound_setitem; [exact H0 | exact Hs|].
      apply negb_true_iff, Symbol_eqb_neq in En.
      unfold Reduce_of. simpl. exists item. auto 10.
  - destruct (nth_error (rule item) (dot item)) as [a|] eqn:En; [|discriminate].
    apply (assign_targets_sound Shift state_i a t t' Hs); [|exact H|exact H0].
    intros I_j j HIj Hj Eq. simpl. split; [exact HIj|].
    exists a, j, item. split; [exact Hi|]. split; [|auto].
    apply next_symbol_Some. auto.
Qed.

Lemma construct_state_sound (t t' : LRTable) (state_i : LRState) :
  In state_i items ->
  construct_state g items t state_i = Ok t' ->
  sound_table t -> sound_table t'.
Proof.
  intros Hs H H0. unfold construct_state in H.
  apply bind_Ok in H. destruct H as (t1 & H1 & H2).
  assert (Ht1 : sound_table t1).
  { apply (fold_bind_inv _ _ _ _ _ H1 H0).
    intros t2 item t3 Hitem Ht2 E.
    apply (construct_item_sound state_i t2 t3 item); auto. }
  apply (fold_bind_inv _ _ _ _ _ H2 Ht1).
  intros t2 nt t3 Hnt Ht2 E.
  apply (assign_targets_sound Goto state_i nt t2 t3 Hs); [|exact E|exact Ht2].
  intros I_j j HIj Hj Eq. simpl. split; [exact HIj|]. exists nt, j. auto.
Qed.

Lemma construct_table_sound (tbl : LRTable) :
  construct_table g items = Ok tbl -> sound_table tbl.
Proof.
  intros H. unfold construct_table in H.
  apply (fold_bind_inv _ sound_table _ _ _ H).
  { intros k a []. }
  intros t state_i t1 Hs Ht E.
  apply (construct_state_sound t t1 state_i); auto.
Qed.

(** The id of a state of the list is its position. *)
Lemma state_index_found (l : list LRState) (n : LRState) (i : Z) :
  In n l ->
  exists p s,
    state_index g l n i = (i + Z.of_nat p)%Z /\
    nth_error l p = Some s /\ LRState_eqb g s n = true.
Proof.
  revert i. induction l as [|s l IH]; intros i Hn; [contradiction|].
  simpl. destruct (LRState_eqb g s n) eqn:E.
  - exists 0, s. split; [lia|]. auto.
  - destruct Hn as [->|Hn]; [rewrite LRState_eqb_refl in E; discriminate|].
    destruct (IH (i + 1)%Z Hn) as (p & s' & H1 & H2 & H3).
    exists (S p), s'. split; [lia|]. auto.
Qed.

Lemma state_id_position (n : LRState) :
  In n items ->
  (0 <= state_id g items n < Z.of_nat (length items))%Z /\
  nth_error items (Z.to_nat (state_id g items n)) = Some n.
Proof.
  intros Hn. unfold state_id.
  destruct (state_index_found items n 0 Hn) as (p & s & H1 & H2 & H3).
  rewrite H1.
  assert (Hp : p < length items) by (apply nth_error_Some; congruence).
  assert (s = n).
  { apply distinct_states_eq; [eapply nth_error_In; eauto | exact Hn | exact H3]. }
  subst s. split; [lia|].
  replace (Z.to_nat (0 + Z.of_nat p)) with p by lia. exact H2.
Qed.

End TableSound.

(** X14. The table of [construct] is sound.  Every entry stands under a
    state of the automaton and has its reason there: a Shift or a Goto
    under (state, name) leads to a state of the automaton that equals
    the goto set of the state on a symbol of that name, which for a
    Shift stands after the dot of an item of the state and for a Goto
    is one of the grammar's non-terminals; a Reduce(A, k) comes from a
    completed item of the state with left-hand side A, other than the
    start symbol, of length k, and with a lookahead of that name; an
    Accept stands under the name of EOF and comes from a completed item
    of the start symbol with lookahead EOF. *)
Theorem construct_table_entries (g : Grammar) (symbols : list Symbol)
        (fuel : nat) (items : list LRState) (tbl : LRTable) :
  construct g symbols fuel = Ok (items, tbl) ->
  forall state nm act,
    In ((state, nm), act) tbl ->
    In state items /\
    match act with
    | Shift n =>
        In n items /\
        exists X j it,
          In it state /\ next_symbol it = Some X /\ name X = nm /\
          goto g state X = Ok j /\ LRState_eqb g j n = true
    | Goto n =>
        In n items /\
        exists X j,
          In X (non_terminals g) /\ name X = nm /\
          goto g state X = Ok j /\ LRState_eqb g j n = true
    | Reduce A len =>
        exists it,
          In it state /\ completed it = true /\ item_name it = A /\
          A <> start_symbol g /\ len = Expansion_len (rule it) /\
          name (lookahead it) = nm
    | Accept =>
        nm = name EOF /\
        exists it,
          In it state /\ completed it = true /\
          item_name it = start_symbol g /\ lookahead it = EOF
    end.
Proof.
  intros H state nm act Hin. unfold construct in H.
  apply bind_Ok in H. destruct H as (items' & HG & H).
  apply bind_Ok in H. destruct H as (tbl' & HT & H). injection H as -> ->.
  destruct (get_items_spec g symbols fuel items HG)
    as (_ & _ & _ & _ & _ & _ & _ & Hd & _).
  destruct (construct_table_sound g items Hd tbl HT _ _ Hin) as [H1 H2].
  split; [exact H1|]. destruct act; exact H2.
Qed.

Lemma construct_table_entries_witness :
  exists items tbl,
    construct g_ab symbols_ab 10 = Ok (items, tbl) /\
    forall state nm act,
      In ((state, nm), act) tbl -> In state items.
Proof.
  destruct (construct g_ab symbols_ab 10) as [[items tbl]|e|] eqn:E;
    [|vm_compute in E; discriminate E..].
  exists items, tbl. split; [reflexivity|].
  intros state nm act Hin.
  exact (proj1 (construct_table_entries g_ab symbols_ab 10 items tbl E
                                        state nm act Hin)).
Defined.

(** X15. From the table to its encoding.  The states that [get_items]
    returns are numbered by their position, every Shift and Goto of the
    table of [construct] leads to a state with such a number, found at
    that position, and so every entry of the table survives the
    encoding of [gen_parser]: the encoded entry decodes to the variant
    with its arguments. *)
Theorem construct_entries_encodable (g : Grammar) (symbols : list Symbol)
        (fuel : nat) (items : list LRState) (tbl : LRTable) :
  construct g symbols fuel = Ok (items, tbl) ->
  (forall n, In n items ->
             (0 <= state_id g items n < Z.of_nat (length items))%Z /\
             nth_error items (Z.to_nat (state_id g items n)) = Some n) /\
  (forall key act,
      In (key, act) tbl ->
      (forall n, act = Shift n \/ act = Goto n -> In n items) /\
      ids_valid (state_id g items) act /\
      decode (encode (state_id g items) act) = decoded_of (state_id g items) act).
Proof.
  intros H. unfold construct in H.
  apply bind_Ok in H. destruct H as (items' & HG & H).
  apply bind_Ok in H. destruct H as (tbl' & HT & H). injection H as -> ->.
  destruct (get_items_spec g symbols fuel items HG)
    as (_ & _ & _ & _ & _ & _ & _ & Hd & _).
  split; [intros n Hn; apply state_id_position; assumption|].
  intros key act Hin.
  destruct (construct_table_sound g items Hd tbl HT _ _ Hin) as [_ Hr].
  assert (Htarget : forall n, act = Shift n \/ act = Goto n -> In n items).
  { intros n [-> | ->]; simpl in Hr; tauto. }
  assert (Hvalid : ids_valid (state_id g items) act).
  { destruct act as [n|n|A k|]; simpl; try trivial;
      apply state_id_position; auto. }
  split; [exact Htarget|]. split; [exact Hvalid|].
  apply decode_encode, Hvalid.
Qed.

Lemma construct_entries_encodable_witness :
  exists items tbl,
    construct g_ab symbols_ab 10 = Ok (items, tbl) /\
    forall key act,
      In (key, act) tbl ->
      decode (encode (state_id g_ab items) act)
      = decoded_of (state_id g_ab items) act.
Proof.
  destruct (construct g_ab symbols_ab 10) as [[items tbl]|e|] eqn:E;
    [|vm_compute in E; discriminate E..].
  exists items, tbl. split; [reflexivity|].
  intros key act Hin.
  destruct (construct_entries_encodable g_ab symbols_ab 10 items tbl E)
    as [_ H].
  exact (proj2 (proj2 (H key act Hin))).
Defined.

(* ------------------------------------------------------------------ *)
(** ** No transition is missing from the table *)

Section TableComplete.
Variable g : Grammar.
Variable items : list LRState.
Hypothesis items_distinct : distinct_states g items.

Definition has_entry (t : LRTable) (k : Key) : Prop :=
  LRTable_get g t k <> None.

Lemma has_entry_setitem (t : LRTable) (k q : Key) (v : Action) :
  has_entry t q -> has_entry (LRTable_setitem g t k v) q.
Proof.
  unfold has_entry. rewrite LRTable_get_setitem.
  destruct (Key_eqb g k q); [discriminate | auto].
Qed.

Lemma has_entry_set (t : LRTable) (k : Key) (v : Action) :
  has_entry (LRTable_setitem g t k v) k.
Proof.
  unfold has_entry. rewrite LRTable_get_setitem, Key_eqb_refl. discriminate.
Qed.

Lemma assign_targets_keeps (act : LRState -> Action) (state_i : LRState)
      (a : Symbol) (t t' : LRTable) (q : Key) :
  assign_targets g act items state_i a t = Ok t' ->
  has_entry t q -> has_entry t' q.
Proof.
  intros H H0. unfold assign_targets in H.
  apply (fold_bind_inv _ (fun t1 => has_entry t1 q) _ _ _ H H0).
  intros t1 I_j t2 _ Ht1 E. apply bind_Ok in E. destruct E as (j & _ & E).
  destruct (LRState_eqb g j I_j); inversion E; subst; [|exact Ht1].
  apply has_entry_setitem, Ht1.
Qed.

Lemma construct_item_keeps (state_i : LRState) (t t' : LRTable)
      (item : LR1Item) (q : Key) :
  construct_item g items state_i t item = Ok t' ->
  has_entry t q -> has_entry t' q.
Proof.
  intros H H0. unfold construct_item in H.
  destruct (completed item).
  - destruct (_ && _); [inversion H; subst; apply has_entry_setitem, H0|].
    destruct (negb _); inversion H; subst;
      [apply has_entry_setitem, H0 | exact H0].
  - destruct (nth_error (rule item) (dot item)) as [a|]; [|discriminate].
    eapply assign_targets_keeps; eauto.
Qed.

Lemma construct_state_keeps (t t' : LRTable) (state_i : LRState) (q : Key) :
  construct_state g items t state_i = Ok t' ->
  has_entry t q -> has_entry t' q.
Proof.
  intros H H0. unfold construct_state in H.
  apply bind_Ok in H. destruct H as (t1 & H1 & H2).
  assert (Ht1 : has_entry t1 q).
  { apply (fold_bind_inv _ (fun t => has_entry t q) _ _ _ H1 H0).
    intros t2 item t3 _ Ht2 E. eapply construct_item_keeps; eauto. }
  apply (fold_bind_inv _ (fun t => has_entry t q) _ _ _ H2 Ht1).
  intros t2 nt t3 _ Ht2 E. eapply assign_targets_keeps; eauto.
Qed.

(** After the loop over the states for a symbol whose goto set equals
    the state [I_j] of the list, the cell holds the action for [I_j]. *)
Lemma assign_fold_exact (act : LRState -> Action) (state_i : LRState)
      (a : Symbol) (j I_j : LRState) (l : list LRState) :
  goto g state_i a = Ok j -> In I_j items -> LRState_eqb g j I_j = true ->
  (forall x, In x l -> In x items) ->
  forall t t',
    fold_left
      (fun acc I_j0 =>
         t <- acc ;;
         j <- goto g state_i a ;;
         if LRState_eqb g j I_j0
         then Ok (LRTable_setitem g t (state_i, name a) (act I_j0))
         else Ok t) l (Ok t) = Ok t' ->
    (In I_j l -> LRTable_get g t' (state_i, name a) = Some (act I_j)) /\
    (LRTable_get g t (state_i, name a) = Some (act I_j) ->
     LRTable_get g t' (state_i, name a) = Some (act I_j)).
Proof.
  intros Hj HIj Eq.
  set (F := fun (acc : result LRTable) (I_j0 : LRState) =>
              t <- acc ;;
              j <- goto g state_i a ;;
              if LRState_eqb g j I_j0
              then Ok (LRTable_setitem g t (state_i, name a) (act I_j0))
              else Ok t).
  induction l as [|x l IH]; intros Hl t t' H; cbn [fold_left] in H.
  - inversion H; subst. split; [intros [] | auto].
  - assert (HF : F (Ok t) x
                 = if LRState_eqb g j x
                   then Ok (LRTable_setitem g t (state_i, name a) (act x))
                   else Ok t)
      by (unfold F; cbn [bind]; rewrite Hj; reflexivity).
    rewrite HF in H. clear HF.
    assert (Hx : LRState_eqb g j x = true -> x = I_j).
    { intros Ex. apply (distinct_states_eq g items items_distinct);
        [apply Hl; left; reflexivity | exact HIj|].
      apply (LRState_eqb_trans g x j I_j); [|exact Eq].
      rewrite LRState_eqb_sym. exact Ex. }
    destruct (LRState_eqb g j x) eqn:Ex.
    + specialize (Hx eq_refl). subst x.
      destruct (IH (fun y Hy => Hl y (or_intror Hy)) _ _ H) as [_ IH2].
      assert (Hset : LRTable_get g (LRTable_setitem g t (state_i, name a) (act I_j))
                                 (state_i, name a) = Some (act I_j))
        by (rewrite LRTable_get_setitem, Key_eqb_refl; reflexivity).
      split; intros _; apply IH2, Hset.
    + destruct (IH (fun y Hy => Hl y (or_intror Hy)) _ _ H) as [IH1 IH2].
      split; [|exact IH2].
      intros [->|Hin]; [|exact (IH1 Hin)].
      rewrite Eq in Ex. discriminate.
Qed.

Lemma assign_targets_exact (act : LRState -> Action) (state_i : LRState)
      (a : Symbol) (t t' : LRTable) (j I_j : LRState) :
  goto g state_i a = Ok j -> In I_j items -> LRState_eqb g j I_j = true ->
  assign_targets g act items state_i a t = Ok t' ->
  LRTable_get g t' (state_i, name a) = Some (act I_j).
Proof.
  intros Hj HIj Eq H. unfold assign_targets in H.
  exact (proj1 (assign_fold_exact act state_i a j I_j items Hj HIj Eq
                                  (fun x Hx => Hx) t t' H) HIj).
Qed.

(** An assignment under another name leaves the cell alone. *)
Lemma assign_targets_other_name (act : LRState -> Action) (state_i : LRState)
      (a : Symbol) (t t' : LRTable) (q : Key) :
  assign_targets g act items state_i a t = Ok t' ->
  name a <> snd q ->
  LRTable_get g t' q = LRTable_get g t q.
Proof.
  intros H Hq. unfold assign_targets in H.
  apply (fold_bind_inv _ (fun t1 => LRTable_get g t1 q = LRTable_get g t q)
                       _ _ _ H eq_refl).
  intros t1 I_j t2 _ Ht1 E. apply bind_Ok in E. destruct E as (j & _ & E).
  destruct (LRState_eqb g j I_j); inversion E; subst; [|exact Ht1].
  rewrite LRTable_get_setitem. unfold Key_eqb at 1. simpl.
  rewrite (proj2 (String.eqb_neq _ _) Hq), andb_false_r. exact Ht1.
Qed.

Lemma goto_holds_advanced (state : LRState) (it : LR1Item) (a : Symbol)
      (j : LRState) :
  In it state -> next_symbol it = Some a -> goto g state a = Ok j ->
  In (advance it) j.
Proof.
  intros Hit Hn Hj. apply goto_Ok in Hj. destruct Hj as [_ Hj].
  destruct (closure_extends g _ _ Hj) as (added & ->).
  apply in_or_app. left. apply In_goto_kernel. eauto.
Qed.

End TableComplete.

Lemma fold_bind_split_in {A X : Type} (f : A -> X -> result A)
      (l : list X) (x : X) (t0 t' : A) :
  In x l ->
  fold_left (fun acc x => t <- acc ;; f t x) l (Ok t0) = Ok t' ->
  exists l1 l2 ta tb,
    l = l1 ++ x :: l2 /\
    fold_left (fun acc x => t <- acc ;; f t x) l1 (Ok t0) = Ok ta /\
    f ta x = Ok tb /\
    fold_left (fun acc x => t <- acc ;; f t x) l2 (Ok tb) = Ok t'.
Proof.
  intros Hx H. destruct (in_split _ _ Hx) as (l1 & l2 & ->).
  apply fold_bind_split in H. destruct H as (ta & tb & H1 & H2 & H3).
  exists l1, l2, ta, tb. auto.
Qed.

(** X16. The table of [construct] is complete.  For every item of every
    state there is an entry where [construct] assigns one: under the
    name of the lookahead for a completed item (of a left-hand side
    other than the start symbol, or with lookahead EOF), and under the
    name of the symbol after the dot for any other item, when the run
    enumerated that symbol.  Which action a cell ends with is a matter
    of the order of the assignments, except for the non-terminals, that
    are assigned last: when the symbol after the dot is a non-terminal
    of the grammar (the only one of its name), the entry is the Goto to
    the state that equals the goto set. *)
Theorem construct_table_complete (g : Grammar) (symbols : list Symbol)
        (fuel : nat) (items : list LRState) (tbl : LRTable) :
  construct g symbols fuel = Ok (items, tbl) ->
  forall state it,
    In state items -> In it state ->
    (completed it = true ->
     item_name it <> start_symbol g \/ lookahead it = EOF ->
     exists act, LRTable_get g tbl (state, name (lookahead it)) = Some act) /\
    (forall a,
        next_symbol it = Some a -> In a symbols ->
        (exists act, LRTable_get g tbl (state, name a) = Some act) /\
        (In a (non_terminals g) ->
         (forall nt, In nt (non_terminals g) -> name nt = name a -> nt = a) ->
         exists n j,
           LRTable_get g tbl (state, name a) = Some (Goto n) /\
           In n items /\ goto g state a = Ok j /\ LRState_eqb g j n = true)).
Proof.
  intros H state it Hs Hit. unfold construct in H.
  apply bind_Ok in H. destruct H as (items' & HG & H).
  apply bind_Ok in H. destruct H as (tbl' & HT & H). injection H as -> ->.
  destruct (get_items_spec g symbols fuel items HG)
    as (_ & _ & _ & _ & _ & _ & _ & Hd & Hclosed).
  assert (Hne : items <> []) by (intros ->; contradiction).
  unfold construct_table in HT.
  destruct (fold_bind_split_in
              (fun t state_i => construct_state g items t state_i)
              items state [] tbl Hs HT)
    as (l1 & l2 & ta & tb & El & _ & Hstate & Hrest).
  assert (Hlater : forall q,
             has_entry g tb q -> has_entry g tbl q).
  { intros q Hq.
    apply (fold_bind_inv _ (fun t => has_entry g t q) _ _ _ Hrest Hq).
    intros t x t1 _ Ht E. eapply construct_state_keeps; eauto. }
  assert (Hlater_eq : forall nm,
             LRTable_get g tbl (state, nm) = LRTable_get g tb (state, nm)).
  { intros nm.
    apply (fold_bind_inv _ (fun t => LRTable_get g t (state, nm)
                                     = LRTable_get g tb (state, nm))
                         _ _ _ Hrest eq_refl).
    intros t x t1 Hx Ht E.
    rewrite (construct_state_other g items t t1 x (state, nm) E); [exact Ht|].
    apply (distinct_states_split g items Hd l1 state l2 x El). right. exact Hx. }
  assert (Hopt : forall t k, has_entry g t k ->
                             exists act, LRTable_get g t k = Some act).
  { intros t k Hk. unfold has_entry in Hk.
    destruct (LRTable_get g t k) as [act|]; [eauto | contradiction]. }
  unfold construct_state in Hstate.
  apply bind_Ok in Hstate. destruct Hstate as (t1 & Hitems & Hgoto).
  destruct (fold_bind_split_in
              (fun t item => construct_item g items state t item)
              state it ta t1 Hit Hitems)
    as (i1 & i2 & tc & td & Ei & _ & Hitem & Hitems_rest).
  assert (Hstate_later : forall q, has_entry g td q -> has_entry g tb q).
  { intros q Hq.
    assert (Ht1 : has_entry g t1 q).
    { apply (fold_bind_inv _ (fun t => has_entry g t q) _ _ _ Hitems_rest Hq).
      intros t x t2 _ Ht E. eapply construct_item_keeps; eauto. }
    apply (fold_bind_inv _ (fun t => has_entry g t q) _ _ _ Hgoto Ht1).
    intros t nt t2 _ Ht E. eapply assign_targets_keeps; eauto. }
  split.
  - intros Hc Hkind. apply Hopt, Hlater, Hstate_later.
    unfold construct_item in Hitem. rewrite Hc in Hitem.
    destruct (Symbol_eqb (item_name it) (start_symbol g)
              && Symbol_eqb (lookahead it) EOF) eqn:Ea.
    + inversion Hitem; subst.
      apply andb_true_iff in Ea. destruct Ea as [_ Ea].
      apply Symbol_eqb_eq in Ea. rewrite Ea. apply has_entry_set.
    + destruct (negb (Symbol_eqb (item_name it) (start_symbol g))) eqn:En.
      * inversion Hitem; subst. apply has_entry_set.
      * exfalso. apply negb_false_iff, Symbol_eqb_eq in En.
        destruct Hkind as [Hk|Hk]; [contradiction|].
        rewrite En, Hk, !Symbol_eqb_refl in Ea. discriminate.
  - intros a Hn Ha.
    assert (Hnext := Hn). apply next_symbol_Some in Hnext.
    destruct Hnext as [Hc Hnth].
    unfold construct_item in Hitem. rewrite Hc, Hnth in Hitem.
    destruct (assign_targets_outcome g Shift items state a tc Hne)
      as [[_ E]|[Hnot _]]; [congruence|].
    destruct (goto_outcome g state a) as [[Hb _]|[_ (j & Hj)]]; [congruence|].
    assert (Hin : exists I_j, In I_j items /\ LRState_eqb g j I_j = true).
    { destruct (Hclosed state a j Hs Ha Hj) as [->|Hin].
      - exfalso. exact (goto_holds_advanced g state it a [] Hit Hn Hj).
      - apply LRState_in_true in Hin. exact Hin. }
    destruct Hin as (I_j & HIj & Eq).
    split.
    + apply Hopt, Hlater, Hstate_later. unfold has_entry.
      rewrite (assign_targets_exact g items Hd Shift state a tc td j I_j
                                    Hj HIj Eq Hitem).
      discriminate.
    + intros Hnt Huniq. exists I_j, j.
      split; [|auto]. rewrite Hlater_eq.
      destruct (fold_bind_split_in
                  (fun t nt => assign_targets g Goto items state nt t)
                  (non_terminals g) a t1 tb Hnt Hgoto)
        as (n1 & n2 & te & tf & En & _ & Hassign & Hgoto_rest).
      assert (Htf : LRTable_get g tf (state, name a) = Some (Goto I_j)).
      { exact (assign_targets_exact g items Hd Goto state a te tf j I_j
                                    Hj HIj Eq Hassign). }
      apply (fold_bind_inv _ (fun t => LRTable_get g t (state, name a)
                                       = Some (Goto I_j))
                           _ _ _ Hgoto_rest Htf).
      intros t nt t2 Hnt2 Ht E.
      destruct (string_dec (name nt) (name a)) as [Enm|Enm].
      * assert (nt = a).
        { apply Huniq; [|exact Enm]. rewrite En. apply in_or_app.
          right. right. exact Hnt2. }
        subst nt.
        exact (assign_targets_exact g items Hd Goto state a t t2 j I_j
                                    Hj HIj Eq E).
      * rewrite (assign_targets_other_name g items Goto state nt t t2
                                           (state, name a) E Enm).
        exact Ht.
Qed.

Lemma construct_table_complete_witness :
  exists items tbl state act,
    construct g_ab symbols_ab 10 = Ok (items, tbl) /\
    hd_error items = Some state /\
    LRTable_get g_ab tbl (state, name nt_S) = Some act.
Proof.
  destruct (construct g_ab symbols_ab 10) as [[items tbl]|e|] eqn:E;
    [|vm_compute in E; discriminate E..].
  destruct items as [|state rest] eqn:Ei; [vm_compute in E; discriminate E|].
  destruct (construct_table_complete g_ab symbols_ab 10 _ tbl E state
                                     (mkItem nt_S' 0 [nt_S; EOF] EOF))
    as [_ H].
  - left. reflexivity.
  - vm_compute in E. injection E as <- _. left. reflexivity.
  - destruct (H nt_S) as [(act & Hact) _].
    + reflexivity.
    + simpl. tauto.
    + exists (state :: rest), tbl, state, act. auto.
Defined.

(* ------------------------------------------------------------------ *)
(** ** What closure adds, and what goto returns *)

Section ClosureAdds.
Variable g : Grammar.
Variable I : LRState.

(** The state while [closure] runs: [I], then items that were not in
    [I], each asked for by an item of the state. *)
Definition added_by_rule (items : LRState) : Prop :=
  exists added,
    items = I ++ added /\
    forall n, In n added ->
              ~ In n I /\ exists parent, In parent items /\ In n (expansions g parent).

Lemma added_by_rule_step (items : LRState) (it : LR1Item) :
  added_by_rule items -> In it items ->
  added_by_rule (append_all items (expansions g it)).
Proof.
  intros (added & -> & Hadd) Hit.
  destruct (append_all_spec (expansions g it) (I ++ added))
    as (added' & E & _ & Hnew & _).
  exists (added ++ added'). rewrite E, app_assoc. split; [reflexivity|].
  intros n Hn. apply in_app_iff in Hn. destruct Hn as [Hn|Hn].
  - destruct (Hadd n Hn) as [H1 (parent & H2 & H3)]. split; [exact H1|].
    exists parent. split; [apply in_or_app; left; exact H2 | exact H3].
  - destruct (Hnew n Hn) as [H1 H2]. split.
    + intros Hin. apply H2, in_or_app. left. exact Hin.
    + exists it. split; [apply in_or_app; left; exact Hit | exact H1].
Qed.

Lemma closure_for_added (fuel : nat) :
  forall k items changing R c,
    closure_for g fuel k items changing = Ok (R, c) ->
    added_by_rule items -> added_by_rule R.
Proof.
  induction fuel as [|fuel IH]; intros k items changing R c H Hinv;
    [discriminate|].
  rewrite closure_for_step in H.
  destruct (nth_error items k) as [it|] eqn:E.
  - apply (IH _ _ _ _ _ H). apply added_by_rule_step; [exact Hinv|].
    eapply nth_error_In; eauto.
  - inversion H; subst. exact Hinv.
Qed.

Lemma closure_while_added (passes fuel : nat) :
  forall items R,
    closure_while g passes fuel items = Ok R ->
    added_by_rule items -> added_by_rule R.
Proof.
  induction passes as [|passes IH]; intros items R H Hinv; [discriminate|].
  simpl in H. apply bind_Ok in H. destruct H as ([R1 c] & H1 & H).
  pose proof (closure_for_added _ _ _ _ _ _ H1 Hinv) as Hinv1.
  simpl in H. destruct c; [eapply IH; eauto|].
  inversion H; subst. exact Hinv1.
Qed.

End ClosureAdds.

(** What [closure] adds, on a call that runs the body. *)
Lemma closure_adds (g : Grammar) (I : LRState) :
  exists added,
    closure g I = Ok (I ++ added) /\
    NoDup added /\
    (forall it,
        In it added ->
        ~ In it I /\ dot it = 0 /\ is_NonTerminal (item_name it) = true /\
        In (rule it) (Grammar_getitem g (item_name it)) /\
        exists parent, In parent (I ++ added) /\ In it (expansions g parent)) /\
    (NoDup I -> NoDup (I ++ added)) /\
    (I = [] -> added = []).
Proof.
  destruct (closure_spec g I) as (R & E & (added & HR & Hnd & _) & _).
  subst R. exists added. split; [exact E|]. split; [exact Hnd|].
  assert (Hinv : added_by_rule g I (I ++ added)).
  { unfold closure in E. apply (closure_while_added g I _ _ _ _ E).
    exists []. rewrite app_nil_r. split; [reflexivity|]. intros n []. }
  destruct Hinv as (added' & Eq & Hadd). apply app_inv_head in Eq. subst added'.
  assert (Hall : forall it, In it added -> ~ In it I).
  { intros it Hit. apply Hadd, Hit. }
  split; [|split].
  - intros it Hit. destruct (Hadd it Hit) as [H1 (parent & H2 & H3)].
    split; [exact H1|]. apply In_expansions in H3 as H4.
    destruct H4 as (B & gamma & b & _ & HB & Hg & _ & ->). simpl.
    split; [reflexivity|]. split; [exact HB|]. split; [exact Hg|]. eauto.
  - intros HI. apply NoDup_app; [exact HI | exact Hnd|].
    intros x Hx Hx'. exact (Hall x Hx' Hx).
  - intros ->. rewrite closure_nil in E. injection E as E. simpl in E.
    symmetry. exact E.
Qed.

(* ------------------------------------------------------------------ *)
(** ** closure and its cache *)

Section ClosureCache.
Variable g : Grammar.

Lemma closure_cache_get_Some (cache : closure_calls) (I R : LRState) :
  closure_cache_get g cache I = Some R ->
  exists K, In (K, R) cache /\ LRState_eqb g K I = true.
Proof.
  unfold closure_cache_get.
  destruct (find _ cache) as [[K R']|] eqn:E; [|discriminate].
  intros H. inversion H; subst. apply find_some in E. simpl in E.
  exists K. exact E.
Qed.

Lemma closure_cache_get_None (cache : closure_calls) (I : LRState) :
  closure_cache_get g cache I = None ->
  forall K R, In (K, R) cache -> LRState_eqb g K I = false.
Proof.
  unfold closure_cache_get.
  destruct (find _ cache) as [p|] eqn:E; [discriminate|].
  intros _ K R Hin. exact (find_none _ _ E (K, R) Hin).
Qed.

(** The call, by what the cache holds: it returns, with the result of
    the body on an argument [K] equal to the one given, which is the
    one given when the cache has no answer. *)
Lemma closure_cached_call (cache : closure_calls) (I : LRState) :
  cache_sound g cache ->
  exists K R cache',
    closure_cached g cache I = (Ok R, cache') /\
    closure g K = Ok R /\ LRState_eqb g K I = true /\
    ((closure_cache_get g cache I = None /\ K = I /\
      cache' = cache ++ [(I, R)]) \/
     (closure_cache_get g cache I = Some R /\ In (K, R) cache /\
      cache' = cache)).
Proof.
  intros Hs. unfold closure_cached.
  destruct (closure_cache_get g cache I) as [R|] eqn:E.
  - destruct (closure_cache_get_Some _ _ _ E) as (K & Hin & Heq).
    exists K, R, cache. split; [reflexivity|]. split; [apply Hs, Hin|].
    split; [exact Heq|]. right. auto.
  - destruct (closure_spec g I) as (R & ER & _).
    exists I, R, (cache ++ [(I, R)]).
    split; [rewrite ER; reflexivity|]. split; [exact ER|].
    split; [apply LRState_eqb_refl|]. left. auto.
Qed.

Lemma cache_sound_after (cache cache' : closure_calls) (I : LRState)
      (r : result LRState) :
  cache_sound g cache -> closure_cached g cache I = (r, cache') ->
  cache_sound g cache'.
Proof.
  intros Hs H. unfold closure_cached in H.
  destruct (closure_cache_get g cache I) as [R|].
  - inversion H; subst. exact Hs.
  - destruct (closure g I) as [R|e|] eqn:E; inversion H; subst; try exact Hs.
    intros K R' Hin. apply in_app_or in Hin. destruct Hin as [Hin|[Hin|[]]].
    + apply Hs, Hin.
    + inversion Hin; subst. exact E.
Qed.

Lemma cache_of_kernels_after (cache cache' : closure_calls) (I : LRState)
      (r : result LRState) :
  cache_of_kernels g cache -> kernel_set g I ->
  closure_cached g cache I = (r, cache') -> cache_of_kernels g cache'.
Proof.
  intros Hk HI H. unfold closure_cached in H.
  destruct (closure_cache_get g cache I) as [R|].
  - inversion H; subst. exact Hk.
  - destruct (closure g I) as [R|e|] eqn:E; inversion H; subst; try exact Hk.
    intros K R' Hin. apply in_app_or in Hin. destruct Hin as [Hin|[Hin|[]]].
    + eapply Hk, Hin.
    + inversion Hin; subst. exact HI.
Qed.

(** Two sets of kernel items that are equal as states have the same
    items. *)
Lemma kernel_sets_same (K I : LRState) :
  kernel_set g K -> kernel_set g I -> LRState_eqb g K I = true ->
  forall it, In it K <-> In it I.
Proof.
  intros HK HI E it. rewrite LRState_eqb_true in E. split; intros H.
  - assert (Hk : In it (kernel g K)) by (apply kernel_In; auto).
    apply E, kernel_In in Hk. tauto.
  - assert (Hk : In it (kernel g I)) by (apply kernel_In; auto).
    apply E, kernel_In in Hk. tauto.
Qed.

Lemma closure_same_items (K I RK RI : LRState) :
  (forall it, In it K <-> In it I) ->
  closure g K = Ok RK -> closure g I = Ok RI ->
  forall it, In it RK <-> In it RI.
Proof.
  intros H HK HI it. split.
  - apply (closure_monotone g K I RK RI); [|exact HK|exact HI].
    intros x Hx. apply H, Hx.
  - apply (closure_monotone g I K RI RK); [|exact HI|exact HK].
    intros x Hx. apply H, Hx.
Qed.

Lemma kernel_set_union (I J : LRState) :
  kernel_set g I -> kernel_set g J -> kernel_set g (LRState_union I J).
Proof.
  intros HI HJ it Hit. unfold LRState_union in Hit.
  destruct (append_all_spec J I) as (added & E & _ & Hnew & _).
  rewrite E in Hit. apply in_app_or in Hit. destruct Hit as [Hit|Hit].
  - apply HI, Hit.
  - apply HJ. apply (Hnew it Hit).
Qed.

(** On a set of kernel items, with a cache filled by calls on such
    sets, the decorated call returns a state with the items of the
    closure of the set. *)
Lemma closure_cached_kernels (cache : closure_calls) (I : LRState) :
  cache_sound g cache -> cache_of_kernels g cache -> kernel_set g I ->
  exists R RI cache',
    closure_cached g cache I = (Ok R, cache') /\
    closure g I = Ok RI /\ (forall it, In it R <-> In it RI) /\
    cache_sound g cache' /\ cache_of_kernels g cache'.
Proof.
  intros Hs Hk HI.
  destruct (closure_cached_call cache I Hs) as (K & R & cache' & H & HK & E & Hc).
  destruct (closure_spec g I) as (RI & ERI & _).
  exists R, RI, cache'. split; [exact H|]. split; [exact ERI|].
  split; [|split].
  - destruct Hc as [(_ & -> & _)|(_ & Hin & _)].
    + rewrite ERI in HK. inversion HK; subst. tauto.
    + apply (closure_same_items K I R RI); [|exact HK|exact ERI].
      apply kernel_sets_same; [eapply Hk; eauto | exact HI | exact E].
  - eapply cache_sound_after; eauto.
  - eapply cache_of_kernels_after; eauto.
Qed.

End ClosureCache.

(** C2, as the code has it.  A call [closure(I)] returns; the state it
    returns is closed under the rule (for each of its items
    (A -> alpha . B beta, a) with B a non-terminal, each alternative
    gamma of B and each b in FIRST*(beta a), it holds (B -> . gamma, b)),
    the loops of [closure] add nothing to it, and it holds the kernel
    items of [I].  When the cache has no answer for [I] (no earlier call
    had an argument with the kernel of [I]), or when [I] is a set of
    kernel items and the cache was filled by calls on such sets, the
    state is the least fixed point of the rule over [I]: it contains
    [I] and is contained in every set that contains [I] and is closed
    under the rule.  A call that runs the body stores its result under
    [I]; a call that the cache answers returns the stored state and
    leaves the cache as it is. *)
Theorem closure_cached_least_fixed_point (g : Grammar) (cache : closure_calls)
        (I : LRState) :
  cache_sound g cache ->
  exists R cache',
    closure_cached g cache I = (Ok R, cache') /\
    closed_under_rule g (fun it => In it R) /\
    (forall it B,
        In it R -> next_symbol it = Some B -> is_NonTerminal B = true ->
        expand_item g R B (skipn (S (dot it)) (rule it)) (lookahead it) = R) /\
    (forall it, In it I -> is_kernel_item g it = true -> In it R) /\
    (closure_cache_get g cache I = None \/
     (kernel_set g I /\ cache_of_kernels g cache) ->
     (forall it, In it I -> In it R) /\
     (forall J : LR1Item -> Prop,
         (forall it, In it I -> J it) -> closed_under_rule g J ->
         forall it, In it R -> J it)) /\
    (closure_cache_get g cache I = None ->
     closure g I = Ok R /\ cache' = cache ++ [(I, R)]) /\
    (forall R0, closure_cache_get g cache I = Some R0 ->
                R = R0 /\ cache' = cache) /\
    cache_sound g cache' /\
    (kernel_set g I -> cache_of_kernels g cache -> cache_of_kernels g cache').
Proof.
  intros Hs.
  destruct (closure_cached_call g cache I Hs)
    as (K & R & cache' & H & HK & E & Hc).
  destruct (closure_spec g K) as (R' & ER & (added & HR & _) & Hclosed & Hleast).
  rewrite HK in ER. injection ER as ER. rewrite <- ER in *. clear ER R'.
  assert (HKR : forall it, In it K -> In it R).
  { intros it Hit. rewrite HR. apply in_or_app. left. exact Hit. }
  exists R, cache'. split; [exact H|]. split; [|split; [|split; [|split]]].
  - apply closed_under_rule_expansions. exact Hclosed.
  - intros it B Hit HB HN. rewrite expand_item_eq.
    apply append_all_present. intros n Hn. apply (Hclosed it n Hit).
    unfold expansions. rewrite HB, HN. exact Hn.
  - intros it Hit Hk. apply HKR.
    assert (Hin : In it (kernel g I)) by (apply kernel_In; auto).
    rewrite LRState_eqb_true in E. apply E, kernel_In in Hin. tauto.
  - intros Hcase.
    assert (Hsame : forall it, In it K <-> In it I).
    { destruct Hcase as [Hnone|[HI Hk]].
      - destruct Hc as [(_ & -> & _)|(Hsome & _)]; [tauto | congruence].
      - destruct Hc as [(_ & -> & _)|(_ & Hin & _)]; [tauto|].
        apply (kernel_sets_same g);
          [eapply Hk; eauto | exact HI | exact E]. }
    split.
    + intros it Hit. apply HKR, Hsame, Hit.
    + intros J HI HJ. apply Hleast.
      * apply closed_under_rule_expansions, HJ.
      * intros it Hit. apply HI, Hsame, Hit.
  - split; [|split; [|split]].
    + intros Hnone. destruct Hc as [(_ & -> & ->)|(Hsome & _)];
        [auto | congruence].
    + intros R0 Hsome. destruct Hc as [(Hnone & _)|(Hsome' & _ & ->)];
        [congruence|]. split; [congruence | reflexivity].
    + eapply cache_sound_after; eauto.
    + intros HI Hk. eapply cache_of_kernels_after; eauto.
Qed.

Lemma closure_cached_least_fixed_point_witness :
  exists R cache',
    closure_cached g_ab [] [mkItem nt_S' 0 [nt_S; EOF] EOF] = (Ok R, cache') /\
    closed_under_rule g_ab (fun it => In it R) /\
    In (mkItem nt_S' 0 [nt_S; EOF] EOF) R.
Proof.
  destruct (closure_cached_least_fixed_point
              g_ab [] [mkItem nt_S' 0 [nt_S; EOF] EOF])
    as (R & cache' & H1 & H2 & _ & _ & H5 & _).
  - intros K R [].
  - exists R, cache'. split; [exact H1|]. split; [exact H2|].
    apply H5; [left; reflexivity | left; reflexivity].
Defined.

(** C2, as stated, fails.  For S' -> S, S -> a S | b: after the call
    [closure({})], which returns the empty state, the call
    [closure({(S -> . b, eof)})] is answered from the cache, because the
    set has no kernel item and so is equal to the empty state; it
    returns the empty state, which does not contain the item given. *)
Lemma closure_answers_from_cache :
  closure_cached g_ab [] [] = (Ok [], [([], [])]) /\
  closure_cached g_ab [([], [])] [mkItem nt_S 0 [t_b] EOF]
  = (Ok [], [([], [])]) /\
  closure g_ab [mkItem nt_S 0 [t_b] EOF] = Ok [mkItem nt_S 0 [t_b] EOF] /\
  In (mkItem nt_S 0 [t_b] EOF) [mkItem nt_S 0 [t_b] EOF] /\
  ~ In (mkItem nt_S 0 [t_b] EOF) [].
Proof.
  split; [vm_compute; reflexivity|]. split; [vm_compute; reflexivity|].
  split; [vm_compute; reflexivity|]. split; [left; reflexivity|].
  intros [].
Qed.




(** X17. What the decorated [closure] returns.  Every call returns, with
    a state that starts with the items of a set [K] equal as a state to
    the set given, in their order, and goes on with items that were not
    in [K], each once; every item added has its dot at 0, a non-terminal
    as its left-hand side and one of the alternatives of that
    non-terminal as its rule, and is asked for by an item of the state.
    When the body runs, [K] is the set given and the call is stored at
    the end of the cache; otherwise [K] is the argument of the stored
    call that answers, and the cache stays as it is.  Nothing is added
    to the empty set. *)
Theorem closure_cached_adds (g : Grammar) (cache : closure_calls)
        (I : LRState) :
  cache_sound g cache ->
  exists K added cache',
    closure_cached g cache I = (Ok (K ++ added), cache') /\
    LRState_eqb g K I = true /\
    (closure_cache_get g cache I = None ->
     K = I /\ cache' = cache ++ [(I, I ++ added)]) /\
    (closure_cache_get g cache I <> None ->
     In (K, K ++ added) cache /\ cache' = cache) /\
    NoDup added /\
    (forall it,
        In it added ->
        ~ In it K /\ dot it = 0 /\ is_NonTerminal (item_name it) = true /\
        In (rule it) (Grammar_getitem g (item_name it)) /\
        exists parent, In parent (K ++ added) /\ In it (expansions g parent)) /\
    (NoDup K -> NoDup (K ++ added)) /\
    (K = [] -> added = []) /\
    cache_sound g cache'.
Proof.
  intros Hs.
  destruct (closure_cached_call g cache I Hs)
    as (K & R & cache' & H & HK & E & Hc).
  destruct (closure_adds g K) as (added & EK & Hnd & Hadd & Hnd' & Hnil).
  rewrite HK in EK. inversion EK; subst R. clear EK.
  exists K, added, cache'. split; [exact H|]. split; [exact E|].
  split; [|split].
  - intros Hnone. destruct Hc as [(_ & -> & ->)|(Hsome & _)];
      [auto | congruence].
  - intros Hsome. destruct Hc as [(Hnone & _)|(_ & Hin & ->)];
      [congruence | auto].
  - split; [exact Hnd|]. split; [exact Hadd|]. split; [exact Hnd'|].
    split; [exact Hnil|]. eapply cache_sound_after; eauto.
Qed.

Lemma closure_cached_adds_witness :
  exists K added cache',
    closure_cached g_ab [([], [])] [mkItem nt_S 0 [t_b] EOF]
    = (Ok (K ++ added), cache') /\
    LRState_eqb g_ab K [mkItem nt_S 0 [t_b] EOF] = true /\ NoDup added.
Proof.
  destruct (closure_cached_adds g_ab [([], [])] [mkItem nt_S 0 [t_b] EOF])
    as (K & added & cache' & H1 & H2 & _ & _ & H5 & _).
  - intros K R [H|[]]. inversion H; subst. vm_compute. reflexivity.
  - exists K, added, cache'. auto.
Defined.

(* ------------------------------------------------------------------ *)
(** ** goto and its cache *)

Lemma goto_new_items_kernel (s : LRState) (sym : Symbol) :
  goto_new_items s sym = Ok (goto_kernel s sym).
Proof. unfold goto_new_items. apply goto_collect. Qed.

Lemma goto_kernel_is_kernel_set (g : Grammar) (s : LRState) (sym : Symbol) :
  kernel_set g (goto_kernel s sym).
Proof.
  intros it Hit. apply goto_kernel_positive in Hit.
  unfold is_kernel_item. apply orb_true_iff. left. apply Nat.ltb_lt, Hit.
Qed.

Lemma goto_cache_get_Some (g : Grammar) (cache : goto_calls) (s n : LRState)
      (X : Symbol) :
  goto_cache_get g cache s X = Some n ->
  exists s' X',
    In ((s', X'), n) cache /\ LRState_eqb g s' s = true /\ name X' = name X.
Proof.
  unfold goto_cache_get.
  destruct (find _ cache) as [[[s' X'] n']|] eqn:E; [|discriminate].
  intros H. inversion H; subst. apply find_some in E. destruct E as [Hin E].
  simpl in E. apply andb_true_iff in E. destruct E as [E1 E2].
  apply Symbol___eq___name in E2. exists s', X'. auto.
Qed.

(** What the body of [goto] returns on a symbol other than epsilon. *)
Lemma goto_items (g : Grammar) (s : LRState) (X : Symbol) :
  X <> EMPTY ->
  exists n,
    goto g s X = Ok n /\
    (forall it,
        In it n /\ 0 < dot it <->
        exists it0, In it0 s /\ next_symbol it0 = Some X /\ it = advance it0) /\
    ((forall it, ~ In it n) <->
     forall it0, In it0 s -> next_symbol it0 <> Some X).
Proof.
  intros HX. rewrite goto_eq by (apply Symbol_eqb_neq; exact HX).
  destruct (closure_adds g (goto_kernel s X))
    as (added & E & _ & Hadd & _ & Hnil).
  exists (goto_kernel s X ++ added). split; [exact E|]. split.
  - intros it. rewrite <- In_goto_kernel. split.
    + intros [Hin Hd]. apply in_app_iff in Hin. destruct Hin as [Hin|Hin];
        [exact Hin|]. destruct (Hadd it Hin) as (_ & H0 & _). lia.
    + intros Hin. split; [apply in_or_app; left; exact Hin|].
      eapply goto_kernel_positive; eauto.
  - split.
    + intros Hnone it0 Hit0 Hn.
      apply (Hnone (advance it0)). apply in_or_app. left.
      apply In_goto_kernel. eauto.
    + intros Hnone.
      assert (Ek : goto_kernel s X = []).
      { destruct (goto_kernel s X) as [|it K] eqn:EK; [reflexivity|].
        exfalso.
        assert (Hin : In it (goto_kernel s X)) by (rewrite EK; left; reflexivity).
        apply In_goto_kernel in Hin. destruct Hin as (it0 & H1 & H2 & _).
        exact (Hnone it0 H1 H2). }
      rewrite Ek in *. rewrite (Hnil eq_refl). intros it [].
Qed.



(** X19. The states of [get_items].  The first is the closure of the kernel
    of [init_kernel]; every state is non-empty, closed (closure returns
    it as it is) and reached from the first by goto steps on enumerated
    symbols; no two states of the list are equal; and the list is
    complete: every non-empty goto set of one of its states on an
    enumerated symbol equals a state of the list. *)
Theorem get_items_canonical (g : Grammar) (symbols : list Symbol)
        (fuel : nat) (items : list LRState) :
  get_items g symbols fuel = Ok items ->
  exists i0 s0 rest,
    init_kernel g = Ok [i0] /\ closure g [i0] = Ok s0 /\
    items = s0 :: rest /\
    (forall s, In s items ->
               s <> [] /\ closure g s = Ok s /\ reachable g symbols s0 s) /\
    (forall l1 s l2 x,
        items = l1 ++ s :: l2 -> In x l1 \/ In x l2 ->
        LRState_eqb g x s = false) /\
    (forall state X n,
        In state items -> In X symbols -> goto g state X = Ok n ->
        n = [] \/ exists s', In s' items /\ LRState_eqb g n s' = true).
Proof.
  intros H.
  destruct (get_items_spec g symbols fuel items H)
    as (i0 & s0 & rest & Hi & H0 & E & Hreach & Hd & Hclosed).
  exists i0, s0, rest.
  split; [unfold init_kernel; rewrite Hi; reflexivity|].
  split; [exact H0|]. split; [exact E|]. split; [|split].
  - intros s Hs. specialize (Hreach s Hs). split; [|split; [|exact Hreach]].
    + destruct (reachable_kernel_item g symbols i0 s0 s Hi H0 Hreach)
        as (it & r & -> & _). discriminate.
    + destruct (reachable_generated g symbols i0 s0 s Hi H0 Hreach) as [Hc _].
      apply closure_of_closed, Hc.
  - exact (distinct_states_split g items Hd).
  - intros state X n Hs HX Hn.
    destruct (Hclosed state X n Hs HX Hn) as [Hnil|Hin]; [left; exact Hnil|].
    right. apply LRState_in_true, Hin.
Qed.

Lemma get_items_canonical_witness :
  exists items s0 rest,
    get_items g_ab symbols_ab 10 = Ok items /\
    closure g_ab [mkItem nt_S' 0 [nt_S; EOF] EOF] = Ok s0 /\
    items = s0 :: rest.
Proof.
  destruct (get_items g_ab symbols_ab 10) as [items|e|] eqn:E;
    [|vm_compute in E; discriminate E..].
  destruct (get_items_canonical g_ab symbols_ab 10 items E)
    as (i0 & s0 & rest & Hk & H0 & Ei & _).
  exists items, s0, rest. split; [reflexivity|].
  split; [|exact Ei].
  vm_compute in Hk. injection Hk as <-. exact H0.
Defined.

(** A grammar whose start rule is epsilon: S' -> epsilon. *)
Definition g_eps : Grammar :=
  mkGrammar nt_S' [(nt_S', [[EMPTY]])] [EOF] [nt_S'] [nt_S'] [].

(** On it, [get_items] returns a single state, whose item has its dot
    before the epsilon, and [construct] fails the assertion of [goto]. *)
Lemma construct_epsilon_start_rule :
  get_items g_eps [nt_S'; EOF] 10 = Ok [[mkItem nt_S' 0 [EMPTY; EOF] EOF]] /\
  next_symbol (mkItem nt_S' 0 [EMPTY; EOF] EOF) = Some EMPTY /\
  construct g_eps [nt_S'; EOF] 10 = Raised AssertionError.
Proof. vm_compute. auto. Qed.

(* ------------------------------------------------------------------ *)
(** ** The dictionaries of gen_parser *)

Lemma assigned_none {V : Type} (l : list ((Z * string) * V)) (key : Z * string) :
  (forall k v, In (k, v) l -> k <> key) -> assigned l key = None.
Proof.
  induction l as [|[k v] l IH]; intros H; simpl; [reflexivity|].
  rewrite IH by (intros k' v' Hin; apply (H k' v'); right; exact Hin).
  destruct ((fst k =? fst key)%Z && String.eqb (snd k) (snd key)) eqn:E;
    [|reflexivity].
  exfalso. apply (H k v); [left; reflexivity|].
  apply andb_true_iff in E. destruct E as [E1 E2].
  apply Z.eqb_eq in E1. apply String.eqb_eq in E2.
  destruct k, key. simpl in *. congruence.
Qed.

Lemma assigned_In {V : Type} (l : list ((Z * string) * V)) (key : Z * string)
      (v : V) :
  assigned l key = Some v -> In (key, v) l.
Proof.
  induction l as [|[k0 w0] l IH]; simpl; [discriminate|].
  destruct (assigned l key) as [v1|] eqn:E1.
  - intros E. inversion E; subst. right. apply IH. reflexivity.
  - destruct (_ && _) eqn:Ek; [|discriminate]. intros E. inversion E; subst.
    apply andb_true_iff in Ek. destruct Ek as [E2 E3].
    apply Z.eqb_eq in E2. apply String.eqb_eq in E3.
    left. destruct k0, key. simpl in *. congruence.
Qed.

Lemma assigned_agree {V : Type} (l : list ((Z * string) * V))
      (key : Z * string) (v : V) :
  In (key, v) l -> (forall v', In (key, v') l -> v' = v) ->
  assigned l key = Some v.
Proof.
  induction l as [|[k w] l IH]; intros Hin Hall; [contradiction|]. simpl.
  destruct (assigned l key) as [v'|] eqn:E.
  - assert (Hv' : In (key, v') l) by (apply assigned_In, E).
    f_equal. apply Hall. right. exact Hv'.
  - destruct Hin as [Hin|Hin].
    + inversion Hin; subst. rewrite Z.eqb_refl, String.eqb_refl. reflexivity.
    + exfalso. clear - E Hin.
      induction l as [|[k0 w0] l IHl]; [contradiction|]. simpl in E.
      destruct (assigned l key) as [v1|] eqn:E1; [discriminate|].
      destruct Hin as [Hin|Hin]; [|auto].
      inversion Hin; subst. rewrite Z.eqb_refl, String.eqb_refl in E.
      discriminate.
Qed.

Lemma In_simplified_table (id : LRState -> Z) (g : Grammar) (table : LRTable)
      (symbols : list Symbol) (states : list LRState)
      (k : Z * string) (e : Encoded) :
  In (k, e) (simplified_table id g table symbols states) <->
  exists state symbol action,
    In state states /\ In symbol symbols /\
    LRTable_get g table (state, name symbol) = Some action /\
    k = (id state, name symbol) /\ e = encode id action.
Proof.
  unfold simplified_table, gen_row. rewrite in_flat_map. split.
  - intros (state & Hs & H). apply in_flat_map in H.
    destruct H as (symbol & HX & H).
    destruct (LRTable_get g table (state, name symbol)) as [action|] eqn:E;
      [|contradiction].
    destruct H as [H|[]]. inversion H; subst. exists state, symbol, action. auto.
  - intros (state & symbol & action & Hs & HX & E & -> & ->).
    exists state. split; [exact Hs|]. apply in_flat_map. exists symbol.
    split; [exact HX|]. rewrite E. left. reflexivity.
Qed.

(** X20. Reading the generated table.  When the ids tell the states apart
    (two states of the same id are equal), the dictionary
    [simplified_table] that [gen_parser] fills holds, under
    (id of a state, name of an enumerated symbol), the encoding of the
    action of the parsing table under (state, name), and nothing when
    the parsing table has no action there; it has no other keys.  With
    ids that are not negative the entry decodes to the action. *)
Theorem simplified_table_lookup (id : LRState -> Z) (g : Grammar)
        (table : LRTable) (symbols : list Symbol) (states : list LRState) :
  (forall s s', In s states -> In s' states -> id s = id s' ->
                LRState_eqb g s s' = true) ->
  (forall state symbol,
      In state states -> In symbol symbols ->
      assigned (simplified_table id g table symbols states)
               (id state, name symbol)
      = option_map (encode id) (LRTable_get g table (state, name symbol)) /\
      (forall action,
          LRTable_get g table (state, name symbol) = Some action ->
          ids_valid id action ->
          option_map decode
                     (assigned (simplified_table id g table symbols states)
                               (id state, name symbol))
          = Some (decoded_of id action))) /\
  (forall key e,
      assigned (simplified_table id g table symbols states) key = Some e ->
      exists state symbol,
        In state states /\ In symbol symbols /\
        key = (id state, name symbol)).
Proof.
  intros Hid.
  assert (Hlook : forall state symbol,
             In state states -> In symbol symbols ->
             assigned (simplified_table id g table symbols states)
                      (id state, name symbol)
             = option_map (encode id) (LRTable_get g table (state, name symbol))).
  { intros state symbol Hs HX.
    destruct (LRTable_get g table (state, name symbol)) as [action|] eqn:E; simpl.
    - apply assigned_agree.
      + apply In_simplified_table. exists state, symbol, action. auto.
      + intros v' Hin. apply In_simplified_table in Hin.
        destruct Hin as (s' & X' & a' & Hs' & HX' & E' & Hk & ->).
        inversion Hk as [[Hi Hn]].
        assert (Hkey : Key_eqb g (s', name X') (state, name symbol) = true).
        { unfold Key_eqb. simpl. rewrite <- Hn, String.eqb_refl, andb_true_r.
          apply Hid; auto. }
        rewrite (LRTable_get_key g table _ _ Hkey), E in E'.
        inversion E'. reflexivity.
    - apply assigned_none. intros k v Hin Hk. apply In_simplified_table in Hin.
      destruct Hin as (s' & X' & a' & Hs' & HX' & E' & -> & ->).
      inversion Hk as [[Hi Hn]].
      assert (Hkey : Key_eqb g (s', name X') (state, name symbol) = true).
      { unfold Key_eqb. simpl. rewrite Hn, String.eqb_refl, andb_true_r.
        apply Hid; auto. }
      rewrite (LRTable_get_key g table _ _ Hkey), E in E'. discriminate. }
  split.
  - intros state symbol Hs HX. split; [apply Hlook; assumption|].
    intros action E Hv. rewrite (Hlook state symbol Hs HX), E. simpl.
    rewrite decode_encode by exact Hv. reflexivity.
  - intros key e H.
    destruct (assigned (simplified_table id g table symbols states) key)
      as [e'|] eqn:E; [|discriminate].
    assert (Hin : exists v, In (key, v) (simplified_table id g table symbols states))
      by (exists e'; apply assigned_In, E).
    destruct Hin as (v & Hin). apply In_simplified_table in Hin.
    destruct Hin as (state & symbol & action & Hs & HX & _ & -> & _).
    exists state, symbol. auto.
Qed.

Lemma simplified_table_lookup_witness :
  exists items tbl,
    construct g_ab symbols_ab 10 = Ok (items, tbl) /\
    forall state symbol,
      In state items -> In symbol symbols_ab ->
      assigned (simplified_table (state_id g_ab items) g_ab tbl symbols_ab items)
               (state_id g_ab items state, name symbol)
      = option_map (encode (state_id g_ab items))
                   (LRTable_get g_ab tbl (state, name symbol)).
Proof.
  destruct (construct g_ab symbols_ab 10) as [[items tbl]|e|] eqn:E;
    [|vm_compute in E; discriminate E..].
  exists items, tbl. split; [reflexivity|].
  intros state symbol Hs HX.
  apply (simplified_table_lookup (state_id g_ab items) g_ab tbl symbols_ab items);
    [|exact Hs|exact HX].
  intros s s' H1 H2 Hid.
  vm_compute in E. injection E as <- _.
  simpl in H1, H2.
  repeat (destruct H1 as [<-|H1]);
    repeat (destruct H2 as [<-|H2]);
    try contradiction; try reflexivity; vm_compute in Hid; discriminate Hid.
Defined.

Lemma expected_get_append (d : list (Z * list string)) (k i : Z) (v : string) :
  expected_get (expected_append d k v) i
  = if (k =? i)%Z then expected_get d i ++ [v] else expected_get d i.
Proof.
  unfold expected_get. induction d as [|[k' l] d IH]; simpl.
  - destruct (k =? i)%Z; reflexivity.
  - destruct (k' =? k)%Z eqn:Ek; simpl.
    + apply Z.eqb_eq in Ek. subst k'. destruct (k =? i)%Z; reflexivity.
    + destruct (k' =? i)%Z eqn:Ei; [|exact IH].
      apply Z.eqb_eq in Ei. subst k'.
      rewrite Z.eqb_sym, Ek. reflexivity.
Qed.

Lemma expected_has_append (d : list (Z * list string)) (k i : Z) (v : string) :
  expected_has (expected_append d k v) i = (k =? i)%Z || expected_has d i.
Proof.
  unfold expected_has. induction d as [|[k' l] d IH]; simpl.
  - rewrite orb_false_r. reflexivity.
  - destruct (k' =? k)%Z eqn:Ek; simpl.
    + apply Z.eqb_eq in Ek. subst k'. destruct (k =? i)%Z; reflexivity.
    + rewrite IH. destruct (k' =? i)%Z, (k =? i)%Z; reflexivity.
Qed.

Lemma expected_has_get (d : list (Z * list string)) (i : Z) :
  (forall p, In p d -> snd p <> []) ->
  expected_has d i = true <-> expected_get d i <> [].
Proof.
  unfold expected_has, expected_get. intros Hne.
  destruct (find (fun p => (fst p =? i)%Z) d) as [p|] eqn:E.
  - split; [intros _; apply Hne; apply find_some in E; tauto|].
    intros _. apply existsb_exists. exists p. apply find_some in E. exact E.
  - split; [|congruence]. intros H. apply existsb_exists in H.
    destruct H as (p & Hp & Hk).
    rewrite (find_none _ _ E p Hp) in Hk. discriminate.
Qed.

Section ExpectedTokens.
Variable id : LRState -> Z.
Variable g : Grammar.
Variable table : LRTable.

(** The body of the inner loop, for [expected_tokens]. *)
Definition expected_step (state : LRState) (d : list (Z * list string))
           (symbol : Symbol) : list (Z * list string) :=
  match LRTable_get g table (state, name symbol) with
  | Some _ =>
      if is_Terminal symbol
      then expected_append d (id state) (name symbol)
      else d
  | None => d
  end.

(** The symbol that brings the name [nm] to the list of the id [i]. *)
Definition brings (state : LRState) (symbol : Symbol) (i : Z) (nm : string)
  : Prop :=
  id state = i /\ is_Terminal symbol = true /\ name symbol = nm /\
  exists action, LRTable_get g table (state, nm) = Some action.

Lemma expected_step_get (state : LRState) (d : list (Z * list string))
      (symbol : Symbol) (i : Z) (nm : string) :
  In nm (expected_get (expected_step state d symbol) i) <->
  In nm (expected_get d i) \/ brings state symbol i nm.
Proof.
  unfold expected_step, brings.
  destruct (LRTable_get g table (state, name symbol)) as [a|] eqn:E;
    [destruct (is_Terminal symbol) eqn:ET|].
  - rewrite expected_get_append. destruct (id state =? i)%Z eqn:Ei.
    + apply Z.eqb_eq in Ei. rewrite in_app_iff. simpl. split.
      * intros [H|[<-|[]]]; [auto|]. right. eauto 10.
      * intros [H|(_ & _ & <- & _)]; auto.
    + apply Z.eqb_neq in Ei. split; [auto|].
      intros [H|(H & _)]; [exact H | contradiction].
  - split; [auto|]. intros [H|(_ & H & _)]; [exact H | discriminate].
  - split; [auto|]. intros [H|(_ & _ & <- & a & H)]; [exact H | congruence].
Qed.

Lemma expected_row_get (state : LRState) (i : Z) (nm : string)
      (l : list Symbol) :
  forall d,
    In nm (expected_get (fold_left (expected_step state) l d) i) <->
    In nm (expected_get d i) \/ exists symbol, In symbol l /\ brings state symbol i nm.
Proof.
  induction l as [|X l IH]; intros d; cbn [fold_left].
  - split; [auto | intros [H|(X & [] & _)]; exact H].
  - rewrite IH, expected_step_get. split.
    + intros [[H|H]|(Y & HY & H)]; [auto | right; exists X | right; exists Y];
        simpl; auto.
    + intros [H|(Y & [<-|HY] & H)]; [auto | auto | right; exists Y; auto].
Qed.

Lemma expected_all_get (symbols : list Symbol) (i : Z) (nm : string)
      (l : list LRState) :
  forall d,
    In nm (expected_get
             (fold_left (fun d state => fold_left (expected_step state) symbols d)
                        l d) i) <->
    In nm (expected_get d i) \/
    exists state symbol,
      In state l /\ In symbol symbols /\ brings state symbol i nm.
Proof.
  induction l as [|s l IH]; intros d; cbn [fold_left].
  - split; [auto | intros [H|(s & X & [] & _)]; exact H].
  - rewrite IH, expected_row_get. split.
    + intros [[H|(X & HX & H)]|(s' & X & Hs' & HX & H)];
        [auto | right; exists s, X | right; exists s', X]; simpl; auto.
    + intros [H|(s' & X & [<-|Hs'] & HX & H)];
        [auto | left; right; exists X; auto | right; exists s', X; auto].
Qed.

Lemma expected_append_lists (d : list (Z * list string)) (k : Z) (v : string) :
  (forall p, In p d -> snd p <> []) ->
  forall p, In p (expected_append d k v) -> snd p <> [].
Proof.
  induction d as [|[k' l] d IH]; intros Hd p; simpl.
  - intros [<-|[]]. discriminate.
  - destruct (k' =? k)%Z; intros [<-|Hp]; simpl.
    + destruct l; discriminate.
    + apply Hd. right. exact Hp.
    + apply (Hd (k', l)). left. reflexivity.
    + apply IH; [|exact Hp]. intros q Hq. apply Hd. right. exact Hq.
Qed.

End ExpectedTokens.

(** X21. The expected tokens of a state.  [expected_tokens] holds under an
    id the names of the enumerated terminals (markers included) under
    which a state of that id has an action in the parsing table, and no
    other name; a symbol that is a non-terminal brings no name; an id
    is a key exactly when its list is not empty; and every name listed
    under an id is a key of [simplified_table] with that id. *)
Theorem expected_tokens_listed (id : LRState -> Z) (g : Grammar)
        (table : LRTable) (symbols : list Symbol) (states : list LRState) :
  (forall i nm,
      In nm (expected_get (expected_tokens id g table symbols states) i) <->
      exists state symbol action,
        In state states /\ In symbol symbols /\ id state = i /\
        is_Terminal symbol = true /\ name symbol = nm /\
        LRTable_get g table (state, nm) = Some action) /\
  (forall i,
      expected_has (expected_tokens id g table symbols states) i = true <->
      expected_get (expected_tokens id g table symbols states) i <> []) /\
  (forall i nm,
      In nm (expected_get (expected_tokens id g table symbols states) i) ->
      exists e, In ((i, nm), e) (simplified_table id g table symbols states)).
Proof.
  assert (Hmem : forall i nm,
             In nm (expected_get (expected_tokens id g table symbols states) i) <->
             exists state symbol action,
               In state states /\ In symbol symbols /\ id state = i /\
               is_Terminal symbol = true /\ name symbol = nm /\
               LRTable_get g table (state, nm) = Some action).
  { intros i nm.
    change (expected_tokens id g table symbols states)
      with (fold_left (fun d state =>
                         fold_left (expected_step id g table state) symbols d)
                      states []).
    rewrite expected_all_get. unfold brings. simpl. split.
    - intros [[]|(s & X & Hs & HX & H1 & H2 & H3 & a & H4)].
      exists s, X, a. auto 10.
    - intros (s & X & a & Hs & HX & H1 & H2 & H3 & H4).
      right. exists s, X. eauto 10. }
  split; [exact Hmem|]. split.
  - intros i. apply expected_has_get.
    change (expected_tokens id g table symbols states)
      with (fold_left (fun d state =>
                         fold_left (expected_step id g table state) symbols d)
                      states []).
    apply fold_left_keeps; [intros p []|].
    intros d state Hd. apply fold_left_keeps; [exact Hd|].
    intros d' X Hd'. unfold expected_step.
    destruct (LRTable_get g table (state, name X)); [|exact Hd'].
    destruct (is_Terminal X); [|exact Hd'].
    apply expected_append_lists, Hd'.
  - intros i nm Hin. apply Hmem in Hin.
    destruct Hin as (state & X & a & Hs & HX & <- & _ & <- & E).
    exists (encode id a). apply In_simplified_table. exists state, X, a. auto.
Qed.

(* ------------------------------------------------------------------ *)
(** ** The Reduce entries of the table *)

(** An action read from the table is an entry of it, under an equal
    key. *)
Lemma LRTable_get_In (g : Grammar) (t : LRTable) (k : Key) (a : Action) :
  LRTable_get g t k = Some a ->
  exists k', In (k', a) t /\ Key_eqb g k' k = true.
Proof.
  induction t as [|[k' a'] t IH]; simpl; [discriminate|].
  destruct (Key_eqb g k' k) eqn:E.
  - intros H. inversion H; subst. exists k'. auto.
  - intros H. destruct (IH H) as (k0 & H0 & E0). exists k0. auto.
Qed.

(** An action read under (state, nm), for a state of the list, has its
    reason in that state. *)
Lemma construct_get_reason (g : Grammar) (symbols : list Symbol) (fuel : nat)
      (items : list LRState) (tbl : LRTable) :
  construct g symbols fuel = Ok (items, tbl) ->
  forall state nm act,
    In state items ->
    LRTable_get g tbl (state, nm) = Some act ->
    entry_reason g items (state, nm) act.
Proof.
  intros H state nm act Hs Hget. unfold construct in H.
  apply bind_Ok in H. destruct H as (items' & HG & H).
  apply bind_Ok in H. destruct H as (tbl' & HT & H). injection H as -> ->.
  destruct (get_items_spec g symbols fuel items HG)
    as (_ & _ & _ & _ & _ & _ & _ & Hd & _).
  destruct (LRTable_get_In g tbl _ _ Hget) as ([state' nm'] & Hin & Ek).
  destruct (construct_table_sound g items Hd tbl HT _ _ Hin) as [H1 H2].
  unfold Key_eqb in Ek. simpl in Ek, H1.
  apply andb_true_iff in Ek. destruct Ek as [Es En].
  apply String.eqb_eq in En. subst nm'.
  rewrite (distinct_states_eq g items Hd state' state H1 Hs Es) in H2.
  exact H2.
Qed.

(** The key of a completed item that [construct] assigns under holds an
    action in the table. *)
Lemma construct_completed_entry (g : Grammar) (symbols : list Symbol)
      (fuel : nat) (items : list LRState) (tbl : LRTable) :
  construct g symbols fuel = Ok (items, tbl) ->
  forall state it,
    In state items -> In it state -> completed it = true ->
    item_name it <> start_symbol g ->
    exists act, LRTable_get g tbl (state, name (lookahead it)) = Some act.
Proof.
  intros H state it Hs Hit Hc Hname. unfold construct in H.
  apply bind_Ok in H. destruct H as (items' & HG & H).
  apply bind_Ok in H. destruct H as (tbl' & HT & H). injection H as -> ->.
  unfold construct_table in HT.
  destruct (fold_bind_split_in
              (fun t state_i => construct_state g items t state_i)
              items state [] tbl Hs HT)
    as (l1 & l2 & ta & tb & El & _ & Hstate & Hrest).
  assert (Hlater : forall q, has_entry g tb q -> has_entry g tbl q).
  { intros q Hq.
    apply (fold_bind_inv _ (fun t => has_entry g t q) _ _ _ Hrest Hq).
    intros t x t1 _ Ht E. eapply construct_state_keeps; eauto. }
  unfold construct_state in Hstate.
  apply bind_Ok in Hstate. destruct Hstate as (t1 & Hitems & Hgoto).
  destruct (fold_bind_split_in
              (fun t item => construct_item g items state t item)
              state it ta t1 Hit Hitems)
    as (i1 & i2 & tc & td & Ei & _ & Hitem & Hitems_rest).
  assert (Htb : has_entry g tb (state, name (lookahead it))).
  { assert (Ht1 : has_entry g t1 (state, name (lookahead it))).
    { apply (fold_bind_inv _ (fun t => has_entry g t (state, name (lookahead it)))
                           _ _ _ Hitems_rest).
      - unfold construct_item in Hitem. rewrite Hc in Hitem.
        destruct (Symbol_eqb (item_name it) (start_symbol g)
                  && Symbol_eqb (lookahead it) EOF) eqn:Ea.
        + apply andb_true_iff in Ea. destruct Ea as [Ea _].
          apply Symbol_eqb_eq in Ea. contradiction.
        + destruct (negb (Symbol_eqb (item_name it) (start_symbol g))) eqn:En.
          * inversion Hitem; subst. apply has_entry_set.
          * apply negb_false_iff, Symbol_eqb_eq in En. contradiction.
      - intros t x t2 _ Ht E. eapply construct_item_keeps; eauto. }
    apply (fold_bind_inv _ (fun t => has_entry g t (state, name (lookahead it)))
                         _ _ _ Hgoto Ht1).
    intros t nt t2 _ Ht E. eapply assign_targets_keeps; eauto. }
  apply Hlater in Htb. unfold has_entry in Htb.
  destruct (LRTable_get g tbl (state, name (lookahead it))) as [act|];
    [eauto | contradiction].
Qed.

(** The symbols of a rule that are not epsilon: what [Expansion_len]
    counts, and what [Expansion.__len__] counts on a rule of a
    grammar. *)
Lemma Expansion_len_filter (e : Expansion) :
  Expansion_len e = length (filter is_not_EMPTY e).
Proof. apply Expansion_len_iter. Qed.

(** C6. The Reduce entries of the table that [construct] fills, and
    the length they record.  Every Reduce(A, k) that the table holds
    under (state, name) comes from a completed item (A -> alpha ., a) of
    that state, with A not the start symbol and a of that name, and k is
    the number of symbols of alpha that are not epsilon, which is
    [len(alpha)] when the symbols of alpha named like epsilon are the
    marker epsilon; [gen_parser] writes the entry as the pair (name of
    A, that number).  Every completed item of a state whose left-hand
    side is not the start symbol has an action under (state, name of its
    lookahead), and the action is its Reduce, with the number of its
    symbols that are not epsilon, when no other assignment goes under
    that key.  An item of the rule [epsilon] is completed with its dot
    at 0 and is reduced with length 0. *)
Theorem reduce_length_excludes_epsilon (g : Grammar) (symbols : list Symbol)
        (fuel : nat) (items : list LRState) (tbl : LRTable) :
  construct g symbols fuel = Ok (items, tbl) ->
  (forall state nm A k,
      In state items ->
      LRTable_get g tbl (state, nm) = Some (Reduce A k) ->
      exists it,
        In it state /\ completed it = true /\ item_name it = A /\
        A <> start_symbol g /\ name (lookahead it) = nm /\
        k = length (filter is_not_EMPTY (rule it)) /\
        (epsilon_is_EMPTY (rule it) -> k = Expansion___len__ (rule it)) /\
        (forall id symbols' states symbol,
            In state states -> In symbol symbols' -> name symbol = nm ->
            In ((id state, nm),
                EPair (name A) (length (filter is_not_EMPTY (rule it))))
               (simplified_table id g tbl symbols' states))) /\
  (forall state it,
      In state items -> In it state -> completed it = true ->
      item_name it <> start_symbol g ->
      (exists act,
          LRTable_get g tbl (state, name (lookahead it)) = Some act) /\
      (reduce_unchallenged g state it ->
       LRTable_get g tbl (state, name (lookahead it))
       = Some (Reduce (item_name it)
                      (length (filter is_not_EMPTY (rule it)))))) /\
  (forall state A a,
      In state items -> In (mkItem A 0 [EMPTY] a) state ->
      A <> start_symbol g ->
      completed (mkItem A 0 [EMPTY] a) = true /\
      (reduce_unchallenged g state (mkItem A 0 [EMPTY] a) ->
       LRTable_get g tbl (state, name a) = Some (Reduce A 0))).
Proof.
  intros H.
  assert (Hsecond :
            forall state it,
              In state items -> In it state -> completed it = true ->
              item_name it <> start_symbol g ->
              (exists act,
                  LRTable_get g tbl (state, name (lookahead it)) = Some act) /\
              (reduce_unchallenged g state it ->
               LRTable_get g tbl (state, name (lookahead it))
               = Some (Reduce (item_name it)
                              (length (filter is_not_EMPTY (rule it)))))).
  { intros state it Hs Hit Hc Hname.
    destruct (construct_completed_entry g symbols fuel items tbl H
                                        state it Hs Hit Hc Hname)
      as [act Hact].
    split; [eauto|].
    intros (Hcompleted & Hnext & Hnt). rewrite Hact. f_equal.
    pose proof (construct_get_reason g symbols fuel items tbl H
                                     state _ act Hs Hact) as Hr.
    destruct act as [n|n|A k|]; simpl in Hr.
    - destruct Hr as (_ & X & j & it' & Hit' & Hn & HX & _).
      exfalso. exact (Hnext it' X Hit' Hn HX).
    - destruct Hr as (_ & X & j & HX & Hnm & _).
      exfalso. exact (Hnt X HX Hnm).
    - destruct Hr as (it' & Hit' & Hc' & HA & Hns & Hk & Hla).
      destruct (Hcompleted it' Hit' Hc' Hla) as [[E1 E2]|[E1 _]].
      + rewrite <- HA, E1, Hk, E2, Expansion_len_filter. reflexivity.
      + exfalso. apply Hns. rewrite <- HA. exact E1.
    - destruct Hr as (Hnm & it' & Hit' & Hc' & HA & Hla).
      assert (Hla' : name (lookahead it') = name (lookahead it)).
      { rewrite Hla. symmetry. exact Hnm. }
      destruct (Hcompleted it' Hit' Hc' Hla') as [[E1 _]|[_ E2]].
      + exfalso. apply Hname. rewrite <- E1. exact HA.
      + contradiction. }
  split; [|split].
  - intros state nm A k Hs Hget.
    pose proof (construct_get_reason g symbols fuel items tbl H
                                     state nm _ Hs Hget) as Hr.
    simpl in Hr. destruct Hr as (it & Hit & Hc & HA & Hns & Hk & Hla).
    exists it. rewrite Expansion_len_filter in Hk.
    repeat split; auto.
    + intros He. rewrite Hk, <- Expansion_len_filter.
      symmetry. apply Expansion_len_grammar, He.
    + intros id symbols' states symbol Hst Hsym Hnm.
      apply In_simplified_table. exists state, symbol, (Reduce A k).
      split; [exact Hst|]. split; [exact Hsym|].
      split; [rewrite Hnm; exact Hget|].
      split; [rewrite Hnm; reflexivity|].
      simpl. rewrite <- Hk. reflexivity.
  - exact Hsecond.
  - intros state A a Hs Hit Hname.
    split; [reflexivity|].
    intros Hu.
    destruct (Hsecond state (mkItem A 0 [EMPTY] a) Hs Hit eq_refl Hname)
      as [_ Hget].
    exact (Hget Hu).
Qed.

Lemma reduce_length_excludes_epsilon_witness :
  exists items tbl state,
    construct g_nullable symbols_nullable 10 = Ok (items, tbl) /\
    nth_error items 0 = Some state /\
    In (mkItem nt_A 0 [EMPTY] t_b) state /\
    LRTable_get g_nullable tbl (state, "b"%string) = Some (Reduce nt_A 0) /\
    In ((0%Z, "b"%string), EPair "A" 0)
       (simplified_table (state_id g_nullable items) g_nullable tbl symbols_nullable items).
Proof.
  destruct (construct g_nullable symbols_nullable 10) as [[items tbl]|e|] eqn:E;
    [|vm_compute in E; discriminate E..].
  destruct (reduce_length_excludes_epsilon g_nullable symbols_nullable 10 items tbl E)
    as (Hfirst & _ & Hthird).
  assert (Hitems : exists state rest, items = state :: rest /\
                                      In (mkItem nt_A 0 [EMPTY] t_b) state /\
                                      reduce_unchallenged
                                        g_nullable state (mkItem nt_A 0 [EMPTY] t_b)).
  { vm_compute in E. injection E as E _. subst items.
    eexists. eexists. split; [reflexivity|]. split; [simpl; tauto|].
    split; [|split].
    - intros it' Hit' Hc' Hla. simpl in Hit'.
      repeat (destruct Hit' as [<-|Hit']; [try discriminate Hc'|]);
        try contradiction.
      left. split; reflexivity.
    - intros it' a Hit' Hn. simpl in Hit'.
      repeat (destruct Hit' as [<-|Hit'];
              [vm_compute in Hn; try discriminate Hn;
               injection Hn as <-; discriminate|]).
      contradiction.
    - intros nt Hnt. simpl in Hnt.
      repeat (destruct Hnt as [<-|Hnt]; [discriminate|]). contradiction. }
  destruct Hitems as (state & rest & -> & Hin & Hu).
  assert (Hget : LRTable_get g_nullable tbl (state, "b"%string)
                 = Some (Reduce nt_A 0)).
  { apply (Hthird state nt_A t_b); [left; reflexivity | exact Hin | | exact Hu].
    discriminate. }
  exists (state :: rest), tbl, state.
  split; [reflexivity|]. split; [reflexivity|]. split; [exact Hin|].
  split; [exact Hget|].
  destruct (Hfirst state "b"%string nt_A 0 (or_introl eq_refl) Hget)
    as (it & _ & _ & _ & _ & _ & Hk & _ & Hgen).
  rewrite <- Hk in Hgen.
  assert (Hid : state_id g_nullable (state :: rest) state = 0%Z).
  { unfold state_id. simpl.
    replace (LRState_eqb g_nullable state state) with true; [reflexivity|].
    symmetry. vm_compute in E. injection E as E _ _. subst state.
    vm_compute. reflexivity. }
  rewrite <- Hid at 1.
  apply (Hgen (state_id g_nullable (state :: rest)) symbols_nullable (state :: rest) t_b);
    [left; reflexivity | simpl; tauto | reflexivity].
Defined.

(* ------------------------------------------------------------------ *)
(** ** The keywords of the tokenizer *)

(** A list of keywords by decreasing length of the key. *)
Inductive by_length : list (string * string) -> Prop :=
| by_length_nil : by_length []
| by_length_cons (x : string * string) (l : list (string * string)) :
    (forall y, In y l -> String.length (fst y) <= String.length (fst x)) ->
    by_length l -> by_length (x :: l).

Lemma insert_by_len_sorted (x : string * string) (l : list (string * string)) :
  by_length l -> by_length (insert_by_len x l).
Proof.
  induction 1 as [|y l Hy Hl IH]; simpl.
  - constructor; [intros y []|constructor].
  - destruct (String.length (fst x) <=? String.length (fst y)) eqn:E.
    + apply Nat.leb_le in E. constructor; [|exact IH].
      intros z Hz. apply insert_by_len_In in Hz. destruct Hz as [->|Hz]; auto.
    + apply Nat.leb_gt in E. constructor; [|constructor; assumption].
      intros z [<-|Hz]; [lia|]. specialize (Hy z Hz). lia.
Qed.

Lemma sorted_named_tokens_sorted (named_tokens : list (string * string)) :
  by_length (sorted_named_tokens named_tokens).
Proof.
  unfold sorted_named_tokens.
  apply fold_left_keeps; [constructor|].
  intros acc x Hacc. apply insert_by_len_sorted, Hacc.
Qed.

Lemma find_longest (p : string * string -> bool) (l : list (string * string)) :
  by_length l ->
  forall y, In y l -> p y = true ->
            exists x, find p l = Some x /\
                      String.length (fst y) <= String.length (fst x).
Proof.
  induction 1 as [|z l Hz Hl IH]; intros y Hy Hp; [contradiction|]. simpl.
  destruct (p z) eqn:E.
  - exists z. split; [reflexivity|]. destruct Hy as [<-|Hy]; [lia | auto].
  - destruct Hy as [<-|Hy]; [congruence|]. apply IH; assumption.
Qed.

Lemma prefix_same_length (a b s : string) :
  String.prefix a s = true -> String.prefix b s = true ->
  String.length a = String.length b -> a = b.
Proof.
  revert b s. induction a as [|c a IH]; intros [|d b] [|e s]; simpl;
    try discriminate; try reflexivity.
  destruct (ascii_dec c e) as [->|]; [|discriminate].
  destruct (ascii_dec d e) as [->|]; [|discriminate].
  intros Ha Hb Hl. f_equal. apply (IH b s); auto.
Qed.

(** X22. The longest keyword wins, and a keyword wins over everything
    else.  At any position where the remaining code starts with a key
    of [named_tokens], the round of the loop yields a keyword token,
    whatever the character is (white space, [#], a digit); the key it
    takes starts the remaining code and no key that does is longer, so
    that it is the longest such key. *)
Theorem longest_keyword_wins (filename : string)
        (named_tokens : list (string * string)) (isspace : ascii -> bool)
        (re_match : regex -> string -> option string)
        (st : state) (k v : string) :
  In (k, v) named_tokens ->
  String.prefix k (_remaining_code st) = true ->
  exists matching identifier,
    loop_body filename named_tokens isspace re_match st
    = Done (Tok identifier matching (loc_of filename st),
            _skip_n_chars st (str_len matching - 1)) /\
    In (matching, identifier) named_tokens /\
    String.prefix matching (_remaining_code st) = true /\
    String.length k <= String.length matching /\
    (forall k' v', In (k', v') named_tokens ->
                   String.prefix k' (_remaining_code st) = true ->
                   String.length k' <= String.length matching /\
                   (String.length k' = String.length matching -> k' = matching)).
Proof.
  intros Hin Hp.
  destruct (find_longest
              (fun item => String.prefix (fst item) (_remaining_code st))
              (sorted_named_tokens named_tokens)
              (sorted_named_tokens_sorted named_tokens) (k, v))
    as ([matching identifier] & Hf & Hlen).
  { apply sorted_named_tokens_In, Hin. }
  { exact Hp. }
  exists matching, identifier.
  assert (Hf' := Hf). apply find_some in Hf'. destruct Hf' as [Hm Hpm].
  simpl in Hpm, Hlen.
  split; [|split; [|split; [|split]]].
  - unfold loop_body, find_keyword. rewrite Hf. reflexivity.
  - apply sorted_named_tokens_In, Hm.
  - exact Hpm.
  - exact Hlen.
  - intros k' v' Hin' Hp'.
    destruct (find_longest
                (fun item => String.prefix (fst item) (_remaining_code st))
                (sorted_named_tokens named_tokens)
                (sorted_named_tokens_sorted named_tokens) (k', v'))
      as (x & Hx & Hlx).
    { apply sorted_named_tokens_In, Hin'. }
    { exact Hp'. }
    rewrite Hf in Hx. injection Hx as <-. simpl in Hlx.
    split; [exact Hlx|]. intros El.
    exact (prefix_same_length k' matching _ Hp' Hpm El).
Qed.

Lemma longest_keyword_wins_witness :
  exists matching identifier,
    loop_body "f"%string [("=", "ASSIGN"); ("==", "EQ")]%string
              (fun _ => false) (fun _ _ => None) (init "==1"%string)
    = Done (Tok identifier matching (loc_of "f"%string (init "==1"%string)),
            _skip_n_chars (init "==1"%string) (str_len matching - 1)) /\
    String.length "="%string <= String.length matching.
Proof.
  destruct (longest_keyword_wins
              "f"%string [("=", "ASSIGN"); ("==", "EQ")]%string
              (fun _ => false) (fun _ _ => None) (init "==1"%string)
              "="%string "ASSIGN"%string)
    as (matching & identifier & H1 & _ & _ & H4 & _).
  - left. reflexivity.
  - reflexivity.
  - exists matching, identifier. split; [exact H1 | exact H4].
Defined.

(* ------------------------------------------------------------------ *)
(** ** One round of the loop of the tokenizer *)

Lemma char_at_slice (s : string) (off : Z) (c : ascii) :
  char_at s off = Some c -> exists rest, slice_from s off = String c rest.
Proof.
  assert (G : forall n s, String.get n s = Some c ->
                          exists rest, str_drop n s = String c rest).
  { induction n as [|n IH]; intros [|a s']; simpl; try discriminate.
    - intros H. inversion H. eauto.
    - apply IH. }
  unfold char_at, slice_from. destruct (off <? 0)%Z.
  - destruct (- off <=? Z.of_nat (String.length s))%Z; [apply G | discriminate].
  - apply G.
Qed.

Section Rounds.
Variable filename : string.
Variable named_tokens : list (string * string).
Variable isspace : ascii -> bool.
Variable re_match : regex -> string -> option string.

(** What a round of the loop yields and the state it leaves, by the
    branch it takes. *)
Inductive round (st : state) : Token -> state -> Prop :=
| round_keyword (matching identifier : string) :
    In (matching, identifier) named_tokens ->
    String.prefix matching (_remaining_code st) = true ->
    round st (Tok identifier matching (loc_of filename st))
          (_skip_n_chars st (str_len matching - 1))
| round_whitespace (c : ascii) (rest : string) :
    _remaining_code st = String c rest ->
    c <> newline -> isspace c = true ->
    round st (Tok "whitespace" (String c EmptyString) (loc_of filename st)) st
| round_comment (rest : string) (idx : nat) :
    _remaining_code st = String hash_sign rest ->
    str_index newline (_remaining_code st) = Some idx ->
    round st (Tok "comment" (str_take idx (_remaining_code st))
                  (loc_of filename st))
          (mkState (_code st) (_linenum st + 1) (-1)
                   (_code_offset st + Z.of_nat idx))
| round_newline (rest : string) :
    _remaining_code st = String newline rest ->
    round st (Tok "newline" (String newline EmptyString) (loc_of filename st))
          (mkState (_code st) (_linenum st + 1) (-1) (_code_offset st))
| round_number (r : regex) (ty lexeme : string) (c : ascii) (rest : string) :
    (r = Floatnumber /\ ty = "float"%string) \/
    (r = Intnumber /\ ty = "integer"%string /\
     re_match Floatnumber (_remaining_code st) = None) ->
    re_match r (_remaining_code st) = Some lexeme ->
    _remaining_code st = String c rest -> c <> newline ->
    round st (Tok ty lexeme (loc_of filename st))
          (_skip_n_chars st (str_len lexeme - 1))
| round_word (w : string) (c : ascii) (rest : string) :
    re_match Floatnumber (_remaining_code st) = None ->
    re_match Intnumber (_remaining_code st) = None ->
    re_match Word (_remaining_code st) = Some w ->
    1 < String.length w ->
    _remaining_code st = String c rest -> c <> newline ->
    round st (Tok "word" (strip isspace w) (loc_of filename st))
          (_skip_n_chars st (str_len (strip isspace w) - 1))
| round_char (c : ascii) (rest : string) :
    re_match Floatnumber (_remaining_code st) = None ->
    re_match Intnumber (_remaining_code st) = None ->
    _remaining_code st = String c rest ->
    c <> newline -> c <> hash_sign -> isspace c = false ->
    round st (Tok "char" (String c EmptyString) (loc_of filename st))
          (_skip_n_chars st (1 - 1)).

Lemma match_number_Imagnumber (st : state) :
  _match_number re_match st Imagnumber = None.
Proof.
  unfold _match_number. destruct (re_match Imagnumber _); reflexivity.
Qed.

Lemma loop_body_round (st st' : state) (token : Token) :
  loop_body filename named_tokens isspace re_match st = Done (token, st') ->
  round st token st'.
Proof.
  unfold loop_body.
  destruct (find_keyword named_tokens st) as [[matching identifier]|] eqn:Ek.
  { intros H. inversion H; subst. apply round_keyword.
    - eapply find_keyword_In; eauto.
    - unfold find_keyword in Ek. apply find_some in Ek. exact (proj2 Ek). }
  unfold _current_char.
  destruct (char_at (_code st) (_code_offset st)) as [c|] eqn:Ec; [|discriminate].
  destruct (char_at_slice _ _ _ Ec) as (rest & Hrest).
  fold (_remaining_code st) in Hrest.
  destruct (Ascii.eqb c newline) eqn:En; simpl.
  - apply Ascii.eqb_eq in En. subst c.
    destruct (Ascii.eqb newline hash_sign) eqn:Eh; [discriminate Eh|].
    intros H. inversion H; subst. eapply round_newline; eauto.
  - assert (Hn : c <> newline) by (intros ->; rewrite Ascii.eqb_refl in En; discriminate).
    destruct (isspace c) eqn:Es.
    { intros H. inversion H; subst. eapply round_whitespace; eauto. }
    destruct (Ascii.eqb c hash_sign) eqn:Eh.
    { apply Ascii.eqb_eq in Eh. subst c. unfold handle_comment.
      destruct (str_index newline (_remaining_code st)) as [idx|] eqn:Ei;
        [|discriminate].
      intros H. inversion H; subst. simpl.
      replace (_code_offset st + str_len (str_take idx (_remaining_code st)))%Z
        with (_code_offset st + Z.of_nat idx)%Z
        by (unfold str_len; rewrite (str_take_index _ _ _ Ei); reflexivity).
      eapply round_comment; eauto. }
    assert (Hh : c <> hash_sign)
      by (intros ->; rewrite Ascii.eqb_refl in Eh; discriminate).
    unfold _match_number_or_unknown, or_else, _match_number, _current_char,
      _remaining_code in *.
    rewrite Ec.
    destruct (re_match Imagnumber (slice_from (_code st) (_code_offset st)));
      cbv iota.
    all: destruct (re_match Floatnumber (slice_from (_code st) (_code_offset st)))
      as [lex|] eqn:Ef;
      [intros H; inversion H; subst;
       apply (round_number st Floatnumber "float" lex c rest); auto|].
    all: destruct (re_match Intnumber (slice_from (_code st) (_code_offset st)))
      as [lex|] eqn:Ei;
      [intros H; inversion H; subst;
       apply (round_number st Intnumber "integer" lex c rest); auto|].
    all: destruct (re_match Word (slice_from (_code st) (_code_offset st)))
      as [w|] eqn:Ew; [destruct (1 <? String.length w) eqn:El|].
    all: intros H; inversion H; subst.
    all: try (apply Nat.ltb_lt in El;
              apply (round_word st w c rest); auto; fail).
    all: apply (round_char st c rest); auto.
Qed.

(** The tokens of a run come from rounds of the loop. *)
Lemma tokenize_from_rounds (P : Token -> Prop) (fuel : nat) :
  (forall st token st', round st token st' -> P token) ->
  forall st tokens st_end,
    tokenize_from filename named_tokens isspace re_match fuel st
    = Done (tokens, st_end) ->
    forall token, In token tokens -> token = TokEOF \/ P token.
Proof.
  intros HP. induction fuel as [|fuel IH]; intros st tokens st_end H;
    simpl in H; [discriminate|].
  destruct (_code_offset st <? str_len (_code st))%Z.
  - destruct (loop_body _ _ _ _ st) as [[t st']|e|] eqn:Eb; try discriminate.
    destruct (tokenize_from _ _ _ _ fuel (_to_next_char st'))
      as [[toks se]|e|] eqn:Et; try discriminate.
    inversion H; subst. intros token [<-|Hin].
    + right. eapply HP. apply loop_body_round. exact Eb.
    + eapply IH; eauto.
  - inversion H; subst. intros token [<-|[]]. left. reflexivity.
Qed.

End Rounds.

Lemma str_take_chars (idx : nat) (s : string) (c : ascii) :
  str_index c s = Some idx -> ~ In c (list_ascii_of_string (str_take idx s)).
Proof.
  revert idx. induction s as [|a s IH]; intros idx; simpl; [discriminate|].
  destruct (Ascii.eqb a c) eqn:E.
  - intros H. inversion H; subst. simpl. tauto.
  - destruct (str_index c s) as [i|]; [|discriminate].
    intros H. inversion H; subst. simpl. intros [Ha|Hin].
    + subst a. rewrite Ascii.eqb_refl in E. discriminate.
    + exact (IH i eq_refl Hin).
Qed.

(** X23. The kinds of tokens.  Every token a run yields is EOF or has the
    location of its round in the file of the tokenizer and is of one of
    eight kinds: a keyword, with the identifier of a key of
    [named_tokens] as its type and the key as its lexeme; "whitespace",
    one white-space character other than the newline; "comment", a
    text that starts with [#] and holds no newline; "newline"; "float"
    or "integer", what [re.match] found for that pattern (an integer
    only where no float matches); "word", a match of more than one
    character, stripped; or "char", one character that is no white
    space, no [#] and no newline. *)
Theorem token_kinds (filename : string) (named_tokens : list (string * string))
        (isspace : ascii -> bool) (re_match : regex -> string -> option string)
        (fuel : nat) (code : string) (tokens : list Token) (st_end : state) :
  tokenize filename named_tokens isspace re_match fuel code
  = Done (tokens, st_end) ->
  forall token,
    In token tokens ->
    token = TokEOF \/
    exists ty lexeme loc,
      token = Tok ty lexeme loc /\ loc_filename loc = filename /\
      (In (lexeme, ty) named_tokens \/
       (ty = "whitespace"%string /\
        exists c, lexeme = String c EmptyString /\ isspace c = true /\
                  c <> newline) \/
       (ty = "comment"%string /\
        (exists rest, lexeme = String hash_sign rest) /\
        ~ In newline (list_ascii_of_string lexeme)) \/
       ty = "newline"%string \/
       (ty = "float"%string /\ exists s, re_match Floatnumber s = Some lexeme) \/
       (ty = "integer"%string /\
        exists s, re_match Intnumber s = Some lexeme /\
                  re_match Floatnumber s = None) \/
       (ty = "word"%string /\
        exists s w, re_match Word s = Some w /\ 1 < String.length w /\
                    lexeme = strip isspace w) \/
       (ty = "char"%string /\
        exists c, lexeme = String c EmptyString /\ isspace c = false /\
                  c <> newline /\ c <> hash_sign)).
Proof.
  intros H. unfold tokenize in H.
  apply (tokenize_from_rounds filename named_tokens isspace re_match _ fuel)
    with (st := init code) (st_end := st_end); [|exact H].
  intros st token st' Hr.
  destruct Hr as [matching identifier Hin Hp|c rest Hrem Hn Hs|rest idx Hrem Hi
                 |rest Hrem|r ty lexeme c rest Hr Hm Hrem Hn
                 |w c rest Hf Hi Hw Hl Hrem Hn|c rest Hf Hi Hrem Hn Hh Hs];
    eexists _, _, _; (split; [reflexivity|]); (split; [reflexivity|]).
  - left. exact Hin.
  - right. left. split; [reflexivity|]. eauto.
  - right. right. left. split; [reflexivity|]. split.
    + rewrite Hrem in Hi |- *. simpl in Hi.
      destruct (Ascii.eqb hash_sign newline) eqn:E; [discriminate E|].
      destruct (str_index newline rest) as [i|]; [|discriminate].
      inversion Hi; subst. simpl. eauto.
    + apply str_take_chars, Hi.
  - right. right. right. left. reflexivity.
  - destruct Hr as [[-> ->]|(-> & -> & Hf)].
    + right. right. right. right. left. split; [reflexivity|]. eauto.
    + right. right. right. right. right. left. split; [reflexivity|]. eauto.
  - do 6 right. left. split; [reflexivity|]. eauto.
  - do 7 right. split; [reflexivity|]. eauto 10.
Qed.

Lemma token_kinds_witness :
  exists tokens st_end,
    tokenize "f"%string [("if", "IF")]%string (fun _ => false)
             (fun _ _ => None) 5 "if"%string = Done (tokens, st_end) /\
    forall token,
      In token tokens ->
      token = TokEOF \/
      exists ty lexeme loc,
        token = Tok ty lexeme loc /\ loc_filename loc = "f"%string.
Proof.
  eexists _, _. split; [reflexivity|].
  intros token Hin.
  destruct (token_kinds "f"%string [("if", "IF")]%string (fun _ => false)
                        (fun _ _ => None) 5 "if"%string _ _ eq_refl token Hin)
    as [H|(ty & lexeme & loc & H1 & H2 & _)].
  - left. exact H.
  - right. exists ty, lexeme, loc. auto.
Defined.

(** X24. Imaginary numbers are never recognised.  [_match_number] gives a
    type to a match of the float and of the integer pattern only, so
    for the imaginary pattern it returns None whatever [re.match]
    finds: two runs whose [re.match] differ on that pattern alone yield
    the same tokens and end in the same state. *)
Theorem tokenize_ignores_imaginary (filename : string)
        (named_tokens : list (string * string)) (isspace : ascii -> bool)
        (re_match re_match' : regex -> string -> option string) :
  (forall r s, r <> Imagnumber -> re_match r s = re_match' r s) ->
  (forall st, _match_number re_match st Imagnumber = None) /\
  (forall fuel code,
      tokenize filename named_tokens isspace re_match fuel code
      = tokenize filename named_tokens isspace re_match' fuel code).
Proof.
  intros Hsame. split; [apply match_number_Imagnumber|].
  assert (Hnum : forall st r, _match_number re_match st r
                              = _match_number re_match' st r).
  { intros st r. destruct r; try (unfold _match_number; rewrite Hsame by discriminate; reflexivity).
    rewrite !match_number_Imagnumber. reflexivity. }
  assert (Hbody : forall st,
             loop_body filename named_tokens isspace re_match st
             = loop_body filename named_tokens isspace re_match' st).
  { intros st. unfold loop_body, _match_number_or_unknown.
    rewrite !Hnum. rewrite (Hsame Word) by discriminate. reflexivity. }
  intros fuel code. unfold tokenize. generalize (init code).
  induction fuel as [|fuel IH]; intros st; simpl; [reflexivity|].
  rewrite Hbody.
  destruct (_code_offset st <? str_len (_code st))%Z; [|reflexivity].
  destruct (loop_body _ _ _ _ st) as [[t st']|e|]; try reflexivity.
  rewrite IH. reflexivity.
Qed.

Lemma tokenize_ignores_imaginary_witness :
  tokenize "f"%string [] (fun _ => false)
           (fun r s => match r with
                       | Imagnumber => Some "1j"%string
                       | Intnumber => Some "1"%string
                       | _ => None
                       end) 5 "1j"%string
  = tokenize "f"%string [] (fun _ => false)
             (fun r s => match r with
                         | Intnumber => Some "1"%string
                         | _ => None
                         end) 5 "1j"%string.
Proof.
  apply (tokenize_ignores_imaginary
           "f"%string [] (fun _ => false)
           (fun r s => match r with
                       | Imagnumber => Some "1j"%string
                       | Intnumber => Some "1"%string
                       | _ => None
                       end)
           (fun r s => match r with
                       | Intnumber => Some "1"%string
                       | _ => None
                       end)).
  intros r s Hr. destruct r; try reflexivity. contradiction.
Defined.

(* ------------------------------------------------------------------ *)
(** ** Where the tokens are *)

(** The line and the column after a text, from a line and a column:
    a newline starts a line at column 0, any other character moves on
    by one column. *)
Fixpoint line_col (s : string) (line col : Z) : Z * Z :=
  match s with
  | EmptyString => (line, col)
  | String c s' =>
      if Ascii.eqb c newline then line_col s' (line + 1) 0
      else line_col s' line (col + 1)
  end.

Definition no_newline (s : string) : Prop :=
  ~ In newline (list_ascii_of_string s).

Lemma line_col_app (a b : string) (l c : Z) :
  line_col (a ++ b) l c
  = line_col b (fst (line_col a l c)) (snd (line_col a l c)).
Proof.
  revert l c. induction a as [|x a IH]; intros l c; simpl; [reflexivity|].
  destruct (Ascii.eqb x newline); apply IH.
Qed.

Lemma line_col_plain (t : string) (l c : Z) :
  no_newline t -> line_col t l c = (l, (c + str_len t)%Z).
Proof.
  unfold no_newline, str_len. revert c.
  induction t as [|x t IH]; intros c H; simpl.
  - f_equal. lia.
  - destruct (Ascii.eqb x newline) eqn:E.
    + apply Ascii.eqb_eq in E. subst x. exfalso. apply H. left. reflexivity.
    + rewrite IH by (intros Hin; apply H; right; exact Hin). f_equal. lia.
Qed.

Lemma str_take_add (n m : nat) (s : string) :
  str_take (n + m) s = (str_take n s ++ str_take m (str_drop n s))%string.
Proof.
  revert s. induction n as [|n IH]; intros s; simpl; [reflexivity|].
  destruct s as [|c s]; simpl.
  - destruct m; reflexivity.
  - rewrite IH. reflexivity.
Qed.

Lemma str_drop_length (n : nat) (s : string) :
  String.length (str_drop n s) = String.length s - n.
Proof.
  revert s. induction n as [|n IH]; intros [|c s]; simpl; try lia.
  rewrite IH. lia.
Qed.

Lemma prefix_take (t s : string) :
  String.prefix t s = true ->
  str_take (String.length t) s = t /\ String.length t <= String.length s.
Proof.
  revert s. induction t as [|c t IH]; intros [|d s]; simpl;
    try discriminate; try (split; [reflexivity | lia]).
  destruct (ascii_dec c d) as [->|]; [|discriminate].
  intros H. destruct (IH s H) as [H1 H2]. rewrite H1. split; [reflexivity|lia].
Qed.

Lemma str_take_prefix (n : nat) (s : string) :
  String.prefix (str_take n s) s = true.
Proof.
  revert s. induction n as [|n IH]; intros [|c s]; simpl; try reflexivity.
  destruct (ascii_dec c c); [apply IH | congruence].
Qed.

Lemma str_take_take (m n : nat) (s : string) :
  m <= n -> str_take m (str_take n s) = str_take m s.
Proof.
  revert n s. induction m as [|m IH]; intros n s H; [reflexivity|].
  destruct n as [|n]; [lia|]. destruct s as [|c s]; simpl; [reflexivity|].
  rewrite IH by lia. reflexivity.
Qed.

Lemma str_take_In (n : nat) (s : string) (c : ascii) :
  In c (list_ascii_of_string (str_take n s)) -> In c (list_ascii_of_string s).
Proof.
  revert s. induction n as [|n IH]; intros [|d s]; simpl; try tauto.
  intros [H|H]; [auto | right; apply IH, H].
Qed.

Lemma str_take_length_le (n : nat) (s : string) :
  n <= String.length s -> String.length (str_take n s) = n.
Proof.
  revert s. induction n as [|n IH]; intros [|c s]; simpl; intros H;
    try reflexivity; try lia.
  rewrite IH by lia. reflexivity.
Qed.

Lemma str_index_drop (c : ascii) (s : string) (idx : nat) :
  str_index c s = Some idx -> exists rest, str_drop idx s = String c rest.
Proof.
  revert idx. induction s as [|a s IH]; intros idx; simpl; [discriminate|].
  destruct (Ascii.eqb a c) eqn:E.
  - intros H. inversion H; subst. apply Ascii.eqb_eq in E. subst a.
    simpl. eauto.
  - destruct (str_index c s) as [i|]; [|discriminate].
    intros H. inversion H; subst. simpl. apply IH. reflexivity.
Qed.

Lemma str_rev_length (s : string) : String.length (str_rev s) = String.length s.
Proof.
  induction s as [|c s IH]; simpl; [reflexivity|].
  rewrite str_length_app, IH. simpl. lia.
Qed.

Lemma lstrip_length_le (isspace : ascii -> bool) (s : string) :
  String.length (lstrip isspace s) <= String.length s.
Proof.
  induction s as [|c s IH]; simpl; [lia|].
  destruct (isspace c); simpl; lia.
Qed.

Lemma strip_length_le (isspace : ascii -> bool) (s : string) :
  String.length (strip isspace s) <= String.length s.
Proof.
  unfold strip.
  pose proof (lstrip_length_le isspace (str_rev (lstrip isspace (str_rev s)))).
  pose proof (lstrip_length_le isspace (str_rev s)).
  rewrite str_rev_length in *. lia.
Qed.

Section Locations.
Variable filename : string.
Variable named_tokens : list (string * string).
Variable isspace : ascii -> bool.
Variable re_match : regex -> string -> option string.

(** A run as the rounds it is made of. *)
Inductive rounds : state -> list Token -> Prop :=
| rounds_end (st : state) :
    (str_len (_code st) <= _code_offset st)%Z -> rounds st [TokEOF]
| rounds_next (st st' : state) (token : Token) (tokens : list Token) :
    (_code_offset st < str_len (_code st))%Z ->
    round filename named_tokens isspace re_match st token st' ->
    rounds (_to_next_char st') tokens ->
    rounds st (token :: tokens).

Lemma tokenize_from_trace (fuel : nat) :
  forall st tokens st_end,
    tokenize_from filename named_tokens isspace re_match fuel st
    = Done (tokens, st_end) ->
    rounds st tokens.
Proof.
  induction fuel as [|fuel IH]; intros st tokens st_end H; simpl in H;
    [discriminate|].
  destruct (_code_offset st <? str_len (_code st))%Z eqn:E.
  - apply Z.ltb_lt in E.
    destruct (loop_body _ _ _ _ st) as [[t st']|e|] eqn:Eb; try discriminate.
    destruct (tokenize_from _ _ _ _ fuel (_to_next_char st'))
      as [[toks se]|e|] eqn:Et; try discriminate.
    inversion H; subst. eapply rounds_next; eauto.
    apply loop_body_round, Eb.
  - apply Z.ltb_ge in E. inversion H; subst. apply rounds_end, E.
Qed.

(** What every round does to the state: the text stays, and the offset
    moves on by the length of the lexeme, and by one more after a
    comment. *)
Lemma round_offset (st st' : state) (ty lexeme : string) (loc : Loc) :
  round filename named_tokens isspace re_match st (Tok ty lexeme loc) st' ->
  loc = loc_of filename st /\ _code st' = _code st /\
  (ty <> "newline"%string ->
   (_code_offset st + str_len lexeme <= _code_offset (_to_next_char st')
    <= _code_offset st + str_len lexeme + 1)%Z).
Proof.
  intros H. inversion H; subst; (split; [reflexivity|]); (split; [reflexivity|]);
    intros Hty; simpl; unfold str_len; simpl; try lia.
  match goal with
    | Hi : str_index newline _ = Some _ |- _ =>
        rewrite (str_take_index _ _ _ Hi)
    end. lia.
Qed.

Lemma round_token (st st' : state) (token : Token) :
  round filename named_tokens isspace re_match st token st' ->
  exists ty lexeme, token = Tok ty lexeme (loc_of filename st).
Proof. intros H. inversion H; subst; eauto. Qed.

Lemma round_forward (st st' : state) (token : Token) :
  round filename named_tokens isspace re_match st token st' ->
  _code (_to_next_char st') = _code st /\
  (_code_offset st <= _code_offset (_to_next_char st'))%Z.
Proof.
  intros H. inversion H; subst; simpl; unfold str_len; (split; [reflexivity|]); lia.
Qed.

End Locations.

Lemma remaining_code_drop (st : state) :
  (0 <= _code_offset st)%Z ->
  _remaining_code st = str_drop (Z.to_nat (_code_offset st)) (_code st).
Proof.
  intros H. unfold _remaining_code, slice_from.
  destruct (_code_offset st <? 0)%Z eqn:E; [lia | reflexivity].
Qed.

Section Cover.
Variable filename : string.
Variable named_tokens : list (string * string).
Variable isspace : ascii -> bool.
Variable re_match : regex -> string -> option string.

Hypothesis re_prefix :
  forall r s w, r <> Imagnumber -> re_match r s = Some w ->
                String.prefix w s = true.
Hypothesis word_no_space :
  forall s w c,
    re_match Word s = Some w -> In c (list_ascii_of_string w) ->
    isspace c = false.

Lemma round_lexeme (st st' : state) (ty lexeme : string) (loc : Loc) :
  round filename named_tokens isspace re_match st (Tok ty lexeme loc) st' ->
  ty <> "newline"%string ->
  String.prefix lexeme (_remaining_code st) = true.
Proof.
  intros H Hty. inversion H; subst.
  - assumption.
  - match goal with Hr : _remaining_code _ = String _ _ |- _ => rewrite Hr end.
    simpl. destruct (ascii_dec c c); [destruct rest; reflexivity | congruence].
  - apply str_take_prefix.
  - congruence.
  - match goal with
    | Hk : _ \/ _ |- _ =>
        destruct Hk as [[-> _]|(-> & _)]; eapply re_prefix; eauto; discriminate
    end.
  - rewrite strip_no_space by (intros c' Hc'; eapply word_no_space; eauto).
    eapply re_prefix; eauto. discriminate.
  - match goal with Hr : _remaining_code _ = String _ _ |- _ => rewrite Hr end.
    simpl. destruct (ascii_dec c c); [destruct rest; reflexivity | congruence].
Qed.

Lemma rounds_cover (st : state) (tokens : list Token) :
  rounds filename named_tokens isspace re_match st tokens ->
  (0 <= _code_offset st)%Z ->
  (forall ty lexeme loc,
      In (Tok ty lexeme loc) tokens ->
      (0 <= loc_offset loc < str_len (_code st))%Z /\
      (ty <> "newline"%string ->
       String.prefix lexeme
                     (str_drop (Z.to_nat (loc_offset loc)) (_code st)) = true)) /\
  (forall ty lexeme loc rest,
      tokens = Tok ty lexeme loc :: rest -> loc_offset loc = _code_offset st) /\
  (forall l1 ty1 lexeme1 loc1 ty2 lexeme2 loc2 l2,
      tokens = l1 ++ Tok ty1 lexeme1 loc1 :: Tok ty2 lexeme2 loc2 :: l2 ->
      ty1 <> "newline"%string ->
      (loc_offset loc1 + str_len lexeme1 <= loc_offset loc2
       <= loc_offset loc1 + str_len lexeme1 + 1)%Z).
Proof.
  induction 1 as [st Hend|st st' token tokens Hlt Hr Hrest IH]; intros H0.
  - split; [|split].
    + intros ty lexeme loc [Hin|[]]. discriminate Hin.
    + intros ty lexeme loc rest E. discriminate E.
    + intros l1 ty1 lexeme1 loc1 ty2 lexeme2 loc2 l2 E.
      destruct l1 as [|x [|y l1]]; discriminate E.
  - destruct (round_forward _ _ _ _ _ _ _ Hr) as [Hcode Hfw].
    destruct IH as (IH1 & IH2 & IH3); [lia|]. rewrite Hcode in IH1.
    destruct (round_token _ _ _ _ _ _ _ Hr) as (ty0 & lex0 & ->).
    split; [|split].
    + intros ty lexeme loc [Hin|Hin]; [|apply IH1, Hin].
      inversion Hin; subst ty0 lex0 loc. simpl. split; [lia|].
      intros Hty. rewrite <- remaining_code_drop by exact H0.
      eapply round_lexeme; eauto.
    + intros ty lexeme loc rest E. inversion E; subst. reflexivity.
    + intros l1 ty1 lexeme1 loc1 ty2 lexeme2 loc2 l2 E Hty.
      destruct l1 as [|x l1].
      * simpl in E. inversion E; subst ty0 lex0 loc1 tokens.
        rewrite (IH2 ty2 lexeme2 loc2 l2 eq_refl). simpl loc_offset.
        exact (proj2 (proj2 (round_offset _ _ _ _ _ _ _ _ _ Hr)) Hty).
      * simpl in E. inversion E; subst.
        eapply IH3; eauto.
Qed.

End Cover.

(** X25. The tokens lie in the code, in order and without overlap.  With
    [re.match] returning a text the remaining code starts with, and
    words without white space: the first token is at offset 0; every
    token is at an offset inside the code, and its lexeme (for any type
    but "newline") is the text of the code at that offset; and the next
    token starts where the lexeme ends, or one character later (after
    a comment, whose closing newline belongs to no lexeme). *)
Theorem lexemes_cover_code (filename : string)
        (named_tokens : list (string * string)) (isspace : ascii -> bool)
        (re_match : regex -> string -> option string)
        (fuel : nat) (code : string) (tokens : list Token) (st_end : state) :
  (forall r s w, r <> Imagnumber -> re_match r s = Some w ->
                 String.prefix w s = true) ->
  (forall s w c, re_match Word s = Some w ->
                 In c (list_ascii_of_string w) -> isspace c = false) ->
  tokenize filename named_tokens isspace re_match fuel code
  = Done (tokens, st_end) ->
  (forall ty lexeme loc,
      In (Tok ty lexeme loc) tokens ->
      (0 <= loc_offset loc < str_len (code ++ String newline EmptyString))%Z /\
      (ty <> "newline"%string ->
       String.prefix lexeme
                     (str_drop (Z.to_nat (loc_offset loc))
                               (code ++ String newline EmptyString)) = true)) /\
  (forall ty lexeme loc rest,
      tokens = Tok ty lexeme loc :: rest -> loc_offset loc = 0%Z) /\
  (forall l1 ty1 lexeme1 loc1 ty2 lexeme2 loc2 l2,
      tokens = l1 ++ Tok ty1 lexeme1 loc1 :: Tok ty2 lexeme2 loc2 :: l2 ->
      ty1 <> "newline"%string ->
      (loc_offset loc1 + str_len lexeme1 <= loc_offset loc2
       <= loc_offset loc1 + str_len lexeme1 + 1)%Z).
Proof.
  intros Hp Hw H. unfold tokenize in H. apply tokenize_from_trace in H.
  exact (rounds_cover filename named_tokens isspace re_match Hp Hw
                      (init code) tokens H (Z.le_refl 0)).
Qed.

Lemma lexemes_cover_code_witness :
  exists tokens st_end,
    tokenize "f"%string [("if", "IF")]%string (fun c => Ascii.eqb c " "%char)
             (fun _ _ => None) 10 "if #c"%string = Done (tokens, st_end) /\
    In (Tok "comment" "#c" (mkLoc "f" 0 3 3)) tokens /\
    String.prefix "#c" (str_drop 3 ("if #c" ++ String newline EmptyString))
    = true.
Proof.
  eexists _, _. split; [reflexivity|].
  split; [right; right; left; reflexivity|].
  refine (proj2 (proj1 (lexemes_cover_code
                          "f"%string [("if", "IF")]%string
                          (fun c => Ascii.eqb c " "%char) (fun _ _ => None)
                          10 "if #c"%string _ _ _ _ eq_refl)
                       "comment"%string "#c"%string (mkLoc "f" 0 3 3) _) _).
  - intros r s w _ H. discriminate H.
  - intros s w c H. discriminate H.
  - right. right. left. reflexivity.
  - discriminate.
Defined.

Section LineColumn.
Variable filename : string.
Variable named_tokens : list (string * string).
Variable isspace : ascii -> bool.
Variable re_match : regex -> string -> option string.

Hypothesis keys_no_newline :
  forall k v, In (k, v) named_tokens -> no_newline k.
Hypothesis re_prefix :
  forall r s w, r <> Imagnumber -> re_match r s = Some w ->
                String.prefix w s = true.
Hypothesis re_no_newline :
  forall r s w, r <> Imagnumber -> re_match r s = Some w -> no_newline w.

(** The line and the column of a state are those of its offset. *)
Definition located (st : state) : Prop :=
  (0 <= _code_offset st <= str_len (_code st))%Z /\
  (_linenum st, _column st)
  = line_col (str_take (Z.to_nat (_code_offset st)) (_code st)) 0 0.

Lemma located_plain (st st1 : state) (n : nat) :
  located st ->
  no_newline (str_take n (_remaining_code st)) ->
  n <= String.length (_remaining_code st) ->
  _code st1 = _code st -> _linenum st1 = _linenum st ->
  _column st1 = (_column st + Z.of_nat n)%Z ->
  _code_offset st1 = (_code_offset st + Z.of_nat n)%Z ->
  located st1.
Proof.
  intros [Hr Hlc] Hnn Hn Hc Hl Hcol Hoff.
  rewrite remaining_code_drop in Hnn, Hn by lia.
  rewrite str_drop_length in Hn. unfold str_len in Hr.
  unfold located. rewrite Hc, Hl, Hcol, Hoff. unfold str_len. split; [lia|].
  replace (Z.to_nat (_code_offset st + Z.of_nat n))
    with (Z.to_nat (_code_offset st) + n) by lia.
  rewrite str_take_add, line_col_app, <- Hlc. simpl fst. simpl snd.
  rewrite (line_col_plain _ _ _ Hnn). unfold str_len.
  rewrite str_take_length_le by (rewrite str_drop_length; lia).
  reflexivity.
Qed.

Lemma located_line (st st1 : state) (n : nat) (rest : string) :
  located st ->
  no_newline (str_take n (_remaining_code st)) ->
  str_drop n (_remaining_code st) = String newline rest ->
  _code st1 = _code st -> _linenum st1 = (_linenum st + 1)%Z ->
  _column st1 = 0%Z ->
  _code_offset st1 = (_code_offset st + Z.of_nat n + 1)%Z ->
  located st1.
Proof.
  intros [Hr Hlc] Hnn Hd Hc Hl Hcol Hoff.
  rewrite remaining_code_drop in Hnn, Hd by lia.
  assert (Hlen : n < String.length (_code st) - Z.to_nat (_code_offset st)).
  { pose proof (str_drop_length n (str_drop (Z.to_nat (_code_offset st)) (_code st)))
      as Hdl.
    rewrite Hd, str_drop_length in Hdl. simpl in Hdl. lia. }
  unfold str_len in Hr.
  unfold located. rewrite Hc, Hl, Hcol, Hoff. unfold str_len. split; [lia|].
  replace (Z.to_nat (_code_offset st + Z.of_nat n + 1))
    with (Z.to_nat (_code_offset st) + (n + 1)) by lia.
  rewrite str_take_add, line_col_app, <- Hlc. simpl fst. simpl snd.
  rewrite str_take_add, line_col_app, (line_col_plain _ _ _ Hnn).
  rewrite Hd. simpl. reflexivity.
Qed.

Lemma no_newline_char (c : ascii) (rest : string) :
  c <> newline -> no_newline (str_take 1 (String c rest)).
Proof. intros Hc [H|[]]. congruence. Qed.

Lemma round_located (st st' : state) (token : Token) :
  located st ->
  round filename named_tokens isspace re_match st token st' ->
  located (_to_next_char st').
Proof.
  intros Hloc H.
  destruct H as [matching identifier Hin Hp
                |c rest Hr Hc Hs
                |rest idx Hr Hi
                |rest Hr
                |r ty lexeme c rest Hk Hm Hr Hc
                |w c rest Hf Hi Hw Hl Hr Hc
                |c rest Hf Hi Hr Hc Hh Hs].
  - (* keyword *)
    destruct (prefix_take _ _ Hp) as [Ht Hle].
    apply (located_plain st _ (String.length matching) Hloc);
      simpl; unfold str_len; try reflexivity; try lia.
    rewrite Ht. eapply keys_no_newline; eauto.
  - (* whitespace *)
    apply (located_plain st _ 1 Hloc); simpl; try reflexivity; try lia.
    + rewrite Hr. apply (no_newline_char c rest). assumption.
    + rewrite Hr. simpl. lia.
  - (* comment *)
    destruct (str_index_drop _ _ _ Hi) as (rest' & Hd).
    apply (located_line st _ idx rest' Hloc); simpl; try reflexivity; try lia.
    + apply str_take_chars. assumption.
    + exact Hd.
  - (* newline *)
    apply (located_line st _ 0 rest Hloc); simpl; try reflexivity; try lia.
    + intros [].
    + exact Hr.
  - (* number *)
    assert (Hri : r <> Imagnumber)
      by (destruct Hk as [[-> _]|(-> & _)]; discriminate).
    destruct (prefix_take _ _ (re_prefix _ _ _ Hri Hm)) as [Ht Hle].
    apply (located_plain st _ (String.length lexeme) Hloc);
      simpl; unfold str_len; try reflexivity; try lia.
    rewrite Ht. eapply re_no_newline; eauto.
  - (* word *)
    assert (Hri : Word <> Imagnumber) by discriminate.
    destruct (prefix_take _ _ (re_prefix _ _ _ Hri Hw)) as [Ht Hle].
    pose proof (strip_length_le isspace w) as Hsl.
    apply (located_plain st _ (String.length (strip isspace w)) Hloc);
      simpl; unfold str_len; try reflexivity; try lia.
    rewrite <- (str_take_take _ (String.length w)) by exact Hsl.
    rewrite Ht. intros Hin. apply str_take_In in Hin.
    exact (re_no_newline _ _ _ Hri Hw Hin).
  - (* char *)
    apply (located_plain st _ 1 Hloc); simpl; try reflexivity; try lia.
    + rewrite Hr. apply (no_newline_char c rest). assumption.
    + rewrite Hr. simpl. lia.
Qed.

Lemma rounds_located (st : state) (tokens : list Token) :
  rounds filename named_tokens isspace re_match st tokens ->
  located st ->
  forall ty lexeme loc,
    In (Tok ty lexeme loc) tokens ->
    exists st1,
      located st1 /\ _code st1 = _code st /\
      (_code_offset st1 < str_len (_code st1))%Z /\
      loc = loc_of filename st1.
Proof.
  induction 1 as [st Hend|st st' token tokens Hlt Hr Hrest IH]; intros Hloc.
  - intros ty lexeme loc [Hin|[]]. discriminate Hin.
  - intros ty lexeme loc [Hin|Hin].
    + subst token.
      destruct (round_token _ _ _ _ _ _ _ Hr) as (ty0 & lex0 & E).
      inversion E; subst. exists st. auto.
    + destruct (IH (round_located _ _ _ Hloc Hr) ty lexeme loc Hin)
        as (st1 & H1 & H2 & H3 & H4).
      exists st1. split; [exact H1|]. split; [|auto].
      rewrite H2. exact (proj1 (round_forward _ _ _ _ _ _ _ Hr)).
Qed.

End LineColumn.

(** X26. The location of a token is the place of its first character.  With
    keywords that hold no newline, and [re.match] returning a text
    without newline that the remaining code starts with: every token
    carries the name of the file, an offset inside the code, and the
    line and the column of that offset, the line being the number of
    newlines before the offset and the column the number of characters
    since the last of them (both from 0). *)
Theorem token_locations (filename : string)
        (named_tokens : list (string * string)) (isspace : ascii -> bool)
        (re_match : regex -> string -> option string)
        (fuel : nat) (code : string) (tokens : list Token) (st_end : state) :
  (forall k v, In (k, v) named_tokens -> no_newline k) ->
  (forall r s w, r <> Imagnumber -> re_match r s = Some w ->
                 String.prefix w s = true) ->
  (forall r s w, r <> Imagnumber -> re_match r s = Some w -> no_newline w) ->
  tokenize filename named_tokens isspace re_match fuel code
  = Done (tokens, st_end) ->
  forall ty lexeme loc,
    In (Tok ty lexeme loc) tokens ->
    loc_filename loc = filename /\
    (0 <= loc_offset loc < str_len (code ++ String newline EmptyString))%Z /\
    (loc_linenum loc, loc_column loc)
    = line_col (str_take (Z.to_nat (loc_offset loc))
                         (code ++ String newline EmptyString)) 0 0.
Proof.
  intros Hk Hp Hn H ty lexeme loc Hin. unfold tokenize in H.
  apply tokenize_from_trace in H.
  destruct (rounds_located filename named_tokens isspace re_match Hk Hp Hn
                           (init code) tokens H) with (ty := ty) (lexeme := lexeme)
                                                      (loc := loc)
    as (st1 & [Hr Hlc] & Hc & Hlt & ->).
  - split; [simpl; unfold str_len; lia | reflexivity].
  - exact Hin.
  - simpl in Hc. rewrite Hc in *. simpl. split; [reflexivity|].
    split; [lia | exact Hlc].
Qed.

Lemma token_locations_witness :
  exists tokens st_end,
    tokenize "f"%string [("if", "IF")]%string (fun c => Ascii.eqb c " "%char)
             (fun _ _ => None) 10
             ("#c" ++ String newline "if")%string = Done (tokens, st_end) /\
    In (Tok "IF" "if" (mkLoc "f" 1 0 3)) tokens /\
    (1, 0)%Z = line_col (str_take 3 ("#c" ++ String newline "if"
                                          ++ String newline EmptyString)%string)
                        0 0.
Proof.
  eexists _, _. split; [reflexivity|].
  split; [right; left; reflexivity|].
  refine (proj2 (proj2 (token_locations
                          "f"%string [("if", "IF")]%string
                          (fun c => Ascii.eqb c " "%char) (fun _ _ => None)
                          10 ("#c" ++ String newline "if")%string _ _ _ _ _
                          eq_refl
                          "IF"%string "if"%string (mkLoc "f" 1 0 3) _))).
  - intros k v [H|[]]. inversion H; subst. intros Hin. simpl in Hin.
    repeat (destruct Hin as [Hin|Hin]; [discriminate Hin|]). exact Hin.
  - intros r s w _ H. discriminate H.
  - intros r s w _ H. discriminate H.
  - right. left. reflexivity.
Defined.
